(** * ACFLS synthesis pipeline: netlist IR, Elaboration and Bit-Blasting

    A shallow embedding of [netlist.py], [stage_bitblast.py],
    [stage_elaboration.py] and of the truth tables written by
    [stage_export.py], followed by the properties of the two passes.

    Conventions of the embedding.
    - Python [int] is [Z]; loop counters and list positions are [nat].
    - Python [str] is [string]; only ASCII text is covered (Python's [\d],
      [\s] and [int()] also accept non-ASCII digits and spaces).
    - An exception is a value of [exn]; code that can raise lives in an
      error monad and a pass threads its mutable state explicitly.
    - [Module.save_json] and [print] only write files and the console; they
      are not modelled. *)

From Stdlib Require Import ZArith String Ascii List Bool Lia.
From Stdlib Require Import DecimalString DecimalNat DecimalN.
From stdpp Require Import base option list strings gmap.

Local Open Scope string_scope.
Local Open Scope Z_scope.
Local Open Scope list_scope.

#[local] Set Warnings "-register-all".

(** ** Exceptions and results *)

Inductive exn :=
| ValueError
| IndexError
| AttributeError
| NotImplementedError (msg : string).

Inductive result (A : Type) :=
| Ok (a : A)
| Raise (e : exn).
Arguments Ok {A} a.
Arguments Raise {A} e.

(** ** The fragments of Python's built-ins that the passes use *)

Module Py.

(** [str.isspace] on one ASCII character: TAB, LF, VT, FF, CR, the four
    separators 0x1c-0x1f and the blank. *)
Definition is_space (c : ascii) : bool :=
  let n := nat_of_ascii c in
  ((9 <=? n) && (n <=? 13) || (28 <=? n) && (n <=? 32))%nat.

Definition is_digit (c : ascii) : bool :=
  let n := nat_of_ascii c in ((48 <=? n) && (n <=? 57))%nat.

Definition ascii_eqb (a b : ascii) : bool := Ascii.eqb a b.

Fixpoint lstrip (s : string) : string :=
  match s with
  | String c r => if is_space c then lstrip r else s
  | EmptyString => EmptyString
  end.

(** [rstrip] keeps a character when it is not a space or when something
    that is kept follows it. *)
Fixpoint rstrip (s : string) : string :=
  match s with
  | String c r =>
      match rstrip r with
      | EmptyString => if is_space c then EmptyString else String c EmptyString
      | r' => String c r'
      end
  | EmptyString => EmptyString
  end.

Definition strip (s : string) : string := rstrip (lstrip s).

(** [s.replace(old, new)] for one-character [old] and [new]. *)
Fixpoint replace_char (old new : ascii) (s : string) : string :=
  match s with
  | String c r =>
      String (if ascii_eqb c old then new else c) (replace_char old new r)
  | EmptyString => EmptyString
  end.

(** [s.replace(old, "")] for a one-character [old]. *)
Fixpoint remove_char (old : ascii) (s : string) : string :=
  match s with
  | String c r =>
      if ascii_eqb c old then remove_char old r
      else String c (remove_char old r)
  | EmptyString => EmptyString
  end.

Fixpoint contains_char (x : ascii) (s : string) : bool :=
  match s with
  | String c r => ascii_eqb c x || contains_char x r
  | EmptyString => false
  end.

(** The text before the first [sep], and the text after it when [sep]
    occurs: [s.split(sep, 1)]. *)
Fixpoint split_first (sep : ascii) (s : string) : string * option string :=
  match s with
  | String c r =>
      if ascii_eqb c sep then (EmptyString, Some r)
      else let '(h, t) := split_first sep r in (String c h, t)
  | EmptyString => (EmptyString, None)
  end.

(** [s.zfill(w)] on a string without sign. *)
Definition zfill (w : Z) (s : string) : string :=
  string_of_list_ascii
    (repeat "0"%char (Z.to_nat w - String.length s)%nat) +:+ s.

Definition lower (c : ascii) : ascii :=
  let n := nat_of_ascii c in
  if ((65 <=? n) && (n <=? 90))%nat then ascii_of_nat (n + 32) else c.

(** [l[:w]]: a negative bound counts from the end. *)
Definition slice_to {A} (w : Z) (l : list A) : list A :=
  if w <? 0 then take (length l - Z.to_nat (- w)) l else take (Z.to_nat w) l.

(** [range(w)]: empty for [w <= 0]. *)
Definition range (w : Z) : list nat := seq 0 (Z.to_nat w).

(** [str(n)] for a non-negative and for an arbitrary integer. *)
Definition str_N (n : N) : string := NilEmpty.string_of_uint (N.to_uint n).
Definition str_nat (n : nat) : string := str_N (N.of_nat n).
Definition str_Z (z : Z) : string :=
  if z <? 0 then "-" +:+ str_N (Z.to_N (- z)) else str_N (Z.to_N z).

(** The value of a digit as [int()] reads it; 37 marks a non-digit. *)
Definition digit_value (c : ascii) : nat :=
  let n := nat_of_ascii c in
  (if (48 <=? n) && (n <=? 57) then n - 48
   else if (97 <=? n) && (n <=? 122) then n - 87
   else if (65 <=? n) && (n <=? 90) then n - 55
   else 37)%nat.

(** The digit scan of [int()]: digits below [base] and single underscores
    between them; returns the value, the number of digits and the rest. *)
Fixpoint scan_digits (base : nat) (prev_us : bool) (acc : N) (nd : nat)
    (s : string) : option (N * nat * string) :=
  match s with
  | String c r =>
      if ascii_eqb c "_"%char then
        if prev_us then None else scan_digits base true acc nd r
      else if (digit_value c <? base)%nat then
        scan_digits base false
          (acc * N.of_nat base + N.of_nat (digit_value c))%N (S nd) r
      else if prev_us then None else Some (acc, nd, s)
  | EmptyString => if prev_us then None else Some (acc, nd, EmptyString)
  end.

Definition is_one_of (c : ascii) (s : string) : bool := contains_char c s.

(** [int(s, base)] for [base] 0, 2, 8, 10 or 16; [None] is [ValueError]. *)
Definition int_of (base : nat) (s : string) : option Z :=
  let s := lstrip s in
  let '(neg, s) :=
    match s with
    | String "+"%char r => (false, r)
    | String "-"%char r => (true, r)
    | _ => (false, s)
    end in
  let '(base', must_be_zero) :=
    match base with
    | O =>
        match s with
        | String "0"%char (String c _) =>
            if is_one_of c "xX" then (16%nat, false)
            else if is_one_of c "oO" then (8%nat, false)
            else if is_one_of c "bB" then (2%nat, false)
            else (10%nat, true)
        | String "0"%char EmptyString => (10%nat, true)
        | _ => (10%nat, false)
        end
    | _ => (base, false)
    end in
  let s :=
    match s with
    | String "0"%char (String c r) =>
        if (Nat.eqb base' 16 && is_one_of c "xX")
           || (Nat.eqb base' 8 && is_one_of c "oO")
           || (Nat.eqb base' 2 && is_one_of c "bB")
        then match r with String "_"%char r' => r' | _ => r end
        else s
    | _ => s
    end in
  match s with
  | String "_"%char _ => None
  | _ =>
      match scan_digits base' false 0%N 0%nat s with
      | Some (v, nd, rest) =>
          if must_be_zero && negb (N.eqb v 0) then None
          else if Nat.eqb nd 0 then None
          else match lstrip rest with
               | EmptyString =>
                   Some (if neg then - Z.of_N v else Z.of_N v)
               | _ => None
               end
      | None => None
      end
  end.

(** Greedy prefix of the characters satisfying [p], and the rest. *)
Fixpoint span (p : ascii -> bool) (s : string) : string * string :=
  match s with
  | String c r =>
      if p c then let '(h, t) := span p r in (String c h, t)
      else (EmptyString, s)
  | EmptyString => (EmptyString, EmptyString)
  end.

(** [sep.join(l)]. *)
Definition join (sep : string) (l : list string) : string :=
  String.concat sep l.

(** [sorted(set(l))] on strings: the elements of [l] without repetition,
    in increasing order of their code points. It is computed here by
    insertion into an increasing list. *)
Fixpoint insert_sorted (x : string) (l : list string) : list string :=
  match l with
  | y :: r =>
      match String.compare x y with
      | Lt => x :: y :: r
      | Eq => y :: r
      | Gt => y :: insert_sorted x r
      end
  | [] => [x]
  end.

Definition sorted_set (l : list string) : list string :=
  fold_right insert_sorted [] l.

End Py.

(** ** A state-and-exception monad for the passes *)

Definition SE (S A : Type) : Type := S -> result (A * S).

Definition ret {S A} (a : A) : SE S A := fun st => Ok (a, st).

Definition bind {S A B} (c : SE S A) (f : A -> SE S B) : SE S B :=
  fun st =>
    match c st with
    | Ok (a, st') => f a st'
    | Raise e => Raise e
    end.

Definition raise {S A} (e : exn) : SE S A := fun _ => Raise e.

Notation "'let*' x ':=' c 'in' k" := (bind c (fun x => k))
  (at level 10, x pattern, c at level 100, k at level 200).

Definition lift {S A} (r : result A) : SE S A :=
  fun st => match r with Ok a => Ok (a, st) | Raise e => Raise e end.

(** [l[i]]. *)
Definition index {S A} (l : list A) (i : nat) : SE S A :=
  match l !! i with
  | Some x => ret x
  | None => raise IndexError
  end.

(** A [for] loop that carries the variables it reassigns. *)
Fixpoint foldM {S A B} (body : B -> A -> SE S B) (l : list A) (b : B)
  : SE S B :=
  match l with
  | x :: l' => let* b' := body b x in foldM body l' b'
  | [] => ret b
  end.

Definition forM {S A} (l : list A) (body : A -> SE S unit) : SE S unit :=
  foldM (fun _ x => body x) l tt.

(** Tuple unpacking of a list: [a, b = l] and its wider forms. *)
Definition unpack2 {S A} (l : list A) : SE S (A * A) :=
  match l with
  | [a; b] => ret (a, b)
  | _ => raise ValueError
  end.

Definition unpack3 {S A} (l : list A) : SE S (A * A * A) :=
  match l with
  | [a; b; c] => ret (a, b, c)
  | _ => raise ValueError
  end.

Definition unpack6 {S A} (l : list A) : SE S (A * A * A * A * A * A) :=
  match l with
  | [a; b; c; d; e; f] => ret (a, b, c, d, e, f)
  | _ => raise ValueError
  end.

Definition in_list (s : string) (l : list string) : bool :=
  existsb (String.eqb s) l.

(** ** netlist.py: the intermediate representation *)

(** A [Signal] object. Its [id] attribute holds the object's address and is
    read by no pass, so it is left out; Bit-Blasting never assigns to an
    attribute of a Signal, so there a Signal is a plain value. *)
Record Signal := mkSignal {
  name : string;
  width : Z;
  is_input : bool;
  is_output : bool;
  is_reg : bool
}.

Record Gate := mkGate {
  op_type : string;
  inputs : list Signal;
  output : Signal
}.

(** [Module.signals] is a dictionary that is only ever written by
    [add_signal], under the key [signal.name]: it is represented by the
    list of its values in insertion order and searched by name. *)
Record Mod := mkMod {
  mod_name : string;
  signals : list Signal;
  gates : list Gate
}.

Module netlist.

Fixpoint lookup (n : string) (l : list Signal) : option Signal :=
  match l with
  | s :: r => if String.eqb (name s) n then Some s else lookup n r
  | [] => None
  end.

(** [d[s.name] = s]: an existing key keeps its place, a new one goes last. *)
Fixpoint store (s : Signal) (l : list Signal) : list Signal :=
  match l with
  | x :: r => if String.eqb (name x) (name s) then s :: r else x :: store s r
  | [] => [s]
  end.

Definition add_signal (s : Signal) (m : Mod) : Mod :=
  mkMod (mod_name m) (store s (signals m)) (gates m).

Definition get_signal (n : string) (m : Mod) : option Signal :=
  lookup n (signals m).

Definition add_gate (g : Gate) (m : Mod) : Mod :=
  mkMod (mod_name m) (signals m) (gates m ++ [g]).

(** [Gate.to_dict]: the view of a gate that is serialised and exported. *)
Definition gate_to_dict (g : Gate) : string * list string * string :=
  (op_type g, map name (inputs g), name (output g)).

End netlist.

(** ** stage_bitblast.py *)

Module stage_bitblast.

Definition bit_name (base : string) (i : nat) : string :=
  base +:+ "_" +:+ Py.str_nat i.

Definition tmp_name (prefix : string) (idx : nat) : string :=
  "tmp_" +:+ prefix +:+ "_" +:+ Py.str_nat idx.

(** *** Constant parsing *)

Definition is_const_digit (c : ascii) : bool :=
  Py.is_one_of c "0123456789abcdefABCDEFxXzZ_".

(** [_const_re.match]: the three groups, when the text has the shape
    digits, quote, base letter, digits (blanks allowed around each). *)
Definition const_re_match (s : string) : option (string * ascii * string) :=
  let '(w, s) := Py.span Py.is_digit (Py.lstrip s) in
  match w, Py.lstrip s with
  | String _ _, String "'"%char (String b s) =>
      if Py.is_one_of b "bBdDhHoO" then
        let '(d, s) := Py.span is_const_digit (Py.lstrip s) in
        match d, Py.lstrip s with
        | String _ _, EmptyString => Some (w, b, d)
        | _, _ => None
        end
      else None
  | _, _ => None
  end.

Definition bits_of_int (v w : Z) : list Z :=
  map (fun i => Z.land (Z.shiftr v (Z.of_nat i)) 1) (Py.range w).

Definition int_or_raise (base : nat) (s : string) : result Z :=
  match Py.int_of base s with
  | Some v => Ok v
  | None => Raise ValueError
  end.

Definition parse_verilog_const (value : string) (width_hint : Z)
  : result (list Z) :=
  let value := Py.strip value in
  match const_re_match value with
  | Some (g1, g2, g3) =>
      let w := default 0 (Py.int_of 10 g1) in
      let base := Py.lower g2 in
      let digits := Py.remove_char "_"%char g3 in
      let digits_clean :=
        Py.replace_char "x"%char "0"%char (Py.replace_char "X"%char "0"%char
          (Py.replace_char "z"%char "0"%char
             (Py.replace_char "Z"%char "0"%char digits))) in
      if Py.ascii_eqb base "b"%char then
        let bits_str := Py.zfill w digits_clean in
        let bits :=
          map (fun c => if Py.ascii_eqb c "1"%char then 1 else 0)
              (rev (list_ascii_of_string bits_str)) in
        Ok (Py.slice_to w bits)
      else
        let v :=
          if Py.ascii_eqb base "d"%char then int_or_raise 10 digits_clean
          else if Py.ascii_eqb base "h"%char then int_or_raise 16 digits_clean
          else if Py.ascii_eqb base "o"%char then int_or_raise 8 digits_clean
          else Ok 0 in
        match v with
        | Ok v => Ok (bits_of_int v w)
        | Raise e => Raise e
        end
  | None =>
      let v := default 0 (Py.int_of 0 value) in
      let w := Z.max 1 width_hint in
      Ok (bits_of_int v w)
  end.

(** *** The state of one run of the pass

    [run] mutates the module's signal dictionary and three variables that
    its nested functions capture: [bits_map], [tmp_idx] and [new_gates]. *)
Record pass_state := mkState {
  sigs : list Signal;
  bits_map : gmap string (list Signal);
  tmp_idx : nat;
  new_gates : list Gate
}.

Definition M (A : Type) : Type := SE pass_state A.

Definition mod_get_signal (n : string) : M (option Signal) :=
  fun st => Ok (netlist.lookup n (sigs st), st).

Definition mod_add_signal (s : Signal) : M unit :=
  fun st =>
    Ok (tt, mkState (netlist.store s (sigs st)) (bits_map st) (tmp_idx st)
                    (new_gates st)).

(** [list(mod.signals.values())]. *)
Definition mod_signals_values : M (list Signal) :=
  fun st => Ok (sigs st, st).

Definition bits_map_get (n : string) : M (option (list Signal)) :=
  fun st => Ok (bits_map st !! n, st).

Definition bits_map_set (n : string) (l : list Signal) : M unit :=
  fun st =>
    Ok (tt, mkState (sigs st) (<[n := l]> (bits_map st)) (tmp_idx st)
                    (new_gates st)).

Definition next_tmp_idx : M nat :=
  fun st =>
    Ok (tmp_idx st,
        mkState (sigs st) (bits_map st) (S (tmp_idx st)) (new_gates st)).

Definition emit (g : Gate) : M unit :=
  fun st =>
    Ok (tt, mkState (sigs st) (bits_map st) (tmp_idx st) (new_gates st ++ [g])).

Definition get_bits (sig : Signal) : M (list Signal) :=
  if width sig =? 1 then
    let* _ := bits_map_set (name sig) [sig] in ret [sig]
  else
    let* cached := bits_map_get (name sig) in
    match cached with
    | Some l => ret l
    | None =>
        let* blist := foldM (fun blist i =>
                   let bn := bit_name (name sig) i in
                   let* found := mod_get_signal bn in
                   let* b := match found with
                        | Some b => ret b
                        | None =>
                            let b := mkSignal bn 1 (is_input sig)
                                       (is_output sig) (is_reg sig) in
                            let* _ := mod_add_signal b in ret b
                        end in
                   ret (blist ++ [b]))
                 (Py.range (width sig)) [] in
        let* _ := bits_map_set (name sig) blist in ret blist
    end.

Definition new_tmp (prefix : string) : M Signal :=
  let* idx := next_tmp_idx in
  let name := tmp_name prefix idx in
  let* found := mod_get_signal name in
  match found with
  | Some s => ret s
  | None =>
      let s := mkSignal name 1 false false false in
      let* _ := mod_add_signal s in ret s
  end.

Section closures.

(** The two constants that [run] looks up or creates before it defines its
    nested functions. *)
Variables const0 const1 : Signal.

Definition const_bits_from_signal (sig : Signal) (width_hint : Z)
  : M (list Signal) :=
  if negb (String.prefix "CONST_" (name sig)) then get_bits sig
  else
    match snd (Py.split_first "_"%char (name sig)) with
    | None => raise IndexError
    | Some raw =>
        let* bits := lift (parse_verilog_const
                        (fst (Py.split_first "_"%char raw)) width_hint) in
        ret (map (fun b => if b =? 1 then const1 else const0) bits)
    end.

Definition get_operand_bits (sig : Signal) (width : Z) : M (list Signal) :=
  let* bits := (if String.prefix "CONST_" (name sig)
           then const_bits_from_signal sig width
           else get_bits sig) in
  let bits :=
    if Z.of_nat (length bits) <? width
    then bits ++ repeat const0 (Z.to_nat (width - Z.of_nat (length bits)))
    else bits in
  ret (Py.slice_to width bits).

Definition XOR2 (a b out : Signal) : M unit := emit (mkGate "XOR" [a; b] out).
Definition AND2 (a b out : Signal) : M unit := emit (mkGate "AND" [a; b] out).
Definition OR2 (a b out : Signal) : M unit := emit (mkGate "OR" [a; b] out).
Definition NOT1 (a out : Signal) : M unit := emit (mkGate "NOT" [a] out).
Definition MUX2 (sel d1 d0 out : Signal) : M unit :=
  emit (mkGate "MUX" [sel; d1; d0] out).
Definition DFF (d clk q : Signal) : M unit := emit (mkGate "DFF" [d; clk] q).

(** The [AND]/[OR]/[XOR] branch of the gate loop. *)
Definition bitwise_step (constructor : Signal -> Signal -> Signal -> M unit)
    (a_bits b_bits out_bits : list Signal) (i : nat) : M unit :=
  let* x := index a_bits i in
  let* y := index b_bits i in
  let* o := index out_bits i in
  constructor x y o.

Definition blast_bitwise (op : string) (g : Gate) : M unit :=
  let* (a, b) := unpack2 (inputs g) in
  let out := output g in
  let w := width out in
  let* a_bits := get_operand_bits a w in
  let* b_bits := get_operand_bits b w in
  let* out_bits := get_bits out in
  let constructor :=
    if String.eqb op "XOR" then XOR2
    else if String.eqb op "AND" then AND2 else OR2 in
  forM (Py.range w) (bitwise_step constructor a_bits b_bits out_bits).

(** The XNOR column of the [EQ] branch: one pass of its first loop, and
    the loop. *)
Definition eq_step (a_bits b_bits : list Signal) (eq_bits : list Signal)
    (i : nat) : M (list Signal) :=
  let* t_xor := new_tmp "xor_eq" in
  let* t_xnor := new_tmp "xnor_eq" in
  let* x := index a_bits i in
  let* y := index b_bits i in
  let* _ := XOR2 x y t_xor in
  let* _ := NOT1 t_xor t_xnor in
  ret (eq_bits ++ [t_xnor]).

Definition eq_column (a_bits b_bits : list Signal) (w : Z) : M (list Signal) :=
  foldM (eq_step a_bits b_bits) (Py.range w) [].

(** The AND reduction of the [EQ] branch. *)
Definition reduce_step (eq_bits : list Signal) (curr : Signal) (i : nat)
  : M Signal :=
  let* next_tmp := new_tmp "and_red" in
  let* y := index eq_bits i in
  let* _ := AND2 curr y next_tmp in
  ret next_tmp.

Definition eq_reduce (eq_bits : list Signal) (out : Signal) : M unit :=
  match eq_bits with
  | [] =>
      let* ob := get_bits out in
      let* o := index ob 0%nat in
      AND2 const1 const1 o
  | [e] =>
      let* ob := get_bits out in
      let* o := index ob 0%nat in
      AND2 e const1 o
  | e :: _ =>
      let* curr :=
        foldM (reduce_step eq_bits) (seq 1 (length eq_bits - 1)) e in
      let* ob := get_bits out in
      let* o := index ob 0%nat in
      AND2 curr const1 o
  end.

Definition blast_eq (g : Gate) : M unit :=
  let* (a, b) := unpack2 (inputs g) in
  let out := output g in
  let w := Z.max (width a) (width b) in
  let* a_bits := get_operand_bits a w in
  let* b_bits := get_operand_bits b w in
  let* eq_bits := eq_column a_bits b_bits w in
  eq_reduce eq_bits out.

Definition mux_step (sel_bit : Signal) (t_bits f_bits out_bits : list Signal)
    (i : nat) : M unit :=
  let* t := index t_bits i in
  let* f := index f_bits i in
  let* o := index out_bits i in
  MUX2 sel_bit t f o.

Definition blast_mux (g : Gate) : M unit :=
  let* (sel, t_in, f_in) := unpack3 (inputs g) in
  let out := output g in
  let w := width out in
  let* sel_bits := get_bits sel in
  let* sel_bit := index sel_bits 0%nat in
  let* t_bits := get_operand_bits t_in w in
  let* f_bits := get_operand_bits f_in w in
  let* out_bits := get_bits out in
  forM (Py.range w) (mux_step sel_bit t_bits f_bits out_bits).

(** The ripple-carry loop of the [ADD] branch; the carry is the variable
    that the loop reassigns. *)
Definition add_step (a_bits b_bits out_bits : list Signal) (carry : Signal)
    (i : nat) : M Signal :=
  let* t1 := new_tmp "xor" in
  let* x := index a_bits i in
  let* y := index b_bits i in
  let* _ := XOR2 x y t1 in
  let* sbit := index out_bits i in
  let* _ := XOR2 t1 carry sbit in
  let* t_ab := new_tmp "and" in
  let* t_ac := new_tmp "and" in
  let* t_bc := new_tmp "and" in
  let* _ := AND2 x y t_ab in
  let* _ := AND2 x carry t_ac in
  let* _ := AND2 y carry t_bc in
  let* t_or1 := new_tmp "or" in
  let* _ := OR2 t_ab t_ac t_or1 in
  let* cnext := new_tmp "or" in
  let* _ := OR2 t_or1 t_bc cnext in
  ret cnext.

Definition add_loop (a_bits b_bits out_bits : list Signal) (w : Z) : M Signal :=
  foldM (add_step a_bits b_bits out_bits) (Py.range w) const0.

Definition blast_add (g : Gate) : M unit :=
  let* (a, b) := unpack2 (inputs g) in
  let out := output g in
  let w := width out in
  let* a_bits := get_operand_bits a w in
  let* b_bits := get_operand_bits b w in
  let* out_bits := get_bits out in
  let* _ := add_loop a_bits b_bits out_bits w in ret tt.

Definition dff_step (en_b rst_b clk_b : Signal)
    (d_en_bits d_rst_bits q_old_bits q_bits : list Signal) (i : nat)
  : M unit :=
  let* mux_en := new_tmp "mux" in
  let* d := index d_en_bits i in
  let* qo := index q_old_bits i in
  let* _ := MUX2 en_b d qo mux_en in
  let* mux_rst := new_tmp "mux" in
  let* r := index d_rst_bits i in
  let* _ := MUX2 rst_b r mux_en mux_rst in
  let* q := index q_bits i in
  DFF mux_rst clk_b q.

Definition dff_loop (en_b rst_b clk_b : Signal)
    (d_en_bits d_rst_bits q_old_bits q_bits : list Signal) (w : Z) : M unit :=
  forM (Py.range w)
    (dff_step en_b rst_b clk_b d_en_bits d_rst_bits q_old_bits q_bits).

Definition blast_dff_en_rst (g : Gate) : M unit :=
  let* (d_en, q_old, en, d_rst, rst, clk) := unpack6 (inputs g) in
  let q := output g in
  let w := width q in
  let* d_en_bits := get_operand_bits d_en w in
  let* d_rst_bits := get_operand_bits d_rst w in
  let* q_old_bits := get_operand_bits q_old w in
  let* q_bits := get_bits q in
  let* en_bits := get_bits en in
  let* en_b := index en_bits 0%nat in
  let* rst_bits := get_bits rst in
  let* rst_b := index rst_bits 0%nat in
  let* clk_bits := get_bits clk in
  let* clk_b := index clk_bits 0%nat in
  dff_loop en_b rst_b clk_b d_en_bits d_rst_bits q_old_bits q_bits w.

Definition blast_not_buf (op : string) (g : Gate) : M unit :=
  let* inp := index (inputs g) 0%nat in
  let out := output g in
  if String.eqb op "NOT" then
    let* ib := get_bits inp in
    let* i0 := index ib 0%nat in
    let* ob := get_bits out in
    let* o0 := index ob 0%nat in
    NOT1 i0 o0
  else
    let* ib := get_bits inp in
    let* i0 := index ib 0%nat in
    let* ob := get_bits out in
    let* o0 := index ob 0%nat in
    AND2 i0 const1 o0.

(** The body of [for g in mod.gates]. *)
Definition blast_gate (g : Gate) : M unit :=
  let op := op_type g in
  if in_list op ["AND"; "OR"; "XOR"] then blast_bitwise op g
  else if String.eqb op "EQ" then blast_eq g
  else if String.eqb op "MUX" then blast_mux g
  else if String.eqb op "ADD" then blast_add g
  else if String.eqb op "DFF_EN_RST" then blast_dff_en_rst g
  else if in_list op ["NOT"; "BUF"] then blast_not_buf op g
  else raise (NotImplementedError ("Bitblast: unsupported gate type " +:+ op)).

End closures.

(** [CONST0] and [CONST1] are fetched, or created when absent. *)
Definition ensure_const (n : string) : M Signal :=
  let* found := mod_get_signal n in
  match found with
  | Some s => ret s
  | None =>
      let s := mkSignal n 1 false false false in
      let* _ := mod_add_signal s in ret s
  end.

Definition pass (m : Mod) : M unit :=
  let* const0 := ensure_const "CONST0" in
  let* const1 := ensure_const "CONST1" in
  let* all := mod_signals_values in
  let* _ := forM all (fun s => let* _ := get_bits s in ret tt) in
  forM (gates m) (blast_gate const0 const1).

(** [run] updates the module in place and returns nothing; the embedding
    returns the updated module. *)
Definition run (m : Mod) : result Mod :=
  match pass m (mkState (signals m) ∅ 0%nat []) with
  | Ok (_, st) => Ok (mkMod (mod_name m) (sigs st) (new_gates st))
  | Raise e => Raise e
  end.

End stage_bitblast.

(** ** stage_export.py: the truth tables of the primitive cells

    The exporter writes one [.names] table per combinational gate and one
    rising-edge [.latch] per [DFF], and identifies nets by signal name. A
    valuation of the nets is a function from names to bits. *)

Module stage_export.

Definition valuation := string -> bool.

(** The function of the table written for a gate; [None] for a gate that
    has no table ([DFF], or a tag or input count that the exporter
    rejects). *)
Definition table (op : string) (ins : list bool) : option bool :=
  if String.eqb op "NOT" then
    match ins with a :: _ => Some (negb a) | _ => None end
  else if String.eqb op "BUF" then
    match ins with a :: _ => Some a | _ => None end
  else if String.eqb op "AND" then
    match ins with a :: b :: _ => Some (a && b) | _ => None end
  else if String.eqb op "OR" then
    match ins with a :: b :: _ => Some (a || b) | _ => None end
  else if String.eqb op "XOR" then
    match ins with a :: b :: _ => Some (xorb a b) | _ => None end
  else if String.eqb op "MUX" then
    match ins with
    | [sel; t_in; f_in] => Some (sel && t_in || negb sel && f_in)
    | _ => None
    end
  else None.

Definition gate_value (env : valuation) (g : Gate) : option bool :=
  table (op_type g) (map (fun s => env (name s)) (inputs g)).

(** A valuation satisfies a gate when the gate's output net carries the
    value of its table. *)
Definition holds (env : valuation) (g : Gate) : Prop :=
  match gate_value env g with
  | Some v => env (name (output g)) = v
  | None => True
  end.

Definition satisfies (env : valuation) (gs : list Gate) : Prop :=
  Forall (holds env) gs.

(** Evaluation of the tables in netlist order, each gate writing its
    output net. *)
Definition write (n : string) (v : bool) (env : valuation) : valuation :=
  fun k => if String.eqb k n then v else env k.

Fixpoint simulate (gs : list Gate) (env : valuation) : valuation :=
  match gs with
  | g :: gs' =>
      match gate_value env g with
      | Some v => simulate gs' (write (name (output g)) v env)
      | None => simulate gs' env
      end
  | [] => env
  end.

(** The [.latch] lines: at a rising clock edge every [DFF] output takes
    the value that its data input carries in the settled valuation. *)
Fixpoint latch_next (gs : list Gate) (settled : valuation) (n : string)
  : option bool :=
  match gs with
  | g :: gs' =>
      if String.eqb (op_type g) "DFF" && String.eqb (name (output g)) n
      then match inputs g with
           | [d; _] => Some (settled (name d))
           | _ => None
           end
      else latch_next gs' settled n
  | [] => None
  end.

(** Unsigned value of a bit vector, least significant bit first. *)
Fixpoint value (bits : list bool) : Z :=
  match bits with
  | b :: r => Z.b2z b + 2 * value r
  | [] => 0
  end.


(** *** The text of the BLIF file

    [run] writes its lines to the file at [out_path]; the embedding returns
    the lines, one string per call of [w], or the exception that stops the
    writing. *)

(** The first loop: the names of the 1-bit inputs and outputs, without
    the two constants. *)
Definition collect_ports (sigs : list Signal) : list string * list string :=
  fold_left
    (fun '(inputs, outputs) s =>
       if in_list (name s) ["CONST0"; "CONST1"] then (inputs, outputs)
       else if negb (width s =? 1) then (inputs, outputs)
       else (if is_input s then inputs ++ [name s] else inputs,
             if is_output s then outputs ++ [name s] else outputs))
    sigs ([], []).

(** The lines written for one gate. *)
Definition gate_lines (g : Gate) : result (list string) :=
  let op := op_type g in
  let ins := map name (inputs g) in
  let out := name (output g) in
  if String.eqb op "NOT" then
    match ins with
    | i0 :: _ => Ok [".names " +:+ i0 +:+ " " +:+ out; "0 1"]
    | _ => Raise IndexError
    end
  else if String.eqb op "BUF" then
    match ins with
    | i0 :: _ => Ok [".names " +:+ i0 +:+ " " +:+ out; "1 1"]
    | _ => Raise IndexError
    end
  else if String.eqb op "AND" then
    match ins with
    | i0 :: i1 :: _ =>
        Ok [".names " +:+ i0 +:+ " " +:+ i1 +:+ " " +:+ out; "11 1"]
    | _ => Raise IndexError
    end
  else if String.eqb op "OR" then
    match ins with
    | i0 :: i1 :: _ =>
        Ok [".names " +:+ i0 +:+ " " +:+ i1 +:+ " " +:+ out; "1- 1"; "-1 1"]
    | _ => Raise IndexError
    end
  else if String.eqb op "XOR" then
    match ins with
    | i0 :: i1 :: _ =>
        Ok [".names " +:+ i0 +:+ " " +:+ i1 +:+ " " +:+ out; "10 1"; "01 1"]
    | _ => Raise IndexError
    end
  else if String.eqb op "MUX" then
    match ins with
    | [sel; t_in; f_in] =>
        Ok [".names " +:+ sel +:+ " " +:+ t_in +:+ " " +:+ f_in +:+ " "
              +:+ out;
            "11- 1"; "0-1 1"]
    | _ => Raise ValueError
    end
  else if String.eqb op "DFF" then
    match ins with
    | [d; clk] =>
        Ok [".latch " +:+ d +:+ " " +:+ out +:+ " re " +:+ clk +:+ " 0"]
    | _ => Raise ValueError
    end
  else
    Raise (NotImplementedError
             ("Export: unsupported gate type '" +:+ op +:+ "'")).

(** The loop over the gates stops at the first gate that raises. *)
Fixpoint emit_gates (gs : list Gate) : result (list string) :=
  match gs with
  | g :: r =>
      match gate_lines g with
      | Ok ls =>
          match emit_gates r with
          | Ok rest => Ok (ls ++ rest)
          | Raise e => Raise e
          end
      | Raise e => Raise e
      end
  | [] => Ok []
  end.

Definition header (m : Mod) : list string :=
  let '(inputs, outputs) := collect_ports (signals m) in
  let inputs := Py.sorted_set inputs in
  let outputs := Py.sorted_set outputs in
  [".model " +:+ mod_name m]
  ++ (match inputs with
      | [] => []
      | _ => [".inputs " +:+ Py.join " " inputs]
      end)
  ++ (match outputs with
      | [] => []
      | _ => [".outputs " +:+ Py.join " " outputs]
      end)
  ++ [EmptyString]
  ++ (match netlist.get_signal "CONST0" m with
      | Some _ => [".names CONST0"; EmptyString]
      | None => []
      end)
  ++ (match netlist.get_signal "CONST1" m with
      | Some _ => [".names CONST1"; "1"]
      | None => []
      end)
  ++ [EmptyString].

Definition run (m : Mod) : result (list string) :=
  match emit_gates (gates m) with
  | Ok body => Ok (header m ++ body ++ [".end"])
  | Raise e => Raise e
  end.

End stage_export.

(** ** stage_elaboration.py *)

Module stage_elaboration.

(** *** The syntax tree that the front end hands over

    Only the node classes and attributes that Elaboration touches are
    represented; every other class is an [Other...] node that carries its
    class name and has none of the attributes read by the pass. [node_id]
    stands for [id(expr)], the identity of a literal node. *)

Inductive expr :=
| Identifier (ident : string)
| IntConst (value : string) (node_id : Z)
| Plus (left right : expr)
| Eq (left right : expr)
| Land (left right : expr)
| Lor (left right : expr)
| OtherExpr (class_name : string).

(** An assignment holds the expression under its [Lvalue] and the one under
    its [Rvalue]. *)
Inductive stmt :=
| Block (statements : list stmt)
| IfStatement (cond : expr) (true_statement : stmt)
    (false_statement : option stmt)
| BlockingSubstitution (lhs rhs : expr)
| NonblockingSubstitution (lhs rhs : expr)
| OtherStmt (class_name : string).

Record Sens := mkSens { sens_sig : option expr; sens_type : string }.

Inductive item :=
| Always (sens_list : list Sens) (statement : stmt)
| OtherItem (class_name : string).

Inductive direction := Input | Output | Inout.

(** [Ioport(first, second)]: [first] is the direction node with its name
    and optional [Width(msb, lsb)]; [second] is a [Reg] node or not. *)
Inductive port :=
| Ioport (dir : direction) (pname : string) (pwidth : option (expr * expr))
    (second_is_reg : bool)
| Port (pname : string).

Inductive definition :=
| ModuleDef (mname : string) (ports : list port) (items : list item)
| OtherDef (class_name : string).

(** *** The module under construction

    Elaboration assigns to the attributes of Signals that gates already
    refer to, so here a gate refers to its Signals by name and the
    attributes live in the module's signal dictionary. *)
Record GateRef := mkGateRef {
  ref_op : string;
  ref_inputs : list string;
  ref_output : string
}.

Record emod := mkEmod {
  emod_name : string;
  esignals : list Signal;
  egates : list GateRef
}.

Definition E (A : Type) : Type := SE emod A.

(** The object graph that the finished module forms. *)
Definition deref (m : emod) (r : string) : Signal :=
  default (mkSignal r 1 false false false) (netlist.lookup r (esignals m)).

Definition snapshot (m : emod) : Mod :=
  mkMod (emod_name m) (esignals m)
    (map (fun g => mkGate (ref_op g) (map (deref m) (ref_inputs g))
                     (deref m (ref_output g))) (egates m)).

(** [mod.get_signal(name)]: the reference, or [None]. *)
Definition get_signal (n : string) : E (option string) :=
  fun m => Ok (match netlist.lookup n (esignals m) with
               | Some _ => Some n
               | None => None
               end, m).

(** [ref.width]; reading an attribute of [None] raises. *)
Definition attr_width (r : option string) : E Z :=
  fun m =>
    match r with
    | Some n =>
        match netlist.lookup n (esignals m) with
        | Some s => Ok (width s, m)
        | None => Raise AttributeError
        end
    | None => Raise AttributeError
    end.

(** [ref.width = w]. *)
Definition set_width (n : string) (w : Z) : E unit :=
  fun m =>
    match netlist.lookup n (esignals m) with
    | Some s =>
        Ok (tt, mkEmod (emod_name m)
                  (netlist.store (mkSignal (name s) w (is_input s)
                                    (is_output s) (is_reg s)) (esignals m))
                  (egates m))
    | None => Raise AttributeError
    end.

Definition add_gate (g : GateRef) : E unit :=
  fun m => Ok (tt, mkEmod (emod_name m) (esignals m) (egates m ++ [g])).

Definition add_gates (gs : list GateRef) : E unit := forM gs add_gate.

(** [len(mod.gates)]. *)
Definition len_gates : E nat := fun m => Ok (length (egates m), m).

(** [x or y] on an optional integer: [None] and [0] are false. *)
Definition or_else (x : option Z) (y : Z) : Z :=
  match x with
  | Some v => if v =? 0 then y else v
  | None => y
  end.

(** *** Helpers *)

Definition int_or_raise (base : nat) (s : string) : result Z :=
  match Py.int_of base s with
  | Some v => Ok v
  | None => Raise ValueError
  end.

Fixpoint count_char (x : ascii) (s : string) : nat :=
  match s with
  | String c r => ((if Py.ascii_eqb c x then 1 else 0) + count_char x r)%nat
  | EmptyString => 0%nat
  end.

Definition _parse_const_value (val_str : string) : result Z :=
  if Py.contains_char "'"%char val_str then
    if negb (Nat.eqb (count_char "'"%char val_str) 1) then Raise ValueError
    else
      match snd (Py.split_first "'"%char val_str) with
      | Some (String b number) =>
          let base := Py.lower b in
          let number :=
            Py.replace_char "z"%char "0"%char
              (Py.replace_char "x"%char "0"%char number) in
          if Py.ascii_eqb base "b"%char then
            Ok (default 0 (Py.int_of 2 number))
          else if Py.ascii_eqb base "h"%char then
            Ok (default 0 (Py.int_of 16 number))
          else if Py.ascii_eqb base "d"%char then
            Ok (default 0 (Py.int_of 10 number))
          else int_or_raise 10 val_str
      | _ => Raise IndexError
      end
  else int_or_raise 10 val_str.

(** [.*$]: no line feed, except one that ends the text. *)
Fixpoint dot_star_end (s : string) : bool :=
  match s with
  | String c r =>
      if Py.ascii_eqb c "010"%char
      then match r with EmptyString => true | _ => false end
      else dot_star_end r
  | EmptyString => true
  end.

Definition _intconst_decl_width (value : string) : option Z :=
  let '(w, s) := Py.span Py.is_digit (Py.lstrip value) in
  match w, Py.lstrip s with
  | String _ _, String "'"%char (String b rest) =>
      if Py.is_one_of b "bBdDhHoO" && dot_star_end rest
      then Py.int_of 10 w
      else None
  | _, _ => None
  end.

(** [node.value] and [node.name]: only literals have the first and only
    identifiers the second. *)
Definition attr_value (e : expr) : result string :=
  match e with
  | IntConst v _ => Ok v
  | _ => Raise AttributeError
  end.

Definition attr_name {S} (e : expr) : SE S string :=
  match e with
  | Identifier n => ret n
  | _ => raise AttributeError
  end.

Definition _parse_width (node : option (expr * expr)) : result Z :=
  match node with
  | None => Ok 1
  | Some (msb, lsb) =>
      match attr_value msb with
      | Ok mv =>
          match int_or_raise 0 mv with
          | Ok m =>
              match attr_value lsb with
              | Ok lv =>
                  match int_or_raise 0 lv with
                  | Ok l => Ok (Z.abs (m - l) + 1)
                  | Raise e => Raise e
                  end
              | Raise e => Raise e
              end
          | Raise e => Raise e
          end
      | Raise e => Raise e
      end
  end.

(** The keyword arguments default to [width=1] and to [False]. The Signal
    found under the name is updated in place. *)
Definition _get_or_create_signal (n : string) (w : Z)
    (a_input a_output a_reg : bool) : E string :=
  fun m =>
    match netlist.lookup n (esignals m) with
    | None =>
        Ok (n, mkEmod (emod_name m)
                 (netlist.store (mkSignal n w a_input a_output a_reg)
                    (esignals m))
                 (egates m))
    | Some s =>
        let w' := if (width s =? 1) && negb (w =? 1) then w else width s in
        Ok (n, mkEmod (emod_name m)
                 (netlist.store
                    (mkSignal (name s) w' (is_input s || a_input)
                       (is_output s || a_output) (is_reg s || a_reg))
                    (esignals m))
                 (egates m))
    end.

(** *** Expressions *)

(** The binary-operator case, given the compilers of the two operands. *)
Definition binary_op (op_name : string)
    (compile_left compile_right : option Z -> E (string * list GateRef))
    (expected_width : option Z) : E (string * list GateRef) :=
  let req_w := if String.eqb op_name "ADD" then expected_width else None in
  let* (a_sig, a_g) := compile_left req_w in
  let* (b_sig, b_g) := compile_right req_w in
  let extra_gates := a_g ++ b_g in
  let* out_w :=
    (if in_list op_name ["EQ"; "AND"; "OR"] then ret 1
     else
       let* wa := attr_width (Some a_sig) in
       let* wb := attr_width (Some b_sig) in
       ret (or_else expected_width (Z.max wa wb))) in
  let* n := len_gates in
  let tmp_name := "tmp_" +:+ op_name +:+ "_" +:+ Py.str_nat n in
  let* tmp := _get_or_create_signal tmp_name out_w false false false in
  ret (tmp, extra_gates ++ [mkGateRef op_name [a_sig; b_sig] tmp]).

Fixpoint _expr_to_signal_and_gates (e : expr) (expected_width : option Z)
  : E (string * list GateRef) :=
  match e with
  | Identifier n =>
      let* s := _get_or_create_signal n 1 false false false in
      let* w := attr_width (Some s) in
      let* _ :=
        match expected_width with
        | Some ew =>
            if (w =? 1) && negb (ew =? 1) then set_width s ew else ret tt
        | None => ret tt
        end in
      ret (s, [])
  | IntConst value node_id =>
      let* val := lift (_parse_const_value value) in
      let declared_w := _intconst_decl_width value in
      let w := or_else declared_w (or_else expected_width 32) in
      let const_name :=
        "CONST_" +:+ Py.str_Z val +:+ "_" +:+ Py.str_Z w +:+ "b_"
          +:+ Py.str_Z node_id in
      let* s := _get_or_create_signal const_name w false false false in
      ret (s, [])
  | Plus l r =>
      binary_op "ADD" (_expr_to_signal_and_gates l)
        (_expr_to_signal_and_gates r) expected_width
  | Eq l r =>
      binary_op "EQ" (_expr_to_signal_and_gates l)
        (_expr_to_signal_and_gates r) expected_width
  | Land l r =>
      binary_op "AND" (_expr_to_signal_and_gates l)
        (_expr_to_signal_and_gates r) expected_width
  | Lor l r =>
      binary_op "OR" (_expr_to_signal_and_gates l)
        (_expr_to_signal_and_gates r) expected_width
  | OtherExpr cls =>
      raise (NotImplementedError ("Expression not supported yet: " +:+ cls))
  end.

(** *** The MUX tree of a combinational process *)

Fixpoint _build_mux_tree (s : stmt) (target_name : string)
  : E (option string * list GateRef) :=
  match s with
  | Block [] => ret (None, [])
  | Block (first :: _) => _build_mux_tree first target_name
  | BlockingSubstitution lhs rhs
  | NonblockingSubstitution lhs rhs =>
      let* lname := attr_name lhs in
      if negb (String.eqb lname target_name) then ret (None, [])
      else
        let* target_sig := get_signal target_name in
        let* tw := attr_width target_sig in
        let* (rhs_sig, g) := _expr_to_signal_and_gates rhs (Some tw) in
        ret (Some rhs_sig, g)
  | IfStatement cond true_statement false_statement =>
      let* (cond_sig, cond_gates) := _expr_to_signal_and_gates cond None in
      let* (true_sig, true_gates) :=
        _build_mux_tree true_statement target_name in
      let* (false_sig, false_gates) :=
        match false_statement with
        | Some fs => _build_mux_tree fs target_name
        | None => let* t := get_signal target_name in ret (t, [])
        end in
      match true_sig, false_sig with
      | Some true_sig, Some false_sig =>
          let* n := len_gates in
          let mux_out_name :=
            "mux_" +:+ target_name +:+ "_" +:+ Py.str_nat n in
          let* tw := attr_width (Some true_sig) in
          let* mux_out :=
            _get_or_create_signal mux_out_name tw false false false in
          ret (Some mux_out,
               cond_gates ++ true_gates ++ false_gates
                 ++ [mkGateRef "MUX" [cond_sig; true_sig; false_sig] mux_out])
      | _, _ => ret (None, [])
      end
  | OtherStmt _ => ret (None, [])
  end.

(** *** The main loop *)

(** [if isinstance(s, Block): s = s.statements[0]]. *)
Definition unwrap_block (s : stmt) : E stmt :=
  match s with
  | Block statements => index statements 0%nat
  | _ => ret s
  end.

(** [s.left.var.name] and [s.right.var]: only assignments have them. *)
Definition stmt_left_name (s : stmt) : E string :=
  match s with
  | BlockingSubstitution lhs _ | NonblockingSubstitution lhs _ => attr_name lhs
  | _ => raise AttributeError
  end.

Definition stmt_right (s : stmt) : E expr :=
  match s with
  | BlockingSubstitution _ rhs | NonblockingSubstitution _ rhs => ret rhs
  | _ => raise AttributeError
  end.

(** The sequential branch of the loop over the module items. *)
Definition clocked_process (sens_list : list Sens) (statement : stmt)
  : E unit :=
  let* first := index sens_list 0%nat in
  let* clk_name :=
    match sens_sig first with
    | Some sg => attr_name sg
    | None => raise AttributeError
    end in
  let* clk_sig := _get_or_create_signal clk_name 1 true false false in
  let* body := unwrap_block statement in
  match body with
  | IfStatement cond then_stmt else_stmt =>
      let* rst_name := attr_name cond in
      let* rst_sig := _get_or_create_signal rst_name 1 false false false in
      let* then_stmt := unwrap_block then_stmt in
      let* target_name := stmt_left_name then_stmt in
      let* target_sig :=
        _get_or_create_signal target_name 1 false false false in
      let* rst_rhs := stmt_right then_stmt in
      let* tw := attr_width (Some target_sig) in
      let* (rst_val_sig, g_rst) :=
        _expr_to_signal_and_gates rst_rhs (Some tw) in
      let* _ := add_gates g_rst in
      match else_stmt with
      | Some (IfStatement en_cond en_then _) =>
          let* en_name := attr_name en_cond in
          let* en_sig := _get_or_create_signal en_name 1 false false false in
          let* en_then := unwrap_block en_then in
          let* next_rhs := stmt_right en_then in
          let* tw := attr_width (Some target_sig) in
          let* (next_val_sig, g_next) :=
            _expr_to_signal_and_gates next_rhs (Some tw) in
          let* _ := add_gates g_next in
          add_gate (mkGateRef "DFF_EN_RST"
                      [next_val_sig; target_sig; en_sig; rst_val_sig;
                       rst_sig; clk_sig] target_sig)
      | _ => ret tt
      end
  | _ => ret tt
  end.

(** The combinational branch. *)
Definition combinational_process (statement : stmt) : E unit :=
  let* target_candidates :=
    (fun m => Ok (map name
                    (List.filter (fun s => is_output s || is_reg s)
                       (esignals m)), m)) in
  forM target_candidates (fun target_name =>
    let* (final_sig, gs) := _build_mux_tree statement target_name in
    match final_sig with
    | Some final_sig =>
        let* _ := add_gates gs in
        add_gate (mkGateRef "BUF" [final_sig] target_name)
    | None => ret tt
    end).

Definition is_clocked (sens_list : list Sens) : bool :=
  existsb (fun s => String.eqb (sens_type s) "posedge") sens_list.

Definition process_item (it : item) : E unit :=
  match it with
  | Always sens_list statement =>
      if is_clocked sens_list then clocked_process sens_list statement
      else combinational_process statement
  | OtherItem _ => ret tt
  end.

Definition declare_port (p : port) : E unit :=
  match p with
  | Ioport dir pname pwidth second_is_reg =>
      let* w := lift (_parse_width pwidth) in
      match dir with
      | Input =>
          let* _ := _get_or_create_signal pname w true false false in ret tt
      | Output =>
          let* _ :=
            _get_or_create_signal pname w false true second_is_reg in ret tt
      | Inout => ret tt
      end
  | Port _ => ret tt
  end.

Fixpoint first_module (ds : list definition)
  : option (string * list port * list item) :=
  match ds with
  | ModuleDef n ps its :: _ => Some (n, ps, its)
  | OtherDef _ :: r => first_module r
  | [] => None
  end.

(** [run] on the definitions of a [Source] node. *)
Definition run (definitions : list definition) : result emod :=
  match first_module definitions with
  | None => Raise ValueError
  | Some (n, ps, its) =>
      match (let* _ := forM ps declare_port in forM its process_item)
              (mkEmod n [] []) with
      | Ok (_, m) => Ok m
      | Raise e => Raise e
      end
  end.

End stage_elaboration.

(** * Vocabulary of the properties *)

(** A state predicate that a computation keeps when it returns. *)
Definition preserves {S A} (I : S -> Prop) (c : SE S A) : Prop :=
  forall st a st', I st -> c st = Ok (a, st') -> I st'.

(** The closed primitive set and the input count of each of its cells. *)
Definition primitive_tags : list string :=
  ["AND"; "OR"; "XOR"; "NOT"; "MUX"; "DFF"; "BUF"].

Definition arity (op : string) : option nat :=
  if in_list op ["AND"; "OR"; "XOR"; "DFF"] then Some 2%nat
  else if in_list op ["NOT"; "BUF"] then Some 1%nat
  else if String.eqb op "MUX" then Some 3%nat
  else None.

Definition primitive_gate (g : Gate) : Prop :=
  In (op_type g) primitive_tags.

Definition arity_ok (g : Gate) : Prop :=
  arity (op_type g) = Some (length (inputs g)).

(** A cell of the primitive set with the right number of inputs. *)
Definition is_primitive_cell (g : Gate) : bool :=
  match arity (op_type g) with
  | Some n => Nat.eqb n (length (inputs g))
  | None => false
  end.

(** Sample inputs of Bit-Blasting used by the examples below. *)
Definition bus_a : Signal := mkSignal "a" 2 true false false.
Definition bus_b : Signal := mkSignal "b" 2 true false false.
Definition bus_y : Signal := mkSignal "y" 2 false true false.
Definition wire_x : Signal := mkSignal "x" 1 true false false.
Definition wire_y : Signal := mkSignal "y" 1 false true false.

(** A 2-bit adder [y = a + b]. *)
Definition adder2 : Mod :=
  mkMod "adder2" [bus_a; bus_b; bus_y] [mkGate "ADD" [bus_a; bus_b] bus_y].

(** A module in which two [BUF] gates drive the same wire. *)
Definition two_drivers : Mod :=
  mkMod "two_drivers" [wire_x; wire_y]
    [mkGate "BUF" [wire_x] wire_y; mkGate "BUF" [wire_x] wire_y].


(** A gate for which the exporter writes a truth table. *)
Definition has_table (g : Gate) : bool :=
  match stage_export.table (op_type g) (map (fun _ => false) (inputs g)) with
  | Some _ => true
  | None => false
  end.

(** A netlist is well ordered when no gate with a table writes a net that
    an earlier gate or the gate itself reads, or that an earlier gate (or a
    net of [writes]) already writes: evaluation in netlist order then
    settles every net. *)
Fixpoint well_ordered_from (reads writes : list string) (gs : list Gate)
  : bool :=
  match gs with
  | g :: gs' =>
      let reads' := map name (inputs g) ++ reads in
      if has_table g then
        negb (in_list (name (output g)) reads')
        && negb (in_list (name (output g)) writes)
        && well_ordered_from reads' (name (output g) :: writes) gs'
      else well_ordered_from reads' writes gs'
  | [] => true
  end.

Definition well_ordered (gs : list Gate) : bool := well_ordered_from [] [] gs.

(** The valuation in which exactly the listed nets carry 1. *)
Definition ones (high : list string) : stage_export.valuation :=
  fun n => in_list n high.

Definition CONST0 : Signal := mkSignal "CONST0" 1 false false false.
Definition CONST1 : Signal := mkSignal "CONST1" 1 false false false.

(** The state in which the pass meets the gate of [adder2]: the constants
    exist, no bit has been expanded yet. *)
Definition adder2_state : stage_bitblast.pass_state :=
  stage_bitblast.mkState [bus_a; bus_b; bus_y; CONST0; CONST1] ∅ 0%nat [].



(** A module that compares two 2-bit buses. *)
Definition wire_eq : Signal := mkSignal "eq" 1 false true false.

Definition comparator2 : Mod :=
  mkMod "comparator2" [bus_a; bus_b; wire_eq]
    [mkGate "EQ" [bus_a; bus_b] wire_eq].



(** A 2-bit register [q] with enable [en], reset [rst] and reset value 0. *)
Definition reg_q : Signal := mkSignal "q" 2 false true true.
Definition bus_d : Signal := mkSignal "d" 2 true false false.
Definition wire_en : Signal := mkSignal "en" 1 true false false.
Definition wire_rst : Signal := mkSignal "rst" 1 true false false.
Definition wire_clk : Signal := mkSignal "clk" 1 true false false.
Definition const_zero2 : Signal := mkSignal "CONST_0_2b_7" 2 false false false.

Definition register2 : Mod :=
  mkMod "register2"
    [wire_clk; wire_rst; wire_en; bus_d; reg_q; const_zero2]
    [mkGate "DFF_EN_RST"
       [bus_d; reg_q; wire_en; const_zero2; wire_rst; wire_clk] reg_q].


(** The value of a decimal numeral read digit by digit, as [int()] reads
    it. *)
Fixpoint uint_value (d : Decimal.uint) (acc : N) : N :=
  match d with
  | Decimal.Nil => acc
  | Decimal.D0 d' => uint_value d' (acc * 10 + 0)
  | Decimal.D1 d' => uint_value d' (acc * 10 + 1)
  | Decimal.D2 d' => uint_value d' (acc * 10 + 2)
  | Decimal.D3 d' => uint_value d' (acc * 10 + 3)
  | Decimal.D4 d' => uint_value d' (acc * 10 + 4)
  | Decimal.D5 d' => uint_value d' (acc * 10 + 5)
  | Decimal.D6 d' => uint_value d' (acc * 10 + 6)
  | Decimal.D7 d' => uint_value d' (acc * 10 + 7)
  | Decimal.D8 d' => uint_value d' (acc * 10 + 8)
  | Decimal.D9 d' => uint_value d' (acc * 10 + 9)
  end%N.

Fixpoint all_chars (p : ascii -> bool) (s : string) : bool :=
  match s with
  | String c r => p c && all_chars p r
  | EmptyString => true
  end.

(** The name that Elaboration gives to the Signal of a literal. *)
Definition const_name (val w node_id : Z) : string :=
  "CONST_" +:+ Py.str_Z val +:+ "_" +:+ Py.str_Z w +:+ "b_"
    +:+ Py.str_Z node_id.


(** A constant Signal that carries a sized literal with a digit that its
    base does not have. *)
Definition const_bad_digit : Signal :=
  mkSignal "CONST_4'dff_9" 4 false false false.

Definition empty_state : stage_bitblast.pass_state :=
  stage_bitblast.mkState [CONST0; CONST1] ∅ 0%nat [].



(** The binary operators that Elaboration knows, with the gate tag of each
    (the [op_map] of the source) and the two operands. *)
Definition op_map (e : stage_elaboration.expr)
  : option (string * stage_elaboration.expr * stage_elaboration.expr) :=
  match e with
  | stage_elaboration.Plus l r => Some ("ADD", l, r)
  | stage_elaboration.Eq l r => Some ("EQ", l, r)
  | stage_elaboration.Land l r => Some ("AND", l, r)
  | stage_elaboration.Lor l r => Some ("OR", l, r)
  | _ => None
  end.

(** The width that Elaboration asks for when it creates the result Signal
    of a binary operator. *)
Definition result_width (op_name : string) (expected_width : option Z)
    (wa wb : Z) : Z :=
  if in_list op_name ["EQ"; "AND"; "OR"] then 1
  else stage_elaboration.or_else expected_width (Z.max wa wb).

(** The width of a Signal after [_get_or_create_signal] was asked for
    width [w]: a Signal that exists keeps its width unless it is 1. *)
Definition width_after_request (found : option Signal) (w : Z) : Z :=
  match found with
  | None => w
  | Some s => if width s =? 1 then w else width s
  end.

(** A module with two 4-bit inputs, in which [a + b] is compiled for a
    2-bit target. *)
Definition wide_a : Signal := mkSignal "a" 4 true false false.
Definition wide_b : Signal := mkSignal "b" 4 true false false.

Definition wide_operands : stage_elaboration.emod :=
  stage_elaboration.mkEmod "m" [wide_a; wide_b] [].

Definition a_plus_b : stage_elaboration.expr :=
  stage_elaboration.Plus (stage_elaboration.Identifier "a")
    (stage_elaboration.Identifier "b").

(** The body of a process once a surrounding block is replaced by its first
    statement; an empty block has none. *)
Definition unwrapped (s : stage_elaboration.stmt)
  : option stage_elaboration.stmt :=
  match s with
  | stage_elaboration.Block l => head l
  | _ => Some s
  end.

Definition is_conditional (s : stage_elaboration.stmt) : bool :=
  match s with
  | stage_elaboration.IfStatement _ _ _ => true
  | _ => false
  end.

(** The one shape of a clocked process that is lowered: a conditional
    whose else branch is a conditional. *)
Definition supported_shape (body : stage_elaboration.stmt) : bool :=
  match body with
  | stage_elaboration.IfStatement _ _
      (Some (stage_elaboration.IfStatement _ _ _)) => true
  | _ => false
  end.

(** [always @(posedge clk) q <= d;] in a module with ports clk, d, q. *)
Definition plain_register_process : stage_elaboration.item :=
  stage_elaboration.Always
    [stage_elaboration.mkSens (Some (stage_elaboration.Identifier "clk"))
       "posedge"]
    (stage_elaboration.NonblockingSubstitution
       (stage_elaboration.Identifier "q") (stage_elaboration.Identifier "d")).

Definition plain_register : list stage_elaboration.definition :=
  [stage_elaboration.ModuleDef "plain_register"
     [stage_elaboration.Ioport stage_elaboration.Input "clk" None false;
      stage_elaboration.Ioport stage_elaboration.Input "d" None false;
      stage_elaboration.Ioport stage_elaboration.Output "q" None true]
     [plain_register_process]].

Definition plain_register_ports : stage_elaboration.emod :=
  stage_elaboration.mkEmod "plain_register"
    [mkSignal "clk" 1 true false false; mkSignal "d" 1 true false false;
     mkSignal "q" 1 false true true] [].

(** The text after the last underscore of a name. *)
Fixpoint last_field (s : string) : string :=
  match s with
  | String c r =>
      if Py.contains_char "_"%char r then last_field r
      else if Py.ascii_eqb c "_"%char then r else s
  | EmptyString => EmptyString
  end.

(** The prefixes under which the pass asks for a temporary. *)
Definition tmp_prefixes : list string :=
  ["xor_eq"; "xnor_eq"; "and_red"; "xor"; "and"; "or"; "mux"].

(** A name that a temporary of the pass can have. *)
Definition is_tmp_name (n : string) : bool :=
  String.prefix "tmp_xor_" n || String.prefix "tmp_xnor_" n
  || String.prefix "tmp_and_" n || String.prefix "tmp_or_" n
  || String.prefix "tmp_mux_" n.

(** The name of a temporary made while the counter ran from [k] to [k']. *)
Definition pass_tmp (k k' : nat) (n : string) : Prop :=
  exists p j,
    In p tmp_prefixes /\ n = stage_bitblast.tmp_name p j /\ (k <= j < k')%nat.

(** The names under which the bits of a gate output can be fetched: the
    Signal itself when it is 1 bit wide; otherwise its indexed bits, and
    its own name and bit 0 in case the bit cache holds the bits of another
    Signal of the same name. *)
Definition out_names (sig : Signal) : list string :=
  if width sig =? 1 then [name sig]
  else name sig
       :: map (stage_bitblast.bit_name (name sig))
            (seq 0 (Nat.max 1 (Z.to_nat (width sig)))).

Definition driven_names (gs : list Gate) : list string :=
  flat_map (fun g => out_names (output g)) gs.

Definition out_name (g : Gate) : string := name (output g).

(** What the bit cache can hold under a name: the 1-bit Signal of that
    name, or Signals named after the name and their position. *)
Definition cache_ok (n : string) (l : list Signal) : Prop :=
  (exists s, l = [s] /\ name s = n)
  \/ (forall i s, l !! i = Some s -> name s = stage_bitblast.bit_name n i).

Definition bits_shape (st : stage_bitblast.pass_state) : Prop :=
  forall n l, stage_bitblast.bits_map st !! n = Some l -> cache_ok n l.

(** How far a computation moves the counter of temporaries and what it
    emits; the bit cache stays as it is. *)
Definition advance (st st' : stage_bitblast.pass_state) (c : nat)
    (emitted : list Gate) : Prop :=
  stage_bitblast.bits_map st' = stage_bitblast.bits_map st
  /\ stage_bitblast.tmp_idx st' = (stage_bitblast.tmp_idx st + c)%nat
  /\ stage_bitblast.new_gates st' = stage_bitblast.new_gates st ++ emitted.

(** One round of a loop over the bits [out_bits] of an output: it makes
    [c] temporaries, and the gates it emits drive Signals of different
    names, each a temporary of the round or bit [i] of the output. *)
Definition round_ok (out_bits : list Signal) (c : nat) (i : nat)
    (st st' : stage_bitblast.pass_state) : Prop :=
  exists emitted,
    advance st st' c emitted
    /\ NoDup (map out_name emitted)
    /\ Forall (fun g =>
                 pass_tmp (stage_bitblast.tmp_idx st)
                   (stage_bitblast.tmp_idx st + c) (out_name g)
                 \/ exists o, out_bits !! i = Some o /\ out_name g = name o)
         emitted.

(** A stretch of the run from [st] to [st'] that emits [emitted]: the
    outputs are pairwise different and each is a temporary made in the
    stretch or a name in [O]. *)
Definition seg (O : string -> Prop) (st st' : stage_bitblast.pass_state)
    (emitted : list Gate) : Prop :=
  (stage_bitblast.tmp_idx st <= stage_bitblast.tmp_idx st')%nat
  /\ stage_bitblast.new_gates st' = stage_bitblast.new_gates st ++ emitted
  /\ NoDup (map out_name emitted)
  /\ Forall (fun g =>
               pass_tmp (stage_bitblast.tmp_idx st)
                 (stage_bitblast.tmp_idx st') (out_name g)
               \/ O (out_name g)) emitted.

(** What the branch of the gate loop for a gate with output [out] does. *)
Definition gate_driven (out : Signal) (st st' : stage_bitblast.pass_state)
  : Prop :=
  bits_shape st'
  /\ exists emitted, seg (fun n => In n (out_names out)) st st' emitted.







(** A 2-bit selector [y = sel ? a : b]. *)
Definition wire_sel : Signal := mkSignal "sel" 1 true false false.







(** [always @(s) if (s) y = a; else y = b;] in a module with inputs s, a,
    b and output y. *)
Definition choice : list stage_elaboration.definition :=
  [stage_elaboration.ModuleDef "choice"
     [stage_elaboration.Ioport stage_elaboration.Input "s" None false;
      stage_elaboration.Ioport stage_elaboration.Input "a" None false;
      stage_elaboration.Ioport stage_elaboration.Input "b" None false;
      stage_elaboration.Ioport stage_elaboration.Output "y" None true]
     [stage_elaboration.Always
        [stage_elaboration.mkSens
           (Some (stage_elaboration.Identifier "s")) "level"]
        (stage_elaboration.IfStatement (stage_elaboration.Identifier "s")
           (stage_elaboration.BlockingSubstitution
              (stage_elaboration.Identifier "y")
              (stage_elaboration.Identifier "a"))
           (Some (stage_elaboration.BlockingSubstitution
                    (stage_elaboration.Identifier "y")
                    (stage_elaboration.Identifier "b"))))]].

(** [always @(a) y = a + b + c;] in a module with inputs a, b, c and
    output y. *)
Definition three_sum : list stage_elaboration.definition :=
  [stage_elaboration.ModuleDef "three_sum"
     [stage_elaboration.Ioport stage_elaboration.Input "a" None false;
      stage_elaboration.Ioport stage_elaboration.Input "b" None false;
      stage_elaboration.Ioport stage_elaboration.Input "c" None false;
      stage_elaboration.Ioport stage_elaboration.Output "y" None true]
     [stage_elaboration.Always
        [stage_elaboration.mkSens
           (Some (stage_elaboration.Identifier "a")) "level"]
        (stage_elaboration.BlockingSubstitution
           (stage_elaboration.Identifier "y")
           (stage_elaboration.Plus
              (stage_elaboration.Plus (stage_elaboration.Identifier "a")
                 (stage_elaboration.Identifier "b"))
              (stage_elaboration.Identifier "c")))]].

(** ** Vocabulary of the further properties *)

(** A row of a [.names] table, [pattern 1]: the output is 1 when every
    input agrees with its character, [-] standing for either value. *)
Fixpoint pattern_matches (pattern : string) (ins : list bool) : bool :=
  match pattern, ins with
  | EmptyString, [] => true
  | String c p, b :: r =>
      (Py.ascii_eqb c "-"%char
       || (if b then Py.ascii_eqb c "1"%char else Py.ascii_eqb c "0"%char))
      && pattern_matches p r
  | _, _ => false
  end.

Definition row_matches (row : string) (ins : list bool) : bool :=
  match Py.split_first " "%char row with
  | (pattern, Some "1") => pattern_matches pattern ins
  | _ => false
  end.

(** The function of a table: 1 on the inputs that some row matches. *)
Definition cover_value (rows : list string) (ins : list bool) : bool :=
  existsb (fun row => row_matches row ins) rows.

(** A gate that the exporter can write: a tag of the primitive set with
    the inputs that its branch reads. The one- and two-input branches
    read their inputs by position and ignore further ones; [MUX] and [DFF]
    unpack the whole list. *)
Definition exportable (g : Gate) : bool :=
  let n := length (inputs g) in
  if in_list (op_type g) ["NOT"; "BUF"] then (1 <=? n)%nat
  else if in_list (op_type g) ["AND"; "OR"; "XOR"] then (2 <=? n)%nat
  else if String.eqb (op_type g) "MUX" then (n =? 3)%nat
  else if String.eqb (op_type g) "DFF" then (n =? 2)%nat
  else false.

(** The nets on which the table of a gate is written: the inputs that its
    branch names in the header. *)
Definition table_nets (g : Gate) : list string :=
  let ins := map name (inputs g) in
  if in_list (op_type g) ["NOT"; "BUF"] then take 1 ins
  else if in_list (op_type g) ["AND"; "OR"; "XOR"] then take 2 ins
  else ins.

(** A Signal that the exporter lists as a primary port. *)
Definition primary (s : Signal) : bool :=
  negb (in_list (name s) ["CONST0"; "CONST1"]) && (width s =? 1).

(** A list of strings in strictly increasing order. *)
Fixpoint increasing (l : list string) : Prop :=
  match l with
  | x :: r => Forall (fun y => String.compare x y = Lt) r /\ increasing r
  | [] => True
  end.

Definition wire_a : Signal := mkSignal "a" 1 true false false.
Definition wire_b : Signal := mkSignal "b" 1 true false false.

(** The bit that [get_bits] makes for position [i] of a Signal when the
    module has no Signal of that name: 1 bit wide, with the flags of the
    Signal. *)
Definition fresh_bit (sig : Signal) (i : nat) : Signal :=
  mkSignal (stage_bitblast.bit_name (name sig) i) 1 (is_input sig)
    (is_output sig) (is_reg sig).

(** Every exception that a computation raises satisfies [P]. *)
Definition fails_with {S A} (P : exn -> Prop) (c : SE S A) : Prop :=
  forall st e, c st = Raise e -> P e.

(** A gate that Bit-Blasting has a branch for, with the inputs that the
    branch unpacks: two for the two-operand tags, three for [MUX], six for
    [DFF_EN_RST]; [NOT] and [BUF] read their first input only. *)
Definition blastable (g : Gate) : bool :=
  let n := length (inputs g) in
  if in_list (op_type g) ["AND"; "OR"; "XOR"; "EQ"; "ADD"] then (n =? 2)%nat
  else if String.eqb (op_type g) "MUX" then (n =? 3)%nat
  else if String.eqb (op_type g) "DFF_EN_RST" then (n =? 6)%nat
  else if in_list (op_type g) ["NOT"; "BUF"] then (1 <=? n)%nat
  else false.

Definition blast_tags : list string :=
  ["AND"; "OR"; "XOR"; "EQ"; "MUX"; "ADD"; "DFF_EN_RST"; "NOT"; "BUF"].

(** The exceptions of a run of Bit-Blasting on the gates [gs]. *)
Definition blast_error (gs : list Gate) (e : exn) : Prop :=
  e = ValueError \/ e = IndexError
  \/ exists g,
       In g gs /\ ~ In (op_type g) blast_tags
       /\ e = NotImplementedError
                ("Bitblast: unsupported gate type " +:+ op_type g).

(** A module with a gate of a tag that no pass knows. *)
Definition subtractor : Mod :=
  mkMod "subtractor" [bus_a; bus_b; bus_y]
    [mkGate "SUB" [bus_a; bus_b] bus_y].

(** The text of a sized literal: decimal width, quote, base letter,
    digits. *)
Definition sized (w : N) (base : ascii) (digits : string) : string :=
  Py.str_N w +:+ String "'"%char (String base digits).

(** The digits of a bit vector in base 2, as written. *)
Definition bin (bs : list bool) : string :=
  string_of_list_ascii (map (fun b : bool => if b then "1"%char else "0"%char) bs).

Definition is_one_of_xz (c : ascii) : bool := Py.is_one_of c "xXzZ_".

(** The Signal that [_get_or_create_signal] leaves under a name: a new
    one as asked for, or the one found with its flags raised where asked
    and its width replaced when it was 1. *)
Definition merged (found : option Signal) (n : string) (w : Z)
    (a_input a_output a_reg : bool) : Signal :=
  match found with
  | None => mkSignal n w a_input a_output a_reg
  | Some s =>
      mkSignal n (width_after_request found w) (is_input s || a_input)
        (is_output s || a_output) (is_reg s || a_reg)
  end.

(** The number of operator nodes of an expression. *)
Fixpoint count_ops (e : stage_elaboration.expr) : nat :=
  match e with
  | stage_elaboration.Plus l r | stage_elaboration.Eq l r
  | stage_elaboration.Land l r | stage_elaboration.Lor l r =>
      S (count_ops l + count_ops r)
  | _ => 0
  end.

(** The module holds a Signal under the name. *)
Definition present (n : string) (m : stage_elaboration.emod) : Prop :=
  netlist.lookup n (stage_elaboration.esignals m) <> None.

(** A gate all of whose operands and whose output are held by the
    module. *)
Definition connected (m : stage_elaboration.emod)
    (g : stage_elaboration.GateRef) : Prop :=
  Forall (fun n => present n m) (stage_elaboration.ref_inputs g)
  /\ present (stage_elaboration.ref_output g) m.

(** The gates that Elaboration makes: an operator with two inputs, a
    [MUX] with three, a [BUF] with one, a [DFF_EN_RST] with six. *)
Definition elaborated_gate (g : stage_elaboration.GateRef) : bool :=
  let n := length (stage_elaboration.ref_inputs g) in
  if in_list (stage_elaboration.ref_op g) ["ADD"; "EQ"; "AND"; "OR"]
  then (n =? 2)%nat
  else if String.eqb (stage_elaboration.ref_op g) "MUX" then (n =? 3)%nat
  else if String.eqb (stage_elaboration.ref_op g) "BUF" then (n =? 1)%nat
  else if String.eqb (stage_elaboration.ref_op g) "DFF_EN_RST"
  then (n =? 6)%nat
  else false.

Definition is_module (d : stage_elaboration.definition) : bool :=
  match d with
  | stage_elaboration.ModuleDef _ _ _ => true
  | stage_elaboration.OtherDef _ => false
  end.

(** Every gate of the module is one that Elaboration makes. *)
Definition shaped (m : stage_elaboration.emod) : Prop :=
  Forall (fun g => elaborated_gate g = true) (stage_elaboration.egates m).

(** The two sides of an assignment statement. *)
Definition assignment (s : stage_elaboration.stmt)
  : option (stage_elaboration.expr * stage_elaboration.expr) :=
  match s with
  | stage_elaboration.BlockingSubstitution lhs rhs
  | stage_elaboration.NonblockingSubstitution lhs rhs => Some (lhs, rhs)
  | _ => None
  end.

(** [always @(posedge clk) if (rst) q <= 0; else if (en) q <= q + d;] in a
    module with inputs clk, rst, en, d and the registered output q. *)
Definition accumulator_body : stage_elaboration.stmt :=
  stage_elaboration.IfStatement (stage_elaboration.Identifier "rst")
    (stage_elaboration.NonblockingSubstitution
       (stage_elaboration.Identifier "q")
       (stage_elaboration.IntConst "0" 7))
    (Some (stage_elaboration.IfStatement (stage_elaboration.Identifier "en")
             (stage_elaboration.NonblockingSubstitution
                (stage_elaboration.Identifier "q")
                (stage_elaboration.Plus (stage_elaboration.Identifier "q")
                   (stage_elaboration.Identifier "d")))
             None)).

Definition accumulator_sens : list stage_elaboration.Sens :=
  [stage_elaboration.mkSens (Some (stage_elaboration.Identifier "clk"))
     "posedge"].

Definition accumulator_ports : stage_elaboration.emod :=
  stage_elaboration.mkEmod "accumulator"
    [mkSignal "clk" 1 true false false; mkSignal "rst" 1 true false false;
     mkSignal "en" 1 true false false; mkSignal "d" 4 true false false;
     mkSignal "q" 4 false true true] [].

(** What Elaboration may do to the Signals of a module: every name stays,
    a flag that is set stays set, and a width other than 1 stays. *)
Definition grows (m0 m : stage_elaboration.emod) : Prop :=
  forall k s,
    netlist.lookup k (stage_elaboration.esignals m0) = Some s ->
    exists s',
      netlist.lookup k (stage_elaboration.esignals m) = Some s'
      /\ (is_input s = true -> is_input s' = true)
      /\ (is_output s = true -> is_output s' = true)
      /\ (is_reg s = true -> is_reg s' = true)
      /\ (width s <> 1 -> width s' = width s).

(** The names that the port list declares as Signals. *)
Definition port_names (ps : list stage_elaboration.port) : list string :=
  flat_map (fun p =>
              match p with
              | stage_elaboration.Ioport stage_elaboration.Input n _ _
              | stage_elaboration.Ioport stage_elaboration.Output n _ _ => [n]
              | _ => []
              end) ps.

(** The accumulator as a design. *)
Definition accumulator : list stage_elaboration.definition :=
  [stage_elaboration.ModuleDef "accumulator"
     [stage_elaboration.Ioport stage_elaboration.Input "clk" None false;
      stage_elaboration.Ioport stage_elaboration.Input "rst" None false;
      stage_elaboration.Ioport stage_elaboration.Input "en" None false;
      stage_elaboration.Ioport stage_elaboration.Input "d"
        (Some (stage_elaboration.IntConst "3" 1,
               stage_elaboration.IntConst "0" 2)) false;
      stage_elaboration.Ioport stage_elaboration.Output "q"
        (Some (stage_elaboration.IntConst "3" 3,
               stage_elaboration.IntConst "0" 4)) true]
     [stage_elaboration.Always accumulator_sens accumulator_body]].

(** Every gate of the module refers to Signals that the module holds. *)
Definition wired (m : stage_elaboration.emod) : Prop :=
  Forall (connected m) (stage_elaboration.egates m).

(** A Signal that the dictionary [l] holds under its own name and that has
    at least one bit. *)
Definition fit (l : list Signal) (s : Signal) : Prop :=
  netlist.lookup (name s) l = Some s /\ 1 <= width s.

(** An operand that [get_operand_bits] can fetch: its name does not start
    with [CONST_], or the text between that prefix and the next underscore
    is one that [parse_verilog_const] decodes. *)
Definition decodable (s : Signal) : bool :=
  negb (String.prefix "CONST_" (name s))
  || match snd (Py.split_first "_"%char (name s)) with
     | Some raw =>
         match stage_bitblast.parse_verilog_const
                 (fst (Py.split_first "_"%char raw)) 1 with
         | Ok _ => true
         | Raise _ => false
         end
     | None => false
     end.

(** The bit cache holds, under the name of a Signal of the dictionary [l],
    as many bits as the Signal is wide. *)
Definition cache_fits (l : list Signal) (st : stage_bitblast.pass_state)
  : Prop :=
  forall n bits s,
    stage_bitblast.bits_map st !! n = Some bits ->
    netlist.lookup n l = Some s ->
    length bits = Z.to_nat (width s).

(** A module that Bit-Blasting can lower: every Signal of the dictionary is
    stored under its own name, and every gate has a tag and an input count
    that the pass has a branch for, operands that are Signals of the
    dictionary with at least one bit, and inputs that can be fetched. *)
Definition blast_ready (m : Mod) : Prop :=
  Forall (fun s => netlist.lookup (name s) (signals m) = Some s) (signals m)
  /\ Forall (fun g =>
               blastable g = true
               /\ Forall (fit (signals m)) (output g :: inputs g)
               /\ Forall (fun s => decodable s = true) (inputs g))
       (gates m).

(** The names in the design that Elaboration may turn into Signals: the
    identifiers of its expressions, assignment targets and sensitivity
    lists, and its ports. *)
Fixpoint expr_idents (e : stage_elaboration.expr) : list string :=
  match e with
  | stage_elaboration.Identifier n => [n]
  | stage_elaboration.Plus l r | stage_elaboration.Eq l r
  | stage_elaboration.Land l r | stage_elaboration.Lor l r =>
      expr_idents l ++ expr_idents r
  | _ => []
  end.

Fixpoint stmt_idents (s : stage_elaboration.stmt) : list string :=
  match s with
  | stage_elaboration.Block l => flat_map stmt_idents l
  | stage_elaboration.IfStatement c t f =>
      expr_idents c ++ stmt_idents t
        ++ match f with Some x => stmt_idents x | None => [] end
  | stage_elaboration.BlockingSubstitution l r
  | stage_elaboration.NonblockingSubstitution l r =>
      expr_idents l ++ expr_idents r
  | stage_elaboration.OtherStmt _ => []
  end.

Definition item_idents (it : stage_elaboration.item) : list string :=
  match it with
  | stage_elaboration.Always sens st =>
      flat_map (fun s => match stage_elaboration.sens_sig s with
                         | Some e => expr_idents e
                         | None => []
                         end) sens
        ++ stmt_idents st
  | stage_elaboration.OtherItem _ => []
  end.

Definition design_idents (ps : list stage_elaboration.port)
    (its : list stage_elaboration.item) : list string :=
  port_names ps ++ flat_map item_idents its.

(** A name without a quote, as every simple identifier is. *)
Definition plain (n : string) : bool := negb (Py.contains_char "'"%char n).

(** Every Signal of the module has at least one bit and a name that
    satisfies [P]. *)
Definition formed (P : string -> Prop) (m : stage_elaboration.emod) : Prop :=
  Forall (fun s => 1 <= width s /\ P (name s)) (stage_elaboration.esignals m).
(** * Properties *)

(** ** Reasoning about monadic code *)

Lemma bind_ok {S A B} (c : SE S A) (f : A -> SE S B) st b st2 :
  bind c f st = Ok (b, st2) ->
  exists a st1, c st = Ok (a, st1) /\ f a st1 = Ok (b, st2).
Proof.
  unfold bind. destruct (c st) as [[a st1]|e]; [eauto | discriminate].
Qed.

Lemma bind_eq {S A B} (c : SE S A) (f : A -> SE S B) st a st1 :
  c st = Ok (a, st1) -> bind c f st = f a st1.
Proof. unfold bind. intros ->. reflexivity. Qed.

Lemma index_ok {S A} (l : list A) i (st : S) x st' :
  index l i st = Ok (x, st') -> l !! i = Some x /\ st' = st.
Proof.
  unfold index. destruct (l !! i); [|discriminate].
  intros H. inversion H. auto.
Qed.

Lemma index_eq {S A} (l : list A) i (st : S) x :
  l !! i = Some x -> index l i st = Ok (x, st).
Proof. unfold index. intros ->. reflexivity. Qed.

Section preserves_rules.
Context {S : Type} (I : S -> Prop).

Lemma preserves_ret {A} (a : A) : preserves I (ret a).
Proof. intros st a' st' HI H. inversion H. subst. exact HI. Qed.

Lemma preserves_raise {A} e : preserves I (raise (A := A) e).
Proof. intros st a st' _ H. discriminate. Qed.

Lemma preserves_lift {A} (r : result A) : preserves I (lift r).
Proof.
  intros st a st' HI H. unfold lift in H. destruct r; inversion H.
  subst. exact HI.
Qed.

Lemma preserves_bind {A B} (c : SE S A) (f : A -> SE S B) :
  preserves I c -> (forall a, preserves I (f a)) -> preserves I (bind c f).
Proof.
  intros Hc Hf st b st2 HI H.
  apply bind_ok in H as (a & st1 & H1 & H2).
  apply (Hf a st1 b st2); [apply (Hc st a st1)|]; assumption.
Qed.

Lemma preserves_bind_with {A B} (Q : A -> Prop) (c : SE S A)
    (f : A -> SE S B) :
  (forall st a st', I st -> c st = Ok (a, st') -> I st' /\ Q a) ->
  (forall a, Q a -> preserves I (f a)) -> preserves I (bind c f).
Proof.
  intros Hc Hf st b st2 HI H.
  apply bind_ok in H as (a & st1 & H1 & H2).
  destruct (Hc st a st1 HI H1) as [HI1 HQ].
  exact (Hf a HQ st1 b st2 HI1 H2).
Qed.

Lemma preserves_index {A} (l : list A) i : preserves I (index l i).
Proof. intros st a st' HI H. apply index_ok in H as [_ ->]. exact HI. Qed.

Lemma preserves_foldM {A B} (body : B -> A -> SE S B) l :
  (forall b x, preserves I (body b x)) ->
  forall b, preserves I (foldM body l b).
Proof.
  intros Hb. induction l as [|x l IH]; intros b; simpl.
  - apply preserves_ret.
  - apply preserves_bind; auto.
Qed.

Lemma preserves_forM {A} (body : A -> SE S unit) l :
  (forall x, preserves I (body x)) -> preserves I (forM l body).
Proof. intros Hb. apply preserves_foldM. auto. Qed.

Lemma preserves_unpack2 {A} (l : list A) : preserves I (unpack2 l).
Proof.
  destruct l as [|a [|b [|c l]]]; simpl;
    auto using preserves_ret, preserves_raise.
Qed.

Lemma preserves_unpack3 {A} (l : list A) : preserves I (unpack3 l).
Proof.
  destruct l as [|a [|b [|c [|d l]]]]; simpl;
    auto using preserves_ret, preserves_raise.
Qed.

Lemma preserves_unpack6 {A} (l : list A) : preserves I (unpack6 l).
Proof.
  destruct l as [|a [|b [|c [|d [|e [|f [|g l]]]]]]]; simpl;
    auto using preserves_ret, preserves_raise.
Qed.

End preserves_rules.

(** Splits a hypothesis on a sequence at its first step. *)
Ltac inv_bind H :=
  match type of H with
  | bind _ _ _ = Ok _ =>
      let a := fresh "a" in
      let st := fresh "st" in
      let H1 := fresh "H" in
      apply bind_ok in H as (a & st & H1 & H)
  end.

(** Decomposes a goal [preserves I c] along the structure of [c]. *)
Ltac preserves_step :=
  first
    [ apply preserves_ret
    | apply preserves_raise
    | apply preserves_lift
    | apply preserves_index
    | apply preserves_unpack2
    | apply preserves_unpack3
    | apply preserves_unpack6
    | apply preserves_bind; [| intros ?]
    | apply preserves_forM; intros ?
    | apply preserves_foldM; intros ? ?
    | match goal with
      | |- preserves _ (let '(_, _) := ?x in _) => destruct x
      | |- preserves _ (match ?x with _ => _ end) => destruct x
      | |- preserves _ (if ?b then _ else _) => destruct b
      end ].

(** ** Bit-Blasting: what every step of the pass keeps *)

Module bitblast_facts.
Import stage_bitblast.

Lemma store_fresh s l :
  netlist.lookup (name s) l = None -> netlist.store s l = l ++ [s].
Proof.
  induction l as [|x l IH]; simpl; [reflexivity|].
  destruct (String.eqb (name x) (name s)); [discriminate|].
  intros H. rewrite IH by assumption. reflexivity.
Qed.

Lemma is_primitive_cell_spec g :
  is_primitive_cell g = true -> primitive_gate g /\ arity_ok g.
Proof.
  unfold is_primitive_cell, primitive_gate, arity_ok, arity, primitive_tags.
  destruct (in_list (op_type g) ["AND"; "OR"; "XOR"; "DFF"]) eqn:E1.
  { intros H%Nat.eqb_eq. rewrite <- H. split; [|reflexivity].
    unfold in_list in E1. simpl in E1.
    repeat (apply orb_prop in E1 as [E1|E1]);
      try discriminate; apply String.eqb_eq in E1; rewrite E1; simpl; tauto. }
  destruct (in_list (op_type g) ["NOT"; "BUF"]) eqn:E2.
  { intros H%Nat.eqb_eq. rewrite <- H. split; [|reflexivity].
    unfold in_list in E2. simpl in E2.
    repeat (apply orb_prop in E2 as [E2|E2]);
      try discriminate; apply String.eqb_eq in E2; rewrite E2; simpl; tauto. }
  destruct (String.eqb (op_type g) "MUX") eqn:E3; [|discriminate].
  intros H%Nat.eqb_eq. rewrite <- H. split; [|reflexivity].
  apply String.eqb_eq in E3. rewrite E3. simpl. tauto.
Qed.

(** A state predicate that survives the four ways in which the pass
    changes its state survives the whole pass. *)
Section pass_invariant.

Variable I : pass_state -> Prop.

Hypothesis I_add : forall st s,
  I st -> netlist.lookup (name s) (sigs st) = None -> width s = 1 ->
  I (mkState (netlist.store s (sigs st)) (bits_map st) (tmp_idx st)
       (new_gates st)).
Hypothesis I_bits : forall st n l,
  I st ->
  I (mkState (sigs st) (<[n := l]> (bits_map st)) (tmp_idx st) (new_gates st)).
Hypothesis I_idx : forall st,
  I st -> I (mkState (sigs st) (bits_map st) (S (tmp_idx st)) (new_gates st)).
Hypothesis I_emit : forall st g,
  I st -> is_primitive_cell g = true ->
  I (mkState (sigs st) (bits_map st) (tmp_idx st) (new_gates st ++ [g])).

Lemma get_or_add_preserves n s :
  name s = n -> width s = 1 ->
  preserves I
    (let* found := mod_get_signal n in
     match found with
     | Some b => ret b
     | None => let* _ := mod_add_signal s in ret s
     end).
Proof.
  intros Hn Hw st a st' HI H.
  unfold bind, mod_get_signal, mod_add_signal, ret in H.
  destruct (netlist.lookup n (sigs st)) eqn:E; inversion H; subst; auto.
Qed.

Lemma bits_map_set_preserves n l : preserves I (bits_map_set n l).
Proof. intros st a st' HI H. inversion H. subst. auto. Qed.

Lemma emit_preserves g :
  is_primitive_cell g = true -> preserves I (emit g).
Proof. intros Hg st a st' HI H. inversion H. subst. auto. Qed.

Lemma get_bits_preserves sig : preserves I (get_bits sig).
Proof.
  unfold get_bits. destruct (width sig =? 1).
  - apply preserves_bind; [apply bits_map_set_preserves|].
    intros _. apply preserves_ret.
  - apply preserves_bind.
    { intros st a st' HI H. inversion H. subst. exact HI. }
    intros [l|]; [apply preserves_ret|].
    apply preserves_bind.
    + apply preserves_foldM. intros blist i st a st' HI H.
      unfold bind, mod_get_signal, mod_add_signal, ret in H.
      destruct (netlist.lookup (bit_name (name sig) i) (sigs st)) eqn:E;
        inversion H; subst; auto.
    + intros blist. apply preserves_bind; [apply bits_map_set_preserves|].
      intros _. apply preserves_ret.
Qed.

Lemma new_tmp_preserves prefix : preserves I (new_tmp prefix).
Proof.
  unfold new_tmp. apply preserves_bind.
  { intros st a st' HI H. inversion H. subst. auto. }
  intros idx. apply get_or_add_preserves; reflexivity.
Qed.

Lemma ensure_const_preserves n : preserves I (ensure_const n).
Proof. unfold ensure_const. apply get_or_add_preserves; reflexivity. Qed.

Lemma get_operand_bits_preserves c0 c1 sig w :
  preserves I (get_operand_bits c0 c1 sig w).
Proof.
  unfold get_operand_bits, const_bits_from_signal.
  repeat first [apply get_bits_preserves | preserves_step].
Qed.

Ltac pass_step :=
  first
    [ apply get_bits_preserves
    | apply new_tmp_preserves
    | apply get_operand_bits_preserves
    | apply emit_preserves; reflexivity
    | match goal with
      | |- preserves _ ((if ?b then _ else _) _ _ _) => destruct b
      end
    | preserves_step ].

Lemma blast_gate_preserves c0 c1 g : preserves I (blast_gate c0 c1 g).
Proof.
  unfold blast_gate.
  destruct (in_list (op_type g) ["AND"; "OR"; "XOR"]).
  { unfold blast_bitwise, bitwise_step, XOR2, AND2, OR2.
    repeat pass_step. }
  destruct (String.eqb (op_type g) "EQ").
  { unfold blast_eq, eq_column, eq_step, eq_reduce, reduce_step,
      XOR2, AND2, NOT1.
    repeat pass_step. }
  destruct (String.eqb (op_type g) "MUX").
  { unfold blast_mux, mux_step, MUX2. repeat pass_step. }
  destruct (String.eqb (op_type g) "ADD").
  { unfold blast_add, add_loop, add_step, XOR2, AND2, OR2.
    repeat pass_step. }
  destruct (String.eqb (op_type g) "DFF_EN_RST").
  { unfold blast_dff_en_rst, dff_loop, dff_step, MUX2, DFF.
    repeat pass_step. }
  destruct (in_list (op_type g) ["NOT"; "BUF"]).
  { unfold blast_not_buf, NOT1, AND2. repeat pass_step. }
  apply preserves_raise.
Qed.

Lemma pass_preserves m : preserves I (pass m).
Proof.
  unfold pass.
  apply preserves_bind; [apply ensure_const_preserves|]. intros c0.
  apply preserves_bind; [apply ensure_const_preserves|]. intros c1.
  apply preserves_bind.
  { intros st a st' HI H. inversion H. subst. exact HI. }
  intros all. apply preserves_bind.
  - apply preserves_forM. intros s.
    apply preserves_bind; [apply get_bits_preserves|].
    intros _. apply preserves_ret.
  - intros _. apply preserves_forM. intros g. apply blast_gate_preserves.
Qed.

End pass_invariant.

(** Every gate that the pass emits is a cell of the primitive set with
    the input count of its tag. *)
Lemma run_emits_primitive_cells m m' :
  run m = Ok m' -> Forall (fun g => is_primitive_cell g = true) (gates m').
Proof.
  unfold run. intros H.
  destruct (pass m (mkState (signals m) ∅ 0%nat [])) as [[u st]|e] eqn:E;
    inversion H; subst; simpl.
  pose (I := fun st => Forall (fun g => is_primitive_cell g = true)
                         (new_gates st)).
  apply (pass_preserves I) in E; [exact E| | | | |]; unfold I; simpl; auto.
  intros st0 g H0 Hg. apply Forall_app. split; [exact H0|].
  constructor; [exact Hg|constructor].
Qed.

(** The pass appends width-1 Signals to the signal dictionary and touches
    nothing that is already there. *)
Lemma run_appends_signals m m' :
  run m = Ok m' ->
  exists added,
    signals m' = signals m ++ added /\ Forall (fun s => width s = 1) added.
Proof.
  unfold run. intros H.
  destruct (pass m (mkState (signals m) ∅ 0%nat [])) as [[u st]|e] eqn:E;
    inversion H; subst; simpl.
  pose (I := fun st => exists added,
                 sigs st = signals m ++ added
                 /\ Forall (fun s => width s = 1) added).
  apply (pass_preserves I) in E; [exact E| | | | |]; unfold I; simpl; auto.
  - intros st0 s (added & Hs & Hw) Hnone Hw1.
    exists (added ++ [s]). split.
    + rewrite store_fresh by assumption. rewrite Hs, <- app_assoc. reflexivity.
    + apply Forall_app. split; [exact Hw|].
      constructor; [exact Hw1|constructor].
  - exists []. split; [rewrite app_nil_r; reflexivity|constructor].
Qed.

End bitblast_facts.

(** ** Bit-Blasting: the signal dictionary and the primitive set *)

Lemma lookup_app_found n l added s :
  netlist.lookup n l = Some s -> netlist.lookup n (l ++ added) = Some s.
Proof.
  induction l as [|x l IH]; simpl; [discriminate|].
  destruct (String.eqb (name x) n); auto.
Qed.

(** C1 as stated fails: the 2-bit buses of [adder2] are still in the signal
    dictionary, with width 2, after the pass. *)
Lemma bitblast_leaves_wide_signals :
  exists m',
    stage_bitblast.run adder2 = Ok m'
    /\ ~ (Forall primitive_gate (gates m')
          /\ Forall (fun s => width s = 1) (signals m')).
Proof.
  eexists. split; [vm_compute; reflexivity|].
  intros [_ H]. apply Forall_inv in H. discriminate H.
Qed.

(** C1, amended: after Bit-Blasting every gate carries a tag of the closed
    primitive set, and every Signal of the dictionary either has width 1
    or was already in the dictionary before the pass. *)
Theorem bitblast_closed_primitive_set m m' :
  stage_bitblast.run m = Ok m' ->
  Forall primitive_gate (gates m')
  /\ Forall (fun s => width s = 1 \/ In s (signals m)) (signals m').
Proof.
  intros H. split.
  - apply bitblast_facts.run_emits_primitive_cells in H.
    eapply List.Forall_impl; [|exact H].
    intros g Hg. apply bitblast_facts.is_primitive_cell_spec in Hg. tauto.
  - apply bitblast_facts.run_appends_signals in H as (added & -> & Hw).
    apply Forall_app. split.
    + apply Forall_forall. intros s Hs. right.
      apply list_elem_of_In. exact Hs.
    + eapply List.Forall_impl; [|exact Hw]. intros s Hs. left. exact Hs.
Qed.

Lemma bitblast_closed_primitive_set_adder2 :
  exists m',
    stage_bitblast.run adder2 = Ok m'
    /\ Forall primitive_gate (gates m')
    /\ Forall (fun s => width s = 1 \/ In s (signals adder2)) (signals m').
Proof.
  eexists. split; [vm_compute; reflexivity|].
  apply (bitblast_closed_primitive_set adder2). vm_compute. reflexivity.
Defined.

(** C10: Bit-Blasting keeps the module's name and every entry of its
    signal dictionary as it is, in place; what it adds are width-1 Signals
    appended behind them, so a name that was present still leads to the
    same Signal. *)
Theorem bitblast_keeps_signal_entries m m' :
  stage_bitblast.run m = Ok m' ->
  mod_name m' = mod_name m
  /\ (exists added,
        signals m' = signals m ++ added
        /\ Forall (fun s => width s = 1) added)
  /\ (forall n s,
        netlist.get_signal n m = Some s -> netlist.get_signal n m' = Some s).
Proof.
  intros H.
  pose proof (bitblast_facts.run_appends_signals _ _ H) as (added & Hs & Hw).
  split; [|split].
  - unfold stage_bitblast.run in H.
    destruct (stage_bitblast.pass m _) as [[u st]|e];
      inversion H; reflexivity.
  - exists added. auto.
  - intros n s. unfold netlist.get_signal. rewrite Hs.
    apply lookup_app_found.
Qed.

Lemma bitblast_keeps_signal_entries_adder2 :
  exists m',
    stage_bitblast.run adder2 = Ok m'
    /\ mod_name m' = mod_name adder2
    /\ (exists added,
          signals m' = signals adder2 ++ added
          /\ Forall (fun s => width s = 1) added)
    /\ (forall n s,
          netlist.get_signal n adder2 = Some s ->
          netlist.get_signal n m' = Some s).
Proof.
  eexists. split; [vm_compute; reflexivity|].
  apply (bitblast_keeps_signal_entries adder2). vm_compute. reflexivity.
Defined.

(** ** Bit-Blasting: the networks emitted for the operators *)

Module network_facts.
Import stage_bitblast stage_export.

Lemma lookup_name n l s : netlist.lookup n l = Some s -> name s = n.
Proof.
  induction l as [|x l IH]; simpl; [discriminate|].
  destruct (String.eqb (name x) n) eqn:E; [|exact IH].
  intros H. inversion H. subst. apply String.eqb_eq. exact E.
Qed.

(** [new_tmp] always returns, emits nothing and names its Signal after the
    counter. *)
Lemma new_tmp_run prefix st :
  exists s st',
    new_tmp prefix st = Ok (s, st')
    /\ new_gates st' = new_gates st
    /\ tmp_idx st' = S (tmp_idx st)
    /\ name s = tmp_name prefix (tmp_idx st).
Proof.
  unfold new_tmp, bind, next_tmp_idx, mod_get_signal, mod_add_signal, ret.
  simpl.
  destruct (netlist.lookup (tmp_name prefix (tmp_idx st)) (sigs st)) eqn:E.
  - eexists _, _. repeat split. simpl. eapply lookup_name. exact E.
  - eexists _, _. repeat split.
Qed.



Lemma take_repeat_length {A} (l : list A) x n :
  length (take n (l ++ repeat x (n - length l))) = n.
Proof. rewrite length_take, length_app, repeat_length. lia. Qed.

(** An operand is always delivered at the width that was asked for. *)
Lemma fetch_length c0 c1 sig w st bits st' :
  0 <= w ->
  get_operand_bits c0 c1 sig w st = Ok (bits, st') ->
  length bits = Z.to_nat w.
Proof.
  intros Hw H. unfold get_operand_bits in H.
  apply bind_ok in H as (l & st1 & _ & H). inversion H. subst. clear H.
  unfold Py.slice_to. destruct (w <? 0) eqn:E; [lia|].
  destruct (Z.of_nat (length l) <? w) eqn:E2.
  - replace (Z.to_nat (w - Z.of_nat (length l)))
      with (Z.to_nat w - length l)%nat by lia.
    apply take_repeat_length.
  - rewrite length_take. lia.
Qed.



(** *** Arithmetic of bit vectors *)





(** *** The ripple-carry network of [ADD] *)

(** One pass of the loop emits the seven gates of a full adder. *)
Lemma add_step_run a_bits b_bits out_bits carry i x y sbit st :
  a_bits !! i = Some x -> b_bits !! i = Some y -> out_bits !! i = Some sbit ->
  exists cnext st' t1 t_ab t_ac t_bc t_or1,
    add_step a_bits b_bits out_bits carry i st = Ok (cnext, st')
    /\ new_gates st' = new_gates st ++
         [ mkGate "XOR" [x; y] t1; mkGate "XOR" [t1; carry] sbit;
           mkGate "AND" [x; y] t_ab; mkGate "AND" [x; carry] t_ac;
           mkGate "AND" [y; carry] t_bc; mkGate "OR" [t_ab; t_ac] t_or1;
           mkGate "OR" [t_or1; t_bc] cnext ].
Proof.
  intros Ha Hb Ho. unfold add_step.
  destruct (new_tmp_run "xor" st) as (t1 & s1 & E1 & G1 & _).
  rewrite (bind_eq _ _ _ _ _ E1).
  rewrite (bind_eq _ _ _ _ _ (index_eq _ _ _ _ Ha)).
  rewrite (bind_eq _ _ _ _ _ (index_eq _ _ _ _ Hb)).
  erewrite bind_eq by reflexivity.
  rewrite (bind_eq _ _ _ _ _ (index_eq _ _ _ _ Ho)).
  erewrite bind_eq by reflexivity.
  match goal with |- context [bind (new_tmp "and") _ ?s] =>
    destruct (new_tmp_run "and" s) as (t_ab & s2 & E2 & G2 & _) end.
  rewrite (bind_eq _ _ _ _ _ E2).
  destruct (new_tmp_run "and" s2) as (t_ac & s3 & E3 & G3 & _).
  rewrite (bind_eq _ _ _ _ _ E3).
  destruct (new_tmp_run "and" s3) as (t_bc & s4 & E4 & G4 & _).
  rewrite (bind_eq _ _ _ _ _ E4).
  do 3 (erewrite bind_eq by reflexivity).
  match goal with |- context [bind (new_tmp "or") _ ?s] =>
    destruct (new_tmp_run "or" s) as (t_or1 & s5 & E5 & G5 & _) end.
  rewrite (bind_eq _ _ _ _ _ E5).
  erewrite bind_eq by reflexivity.
  match goal with |- context [bind (new_tmp "or") _ ?s] =>
    destruct (new_tmp_run "or" s) as (cnext & s6 & E6 & G6 & _) end.
  rewrite (bind_eq _ _ _ _ _ E6).
  erewrite bind_eq by reflexivity.
  eexists cnext, _, t1, t_ab, t_ac, t_bc, t_or1.
  split; [reflexivity|].
  simpl. rewrite G6. simpl. rewrite G5. simpl. rewrite G4, G3, G2. simpl.
  rewrite G1. repeat rewrite <- app_assoc. reflexivity.
Qed.



(** *** Evaluation in netlist order *)

Lemma in_list_In s l : in_list s l = true <-> In s l.
Proof.
  unfold in_list. rewrite existsb_exists. split.
  - intros (x & Hx & E). apply String.eqb_eq in E. subst. exact Hx.
  - intros H. exists s. split; [exact H|apply String.eqb_refl].
Qed.

Lemma in_list_false s l : in_list s l = false <-> ~ In s l.
Proof.
  rewrite <- in_list_In. destruct (in_list s l); split; intros H;
    try discriminate; try reflexivity; try tauto.
Qed.

Lemma write_other n v env k : k <> n -> write n v env k = env k.
Proof.
  intros H. unfold write. destruct (String.eqb k n) eqn:E; [|reflexivity].
  apply String.eqb_eq in E. contradiction.
Qed.

Lemma write_same n v env : write n v env n = v.
Proof. unfold write. rewrite String.eqb_refl. reflexivity. Qed.

Lemma table_shape op ins ins' :
  length ins = length ins' ->
  table op ins = None -> table op ins' = None.
Proof.
  unfold table. intros Hl.
  repeat match goal with
         | |- context [String.eqb op ?s] => destruct (String.eqb op s)
         end;
    destruct ins as [|a [|b [|c [|d ins]]]];
    destruct ins' as [|a' [|b' [|c' [|d' ins']]]];
    simpl in Hl; try discriminate; auto.
Qed.

Lemma has_table_false env g : has_table g = false -> gate_value env g = None.
Proof.
  unfold has_table, gate_value. intros H.
  destruct (table (op_type g) (map (fun _ => false) (inputs g))) eqn:E;
    [discriminate|].
  eapply table_shape; [|exact E]. rewrite !length_map. reflexivity.
Qed.

Lemma has_table_true env g :
  has_table g = true -> exists v, gate_value env g = Some v.
Proof.
  unfold has_table, gate_value. intros H.
  destruct (table (op_type g) (map (fun s => env (name s)) (inputs g)))
    eqn:E; [eauto|].
  eapply table_shape in E; [rewrite E in H; discriminate|].
  rewrite !length_map. reflexivity.
Qed.

Lemma gate_value_ext env env' g :
  (forall n, In n (map name (inputs g)) -> env n = env' n) ->
  gate_value env g = gate_value env' g.
Proof.
  intros H. unfold gate_value. f_equal.
  induction (inputs g) as [|s l IH]; simpl; [reflexivity|].
  rewrite H by (simpl; auto). f_equal. apply IH.
  intros n Hn. apply H. simpl. auto.
Qed.

(** Evaluation of a well-ordered netlist leaves alone every net that was
    read or written before. *)
Lemma simulate_frame gs : forall reads writes env n,
  well_ordered_from reads writes gs = true ->
  In n reads \/ In n writes ->
  simulate gs env n = env n.
Proof.
  induction gs as [|g gs IH]; intros reads writes env n Hwo Hn; simpl;
    [reflexivity|].
  simpl in Hwo. destruct (has_table g) eqn:Ht.
  - apply andb_prop in Hwo as [Hwo Hrest].
    apply andb_prop in Hwo as [Hr Hw].
    apply negb_true_iff, in_list_false in Hr, Hw.
    destruct (has_table_true env g Ht) as [v Hv]. rewrite Hv.
    rewrite (IH _ _ _ n Hrest).
    + apply write_other. intros ->. destruct Hn as [Hn|Hn]; [|tauto].
      apply Hr. apply in_or_app. auto.
    + destruct Hn as [Hn|Hn]; [left; apply in_or_app; auto|right; simpl; auto].
  - rewrite (has_table_false env g Ht).
    apply (IH _ _ _ n Hwo).
    destruct Hn as [Hn|Hn]; [left; apply in_or_app; auto|right; auto].
Qed.

(** Evaluation of a well-ordered netlist yields a valuation that satisfies
    every truth table of the netlist. *)
Lemma simulate_satisfies gs : forall reads writes env,
  well_ordered_from reads writes gs = true ->
  satisfies (simulate gs env) gs.
Proof.
  induction gs as [|g gs IH]; intros reads writes env Hwo; simpl;
    [constructor|].
  simpl in Hwo. destruct (has_table g) eqn:Ht.
  - apply andb_prop in Hwo as [Hwo Hrest].
    apply andb_prop in Hwo as [Hr Hw].
    apply negb_true_iff, in_list_false in Hr, Hw.
    destruct (has_table_true env g Ht) as [v Hv]. rewrite Hv.
    constructor; [|eapply IH; exact Hrest].
    unfold holds.
    assert (Hg : gate_value (simulate gs (write (name (output g)) v env)) g
                 = Some v).
    { rewrite <- Hv. apply gate_value_ext. intros n Hn.
      rewrite (simulate_frame _ _ _ _ n Hrest)
        by (left; apply in_or_app; auto).
      apply write_other. intros ->. apply Hr. apply in_or_app. auto. }
    rewrite Hg.
    rewrite (simulate_frame _ _ _ _ (name (output g)) Hrest)
      by (right; simpl; auto).
    apply write_same.
  - rewrite (has_table_false env g Ht).
    constructor; [|eapply IH; exact Hwo].
    unfold holds. rewrite has_table_false; [exact Logic.I|exact Ht].
Qed.

(** *** The comparator network of [EQ] *)

Lemma eq_step_run a_bits b_bits eq_bits i x y st :
  a_bits !! i = Some x -> b_bits !! i = Some y ->
  exists t_xor t_xnor st',
    eq_step a_bits b_bits eq_bits i st = Ok (eq_bits ++ [t_xnor], st')
    /\ new_gates st' = new_gates st ++
         [mkGate "XOR" [x; y] t_xor; mkGate "NOT" [t_xor] t_xnor].
Proof.
  intros Ha Hb. unfold eq_step.
  destruct (new_tmp_run "xor_eq" st) as (t_xor & s1 & E1 & G1 & _).
  rewrite (bind_eq _ _ _ _ _ E1).
  destruct (new_tmp_run "xnor_eq" s1) as (t_xnor & s2 & E2 & G2 & _).
  rewrite (bind_eq _ _ _ _ _ E2).
  rewrite (bind_eq _ _ _ _ _ (index_eq _ _ _ _ Ha)).
  rewrite (bind_eq _ _ _ _ _ (index_eq _ _ _ _ Hb)).
  do 2 (erewrite bind_eq by reflexivity).
  eexists t_xor, t_xnor, _. split; [reflexivity|].
  simpl. rewrite G2, G1, <- app_assoc. reflexivity.
Qed.


Lemma reduce_step_run eq_bits curr i e st :
  eq_bits !! i = Some e ->
  exists next_tmp st',
    reduce_step eq_bits curr i st = Ok (next_tmp, st')
    /\ new_gates st' = new_gates st ++ [mkGate "AND" [curr; e] next_tmp].
Proof.
  intros He. unfold reduce_step.
  destruct (new_tmp_run "and_red" st) as (t & s1 & E1 & G1 & _).
  rewrite (bind_eq _ _ _ _ _ E1).
  rewrite (bind_eq _ _ _ _ _ (index_eq _ _ _ _ He)).
  erewrite bind_eq by reflexivity.
  eexists t, _. split; [reflexivity|]. simpl. rewrite G1. reflexivity.
Qed.





(** *** The register network of [DFF_EN_RST] *)

Lemma dff_step_run en_b rst_b clk_b d_en_bits d_rst_bits q_old_bits q_bits
    i d qo r q st :
  d_en_bits !! i = Some d -> q_old_bits !! i = Some qo ->
  d_rst_bits !! i = Some r -> q_bits !! i = Some q ->
  exists mux_en mux_rst st',
    dff_step en_b rst_b clk_b d_en_bits d_rst_bits q_old_bits q_bits i st
      = Ok (tt, st')
    /\ new_gates st' = new_gates st ++
         [ mkGate "MUX" [en_b; d; qo] mux_en;
           mkGate "MUX" [rst_b; r; mux_en] mux_rst;
           mkGate "DFF" [mux_rst; clk_b] q ].
Proof.
  intros Hd Hqo Hr Hq. unfold dff_step.
  destruct (new_tmp_run "mux" st) as (mux_en & s1 & E1 & G1 & _).
  rewrite (bind_eq _ _ _ _ _ E1).
  rewrite (bind_eq _ _ _ _ _ (index_eq _ _ _ _ Hd)).
  rewrite (bind_eq _ _ _ _ _ (index_eq _ _ _ _ Hqo)).
  erewrite bind_eq by reflexivity.
  match goal with |- context [bind (new_tmp "mux") _ ?s] =>
    destruct (new_tmp_run "mux" s) as (mux_rst & s2 & E2 & G2 & _) end.
  rewrite (bind_eq _ _ _ _ _ E2).
  rewrite (bind_eq _ _ _ _ _ (index_eq _ _ _ _ Hr)).
  erewrite bind_eq by reflexivity.
  rewrite (bind_eq _ _ _ _ _ (index_eq _ _ _ _ Hq)).
  eexists mux_en, mux_rst, _. split; [reflexivity|].
  simpl. rewrite G2. simpl. rewrite G1, <- !app_assoc. reflexivity.
Qed.



End network_facts.



(** The scenario of the specification: the 2-bit adder with a = 1 and
    b = 1. Evaluating the emitted netlist in order settles every net, and
    the output reads 2. *)
Example adder2_one_plus_one :
  exists m',
    stage_bitblast.run adder2 = Ok m'
    /\ stage_export.satisfies
         (stage_export.simulate (gates m') (ones ["a_0"; "b_0"])) (gates m')
    /\ map (stage_export.simulate (gates m') (ones ["a_0"; "b_0"]))
         ["y_0"; "y_1"] = [false; true].
Proof.
  eexists. split; [vm_compute; reflexivity|]. split.
  - apply (network_facts.simulate_satisfies _ [] []). vm_compute. reflexivity.
  - vm_compute. reflexivity.
Qed.



(** The comparator on two equal and on two different operands: evaluation
    in netlist order settles every net; CONST1 is driven to 1 by the
    exporter. *)
Example comparator2_scenarios :
  exists m',
    stage_bitblast.run comparator2 = Ok m'
    /\ stage_export.satisfies
         (stage_export.simulate (gates m') (ones ["CONST1"; "a_1"; "b_1"]))
         (gates m')
    /\ stage_export.simulate (gates m') (ones ["CONST1"; "a_1"; "b_1"]) "eq"
       = true
    /\ stage_export.simulate (gates m') (ones ["CONST1"; "a_1"; "b_0"]) "eq"
       = false.
Proof.
  eexists. split; [vm_compute; reflexivity|]. split; [|split].
  - apply (network_facts.simulate_satisfies _ [] []). vm_compute. reflexivity.
  - vm_compute. reflexivity.
  - vm_compute. reflexivity.
Qed.



(** The scenario of the specification: with reset asserted, enable set and
    all data and state bits at 1, both bits of the register go to the
    reset value 0 at the clock edge. *)
Example register2_under_reset :
  exists m',
    stage_bitblast.run register2 = Ok m'
    /\ let settled :=
         stage_export.simulate (gates m')
           (ones ["CONST1"; "rst"; "en"; "d_0"; "d_1"; "q_0"; "q_1"]) in
       stage_export.satisfies settled (gates m')
       /\ map (stage_export.latch_next (gates m') settled) ["q_0"; "q_1"]
          = [Some false; Some false].
Proof.
  eexists. split; [vm_compute; reflexivity|]. split.
  - apply (network_facts.simulate_satisfies _ [] []). vm_compute. reflexivity.
  - vm_compute. reflexivity.
Qed.

(** ** Decimal text and constant names *)

Module const_facts.
Import stage_bitblast.

Lemma uint_value_pos d : forall acc,
  uint_value d (N.pos acc) = N.pos (Pos.of_uint_acc d acc).
Proof.
  induction d; intros acc; simpl; try reflexivity;
    match goal with
    | |- uint_value _ ?a = _ =>
        match type of IHd with
        | forall acc, _ = N.pos (Pos.of_uint_acc _ acc) =>
            rewrite <- IHd; f_equal; lia
        end
    end.
Qed.

Lemma uint_value_of_uint d : uint_value d 0 = N.of_uint d.
Proof.
  unfold N.of_uint. induction d; simpl; try reflexivity; try exact IHd;
    apply (uint_value_pos d).
Qed.

Lemma string_of_uint_digits d :
  all_chars Py.is_digit (NilEmpty.string_of_uint d) = true.
Proof. induction d; simpl; auto. Qed.

Lemma scan_uint d : forall acc nd,
  exists nd',
    Py.scan_digits 10 false acc nd (NilEmpty.string_of_uint d)
    = Some (uint_value d acc, nd', EmptyString)
    /\ (nd <= nd')%nat /\ (d <> Decimal.Nil -> nd < nd')%nat.
Proof.
  induction d; intros acc nd;
    try (simpl;
         match goal with
         | |- context [Py.scan_digits 10 false ?a ?n
                         (NilEmpty.string_of_uint d)] =>
             destruct (IHd a n) as (nd' & -> & Hle & _);
             exists nd'; split; [reflexivity|split; [lia|intros _; lia]]
         end).
  exists nd. simpl. split; [reflexivity|split; [lia|congruence]].
Qed.

Lemma nzhead_not_D0 d u : Decimal.nzhead d <> Decimal.D0 u.
Proof. induction d; simpl; try discriminate. exact IHd. Qed.

(** The numeral of a number has no leading zero, unless it is 0. *)
Lemma to_uint_shape (v : N) :
  N.to_uint v = Decimal.D0 Decimal.Nil
  \/ (N.to_uint v <> Decimal.Nil /\ forall u, N.to_uint v <> Decimal.D0 u).
Proof.
  pose proof (DecimalN.Unsigned.to_of (N.to_uint v)) as H.
  rewrite DecimalN.Unsigned.of_to in H. unfold Decimal.unorm in H.
  destruct (Decimal.nzhead (N.to_uint v)) eqn:E; [left; exact H|..];
    right; rewrite H; split; try discriminate; intros u' Hu;
    rewrite <- E in Hu; exact (nzhead_not_D0 _ _ Hu).
Qed.


Lemma lstrip_digits s : all_chars Py.is_digit s = true -> Py.lstrip s = s.
Proof.
  destruct s as [|c r]; simpl; [reflexivity|].
  intros H%andb_prop. destruct H as [Hc _].
  assert (Py.is_space c = false) as ->; [|reflexivity].
  unfold Py.is_digit, Py.is_space in *.
  destruct (48 <=? nat_of_ascii c)%nat eqn:E1; [|discriminate].
  apply Nat.leb_le in E1.
  assert ((nat_of_ascii c <=? 13)%nat = false) as -> by (apply Nat.leb_gt; lia).
  assert ((nat_of_ascii c <=? 32)%nat = false) as -> by (apply Nat.leb_gt; lia).
  rewrite !andb_false_r. reflexivity.
Qed.

Lemma digit_not_space c : Py.is_digit c = true -> Py.is_space c = false.
Proof.
  intros H. pose proof (lstrip_digits (String c EmptyString)) as Hl.
  simpl in Hl. rewrite H in Hl. specialize (Hl eq_refl).
  destruct (Py.is_space c); [discriminate|reflexivity].
Qed.




Lemma split_first_digits s rest :
  all_chars Py.is_digit s = true ->
  Py.split_first "_"%char (s +:+ "_" +:+ rest) = (s, Some rest).
Proof.
  induction s as [|c r IH]; simpl; [reflexivity|].
  intros H%andb_prop. destruct H as [Hc Hr].
  rewrite (IH Hr).
  assert (Py.ascii_eqb c "_"%char = false) as ->; [|reflexivity].
  unfold Py.ascii_eqb. apply Ascii.eqb_neq. intros ->. discriminate.
Qed.



Lemma append_cons c r x : String c r +:+ x = String c (r +:+ x).
Proof. reflexivity. Qed.




Lemma digits_no_underscore s :
  all_chars Py.is_digit s = true -> Py.contains_char "_"%char s = false.
Proof.
  induction s as [|c r IH]; simpl; [reflexivity|].
  intros H%andb_prop. destruct H as [Hc Hr]. rewrite (IH Hr), orb_false_r.
  unfold Py.ascii_eqb. apply Ascii.eqb_neq. intros ->. discriminate.
Qed.


End const_facts.




(** A payload that is no number at all gives zero, and a sized literal
    with a digit outside its base stops the pass: the conversion of its
    digits is not guarded. *)
Example const_bits_recovery_and_failure :
  stage_bitblast.const_bits_from_signal CONST0 CONST1
    (mkSignal "CONST_abc_2b_3" 2 false false false) 2 empty_state
  = Ok ([CONST0; CONST0], empty_state)
  /\ stage_bitblast.const_bits_from_signal CONST0 CONST1 const_bad_digit 4
       empty_state
     = Raise ValueError.
Proof. split; vm_compute; reflexivity. Qed.

(** ** Elaboration *)

Module elaboration_facts.
Import stage_elaboration.

Lemma lookup_store_same s l :
  netlist.lookup (name s) (netlist.store s l) = Some s.
Proof.
  induction l as [|x l IH]; simpl.
  - rewrite String.eqb_refl. reflexivity.
  - destruct (String.eqb (name x) (name s)) eqn:E; simpl.
    + rewrite String.eqb_refl. reflexivity.
    + rewrite E. exact IH.
Qed.

Lemma op_map_unfold e op_name l r ew :
  op_map e = Some (op_name, l, r) ->
  _expr_to_signal_and_gates e ew
  = binary_op op_name (_expr_to_signal_and_gates l)
      (_expr_to_signal_and_gates r) ew.
Proof.
  destruct e; simpl; intros H; inversion H; subst; reflexivity.
Qed.

(** The width of the Signal that [_get_or_create_signal] returns. *)
Lemma get_or_create_width n w ai ao ar m :
  exists m',
    _get_or_create_signal n w ai ao ar m = Ok (n, m')
    /\ egates m' = egates m
    /\ attr_width (Some n) m'
       = Ok (width_after_request (netlist.lookup n (esignals m)) w, m').
Proof.
  unfold _get_or_create_signal, attr_width, width_after_request.
  destruct (netlist.lookup n (esignals m)) as [s|] eqn:E.
  - eexists. split; [reflexivity|]. split; [reflexivity|]. simpl.
    pose proof (network_facts.lookup_name _ _ _ E) as Hn. rewrite Hn.
    pose proof (lookup_store_same
                  (mkSignal n
                     (if (width s =? 1) && negb (w =? 1) then w else width s)
                     (is_input s || ai) (is_output s || ao) (is_reg s || ar))
                  (esignals m)) as Hl.
    simpl in Hl. rewrite Hl. simpl.
    destruct (width s =? 1) eqn:E1; simpl; [|reflexivity].
    destruct (w =? 1) eqn:E2; simpl; [|reflexivity].
    apply Z.eqb_eq in E1, E2. rewrite E1, E2. reflexivity.
  - eexists. split; [reflexivity|]. split; [reflexivity|]. simpl.
    pose proof (lookup_store_same (mkSignal n w ai ao ar) (esignals m)) as Hl.
    simpl in Hl. rewrite Hl. reflexivity.
Qed.

(** *** Elaboration does not touch the gate list while it compiles *)

Section gates_kept.
Variable G : list GateRef.
Let kept (m : emod) : Prop := egates m = G.

Lemma get_or_create_keeps n w ai ao ar :
  preserves kept (_get_or_create_signal n w ai ao ar).
Proof.
  intros m a m' HI H.
  destruct (get_or_create_width n w ai ao ar m) as (m2 & E & Hg & _).
  rewrite E in H. inversion H. subst. unfold kept in *. congruence.
Qed.

Lemma attr_width_keeps r : preserves kept (attr_width r).
Proof.
  intros m a m' HI H. unfold attr_width in H.
  destruct r as [n|]; [|discriminate].
  destruct (netlist.lookup n (esignals m)); inversion H. subst. exact HI.
Qed.

Lemma set_width_keeps n w : preserves kept (set_width n w).
Proof.
  intros m a m' HI H. unfold set_width in H.
  destruct (netlist.lookup n (esignals m)); inversion H. subst. exact HI.
Qed.

Lemma len_gates_keeps : preserves kept len_gates.
Proof. intros m a m' HI H. inversion H. subst. exact HI. Qed.

Lemma get_signal_keeps n : preserves kept (get_signal n).
Proof. intros m a m' HI H. inversion H. subst. exact HI. Qed.

Lemma attr_name_keeps e : preserves kept (attr_name e).
Proof. destruct e; simpl; auto using preserves_ret, preserves_raise. Qed.

Lemma unwrap_block_keeps s : preserves kept (unwrap_block s).
Proof.
  destruct s; simpl; auto using preserves_ret, preserves_index.
Qed.

Lemma stmt_left_name_keeps s : preserves kept (stmt_left_name s).
Proof.
  destruct s; simpl; auto using preserves_raise, attr_name_keeps.
Qed.

Lemma stmt_right_keeps s : preserves kept (stmt_right s).
Proof. destruct s; simpl; auto using preserves_raise, preserves_ret. Qed.

Ltac keeps_step :=
  first
    [ apply get_or_create_keeps
    | apply attr_width_keeps
    | apply set_width_keeps
    | apply len_gates_keeps
    | apply get_signal_keeps
    | apply attr_name_keeps
    | preserves_step ].

Lemma expr_keeps e : forall ew, preserves kept (_expr_to_signal_and_gates e ew).
Proof.
  induction e; intros ew; simpl; try unfold binary_op;
    repeat first [apply IHe1 | apply IHe2 | keeps_step].
Qed.

End gates_kept.

(** A predicate on the gate list survives every step that keeps the gate
    list. *)
Lemma keeps_preserves {A} (P : list GateRef -> Prop) (c : E A) :
  (forall G, preserves (fun m => egates m = G) c) ->
  preserves (fun m => P (egates m)) c.
Proof.
  intros Hc m a m' HI H.
  rewrite (Hc (egates m) m a m' eq_refl H). exact HI.
Qed.

Lemma expr_keeps_gates e ew m r m' :
  _expr_to_signal_and_gates e ew m = Ok (r, m') -> egates m' = egates m.
Proof. intros H. exact (expr_keeps (egates m) e ew m r m' eq_refl H). Qed.

Lemma get_or_create_keeps_gates n w ai ao ar m r m' :
  _get_or_create_signal n w ai ao ar m = Ok (r, m') -> egates m' = egates m.
Proof.
  intros H.
  exact (get_or_create_keeps (egates m) n w ai ao ar m r m' eq_refl H).
Qed.

(** The gates that an expression compiles to carry operator tags. *)
Lemma expr_gate_tags e : forall ew m s gs m',
  _expr_to_signal_and_gates e ew m = Ok ((s, gs), m') ->
  Forall (fun g => In (ref_op g) ["ADD"; "EQ"; "AND"; "OR"]) gs.
Proof.
  assert (Hbin : forall op_name cl cr,
    In op_name ["ADD"; "EQ"; "AND"; "OR"] ->
    (forall ew m s gs m', cl ew m = Ok ((s, gs), m') ->
       Forall (fun g => In (ref_op g) ["ADD"; "EQ"; "AND"; "OR"]) gs) ->
    (forall ew m s gs m', cr ew m = Ok ((s, gs), m') ->
       Forall (fun g => In (ref_op g) ["ADD"; "EQ"; "AND"; "OR"]) gs) ->
    forall ew m s gs m', binary_op op_name cl cr ew m = Ok ((s, gs), m') ->
      Forall (fun g => In (ref_op g) ["ADD"; "EQ"; "AND"; "OR"]) gs).
  { intros op_name cl cr Hop Hl Hr ew m s gs m' H. unfold binary_op in H.
    inv_bind H. destruct a as [a_sig a_g]. apply Hl in H0.
    inv_bind H. destruct a as [b_sig b_g]. apply Hr in H1.
    repeat inv_bind H. inversion H. subst.
    repeat (apply Forall_app; split); auto. }
  induction e; intros ew m s gs m' H; simpl in H.
  - repeat inv_bind H. inversion H. subst. constructor.
  - repeat inv_bind H. unfold ret in H. inversion H. subst. constructor.
  - eapply (Hbin "ADD"); [simpl; tauto|exact IHe1|exact IHe2|exact H].
  - eapply (Hbin "EQ"); [simpl; tauto|exact IHe1|exact IHe2|exact H].
  - eapply (Hbin "AND"); [simpl; tauto|exact IHe1|exact IHe2|exact H].
  - eapply (Hbin "OR"); [simpl; tauto|exact IHe1|exact IHe2|exact H].
  - discriminate.
Qed.

Lemma add_gates_appends gs : forall m,
  add_gates gs m
  = Ok (tt, mkEmod (emod_name m) (esignals m) (egates m ++ gs)).
Proof.
  unfold add_gates, forM. induction gs as [|g gs IH]; intros m; simpl.
  - rewrite app_nil_r. destruct m; reflexivity.
  - unfold bind at 1. simpl. unfold add_gate at 1.
    change (foldM (fun (_ : unit) (x : GateRef) => add_gate x) gs tt
              (mkEmod (emod_name m) (esignals m) (egates m ++ [g]))
            = Ok (tt, mkEmod (emod_name m) (esignals m)
                        (egates m ++ g :: gs))).
    rewrite IH. simpl. rewrite <- app_assoc. reflexivity.
Qed.

Lemma unwrap_block_eq s body m :
  unwrapped s = Some body -> unwrap_block s m = Ok (body, m).
Proof.
  destruct s as [[|x l]| | | |]; simpl; intros H; inversion H; reflexivity.
Qed.

End elaboration_facts.

(** C8 as stated fails: [a + b] on two 4-bit operands, compiled for a
    2-bit target, gets a 2-bit result Signal, not one of width
    max(4, 4, 2). *)
Lemma adder_result_takes_expected_width :
  exists m',
    stage_elaboration._expr_to_signal_and_gates a_plus_b (Some 2)
      wide_operands
    = Ok (("tmp_ADD_0", [stage_elaboration.mkGateRef "ADD" ["a"; "b"]
                           "tmp_ADD_0"]), m')
    /\ stage_elaboration.attr_width (Some "a") m' = Ok (4, m')
    /\ stage_elaboration.attr_width (Some "b") m' = Ok (4, m')
    /\ stage_elaboration.attr_width (Some "tmp_ADD_0") m' = Ok (2, m')
    /\ 2 <> Z.max (Z.max 4 4) 2.
Proof.
  eexists. split; [vm_compute; reflexivity|].
  repeat split; try reflexivity. discriminate.
Qed.

(** C8, amended: the result of a binary operator is the Signal named
    [tmp_<TAG>_<number of gates in the module>]. The width asked for is 1
    for ==, && and ||; for + it is the contextual expected width when one
    is given and not 0, and max(left width, right width) otherwise. A
    Signal created under that name has this width; a Signal that already
    has the name is reused and keeps its width unless that width is 1. *)
Theorem binary_result_width
    e op_name l r ew m a_sig a_g m1 b_sig b_g m2 wa wb :
  op_map e = Some (op_name, l, r) ->
  stage_elaboration._expr_to_signal_and_gates l
    (if String.eqb op_name "ADD" then ew else None) m
    = Ok ((a_sig, a_g), m1) ->
  stage_elaboration._expr_to_signal_and_gates r
    (if String.eqb op_name "ADD" then ew else None) m1
    = Ok ((b_sig, b_g), m2) ->
  stage_elaboration.attr_width (Some a_sig) m2 = Ok (wa, m2) ->
  stage_elaboration.attr_width (Some b_sig) m2 = Ok (wb, m2) ->
  exists m',
    stage_elaboration._expr_to_signal_and_gates e ew m
    = Ok (("tmp_" +:+ op_name +:+ "_"
             +:+ Py.str_nat (length (stage_elaboration.egates m2)),
           a_g ++ b_g
             ++ [stage_elaboration.mkGateRef op_name [a_sig; b_sig]
                   ("tmp_" +:+ op_name +:+ "_"
                      +:+ Py.str_nat
                            (length (stage_elaboration.egates m2)))]), m')
    /\ stage_elaboration.attr_width
         (Some ("tmp_" +:+ op_name +:+ "_"
                  +:+ Py.str_nat (length (stage_elaboration.egates m2)))) m'
       = Ok (width_after_request
               (netlist.lookup
                  ("tmp_" +:+ op_name +:+ "_"
                     +:+ Py.str_nat (length (stage_elaboration.egates m2)))
                  (stage_elaboration.esignals m2))
               (result_width op_name ew wa wb), m').
Proof.
  intros Hop Hl Hr Hwa Hwb.
  rewrite (elaboration_facts.op_map_unfold e op_name l r ew Hop).
  unfold stage_elaboration.binary_op.
  rewrite (bind_eq _ _ _ _ _ Hl). cbv beta iota.
  rewrite (bind_eq _ _ _ _ _ Hr). cbv beta iota.
  destruct (elaboration_facts.get_or_create_width
              ("tmp_" +:+ op_name +:+ "_"
                 +:+ Py.str_nat (length (stage_elaboration.egates m2)))
              (result_width op_name ew wa wb) false false false m2)
    as (m' & Hc & _ & Hw).
  exists m'. split; [|exact Hw].
  assert (Hout :
    (if in_list op_name ["EQ"; "AND"; "OR"]
     then ret 1
     else
       let* wa0 := stage_elaboration.attr_width (Some a_sig) in
       let* wb0 := stage_elaboration.attr_width (Some b_sig) in
       ret (stage_elaboration.or_else ew (Z.max wa0 wb0))) m2
    = Ok (result_width op_name ew wa wb, m2)).
  { unfold result_width. destruct (in_list op_name ["EQ"; "AND"; "OR"]).
    - reflexivity.
    - rewrite (bind_eq _ _ _ _ _ Hwa), (bind_eq _ _ _ _ _ Hwb).
      reflexivity. }
  rewrite (bind_eq _ _ _ _ _ Hout).
  erewrite bind_eq by reflexivity. cbv beta.
  rewrite (bind_eq _ _ _ _ _ Hc).
  unfold ret. rewrite <- app_assoc. reflexivity.
Qed.

Lemma binary_result_width_a_plus_b :
  exists m',
    stage_elaboration._expr_to_signal_and_gates a_plus_b (Some 2)
      wide_operands
    = Ok (("tmp_" +:+ "ADD" +:+ "_"
             +:+ Py.str_nat (length (stage_elaboration.egates wide_operands)),
           [] ++ []
             ++ [stage_elaboration.mkGateRef "ADD" ["a"; "b"]
                   ("tmp_" +:+ "ADD" +:+ "_"
                      +:+ Py.str_nat
                            (length
                               (stage_elaboration.egates wide_operands)))]),
          m')
    /\ stage_elaboration.attr_width
         (Some ("tmp_" +:+ "ADD" +:+ "_"
                  +:+ Py.str_nat
                        (length (stage_elaboration.egates wide_operands))))
         m'
       = Ok (width_after_request
               (netlist.lookup
                  ("tmp_" +:+ "ADD" +:+ "_"
                     +:+ Py.str_nat
                           (length (stage_elaboration.egates wide_operands)))
                  (stage_elaboration.esignals wide_operands))
               (result_width "ADD" (Some 2) 4 4), m').
Proof.
  apply (binary_result_width a_plus_b "ADD"
           (stage_elaboration.Identifier "a")
           (stage_elaboration.Identifier "b") (Some 2) wide_operands
           "a" [] wide_operands "b" [] wide_operands 4 4);
    vm_compute; reflexivity.
Defined.

(** C4 as stated fails: a clocked process whose body is the plain
    assignment [q <= d] is not of the supported shape, yet Elaboration
    returns a module, and that module has no gate for the process. *)
Lemma plain_register_is_dropped :
  supported_shape
    (stage_elaboration.NonblockingSubstitution
       (stage_elaboration.Identifier "q") (stage_elaboration.Identifier "d"))
  = false
  /\ exists m,
       stage_elaboration.run plain_register = Ok m
       /\ stage_elaboration.egates m = [].
Proof.
  split; [reflexivity|]. eexists. split; [vm_compute; reflexivity|].
  reflexivity.
Qed.

(** C4, amended: a clocked process whose body (the first statement of a
    surrounding block, if any) does not have the supported shape raises no
    error on that account. When the body is not a conditional and the
    first entry of the sensitivity list names the clock, the process
    handler returns and leaves the gate list as it is; and whenever the
    handler returns for an unsupported body, the gates it has added
    contain no DFF_EN_RST gate. *)
Theorem clocked_process_unsupported_shape sens_list statement body m :
  unwrapped statement = Some body ->
  supported_shape body = false ->
  (is_conditional body = false ->
   forall clk ty rest,
     sens_list
     = stage_elaboration.mkSens (Some (stage_elaboration.Identifier clk)) ty
         :: rest ->
     exists m',
       stage_elaboration.clocked_process sens_list statement m = Ok (tt, m')
       /\ stage_elaboration.egates m' = stage_elaboration.egates m)
  /\ (forall m',
        stage_elaboration.clocked_process sens_list statement m
        = Ok (tt, m') ->
        exists added,
          stage_elaboration.egates m' = stage_elaboration.egates m ++ added
          /\ Forall (fun g => stage_elaboration.ref_op g <> "DFF_EN_RST")
               added).
Proof.
  intros Hbody Hshape. split.
  - intros Hcond clk ty rest ->.
    unfold stage_elaboration.clocked_process.
    erewrite bind_eq by reflexivity. cbv beta. simpl stage_elaboration.sens_sig.
    erewrite bind_eq by reflexivity.
    destruct (elaboration_facts.get_or_create_width clk 1 true false false m)
      as (m1 & E1 & G1 & _).
    rewrite (bind_eq _ _ _ _ _ E1).
    rewrite (bind_eq _ _ _ _ _
               (elaboration_facts.unwrap_block_eq statement body m1 Hbody)).
    exists m1. split; [|exact G1].
    destruct body; try reflexivity. discriminate.
  - intros m' H.
    pose (P := fun gs : list stage_elaboration.GateRef =>
                 exists added,
                   gs = stage_elaboration.egates m ++ added
                   /\ Forall
                        (fun g => stage_elaboration.ref_op g <> "DFF_EN_RST")
                        added).
    assert (HP : preserves (fun x => P (stage_elaboration.egates x))
                   (stage_elaboration.clocked_process sens_list statement)).
    { unfold stage_elaboration.clocked_process.
      apply preserves_bind; [apply preserves_index|intros first].
      apply preserves_bind.
      { destruct (stage_elaboration.sens_sig first);
          [|apply preserves_raise].
        apply elaboration_facts.keeps_preserves.
        intros G. apply elaboration_facts.attr_name_keeps. }
      intros clk_name. apply preserves_bind.
      { apply elaboration_facts.keeps_preserves.
        intros G. apply elaboration_facts.get_or_create_keeps. }
      intros clk_sig.
      apply (preserves_bind_with _ (fun b => b = body)).
      { intros st a st' HI Hu.
        rewrite (elaboration_facts.unwrap_block_eq statement body st Hbody)
          in Hu.
        inversion Hu. subst. auto. }
      intros b ->.
      destruct body as [|cond then_stmt else_stmt| | |];
        try apply preserves_ret.
      apply preserves_bind.
      { apply elaboration_facts.keeps_preserves.
        intros G. apply elaboration_facts.attr_name_keeps. }
      intros rst_name. apply preserves_bind.
      { apply elaboration_facts.keeps_preserves.
        intros G. apply elaboration_facts.get_or_create_keeps. }
      intros rst_sig. apply preserves_bind.
      { apply elaboration_facts.keeps_preserves.
        intros G. apply elaboration_facts.unwrap_block_keeps. }
      intros then_body. apply preserves_bind.
      { apply elaboration_facts.keeps_preserves.
        intros G. apply elaboration_facts.stmt_left_name_keeps. }
      intros target_name. apply preserves_bind.
      { apply elaboration_facts.keeps_preserves.
        intros G. apply elaboration_facts.get_or_create_keeps. }
      intros target_sig. apply preserves_bind.
      { apply elaboration_facts.keeps_preserves.
        intros G. apply elaboration_facts.stmt_right_keeps. }
      intros rst_rhs. apply preserves_bind.
      { apply elaboration_facts.keeps_preserves.
        intros G. apply elaboration_facts.attr_width_keeps. }
      intros tw.
      apply (preserves_bind_with _
               (fun r => Forall
                           (fun g => In (stage_elaboration.ref_op g)
                                       ["ADD"; "EQ"; "AND"; "OR"])
                           (snd r))).
      { intros st [rv g_rst] st' HI He. split.
        - rewrite (elaboration_facts.expr_keeps_gates _ _ _ _ _ He).
          exact HI.
        - exact (elaboration_facts.expr_gate_tags _ _ _ _ _ _ He). }
      intros [rst_val_sig g_rst] Htags. simpl in Htags.
      apply preserves_bind.
      { intros st a st' (added & Hadd & Hno) Hg.
        rewrite elaboration_facts.add_gates_appends in Hg.
        inversion Hg. subst. simpl. exists (added ++ g_rst). split.
        - rewrite Hadd, <- app_assoc. reflexivity.
        - apply Forall_app. split; [exact Hno|].
          eapply List.Forall_impl; [|exact Htags].
          intros g Hg' Heq. simpl in Hg'. rewrite Heq in Hg'.
          intuition discriminate. }
      intros _. destruct else_stmt as [[]|]; try apply preserves_ret.
      discriminate Hshape. }
    apply (HP m tt m'); [|exact H].
    exists []. rewrite app_nil_r. split; [reflexivity|constructor].
Qed.

Lemma clocked_process_unsupported_shape_plain_register :
  (is_conditional
     (stage_elaboration.NonblockingSubstitution
        (stage_elaboration.Identifier "q") (stage_elaboration.Identifier "d"))
   = false ->
   forall clk ty rest,
     [stage_elaboration.mkSens (Some (stage_elaboration.Identifier "clk"))
        "posedge"]
     = stage_elaboration.mkSens (Some (stage_elaboration.Identifier clk)) ty
         :: rest ->
     exists m',
       stage_elaboration.clocked_process
         [stage_elaboration.mkSens
            (Some (stage_elaboration.Identifier "clk")) "posedge"]
         (stage_elaboration.NonblockingSubstitution
            (stage_elaboration.Identifier "q")
            (stage_elaboration.Identifier "d"))
         plain_register_ports = Ok (tt, m')
       /\ stage_elaboration.egates m'
          = stage_elaboration.egates plain_register_ports)
  /\ (forall m',
        stage_elaboration.clocked_process
          [stage_elaboration.mkSens
             (Some (stage_elaboration.Identifier "clk")) "posedge"]
          (stage_elaboration.NonblockingSubstitution
             (stage_elaboration.Identifier "q")
             (stage_elaboration.Identifier "d"))
          plain_register_ports = Ok (tt, m') ->
        exists added,
          stage_elaboration.egates m'
          = stage_elaboration.egates plain_register_ports ++ added
          /\ Forall (fun g => stage_elaboration.ref_op g <> "DFF_EN_RST")
               added).
Proof.
  apply (clocked_process_unsupported_shape
           [stage_elaboration.mkSens
              (Some (stage_elaboration.Identifier "clk")) "posedge"]
           (stage_elaboration.NonblockingSubstitution
              (stage_elaboration.Identifier "q")
              (stage_elaboration.Identifier "d"))
           (stage_elaboration.NonblockingSubstitution
              (stage_elaboration.Identifier "q")
              (stage_elaboration.Identifier "d"))
           plain_register_ports); reflexivity.
Defined.

(** ** Names of bits and temporaries *)

Module name_facts.
Import stage_bitblast.

Lemma append_inj_r s x y : s +:+ x = s +:+ y -> x = y.
Proof.
  induction s as [|c r IH]; [auto|].
  rewrite !const_facts.append_cons. intros H. inversion H. auto.
Qed.

Lemma str_nat_inj i j : Py.str_nat i = Py.str_nat j -> i = j.
Proof.
  unfold Py.str_nat, Py.str_N. intros H.
  apply (f_equal NilEmpty.uint_of_string) in H.
  rewrite !NilEmpty.usu in H. inversion H as [H1].
  apply DecimalN.Unsigned.to_uint_inj in H1. lia.
Qed.

Lemma bit_name_inj n i j : bit_name n i = bit_name n j -> i = j.
Proof.
  unfold bit_name. intros H.
  apply append_inj_r, append_inj_r in H. apply str_nat_inj. exact H.
Qed.

Lemma last_field_app s d :
  Py.contains_char "_"%char d = false -> last_field (s +:+ "_" +:+ d) = d.
Proof.
  intros Hd. induction s as [|c r IH].
  - change (last_field (String "_"%char d) = d). simpl. rewrite Hd.
    reflexivity.
  - rewrite const_facts.append_cons. simpl last_field. rewrite IH.
    assert (Py.contains_char "_"%char (r +:+ "_" +:+ d) = true) as ->;
      [|reflexivity].
    clear. induction r as [|c r IH]; [reflexivity|].
    rewrite const_facts.append_cons. simpl. rewrite IH. apply orb_true_r.
Qed.

Lemma str_nat_no_underscore i :
  Py.contains_char "_"%char (Py.str_nat i) = false.
Proof.
  apply const_facts.digits_no_underscore.
  apply const_facts.string_of_uint_digits.
Qed.

(** The counter can be read back from the name of a temporary. *)
Lemma tmp_name_idx_inj p q i j : tmp_name p i = tmp_name q j -> i = j.
Proof.
  unfold tmp_name. intros H.
  apply append_inj_r in H.
  apply (f_equal last_field) in H.
  rewrite !last_field_app in H by apply str_nat_no_underscore.
  apply str_nat_inj. exact H.
Qed.

Lemma pass_tmp_is_tmp_name k k' n : pass_tmp k k' n -> is_tmp_name n = true.
Proof.
  intros (p & j & Hp & -> & _). unfold tmp_prefixes in Hp. simpl in Hp.
  unfold is_tmp_name, tmp_name.
  repeat (destruct Hp as [<-|Hp];
          [destruct (Py.str_nat j); reflexivity|]).
  contradiction.
Qed.

Lemma pass_tmp_weaken k k' k0 k1 n :
  pass_tmp k k' n -> (k0 <= k)%nat -> (k' <= k1)%nat -> pass_tmp k0 k1 n.
Proof.
  intros (p & j & Hp & Hn & Hj) H0 H1. exists p, j. repeat split; auto; lia.
Qed.

Lemma pass_tmp_disjoint k k' k'' n :
  pass_tmp k k' n -> pass_tmp k' k'' n -> False.
Proof.
  intros (p & j & _ & -> & Hj) (q & i & _ & Hq & Hi).
  apply tmp_name_idx_inj in Hq. lia.
Qed.

End name_facts.


(** ** Bit-Blasting: who drives what *)

Module driver_facts.
Import stage_bitblast.

Lemma advance_refl st : advance st st 0 [].
Proof. unfold advance. rewrite app_nil_r. repeat split. lia. Qed.

Lemma advance_trans st st1 st2 c1 c2 e1 e2 :
  advance st st1 c1 e1 -> advance st1 st2 c2 e2 ->
  advance st st2 (c1 + c2) (e1 ++ e2).
Proof.
  intros (B1 & I1 & G1) (B2 & I2 & G2). unfold advance.
  rewrite B2, B1, I2, I1, G2, G1, app_assoc. repeat split. lia.
Qed.

Lemma new_tmp_spec p st s st' :
  new_tmp p st = Ok (s, st') ->
  name s = tmp_name p (tmp_idx st) /\ advance st st' 1 [].
Proof.
  intros H. unfold new_tmp in H.
  apply bind_ok in H as (idx & st1 & H1 & H). inversion H1. subst. clear H1.
  apply bind_ok in H as (found & st2 & H2 & H). inversion H2. subst. clear H2.
  simpl in H. destruct (netlist.lookup _ _) eqn:E.
  - inversion H. subst. split.
    + eapply network_facts.lookup_name. exact E.
    + unfold advance. simpl. rewrite app_nil_r. repeat split. lia.
  - inversion H. subst. split; [reflexivity|].
    unfold advance. simpl. rewrite app_nil_r. repeat split. lia.
Qed.

Lemma emit_spec g st u st' :
  emit g st = Ok (u, st') -> advance st st' 0 [g].
Proof.
  intros H. inversion H. subst. unfold advance. simpl. repeat split. lia.
Qed.

(** Splits a hypothesis on a sequence of [new_tmp], [index] and [emit]
    at its first step and records what the step does. *)
Ltac step H :=
  match type of H with
  | bind (new_tmp _) _ _ = Ok _ =>
      let t := fresh "t" in
      let s := fresh "s" in
      let Ht := fresh "Ht" in
      let Hn := fresh "Hn" in
      let Ha := fresh "Ha" in
      apply bind_ok in H as (t & s & Ht & H);
      apply new_tmp_spec in Ht as [Hn Ha];
      let Hi := fresh "Hi" in
      pose proof (proj1 (proj2 Ha)) as Hi
  | bind (index _ _) _ _ = Ok _ =>
      let x := fresh "x" in
      let s := fresh "s" in
      let Hx := fresh "Hx" in
      apply bind_ok in H as (x & s & Hx & H);
      apply index_ok in Hx as [Hx ->]
  | bind (emit _) _ _ = Ok _ =>
      let u := fresh "u" in
      let s := fresh "s" in
      let He := fresh "He" in
      apply bind_ok in H as (u & s & He & H);
      apply emit_spec in He;
      let Hi := fresh "Hi" in
      pose proof (proj1 (proj2 He)) as Hi
  | ret _ _ = Ok _ => unfold ret in H; inversion H; subst; clear H
  | emit _ _ = Ok _ => apply emit_spec in H
  end.

(** Chains the recorded steps into one. *)
Ltac chain :=
  repeat match goal with
         | H1 : advance ?a ?b _ _, H2 : advance ?b ?c _ _ |- _ =>
             pose proof (advance_trans _ _ _ _ _ _ _ H1 H2);
             clear H1 H2
         end.

Lemma not_tmp_not_pass_tmp k k' n :
  is_tmp_name n = false -> ~ pass_tmp k k' n.
Proof.
  intros H Hp. apply name_facts.pass_tmp_is_tmp_name in Hp. congruence.
Qed.

Section loop.
Context {B : Type} (body : B -> nat -> M B) (c : nat).
Context (out_bits : list Signal) (valid : nat -> Prop).

Hypothesis Hstep : forall b i st b' st',
  valid i ->
  body b i st = Ok (b', st') ->
  exists emitted,
    advance st st' c emitted
    /\ NoDup (map out_name emitted)
    /\ Forall (fun g =>
                 pass_tmp (tmp_idx st) (tmp_idx st + c) (out_name g)
                 \/ exists o, out_bits !! i = Some o /\ out_name g = name o)
         emitted.
Hypothesis Hinj : forall i j o o',
  out_bits !! i = Some o -> out_bits !! j = Some o' -> name o = name o' ->
  i = j.
Hypothesis Hnontmp : forall i o,
  valid i -> out_bits !! i = Some o -> is_tmp_name (name o) = false.

Lemma loop_spec : forall l b st b' st',
  Forall valid l ->
  NoDup l ->
  foldM body l b st = Ok (b', st') ->
  exists emitted,
    advance st st' (c * length l) emitted
    /\ NoDup (map out_name emitted)
    /\ Forall (fun g =>
                 pass_tmp (tmp_idx st) (tmp_idx st') (out_name g)
                 \/ exists i o,
                      In i l /\ out_bits !! i = Some o /\ out_name g = name o)
         emitted.
Proof.
  induction l as [|i l IH]; intros b st b' st' Hv Hnd H; simpl in H.
  - inversion H. subst. exists []. simpl. rewrite Nat.mul_0_r.
    split; [apply advance_refl|]. split; constructor.
  - apply bind_ok in H as (b1 & st1 & H1 & H2).
    apply NoDup_cons in Hnd as [Hi Hnd].
    apply Forall_cons in Hv as [Hvi Hv].
    destruct (Hstep _ _ _ _ _ Hvi H1) as (e1 & A1 & N1 & F1).
    destruct (IH _ _ _ _ Hv Hnd H2) as (e2 & A2 & N2 & F2).
    assert (Hvj : forall j, In j l -> valid j).
    { intros j Hj. rewrite Forall_forall in Hv. apply Hv.
      apply list_elem_of_In. exact Hj. }
    pose proof A1 as (_ & I1 & _). pose proof A2 as (_ & I2 & _).
    exists (e1 ++ e2). split; [|split].
    + replace (c * length (i :: l))%nat with (c + c * length l)%nat
        by (simpl; lia).
      eapply advance_trans; eassumption.
    + rewrite map_app. apply NoDup_app. split; [exact N1|].
      split; [|exact N2].
      intros n Hn1 Hn2.
      apply list_elem_of_In, in_map_iff in Hn1 as (g1 & <- & Hg1).
      apply list_elem_of_In, in_map_iff in Hn2 as (g2 & Heq & Hg2).
      rewrite Forall_forall in F1, F2.
      specialize (F1 g1 (proj2 (list_elem_of_In _ _) Hg1)).
      specialize (F2 g2 (proj2 (list_elem_of_In _ _) Hg2)).
      destruct F1 as [T1|(o1 & Ho1 & E1)], F2 as [T2|(j & o2 & Hj & Ho2 & E2)].
      * rewrite Heq in T2. rewrite I1 in T2.
        destruct T1 as (p & x & _ & Ep & Hx), T2 as (q & y & _ & Eq & Hy).
        rewrite Ep in Eq. apply name_facts.tmp_name_idx_inj in Eq. lia.
      * apply name_facts.pass_tmp_is_tmp_name in T1.
        rewrite <- Heq, E2, (Hnontmp _ _ (Hvj _ Hj) Ho2) in T1. discriminate.
      * apply name_facts.pass_tmp_is_tmp_name in T2.
        rewrite Heq, E1, (Hnontmp _ _ Hvi Ho1) in T2. discriminate.
      * assert (i = j) as ->.
        { eapply Hinj; [exact Ho1|exact Ho2|congruence]. }
        apply Hi. apply list_elem_of_In. exact Hj.
    + apply Forall_app. split.
      * eapply List.Forall_impl; [|exact F1]. intros g [T|(o & Ho & E)].
        -- left. eapply name_facts.pass_tmp_weaken; [exact T|lia|lia].
        -- right. exists i, o. simpl. auto.
      * eapply List.Forall_impl; [|exact F2].
        intros g [T|(j & o & Hj & Ho & E)].
        -- left. eapply name_facts.pass_tmp_weaken; [exact T|lia|lia].
        -- right. exists j, o. simpl. auto.
Qed.

End loop.

Lemma tmp_is_pass_tmp p j k k' :
  In p tmp_prefixes -> (k <= j < k')%nat -> pass_tmp k k' (tmp_name p j).
Proof. intros Hp Hj. exists p, j. auto. Qed.

(** Two names differ when they are temporaries of different counters, or a
    temporary and a name that is none. *)
Ltac names_differ :=
  match goal with
  | H : tmp_name _ _ = tmp_name _ _ |- _ =>
      apply name_facts.tmp_name_idx_inj in H; lia
  | H : tmp_name ?p ?j = name ?o, Hn : is_tmp_name (name ?o) = false |- _ =>
      rewrite <- H in Hn;
      rewrite (name_facts.pass_tmp_is_tmp_name j (S j) (tmp_name p j)) in Hn;
      [discriminate|apply tmp_is_pass_tmp; [simpl; tauto|lia]]
  | H : name ?o = tmp_name ?p ?j, Hn : is_tmp_name (name ?o) = false |- _ =>
      rewrite H in Hn;
      rewrite (name_facts.pass_tmp_is_tmp_name j (S j) (tmp_name p j)) in Hn;
      [discriminate|apply tmp_is_pass_tmp; [simpl; tauto|lia]]
  end.

Ltac solve_nodup :=
  repeat (apply NoDup_cons_2;
          [let Hin := fresh "Hin" in
           intros Hin; rewrite ?elem_of_cons, elem_of_nil in Hin;
           repeat (destruct Hin as [Hin|Hin]; [names_differ|]);
           exact Hin|]);
  apply NoDup_nil_2.

(** A gate output that is a temporary, or the output bit of this round. *)
Ltac solve_origin :=
  repeat (apply Forall_cons; split;
          [first
             [ left; simpl; unfold out_name; simpl;
               match goal with
               | Hn : name ?t = tmp_name _ _ |- pass_tmp _ _ (name ?t) =>
                   rewrite Hn
               end;
               apply tmp_is_pass_tmp; [simpl; tauto|lia]
             | right; eexists; split; [eassumption|reflexivity] ]|]);
  apply Forall_nil_2.

Ltac solve_round Hnt H :=
  repeat step H; chain;
  match goal with
  | Ha : advance _ _ _ ?e |- _ => exists e; split; [exact Ha|]
  end;
  try match goal with
      | Hx : _ !! _ = Some _ |- _ => pose proof (Hnt _ Hx)
      end;
  split;
  [ simpl; unfold out_name; simpl;
    repeat match goal with
           | Hn : name _ = tmp_name _ _ |- _ => rewrite Hn; clear Hn
           end;
    solve_nodup
  | simpl; solve_origin ].

Section rounds.
Context (out_bits : list Signal) (i : nat).
Hypothesis Hnt : forall o,
  out_bits !! i = Some o -> is_tmp_name (name o) = false.

Lemma add_step_ok a_bits b_bits carry st b' st' :
  add_step a_bits b_bits out_bits carry i st = Ok (b', st') ->
  round_ok out_bits 6 i st st'.
Proof.
  intros H. unfold add_step, XOR2, AND2, OR2 in H. solve_round Hnt H.
Qed.

Lemma bitwise_step_ok constructor a_bits b_bits st u st' :
  constructor = XOR2 \/ constructor = AND2 \/ constructor = OR2 ->
  bitwise_step constructor a_bits b_bits out_bits i st = Ok (u, st') ->
  round_ok out_bits 0 i st st'.
Proof.
  intros [-> | [-> | ->]] H; unfold bitwise_step, XOR2, AND2, OR2 in H;
    solve_round Hnt H.
Qed.

Lemma mux_step_ok sel_bit t_bits f_bits st u st' :
  mux_step sel_bit t_bits f_bits out_bits i st = Ok (u, st') ->
  round_ok out_bits 0 i st st'.
Proof. intros H. unfold mux_step, MUX2 in H. solve_round Hnt H. Qed.

Lemma dff_step_ok en_b rst_b clk_b d_en_bits d_rst_bits q_old_bits st u st' :
  dff_step en_b rst_b clk_b d_en_bits d_rst_bits q_old_bits out_bits i st
    = Ok (u, st') ->
  round_ok out_bits 2 i st st'.
Proof. intros H. unfold dff_step, MUX2, DFF in H. solve_round Hnt H. Qed.

End rounds.

Lemma no_bits_not_tmp (j : nat) (o : Signal) :
  ([] : list Signal) !! j = Some o -> is_tmp_name (name o) = false.
Proof. discriminate. Qed.

Lemma eq_step_ok a_bits b_bits eq_bits i st b' st' :
  eq_step a_bits b_bits eq_bits i st = Ok (b', st') ->
  round_ok [] 2 i st st'.
Proof.
  intros H. unfold eq_step, XOR2, NOT1 in H.
  solve_round (no_bits_not_tmp i) H.
Qed.

Lemma reduce_step_ok eq_bits curr i st b' st' :
  reduce_step eq_bits curr i st = Ok (b', st') ->
  round_ok [] 1 i st st'.
Proof.
  intros H. unfold reduce_step, AND2 in H.
  solve_round (no_bits_not_tmp i) H.
Qed.

(** *** The bit cache *)

Lemma expand_bits_names sig : forall l acc st blist st',
  foldM (fun blist i =>
           let bn := bit_name (name sig) i in
           let* found := mod_get_signal bn in
           let* b := match found with
                     | Some b => ret b
                     | None =>
                         let b := mkSignal bn 1 (is_input sig)
                                    (is_output sig) (is_reg sig) in
                         let* _ := mod_add_signal b in ret b
                     end in
           ret (blist ++ [b])) l acc st = Ok (blist, st') ->
  advance st st' 0 []
  /\ exists bits,
       blist = acc ++ bits
       /\ Forall2 (fun i b => name b = bit_name (name sig) i) l bits.
Proof.
  induction l as [|i l IH]; intros acc st blist st' H; simpl in H.
  - inversion H. subst. split; [apply advance_refl|].
    exists []. rewrite app_nil_r. split; [reflexivity|constructor].
  - apply bind_ok in H as (acc1 & st1 & H1 & H2).
    apply IH in H2 as (A2 & bits & -> & Hbits).
    apply bind_ok in H1 as (found & st0 & Hf & H1).
    unfold mod_get_signal in Hf. injection Hf as <- <-.
    assert (exists b, acc1 = acc ++ [b]
                      /\ name b = bit_name (name sig) i
                      /\ advance st st1 0 []) as (b & -> & Hb & A1).
    { destruct (netlist.lookup (bit_name (name sig) i) (sigs st)) eqn:E.
      - inversion H1. subst. eexists. split; [reflexivity|]. split.
        + eapply network_facts.lookup_name. exact E.
        + apply advance_refl.
      - inversion H1. subst. eexists. split; [reflexivity|].
        split; [reflexivity|].
        unfold advance. simpl. rewrite app_nil_r. repeat split. lia. }
    split.
    + apply (advance_trans _ _ _ _ _ _ _ A1 A2).
    + exists (b :: bits). rewrite <- app_assoc. split; [reflexivity|].
      constructor; assumption.
Qed.

Lemma positions_names n bits : forall s,
  Forall2 (fun i b => name b = bit_name n i) (seq s (length bits)) bits ->
  forall i b, bits !! i = Some b -> name b = bit_name n (s + i).
Proof.
  induction bits as [|x bits IH]; intros s H i b Hb; [discriminate|].
  simpl in H. apply Forall2_cons in H as [Hx H].
  destruct i as [|i]; simpl in Hb.
  - inversion Hb. subst. rewrite Nat.add_0_r. exact Hx.
  - rewrite (IH (S s) H i b Hb). f_equal. lia.
Qed.

(** What [get_bits] returns and what it leaves behind. *)
Lemma get_bits_spec sig st l st' :
  bits_shape st ->
  get_bits sig st = Ok (l, st') ->
  bits_shape st'
  /\ cache_ok (name sig) l
  /\ (width sig = 1 -> l = [sig])
  /\ tmp_idx st' = tmp_idx st
  /\ new_gates st' = new_gates st.
Proof.
  intros Hshape H. unfold get_bits in H.
  destruct (width sig =? 1) eqn:Ew.
  - inversion H. subst. simpl. split; [|split; [|split; [|split]]]; auto.
    + intros n l Hl. simpl in Hl.
      destruct (decide (name sig = n)) as [<-|Hne].
      * rewrite lookup_insert_eq in Hl. inversion Hl. left. eauto.
      * rewrite lookup_insert_ne in Hl by assumption. exact (Hshape n l Hl).
    + left. eauto.
  - apply Z.eqb_neq in Ew.
    apply bind_ok in H as (cached & st0 & Hc & H).
    unfold bits_map_get in Hc. injection Hc as <- <-.
    destruct (bits_map st !! name sig) as [l0|] eqn:El.
    + inversion H. subst. repeat split; auto. contradiction.
    + apply bind_ok in H as (blist & st1 & Hexp & H).
      apply expand_bits_names in Hexp as ((B & I & G) & bits & -> & Hbits).
      unfold bind, bits_map_set, ret in H. simpl in H.
      injection H as <- <-. simpl.
      assert (Hok : cache_ok (name sig) bits).
      { right. intros i b Hb.
        assert (length bits = Z.to_nat (width sig)) as Hlen.
        { apply Forall2_length in Hbits. unfold Py.range in Hbits.
          rewrite length_seq in Hbits. lia. }
        unfold Py.range in Hbits. rewrite <- Hlen in Hbits.
        exact (positions_names _ _ 0%nat Hbits i b Hb). }
      split; [|split; [|split; [|split]]].
      * intros n l Hl. simpl in Hl.
        destruct (decide (name sig = n)) as [<-|Hne].
        -- rewrite lookup_insert_eq in Hl. inversion Hl. subst. exact Hok.
        -- rewrite lookup_insert_ne in Hl by assumption.
           rewrite B in Hl. exact (Hshape n l Hl).
      * exact Hok.
      * contradiction.
      * lia.
      * rewrite G, app_nil_r. reflexivity.
Qed.

Lemma get_operand_bits_spec c0 c1 sig w st l st' :
  bits_shape st ->
  get_operand_bits c0 c1 sig w st = Ok (l, st') ->
  bits_shape st' /\ tmp_idx st' = tmp_idx st /\ new_gates st' = new_gates st.
Proof.
  intros Hshape H. unfold get_operand_bits in H.
  apply bind_ok in H as (bits & st1 & H1 & H). inversion H. subst. clear H.
  destruct (String.prefix "CONST_" (name sig)) eqn:Ep.
  - unfold const_bits_from_signal in H1. rewrite Ep in H1. simpl in H1.
    destruct (snd (Py.split_first "_"%char (name sig))); [|discriminate].
    apply bind_ok in H1 as (x & st0 & Hl & H1).
    unfold lift in Hl. destruct (parse_verilog_const _ _); inversion Hl.
    subst. inversion H1. subst. auto.
  - apply get_bits_spec in H1 as (S1 & _ & _ & I1 & G1); auto.
Qed.

(** The name of a fetched output bit is one of the names of the output. *)
Lemma fetched_out_name out l i o :
  cache_ok (name out) l -> (width out = 1 -> l = [out]) ->
  l !! i = Some o -> (i < Nat.max 1 (Z.to_nat (width out)))%nat ->
  In (name o) (out_names out).
Proof.
  intros Hok H1 Ho Hi. unfold out_names.
  destruct (width out =? 1) eqn:Ew.
  - apply Z.eqb_eq in Ew. rewrite (H1 Ew) in Ho.
    destruct i; [|discriminate]. inversion Ho. simpl. auto.
  - destruct Hok as [(s & -> & Hs)|Hbits].
    + destruct i; [|discriminate]. inversion Ho. subst. simpl. auto.
    + right. rewrite (Hbits i o Ho). apply in_map, in_seq. lia.
Qed.

Lemma cache_ok_inj n l i j o o' :
  cache_ok n l -> l !! i = Some o -> l !! j = Some o' ->
  name o = name o' -> i = j.
Proof.
  intros [(s & -> & _)|Hbits] Hi Hj Heq.
  - destruct i, j; try discriminate; reflexivity.
  - rewrite (Hbits i o Hi), (Hbits j o' Hj) in Heq.
    exact (name_facts.bit_name_inj _ _ _ Heq).
Qed.

(** *** Segments of the emitted netlist *)

Lemma seg_nil O st st' :
  tmp_idx st' = tmp_idx st -> new_gates st' = new_gates st ->
  seg O st st' [].
Proof.
  intros Hi Hg. unfold seg. rewrite Hi, Hg, app_nil_r.
  repeat split; constructor.
Qed.

Lemma seg_app O1 O2 st s1 s2 e1 e2 :
  seg O1 st s1 e1 -> seg O2 s1 s2 e2 ->
  (forall n, O1 n -> is_tmp_name n = false) ->
  (forall n, O2 n -> is_tmp_name n = false) ->
  (forall n, O1 n -> O2 n -> False) ->
  seg (fun n => O1 n \/ O2 n) st s2 (e1 ++ e2).
Proof.
  intros (I1 & G1 & N1 & F1) (I2 & G2 & N2 & F2) T1 T2 Hd.
  unfold seg. split; [lia|]. split; [rewrite G2, G1, app_assoc; reflexivity|].
  split.
  - rewrite map_app. apply NoDup_app. split; [exact N1|]. split; [|exact N2].
    intros n Hn1 Hn2.
    apply list_elem_of_In, in_map_iff in Hn1 as (g1 & <- & Hg1).
    apply list_elem_of_In, in_map_iff in Hn2 as (g2 & Heq & Hg2).
    rewrite Forall_forall in F1, F2.
    specialize (F1 g1 (proj2 (list_elem_of_In _ _) Hg1)).
    specialize (F2 g2 (proj2 (list_elem_of_In _ _) Hg2)).
    rewrite Heq in F2.
    destruct F1 as [P1|P1], F2 as [P2|P2].
    + exact (name_facts.pass_tmp_disjoint _ _ _ _ P1 P2).
    + apply name_facts.pass_tmp_is_tmp_name in P1.
      rewrite (T2 _ P2) in P1. discriminate.
    + apply name_facts.pass_tmp_is_tmp_name in P2.
      rewrite (T1 _ P1) in P2. discriminate.
    + exact (Hd _ P1 P2).
  - apply Forall_app. split.
    + eapply List.Forall_impl; [|exact F1]. intros g [P|P]; [left|auto].
      eapply name_facts.pass_tmp_weaken; [exact P|lia|lia].
    + eapply List.Forall_impl; [|exact F2]. intros g [P|P]; [left|auto].
      eapply name_facts.pass_tmp_weaken; [exact P|lia|lia].
Qed.

Lemma seg_weaken O O' st st' e :
  seg O st st' e -> (forall n, O n -> O' n) -> seg O' st st' e.
Proof.
  intros (I & G & N & F) HO. unfold seg. repeat split; auto.
  eapply List.Forall_impl; [|exact F]. intros g [P|P]; auto.
Qed.

Lemma seg_eq_state O st st0 st' e :
  tmp_idx st0 = tmp_idx st -> new_gates st0 = new_gates st ->
  seg O st0 st' e -> seg O st st' e.
Proof.
  intros Hi Hg (I & G & N & F). unfold seg.
  rewrite <- Hi, <- Hg. auto.
Qed.

Lemma seg_end_state O st st0 st' e :
  tmp_idx st' = tmp_idx st0 -> new_gates st' = new_gates st0 ->
  seg O st st0 e -> seg O st st' e.
Proof.
  intros Hi Hg (I & G & N & F). unfold seg.
  rewrite Hi, Hg. auto.
Qed.

(** A loop whose rounds are in order is a segment. *)
Lemma loop_seg {B} (body : B -> nat -> M B) c out_bits l b st b' st' :
  (forall b i st b' st',
     In i l ->
     body b i st = Ok (b', st') -> round_ok out_bits c i st st') ->
  (forall i j o o',
     out_bits !! i = Some o -> out_bits !! j = Some o' ->
     name o = name o' -> i = j) ->
  (forall i o,
     In i l -> out_bits !! i = Some o -> is_tmp_name (name o) = false) ->
  NoDup l ->
  foldM body l b st = Ok (b', st') ->
  bits_map st' = bits_map st
  /\ exists emitted,
       seg (fun n => exists i o,
                       In i l /\ out_bits !! i = Some o /\ n = name o)
         st st' emitted.
Proof.
  intros Hround Hinj Hnt Hnd H.
  destruct (loop_spec body c out_bits (fun i => In i l)
              Hround Hinj Hnt l b st b' st')
    as (e & (B1 & I1 & G1) & N & F); auto.
  { apply Forall_forall. intros i Hi. apply list_elem_of_In. exact Hi. }
  split; [exact B1|]. exists e. unfold seg. repeat split; auto. lia.
Qed.

Lemma bits_shape_ext st st' :
  bits_map st' = bits_map st -> bits_shape st -> bits_shape st'.
Proof. unfold bits_shape. intros ->. auto. Qed.

Lemma NoDup_range w : NoDup (Py.range w).
Proof. apply NoDup_seq. Qed.

(** *** The gates emitted for one gate of the input *)

(** Splits a hypothesis on a branch of the gate loop at a fetch. *)
Ltac fetch H :=
  match type of H with
  | bind (get_operand_bits _ _ _ _) _ _ = Ok _ =>
      let bits := fresh "bits" in
      let s := fresh "s" in
      let Hf := fresh "Hf" in
      let Hs := fresh "Hs" in
      let Hi := fresh "Hi" in
      let Hg := fresh "Hg" in
      apply bind_ok in H as (bits & s & Hf & H);
      apply get_operand_bits_spec in Hf as (Hs & Hi & Hg); [|assumption]
  | bind (get_bits _) _ _ = Ok _ =>
      let bits := fresh "bits" in
      let s := fresh "s" in
      let Hf := fresh "Hf" in
      let Hs := fresh "Hs" in
      let Hok := fresh "Hok" in
      let Hw := fresh "Hw" in
      let Hi := fresh "Hi" in
      let Hg := fresh "Hg" in
      apply bind_ok in H as (bits & s & Hf & H);
      apply get_bits_spec in Hf as (Hs & Hok & Hw & Hi & Hg); [|assumption]
  | bind (index _ _) _ _ = Ok _ =>
      let x := fresh "x" in
      let s := fresh "s" in
      let Hx := fresh "Hx" in
      apply bind_ok in H as (x & s & Hx & H);
      apply index_ok in Hx as [Hx ->]
  end.

Section branches.
Context (c0 c1 : Signal) (g : Gate).
Hypothesis Hnt : forall n,
  In n (out_names (output g)) -> is_tmp_name n = false.

(** A loop over the bits of the output of [g]. *)
Lemma out_loop_seg {B} (body : B -> nat -> M B) c out_bits b st b' st' :
  cache_ok (name (output g)) out_bits ->
  (width (output g) = 1 -> out_bits = [output g]) ->
  (forall b i st b' st',
     (forall o, out_bits !! i = Some o -> is_tmp_name (name o) = false) ->
     body b i st = Ok (b', st') -> round_ok out_bits c i st st') ->
  foldM body (Py.range (width (output g))) b st = Ok (b', st') ->
  bits_map st' = bits_map st
  /\ exists emitted,
       seg (fun n => In n (out_names (output g))) st st' emitted.
Proof.
  intros Hok Hw Hround H.
  assert (Hin : forall i o,
            In i (Py.range (width (output g))) -> out_bits !! i = Some o ->
            In (name o) (out_names (output g))).
  { intros i o Hi Ho. unfold Py.range in Hi. apply in_seq in Hi.
    eapply fetched_out_name; eauto. lia. }
  destruct (loop_seg body c out_bits (Py.range (width (output g)))
              b st b' st') as (Hb & e & Hseg).
  - intros b0 i s0 b1 s1 Hi Hbody. apply (Hround b0 i s0 b1 s1); [|exact Hbody].
    intros o Ho. apply Hnt. eapply Hin; eauto.
  - intros i j o o'. exact (cache_ok_inj _ _ i j o o' Hok).
  - intros i o Hi Ho. apply Hnt. eauto.
  - apply NoDup_range.
  - exact H.
  - split; [exact Hb|]. exists e.
    eapply seg_weaken; [exact Hseg|].
    intros n (i & o & Hi & Ho & ->). eauto.
Qed.

Lemma emit_seg (O : string -> Prop) pg st u st' :
  emit pg st = Ok (u, st') ->
  O (out_name pg) ->
  bits_map st' = bits_map st /\ seg O st st' [pg].
Proof.
  intros H HO. apply emit_spec in H as (B & I & G).
  split; [exact B|]. unfold seg. rewrite I, G. repeat split.
  - lia.
  - simpl. apply NoDup_singleton.
  - constructor; [right; exact HO|constructor].
Qed.

Lemma unpack2_ok {A} (l : list A) (st : pass_state) p s :
  unpack2 l st = Ok (p, s) -> s = st /\ l = [fst p; snd p].
Proof.
  destruct l as [|a [|b [|? ?]]]; simpl; try discriminate.
  unfold ret. intros [= <- <-]. auto.
Qed.

Lemma unpack3_ok {A} (l : list A) (st : pass_state) p s :
  unpack3 l st = Ok (p, s) ->
  s = st /\ l = [fst (fst p); snd (fst p); snd p].
Proof.
  destruct l as [|a [|b [|c [|? ?]]]]; simpl; try discriminate.
  unfold ret. intros [= <- <-]. auto.
Qed.

Lemma unpack6_ok {A} (l : list A) (st : pass_state) a b c d e f s :
  unpack6 l st = Ok ((a, b, c, d, e, f), s) ->
  s = st /\ l = [a; b; c; d; e; f].
Proof.
  destruct l as [|a' [|b' [|c' [|d' [|e' [|f' [|? ?]]]]]]]; simpl;
    try discriminate.
  unfold ret. intros [= <- <- <- <- <- <- <-]. auto.
Qed.

Lemma blast_bitwise_drives op st st' :
  bits_shape st ->
  blast_bitwise c0 c1 op g st = Ok (tt, st') ->
  gate_driven (output g) st st'.
Proof.
  intros Hshape H. unfold blast_bitwise in H.
  apply bind_ok in H as ([a b] & s & Hu & H).
  apply unpack2_ok in Hu as [-> _].
  repeat fetch H. unfold forM in H.
  eapply out_loop_seg in H as (Hb & e & Hseg); eauto.
  - split; [eapply bits_shape_ext; eauto|]. exists e.
    eapply seg_eq_state; [| |exact Hseg]; congruence.
  - intros u i s2 u' s3 Hnti Hstep.
    eapply bitwise_step_ok; [exact Hnti| |exact Hstep].
    destruct (String.eqb op "XOR"); [auto|].
    destruct (String.eqb op "AND"); auto.
Qed.

Lemma blast_add_drives st st' :
  bits_shape st ->
  blast_add c0 c1 g st = Ok (tt, st') ->
  gate_driven (output g) st st'.
Proof.
  intros Hshape H. unfold blast_add in H.
  apply bind_ok in H as ([a b] & s & Hu & H).
  apply unpack2_ok in Hu as [-> _].
  repeat fetch H.
  apply bind_ok in H as (cy & s2 & H & Hret).
  unfold ret in Hret. injection Hret as <-.
  unfold add_loop in H.
  eapply out_loop_seg in H as (Hb & e & Hseg); eauto.
  - split; [eapply bits_shape_ext; eauto|]. exists e.
    eapply seg_eq_state; [| |exact Hseg]; congruence.
  - intros u i s3 u' s4 Hnti Hstep.
    eapply add_step_ok; [exact Hnti|exact Hstep].
Qed.

Lemma blast_mux_drives st st' :
  bits_shape st ->
  blast_mux c0 c1 g st = Ok (tt, st') ->
  gate_driven (output g) st st'.
Proof.
  intros Hshape H. unfold blast_mux in H.
  apply bind_ok in H as ([[sel t_in] f_in] & s & Hu & H).
  apply unpack3_ok in Hu as [-> _].
  repeat fetch H. unfold forM in H.
  eapply out_loop_seg in H as (Hb & e & Hseg); eauto.
  - split; [eapply bits_shape_ext; eauto|]. exists e.
    eapply seg_eq_state; [| |exact Hseg]; congruence.
  - intros u i s3 u' s4 Hnti Hstep.
    eapply mux_step_ok; [exact Hnti|exact Hstep].
Qed.

Lemma blast_dff_drives st st' :
  bits_shape st ->
  blast_dff_en_rst c0 c1 g st = Ok (tt, st') ->
  gate_driven (output g) st st'.
Proof.
  intros Hshape H. unfold blast_dff_en_rst in H.
  apply bind_ok in H as ([[[[[d_en q_old] en] d_rst] rst] clk] & s & Hu & H).
  apply unpack6_ok in Hu as [-> _].
  do 3 fetch H.
  fetch H. rename bits2 into q_bits, Hok into Hq, Hw into Hqw.
  do 6 fetch H.
  unfold dff_loop, forM in H.
  eapply (out_loop_seg _ 2 q_bits) in H as (Hb & e & Hseg);
    [|exact Hq|exact Hqw|].
  - split; [eapply bits_shape_ext; eauto|]. exists e.
    eapply seg_eq_state; [| |exact Hseg]; congruence.
  - intros u i s7 u' s8 Hnti Hstep.
    eapply dff_step_ok; [exact Hnti|exact Hstep].
Qed.

(** The end of several branches: the output is fetched and its first bit
    is driven by one cell. *)
Lemma out_emit_seg (mk : Signal -> Gate) st st' :
  bits_shape st ->
  (forall o, output (mk o) = o) ->
  (let* ob := get_bits (output g) in
   let* o := index ob 0%nat in
   emit (mk o)) st = Ok (tt, st') ->
  gate_driven (output g) st st'.
Proof.
  intros Hshape Hout H.
  fetch H. fetch H.
  eapply (emit_seg (fun n => In n (out_names (output g)))) in H
    as [Hb Hseg].
  - split; [eapply bits_shape_ext; eauto|]. eexists.
    eapply seg_eq_state; [| |exact Hseg]; congruence.
  - unfold out_name. rewrite Hout.
    eapply fetched_out_name; eauto. lia.
Qed.

Lemma blast_not_buf_drives op st st' :
  bits_shape st ->
  blast_not_buf c1 op g st = Ok (tt, st') ->
  gate_driven (output g) st st'.
Proof.
  intros Hshape H. unfold blast_not_buf in H.
  fetch H.
  destruct (String.eqb op "NOT"); fetch H; fetch H.
  - apply (out_emit_seg (fun o => mkGate "NOT" [x0] o)) in H
      as [Hs' [e Hseg]]; [|assumption|reflexivity].
    split; [exact Hs'|]. exists e.
    eapply seg_eq_state; [| |exact Hseg]; congruence.
  - apply (out_emit_seg (fun o => mkGate "AND" [x0; c1] o)) in H
      as [Hs' [e Hseg]]; [|assumption|reflexivity].
    split; [exact Hs'|]. exists e.
    eapply seg_eq_state; [| |exact Hseg]; congruence.
Qed.

Lemma tmp_loop_seg {B} (body : B -> nat -> M B) c l b st b' st' :
  (forall b i st b' st',
     body b i st = Ok (b', st') -> round_ok [] c i st st') ->
  NoDup l ->
  foldM body l b st = Ok (b', st') ->
  bits_map st' = bits_map st
  /\ exists emitted, seg (fun _ => False) st st' emitted.
Proof.
  intros Hround Hl H.
  eapply (loop_seg _ c []) in H as (Hb & e & Hseg).
  - split; [exact Hb|]. exists e.
    eapply seg_weaken; [exact Hseg|].
    intros n (i & o & _ & Hi & _). rewrite lookup_nil in Hi. discriminate.
  - intros b0 i s b1 s' _ Hstep. eapply Hround; eauto.
  - intros i j o o' Hi. rewrite lookup_nil in Hi. discriminate.
  - intros i o _ Hi. rewrite lookup_nil in Hi. discriminate.
  - exact Hl.
Qed.

Lemma seg_false_then O st s1 s2 e1 e2 :
  seg (fun _ => False) st s1 e1 -> seg O s1 s2 e2 ->
  (forall n, O n -> is_tmp_name n = false) ->
  seg O st s2 (e1 ++ e2).
Proof.
  intros H1 H2 HO.
  eapply seg_weaken.
  - eapply (seg_app (fun _ => False) O); [exact H1|exact H2| | |].
    + intros n [].
    + exact HO.
    + intros n [].
  - intros n [[]|Hn]. exact Hn.
Qed.

Lemma blast_eq_drives st st' :
  bits_shape st ->
  blast_eq c0 c1 g st = Ok (tt, st') ->
  gate_driven (output g) st st'.
Proof.
  intros Hshape H. unfold blast_eq in H.
  apply bind_ok in H as ([a b] & s & Hu & H).
  apply unpack2_ok in Hu as [-> _].
  do 2 fetch H.
  apply bind_ok in H as (eq_bits & s1 & Hcol & H).
  apply (tmp_loop_seg _ 2) in Hcol as (Hb1 & e1 & Hseg1);
    [|intros; eapply eq_step_ok; eauto|apply NoDup_range].
  assert (Hs1 : bits_shape s1) by (eapply bits_shape_ext; eauto).
  assert (Hseg1' : seg (fun _ => False) st s1 e1)
    by (eapply seg_eq_state; [| |exact Hseg1]; congruence).
  clear Hseg1.
  unfold eq_reduce in H. destruct eq_bits as [|e [|e' rest]].
  - apply (out_emit_seg (fun o => mkGate "AND" [c1; c1] o)) in H
      as [Hs' [e2 Hseg2]]; [|assumption|reflexivity].
    split; [exact Hs'|]. exists (e1 ++ e2).
    eapply seg_false_then; eauto.
  - apply (out_emit_seg (fun o => mkGate "AND" [e; c1] o)) in H
      as [Hs' [e2 Hseg2]]; [|assumption|reflexivity].
    split; [exact Hs'|]. exists (e1 ++ e2).
    eapply seg_false_then; eauto.
  - apply bind_ok in H as (curr & s2 & Hred & H).
    apply (tmp_loop_seg _ 1) in Hred as (Hb2 & e2 & Hseg2);
      [|intros; eapply reduce_step_ok; eauto|apply NoDup_seq].
    assert (Hs2 : bits_shape s2) by (eapply bits_shape_ext; eauto).
    apply (out_emit_seg (fun o => mkGate "AND" [curr; c1] o)) in H
      as [Hs' [e3 Hseg3]]; [|assumption|reflexivity].
    split; [exact Hs'|]. exists (e1 ++ e2 ++ e3).
    eapply seg_false_then; [exact Hseg1'| |exact Hnt].
    eapply seg_false_then; eauto.
Qed.

(** Every branch of the gate loop. *)
Lemma blast_gate_drives st st' :
  bits_shape st ->
  blast_gate c0 c1 g st = Ok (tt, st') ->
  gate_driven (output g) st st'.
Proof.
  intros Hshape H. unfold blast_gate in H.
  destruct (in_list (op_type g) ["AND"; "OR"; "XOR"]).
  { eapply blast_bitwise_drives; eauto. }
  destruct (String.eqb (op_type g) "EQ").
  { eapply blast_eq_drives; eauto. }
  destruct (String.eqb (op_type g) "MUX").
  { eapply blast_mux_drives; eauto. }
  destruct (String.eqb (op_type g) "ADD").
  { eapply blast_add_drives; eauto. }
  destruct (String.eqb (op_type g) "DFF_EN_RST").
  { eapply blast_dff_drives; eauto. }
  destruct (in_list (op_type g) ["NOT"; "BUF"]).
  { eapply blast_not_buf_drives; eauto. }
  discriminate.
Qed.

End branches.

(** *** The whole pass *)

Lemma ensure_const_spec n st s st' :
  ensure_const n st = Ok (s, st') ->
  bits_map st' = bits_map st /\ tmp_idx st' = tmp_idx st
  /\ new_gates st' = new_gates st.
Proof.
  unfold ensure_const, bind, mod_get_signal, mod_add_signal, ret.
  destruct (netlist.lookup n (sigs st)); intros [= <- <-]; auto.
Qed.

Lemma precreate_spec all : forall st st',
  bits_shape st ->
  forM all (fun s => let* _ := get_bits s in ret tt) st = Ok (tt, st') ->
  bits_shape st' /\ tmp_idx st' = tmp_idx st /\ new_gates st' = new_gates st.
Proof.
  unfold forM. induction all as [|s all IH]; intros st st' Hshape H.
  - simpl in H. unfold ret in H. injection H as <-. auto.
  - simpl in H. apply bind_ok in H as ([] & s1 & Hs & H).
    fetch Hs. unfold ret in Hs. injection Hs as <-.
    apply IH in H as (H1 & H2 & H3); [|assumption].
    split; [exact H1|]. split; congruence.
Qed.

Lemma gate_loop_drives c0 c1 gs : forall st st',
  bits_shape st ->
  NoDup (driven_names gs) ->
  Forall (fun n => is_tmp_name n = false) (driven_names gs) ->
  forM gs (blast_gate c0 c1) st = Ok (tt, st') ->
  exists emitted, seg (fun n => In n (driven_names gs)) st st' emitted.
Proof.
  unfold forM. induction gs as [|g gs IH]; intros st st' Hshape Hnd Hnt H.
  - simpl in H. unfold ret in H. injection H as <-.
    exists []. apply seg_nil; auto.
  - simpl in H. apply bind_ok in H as ([] & s1 & Hg & H).
    unfold driven_names in Hnd, Hnt. simpl in Hnd, Hnt.
    fold (driven_names gs) in Hnd, Hnt.
    apply NoDup_app in Hnd as (Hnd1 & Hdisj & Hnd2).
    apply Forall_app in Hnt as [Hnt1 Hnt2].
    rewrite List.Forall_forall in Hnt1, Hnt2.
    apply (blast_gate_drives c0 c1 g Hnt1) in Hg as (Hs1 & e1 & Hseg1);
      [|assumption].
    apply IH in H as (e2 & Hseg2);
      [|assumption|assumption|apply List.Forall_forall; exact Hnt2].
    exists (e1 ++ e2).
    eapply seg_weaken.
    + eapply (seg_app (fun n => In n (out_names (output g)))
                (fun n => In n (driven_names gs)));
        [exact Hseg1|exact Hseg2|exact Hnt1|exact Hnt2|].
      intros n H1 H2. apply (Hdisj n); apply list_elem_of_In; assumption.
    + intros n Hn. unfold driven_names. simpl. apply in_or_app. exact Hn.
Qed.

(** When the outputs of the gates of the input are apart bit for bit and
    none is named like a temporary, every gate of the output drives a
    Signal of its own. *)
Lemma run_drives m m' :
  run m = Ok m' ->
  NoDup (driven_names (gates m)) ->
  Forall (fun n => is_tmp_name n = false) (driven_names (gates m)) ->
  NoDup (map out_name (gates m')).
Proof.
  intros H Hnd Hnt. unfold run in H.
  destruct (pass m _) as [[u st']|e] eqn:Hp; [|discriminate].
  injection H as <-. simpl. unfold pass in Hp.
  apply bind_ok in Hp as (c0 & s1 & H0 & Hp).
  apply ensure_const_spec in H0 as (B0 & I0 & G0).
  apply bind_ok in Hp as (c1 & s2 & H1 & Hp).
  apply ensure_const_spec in H1 as (B1 & I1 & G1).
  apply bind_ok in Hp as (all & s3 & Ha & Hp).
  unfold mod_signals_values in Ha. injection Ha as <- <-.
  apply bind_ok in Hp as ([] & s4 & Hpre & Hp).
  apply precreate_spec in Hpre as (Hs4 & I4 & G4).
  - destruct u.
    apply gate_loop_drives in Hp as (e & Hseg); try assumption.
    destruct Hseg as (_ & G & N & _).
    assert (Hg : new_gates st' = e).
    { rewrite G, G4, G1, G0. reflexivity. }
    rewrite Hg. exact N.
  - intros n l Hl. rewrite B1, B0 in Hl. simpl in Hl.
    rewrite lookup_empty in Hl. discriminate.
Qed.

End driver_facts.

(** C3: every gate of a Module produced by Bit-Blasting has the input
    count of its operation tag. When the outputs of the gates of the input
    are apart bit for bit (no two of the names under which their bits are
    fetched coincide) and none of these names is that of a temporary of
    the pass, no two gates of the output drive a Signal of the same
    name. *)
Theorem bitblast_single_driver_and_arity m m' :
  stage_bitblast.run m = Ok m' ->
  Forall arity_ok (gates m')
  /\ (NoDup (driven_names (gates m)) ->
      Forall (fun n => is_tmp_name n = false) (driven_names (gates m)) ->
      NoDup (map out_name (gates m'))).
Proof.
  intros H. split.
  - apply bitblast_facts.run_emits_primitive_cells in H.
    eapply List.Forall_impl; [|exact H].
    intros g Hg. apply bitblast_facts.is_primitive_cell_spec in Hg as [_ Hg].
    exact Hg.
  - intros Hnd Hnt. exact (driver_facts.run_drives m m' H Hnd Hnt).
Qed.

Lemma bitblast_single_driver_and_arity_adder2 :
  exists m',
    stage_bitblast.run adder2 = Ok m'
    /\ Forall arity_ok (gates m')
    /\ NoDup (map out_name (gates m')).
Proof.
  eexists. split; [vm_compute; reflexivity|].
  match goal with
  | |- Forall arity_ok (gates ?m) /\ _ =>
      assert (Hrun : stage_bitblast.run adder2 = Ok m)
        by (vm_compute; reflexivity)
  end.
  destruct (bitblast_single_driver_and_arity adder2 _ Hrun) as [Ha Hd].
  split; [exact Ha|]. apply Hd.
  - apply (bool_decide_unpack _). vm_compute. reflexivity.
  - apply (bool_decide_unpack _). vm_compute. reflexivity.
Defined.

(** Two gates of the input that drive the same wire are lowered one by
    one, and the two cells they become drive the same wire. *)
Lemma bitblast_keeps_two_drivers :
  exists m',
    stage_bitblast.run two_drivers = Ok m'
    /\ gates m'
       = [mkGate "AND" [wire_x; CONST1] wire_y;
          mkGate "AND" [wire_x; CONST1] wire_y]
    /\ ~ NoDup (map out_name (gates m')).
Proof.
  eexists. split; [vm_compute; reflexivity|]. split; [reflexivity|].
  simpl. intros H. apply NoDup_cons in H as [H _]. apply H. left.
Qed.

(** Elaboration names the result of an operator after the number of gates
    already in the module, which does not change while one expression is
    compiled: in [a + b + c] both adders get the output [tmp_ADD_0]. *)
Example elaboration_reuses_tmp_name :
  exists m,
    stage_elaboration.run three_sum = Ok m
    /\ stage_elaboration.egates m
       = [stage_elaboration.mkGateRef "ADD" ["a"; "b"] "tmp_ADD_0";
          stage_elaboration.mkGateRef "ADD" ["tmp_ADD_0"; "c"] "tmp_ADD_0";
          stage_elaboration.mkGateRef "BUF" ["tmp_ADD_0"] "y"].
Proof. eexists. split; vm_compute; reflexivity. Qed.

(** ** Bit-Blasting: the first input of a MUX *)

Module selector_facts.
Import stage_bitblast.
Import driver_facts.


Lemma preserves_forM_in {S A} (I : S -> Prop) (body : A -> SE S unit) l :
  (forall x, In x l -> preserves I (body x)) -> preserves I (forM l body).
Proof.
  unfold forM. generalize tt. induction l as [|x l IH]; intros u Hb; simpl.
  - apply preserves_ret.
  - apply preserves_bind; [apply Hb; simpl; auto|].
    intros u'. apply IH. intros y Hy. apply Hb. simpl. auto.
Qed.

Section selectors.
Context (gs : list Gate).














End selectors.


(** *** The cells of a wide MUX *)

Lemma mux_step_run sel_bit t_bits f_bits out_bits i t f o st :
  t_bits !! i = Some t -> f_bits !! i = Some f -> out_bits !! i = Some o ->
  exists st',
    mux_step sel_bit t_bits f_bits out_bits i st = Ok (tt, st')
    /\ new_gates st' = new_gates st ++ [mkGate "MUX" [sel_bit; t; f] o].
Proof.
  intros Ht Hf Ho. unfold mux_step.
  rewrite (bind_eq _ _ _ _ _ (index_eq _ _ _ _ Ht)).
  rewrite (bind_eq _ _ _ _ _ (index_eq _ _ _ _ Hf)).
  rewrite (bind_eq _ _ _ _ _ (index_eq _ _ _ _ Ho)).
  eexists. split; reflexivity.
Qed.



End selector_facts.

(** ** Elaboration: the MUX of a conditional *)

Module mux_tree_facts.
Import stage_elaboration.
Import elaboration_facts.



Lemma get_signal_ok n m r m' :
  get_signal n m = Ok (r, m') -> m' = m.
Proof. unfold get_signal. intros H. inversion H. reflexivity. Qed.


(** [_build_mux_tree] hands its gates back and leaves the gate list of
    the module alone. *)
Lemma build_mux_tree_keeps G target : forall s,
  preserves (fun m => egates m = G) (_build_mux_tree s target).
Proof.
  fix IH 1. intros s.
  destruct s as [stmts|cond ts fs|lhs rhs|lhs rhs|cls].
  - destruct stmts as [|first rest]; simpl; [apply preserves_ret|apply IH].
  - simpl. apply preserves_bind; [apply expr_keeps|intros [c cg]].
    apply preserves_bind; [apply IH|intros [t tg]].
    apply preserves_bind.
    { destruct fs as [fs|]; [apply IH|]. clear IH.
      apply preserves_bind; [apply get_signal_keeps|intros ?].
      apply preserves_ret. }
    clear IH. intros [f fg].
    destruct t; [|apply preserves_ret]. destruct f; [|apply preserves_ret].
    apply preserves_bind; [apply len_gates_keeps|intros n].
    apply preserves_bind; [apply attr_width_keeps|intros tw].
    apply preserves_bind; [apply get_or_create_keeps|intros mux_out].
    apply preserves_ret.
  - clear IH. simpl.
    apply preserves_bind; [apply attr_name_keeps|intros lname].
    destruct (negb (String.eqb lname target)); [apply preserves_ret|].
    apply preserves_bind; [apply get_signal_keeps|intros tsig].
    apply preserves_bind; [apply attr_width_keeps|intros tw].
    apply preserves_bind; [apply expr_keeps|intros [rs g]].
    apply preserves_ret.
  - clear IH. simpl.
    apply preserves_bind; [apply attr_name_keeps|intros lname].
    destruct (negb (String.eqb lname target)); [apply preserves_ret|].
    apply preserves_bind; [apply get_signal_keeps|intros tsig].
    apply preserves_bind; [apply attr_width_keeps|intros tw].
    apply preserves_bind; [apply expr_keeps|intros [rs g]].
    apply preserves_ret.
  - clear IH. simpl. apply preserves_ret.
Qed.

(** *** Every MUX of the elaborated module *)









End mux_tree_facts.



(** The conditional of [choice] becomes one [MUX] whose inputs are the
    condition, the value assigned when it holds and the value assigned
    when it does not. *)
Example choice_elaborated :
  exists m,
    stage_elaboration.run choice = Ok m
    /\ stage_elaboration.egates m
       = [stage_elaboration.mkGateRef "MUX" ["s"; "a"; "b"] "mux_y_0";
          stage_elaboration.mkGateRef "BUF" ["mux_y_0"] "y"].
Proof. eexists. split; vm_compute; reflexivity. Qed.

(** * Further properties of the code *)

(** ** Export: the text that is written *)

Module export_facts.
Import stage_export.

Lemma gate_lines_cell g :
  is_primitive_cell g = true -> exportable g = true.
Proof.
  intros H. apply bitblast_facts.is_primitive_cell_spec in H as [Hop Har].
  unfold primitive_gate, primitive_tags in Hop.
  unfold arity_ok in Har. unfold exportable.
  destruct g as [op ins out]. simpl in *.
  repeat (destruct Hop as [<-|Hop]; [
    vm_compute in Har; injection Har as Har;
    repeat (destruct ins as [|? ins]; try discriminate Har);
    reflexivity |]).
  destruct Hop.
Qed.

Lemma gate_lines_exportable g :
  (exists ls, gate_lines g = Ok ls) <-> exportable g = true.
Proof.
  unfold gate_lines, exportable, in_list. destruct g as [op ins out]. simpl.
  destruct (String.eqb op "NOT").
  { simpl. destruct ins; simpl; split; eauto; try discriminate.
    intros [ls H]. discriminate. }
  destruct (String.eqb op "BUF").
  { simpl. destruct ins; simpl; split; eauto; try discriminate.
    intros [ls H]. discriminate. }
  destruct (String.eqb op "AND").
  { simpl. destruct ins as [|a [|b l]]; simpl; split; eauto;
      try discriminate; intros [ls H]; discriminate. }
  destruct (String.eqb op "OR").
  { simpl. destruct ins as [|a [|b l]]; simpl; split; eauto;
      try discriminate; intros [ls H]; discriminate. }
  destruct (String.eqb op "XOR").
  { simpl. destruct ins as [|a [|b l]]; simpl; split; eauto;
      try discriminate; intros [ls H]; discriminate. }
  destruct (String.eqb op "MUX").
  { simpl. destruct ins as [|a [|b [|c [|d l]]]]; simpl; split; eauto;
      try discriminate; intros [ls H]; discriminate. }
  destruct (String.eqb op "DFF").
  { simpl. destruct ins as [|a [|b [|c l]]]; simpl; split; eauto;
      try discriminate; intros [ls H]; discriminate. }
  simpl. split; [intros [ls H]|]; discriminate.
Qed.

Lemma emit_gates_exportable gs :
  (exists ls, emit_gates gs = Ok ls)
  <-> Forall (fun g => exportable g = true) gs.
Proof.
  induction gs as [|g gs IH]; simpl.
  - split; [constructor|eauto].
  - split.
    + intros [ls H].
      destruct (gate_lines g) as [l|e] eqn:Eg; [|discriminate].
      destruct (emit_gates gs) as [r|e] eqn:Er; [|discriminate].
      constructor.
      * apply gate_lines_exportable. eauto.
      * apply IH. eauto.
    + intros H. apply Forall_cons in H as [Hg H].
      apply gate_lines_exportable in Hg as [l ->].
      apply IH in H as [r ->]. eauto.
Qed.

Lemma gate_lines_unsupported g :
  ~ In (op_type g) primitive_tags ->
  gate_lines g
  = Raise (NotImplementedError
             ("Export: unsupported gate type '" +:+ op_type g +:+ "'")).
Proof.
  intros H. unfold gate_lines, primitive_tags in *.
  repeat match goal with
         | |- context [String.eqb (op_type g) ?t] =>
             destruct (String.eqb_spec (op_type g) t) as [E|_];
             [exfalso; apply H; rewrite E; simpl; tauto|]
         end.
  reflexivity.
Qed.

Lemma emit_gates_stops pre g post e :
  Forall (fun g => exportable g = true) pre ->
  gate_lines g = Raise e ->
  emit_gates (pre ++ g :: post) = Raise e.
Proof.
  induction pre as [|x pre IH]; intros Hpre Hg; simpl.
  - rewrite Hg. reflexivity.
  - apply Forall_cons in Hpre as [Hx Hpre].
    apply gate_lines_exportable in Hx as [l ->].
    rewrite (IH Hpre Hg). reflexivity.
Qed.

(** *** The tables *)

Lemma gate_lines_table g ls env :
  gate_lines g = Ok ls ->
  op_type g <> "DFF" ->
  exists rows,
    ls = (".names " +:+ Py.join " " (table_nets g ++ [name (output g)]))
         :: rows
    /\ gate_value env g = Some (cover_value rows (map env (table_nets g))).
Proof.
  unfold gate_lines, gate_value, table_nets, table, in_list.
  destruct g as [op ins out]. simpl.
  destruct (String.eqb op "NOT").
  { simpl. destruct ins as [|a l]; [discriminate|]. intros [= <-] _.
    eexists. split; [reflexivity|]. simpl.
    destruct (env (name a)); reflexivity. }
  destruct (String.eqb op "BUF").
  { simpl. destruct ins as [|a l]; [discriminate|]. intros [= <-] _.
    eexists. split; [reflexivity|]. simpl.
    destruct (env (name a)); reflexivity. }
  destruct (String.eqb op "AND").
  { simpl. destruct ins as [|a [|b l]]; try discriminate. intros [= <-] _.
    eexists. split; [reflexivity|]. simpl.
    destruct (env (name a)), (env (name b)); reflexivity. }
  destruct (String.eqb op "OR").
  { simpl. destruct ins as [|a [|b l]]; try discriminate. intros [= <-] _.
    eexists. split; [reflexivity|]. simpl.
    destruct (env (name a)), (env (name b)); reflexivity. }
  destruct (String.eqb op "XOR").
  { simpl. destruct ins as [|a [|b l]]; try discriminate. intros [= <-] _.
    eexists. split; [reflexivity|]. simpl.
    destruct (env (name a)), (env (name b)); reflexivity. }
  destruct (String.eqb op "MUX").
  { simpl. destruct ins as [|a [|b [|c [|d l]]]]; try discriminate.
    intros [= <-] _.
    eexists. split; [reflexivity|]. simpl.
    destruct (env (name a)), (env (name b)), (env (name c)); reflexivity. }
  destruct (String.eqb_spec op "DFF") as [->|_].
  { intros _ H. contradiction. }
  discriminate.
Qed.

(** *** The port lists *)

Lemma ascii_compare_lt_trans a b c :
  Ascii.compare a b = Lt -> Ascii.compare b c = Lt -> Ascii.compare a c = Lt.
Proof.
  unfold Ascii.compare. rewrite !N.compare_lt_iff. apply N.lt_trans.
Qed.

Lemma compare_lt_trans : forall s1 s2 s3,
  String.compare s1 s2 = Lt -> String.compare s2 s3 = Lt ->
  String.compare s1 s3 = Lt.
Proof.
  induction s1 as [|a s1 IH]; intros [|b s2] [|c s3]; simpl;
    try discriminate; try reflexivity.
  destruct (Ascii.compare a b) eqn:Eab; try discriminate;
    destruct (Ascii.compare b c) eqn:Ebc; try discriminate; intros H1 H2.
  - apply Ascii.compare_eq_iff in Eab, Ebc. subst.
    replace (Ascii.compare c c) with Eq.
    + eapply IH; eauto.
    + symmetry. unfold Ascii.compare. apply N.compare_refl.
  - apply Ascii.compare_eq_iff in Eab. subst. rewrite Ebc. reflexivity.
  - apply Ascii.compare_eq_iff in Ebc. subst. rewrite Eab. reflexivity.
  - rewrite (ascii_compare_lt_trans _ _ _ Eab Ebc). reflexivity.
Qed.

Lemma insert_sorted_In x y l : In x (Py.insert_sorted y l) <-> x = y \/ In x l.
Proof.
  induction l as [|z l IH]; simpl; [intuition|].
  destruct (String.compare y z) eqn:E; simpl.
  - apply String.compare_eq_iff in E. subst. intuition.
  - intuition.
  - rewrite IH. intuition.
Qed.

Lemma sorted_set_In x l : In x (Py.sorted_set l) <-> In x l.
Proof.
  induction l as [|y l IH]; simpl; [tauto|].
  rewrite insert_sorted_In, IH. intuition.
Qed.

Lemma insert_sorted_increasing x l :
  increasing l -> increasing (Py.insert_sorted x l).
Proof.
  induction l as [|y l IH]; simpl; [intros _; split; [constructor|exact I]|].
  intros [Hy Hl]. destruct (String.compare x y) eqn:E; simpl.
  - auto.
  - split; [|auto]. constructor; [exact E|].
    eapply List.Forall_impl; [|exact Hy].
    intros z Hz. eapply compare_lt_trans; eauto.
  - split; [|auto]. apply List.Forall_forall. intros z Hz.
    apply insert_sorted_In in Hz as [->|Hz].
    + rewrite String.compare_antisym, E. reflexivity.
    + rewrite List.Forall_forall in Hy. auto.
Qed.

Lemma sorted_set_increasing l : increasing (Py.sorted_set l).
Proof.
  induction l as [|x l IH]; simpl; [exact I|].
  apply insert_sorted_increasing. exact IH.
Qed.

Lemma increasing_NoDup l : increasing l -> NoDup l.
Proof.
  induction l as [|x l IH]; simpl; [intros _; apply NoDup_nil_2|].
  intros [Hx Hl]. apply NoDup_cons_2; [|auto].
  intros Hin. apply list_elem_of_In in Hin.
  rewrite List.Forall_forall in Hx. specialize (Hx x Hin).
  assert (String.compare x x = Eq) as Hrefl.
  { clear. induction x as [|c x IH]; simpl; [reflexivity|].
    unfold Ascii.compare. rewrite N.compare_refl. exact IH. }
  congruence.
Qed.

Lemma collect_ports_filter sigs :
  collect_ports sigs
  = (map name (List.filter (fun s => primary s && is_input s) sigs),
     map name (List.filter (fun s => primary s && is_output s) sigs)).
Proof.
  unfold collect_ports.
  assert (H : forall l i o,
    fold_left
      (fun '(inputs, outputs) s =>
         if in_list (name s) ["CONST0"; "CONST1"] then (inputs, outputs)
         else if negb (width s =? 1) then (inputs, outputs)
         else (if is_input s then inputs ++ [name s] else inputs,
               if is_output s then outputs ++ [name s] else outputs))
      l (i, o)
    = (i ++ map name (List.filter (fun s => primary s && is_input s) l),
       o ++ map name (List.filter (fun s => primary s && is_output s) l))).
  { induction l as [|s l IH]; intros i o; cbn [fold_left List.filter map].
    - rewrite !app_nil_r. reflexivity.
    - unfold primary.
      destruct (in_list (name s) ["CONST0"; "CONST1"]); cbn [negb andb];
        [apply IH|].
      destruct (width s =? 1); cbn [negb andb]; [|apply IH].
      rewrite IH.
      destruct (is_input s), (is_output s); cbn [map];
        rewrite <- ?app_assoc; reflexivity. }
  exact (H sigs [] []).
Qed.

Lemma run_exportable m :
  Forall (fun g => exportable g = true) (gates m) ->
  exists lines, stage_export.run m = Ok lines.
Proof.
  intros H. apply emit_gates_exportable in H as [ls E].
  unfold stage_export.run. rewrite E. eauto.
Qed.

End export_facts.

(** X1: Export returns exactly on the modules whose gates all carry a tag
    of the primitive set with the inputs that the branch of the tag reads:
    at least one for [NOT] and [BUF], at least two for [AND], [OR] and
    [XOR], exactly three for [MUX] and exactly two for [DFF]. *)
Theorem export_returns_iff_exportable m :
  (exists lines, stage_export.run m = Ok lines)
  <-> Forall (fun g => exportable g = true) (gates m).
Proof.
  rewrite <- export_facts.emit_gates_exportable. unfold stage_export.run.
  split.
  - intros [lines H].
    destruct (stage_export.emit_gates (gates m)); [eauto|discriminate].
  - intros [ls ->]. eauto.
Qed.

(** X2: Export never raises on a module produced by Bit-Blasting. *)
Theorem export_accepts_bitblast_output m m' :
  stage_bitblast.run m = Ok m' ->
  exists lines, stage_export.run m' = Ok lines.
Proof.
  intros H. apply export_facts.run_exportable.
  apply bitblast_facts.run_emits_primitive_cells in H.
  eapply List.Forall_impl; [|exact H].
  intros g. apply export_facts.gate_lines_cell.
Qed.

Lemma export_accepts_bitblast_output_adder2 :
  exists m' lines,
    stage_bitblast.run adder2 = Ok m' /\ stage_export.run m' = Ok lines.
Proof.
  eexists.
  match goal with
  | |- exists lines, stage_bitblast.run adder2 = Ok ?m /\ _ =>
      assert (Hrun : stage_bitblast.run adder2 = Ok m)
        by (vm_compute; reflexivity)
  end.
  destruct (export_accepts_bitblast_output adder2 _ Hrun) as [lines Hl].
  exists lines. split; [exact Hrun|exact Hl].
Defined.

(** X3: when the gates before it can be written, a gate whose tag is not
    in the primitive set stops Export with NotImplementedError and the
    message [Export: unsupported gate type '<tag>']. *)
Theorem export_stops_at_unsupported_gate m pre g post :
  gates m = pre ++ g :: post ->
  Forall (fun x => exportable x = true) pre ->
  ~ In (op_type g) primitive_tags ->
  stage_export.run m
  = Raise (NotImplementedError
             ("Export: unsupported gate type '" +:+ op_type g +:+ "'")).
Proof.
  intros Hm Hpre Hg. unfold stage_export.run. rewrite Hm.
  rewrite (export_facts.emit_gates_stops pre g post _ Hpre
             (export_facts.gate_lines_unsupported g Hg)).
  reflexivity.
Qed.

Lemma export_stops_at_unsupported_gate_adder2 :
  stage_export.run adder2
  = Raise (NotImplementedError "Export: unsupported gate type 'ADD'").
Proof.
  apply (export_stops_at_unsupported_gate adder2 []
           (mkGate "ADD" [bus_a; bus_b] bus_y) []).
  - reflexivity.
  - constructor.
  - vm_compute. intuition discriminate.
Defined.

(** X4: the rows that Export writes under the [.names] header of a gate
    are the table of the gate's function: in every valuation, the value of
    the gate is 1 exactly when one of the rows matches the values of the
    nets named in the header. *)
Theorem export_rows_are_gate_function g ls :
  stage_export.gate_lines g = Ok ls ->
  op_type g <> "DFF" ->
  exists rows,
    ls = (".names " +:+ Py.join " " (table_nets g ++ [name (output g)]))
         :: rows
    /\ forall env,
         stage_export.gate_value env g
         = Some (cover_value rows (map env (table_nets g))).
Proof.
  intros H Hop.
  destruct (export_facts.gate_lines_table g ls (fun _ => false) H Hop)
    as (rows & Hls & _).
  exists rows. split; [exact Hls|]. intros env.
  destruct (export_facts.gate_lines_table g ls env H Hop)
    as (rows' & Hls' & Hv).
  rewrite Hls in Hls'. injection Hls' as <-. exact Hv.
Qed.

Lemma export_rows_are_gate_function_mux :
  exists rows,
    [".names sel a b y"; "11- 1"; "0-1 1"]
    = (".names "
       +:+ Py.join " "
             (table_nets (mkGate "MUX" [wire_sel; wire_a; wire_b] wire_y)
              ++ ["y"]))
      :: rows
    /\ forall env,
         stage_export.gate_value env
           (mkGate "MUX" [wire_sel; wire_a; wire_b] wire_y)
         = Some (cover_value rows
                   (map env
                      (table_nets
                         (mkGate "MUX" [wire_sel; wire_a; wire_b] wire_y)))).
Proof.
  apply (export_rows_are_gate_function
           (mkGate "MUX" [wire_sel; wire_a; wire_b] wire_y)).
  - reflexivity.
  - discriminate.
Defined.

(** X5: the [.inputs] and [.outputs] lines list, in strictly increasing
    order and each once, the names of the Signals of width 1 other than
    CONST0 and CONST1 that are inputs, respectively outputs; a line is left
    out when its list is empty. *)
Theorem export_port_lists m :
  exists ins outs,
    stage_export.header m
    = [".model " +:+ mod_name m]
      ++ (match ins with
          | [] => []
          | _ => [".inputs " +:+ Py.join " " ins]
          end)
      ++ (match outs with
          | [] => []
          | _ => [".outputs " +:+ Py.join " " outs]
          end)
      ++ [EmptyString]
      ++ (match netlist.get_signal "CONST0" m with
          | Some _ => [".names CONST0"; EmptyString]
          | None => []
          end)
      ++ (match netlist.get_signal "CONST1" m with
          | Some _ => [".names CONST1"; "1"]
          | None => []
          end)
      ++ [EmptyString]
    /\ increasing ins /\ NoDup ins
    /\ increasing outs /\ NoDup outs
    /\ (forall n,
          In n ins
          <-> exists s,
                In s (signals m) /\ name s = n
                /\ primary s = true /\ is_input s = true)
    /\ (forall n,
          In n outs
          <-> exists s,
                In s (signals m) /\ name s = n
                /\ primary s = true /\ is_output s = true).
Proof.
  unfold stage_export.header.
  rewrite export_facts.collect_ports_filter.
  eexists _, _. split; [reflexivity|].
  pose proof export_facts.sorted_set_increasing as Hinc.
  split; [apply Hinc|]. split; [apply export_facts.increasing_NoDup, Hinc|].
  split; [apply Hinc|]. split; [apply export_facts.increasing_NoDup, Hinc|].
  split; intros n; rewrite export_facts.sorted_set_In, in_map_iff;
    split.
  - intros (s & Hn & Hs). apply filter_In in Hs as [Hs Hp].
    apply andb_prop in Hp as [Hp Hi]. eauto 6.
  - intros (s & Hs & Hn & Hp & Hi). exists s. split; [exact Hn|].
    apply filter_In. rewrite Hp, Hi. auto.
  - intros (s & Hn & Hs). apply filter_In in Hs as [Hs Hp].
    apply andb_prop in Hp as [Hp Hi]. eauto 6.
  - intros (s & Hs & Hn & Hp & Hi). exists s. split; [exact Hn|].
    apply filter_In. rewrite Hp, Hi. auto.
Qed.

(** ** The netlist and the names of Bit-Blasting *)

Module dict_facts.

Lemma lookup_store_hit s l :
  netlist.lookup (name s) (netlist.store s l) = Some s.
Proof. exact (elaboration_facts.lookup_store_same s l). Qed.

Lemma lookup_store_other s l n :
  n <> name s -> netlist.lookup n (netlist.store s l) = netlist.lookup n l.
Proof.
  intros Hn. induction l as [|x l IH]; simpl.
  - destruct (String.eqb_spec (name s) n); [congruence|reflexivity].
  - destruct (String.eqb_spec (name x) (name s)) as [E|E]; simpl.
    + destruct (String.eqb_spec (name s) n); [congruence|].
      destruct (String.eqb_spec (name x) n); [congruence|reflexivity].
    + destruct (String.eqb (name x) n); [reflexivity|exact IH].
Qed.

Lemma store_names s l :
  map name (netlist.store s l)
  = match netlist.lookup (name s) l with
    | Some _ => map name l
    | None => map name l ++ [name s]
    end.
Proof.
  induction l as [|x l IH]; simpl; [reflexivity|].
  destruct (String.eqb_spec (name x) (name s)) as [E|E]; simpl.
  - rewrite E. reflexivity.
  - rewrite IH. destruct (netlist.lookup (name s) l); reflexivity.
Qed.

Lemma append_inj_l : forall x y s, x +:+ s = y +:+ s -> x = y.
Proof.
  assert (Hlen : forall a b, String.length (a +:+ b)
                             = (String.length a + String.length b)%nat).
  { induction a as [|c a IH]; intros b; [reflexivity|].
    rewrite const_facts.append_cons. simpl. rewrite IH. reflexivity. }
  induction x as [|c x IH]; intros [|d y] s H.
  - reflexivity.
  - apply (f_equal String.length) in H. rewrite !Hlen in H.
    cbn [String.length] in H. lia.
  - apply (f_equal String.length) in H. rewrite !Hlen in H.
    cbn [String.length] in H. lia.
  - rewrite !const_facts.append_cons in H. injection H as -> H.
    f_equal. eapply IH. exact H.
Qed.

Lemma indexed_name_inj b i b' j :
  b +:+ "_" +:+ Py.str_nat i = b' +:+ "_" +:+ Py.str_nat j ->
  b = b' /\ i = j.
Proof.
  intros H.
  assert (Hij : i = j).
  { apply (f_equal last_field) in H.
    rewrite !name_facts.last_field_app in H
      by apply name_facts.str_nat_no_underscore.
    apply name_facts.str_nat_inj. exact H. }
  subst j. split; [|reflexivity].
  eapply append_inj_l. exact H.
Qed.

End dict_facts.

(** X6: [add_signal] stores a Signal under its name: [get_signal] then
    returns it, the other names are answered as before, and the dictionary
    keeps its order, a Signal of a new name going last and one of a known
    name taking the place of the old one. *)
Theorem add_signal_then_get_signal s m :
  netlist.get_signal (name s) (netlist.add_signal s m) = Some s
  /\ (forall n,
        n <> name s ->
        netlist.get_signal n (netlist.add_signal s m)
        = netlist.get_signal n m)
  /\ map name (signals (netlist.add_signal s m))
     = match netlist.get_signal (name s) m with
       | Some _ => map name (signals m)
       | None => map name (signals m) ++ [name s]
       end
  /\ gates (netlist.add_signal s m) = gates m.
Proof.
  unfold netlist.get_signal, netlist.add_signal. simpl.
  split; [apply dict_facts.lookup_store_hit|].
  split; [intros n Hn; apply dict_facts.lookup_store_other; exact Hn|].
  split; [apply dict_facts.store_names|reflexivity].
Qed.

(** X7: the name of a bit determines its base and its position, and the
    name of a temporary its prefix and its counter: different pairs give
    different names. *)
Theorem bit_and_tmp_names_injective :
  (forall b i b' j,
     stage_bitblast.bit_name b i = stage_bitblast.bit_name b' j ->
     b = b' /\ i = j)
  /\ (forall p i q j,
        stage_bitblast.tmp_name p i = stage_bitblast.tmp_name q j ->
        p = q /\ i = j).
Proof.
  split.
  - intros b i b' j. apply dict_facts.indexed_name_inj.
  - intros p i q j H. unfold stage_bitblast.tmp_name in H.
    apply name_facts.append_inj_r in H.
    apply dict_facts.indexed_name_inj. exact H.
Qed.

(** ** Bit-Blasting: the bit cache *)

Module cache_facts.
Import stage_bitblast.

Lemma Forall2_impl_in {A B} (P Q : A -> B -> Prop) l k :
  Forall2 P l k ->
  (forall x y, In x l -> P x y -> Q x y) ->
  Forall2 Q l k.
Proof.
  induction 1 as [|x y l k Hxy H IH]; intros Himp; constructor.
  - apply Himp; [simpl; auto|exact Hxy].
  - apply IH. intros a b Ha. apply Himp. simpl. auto.
Qed.

Lemma expand_bits_spec sig : forall l acc st,
  NoDup l ->
  exists bits st',
    foldM (fun blist i =>
             let bn := bit_name (name sig) i in
             let* found := mod_get_signal bn in
             let* b := match found with
                       | Some b => ret b
                       | None =>
                           let b := mkSignal bn 1 (is_input sig)
                                      (is_output sig) (is_reg sig) in
                           let* _ := mod_add_signal b in ret b
                       end in
             ret (blist ++ [b])) l acc st = Ok (acc ++ bits, st')
    /\ bits_map st' = bits_map st /\ tmp_idx st' = tmp_idx st
    /\ new_gates st' = new_gates st
    /\ Forall2 (fun i b =>
                  netlist.lookup (bit_name (name sig) i) (sigs st') = Some b
                  /\ b = default (fresh_bit sig i)
                           (netlist.lookup (bit_name (name sig) i) (sigs st)))
         l bits
    /\ (forall n,
          (forall i, In i l -> n <> bit_name (name sig) i) ->
          netlist.lookup n (sigs st') = netlist.lookup n (sigs st))
    /\ (forall n s,
          netlist.lookup n (sigs st) = Some s ->
          netlist.lookup n (sigs st') = Some s).
Proof.
  match goal with |- context [foldM ?f] => set (F := f) end.
  induction l as [|i l IH]; intros acc st Hnd.
  - exists [], st. simpl. rewrite app_nil_r.
    repeat split; auto.
  - apply NoDup_cons in Hnd as [Hi Hnd].
    set (bn := bit_name (name sig) i).
    set (b := default (fresh_bit sig i) (netlist.lookup bn (sigs st))).
    assert (exists st1,
      F acc i st = Ok (acc ++ [b], st1)
      /\ bits_map st1 = bits_map st /\ tmp_idx st1 = tmp_idx st
      /\ new_gates st1 = new_gates st
      /\ netlist.lookup bn (sigs st1) = Some b
      /\ (forall n, n <> bn ->
            netlist.lookup n (sigs st1) = netlist.lookup n (sigs st))
      /\ (forall n s, netlist.lookup n (sigs st) = Some s ->
            netlist.lookup n (sigs st1) = Some s))
      as (st1 & E1 & B1 & I1 & G1 & L1 & F1 & P1).
    { unfold F, bind, mod_get_signal, mod_add_signal, ret. subst b.
      fold bn.
      destruct (netlist.lookup bn (sigs st)) as [x|] eqn:E; simpl.
      - exists st. repeat split; auto.
      - eexists. split; [reflexivity|]. simpl.
        split; [reflexivity|]. split; [reflexivity|]. split; [reflexivity|].
        split; [|split].
        + exact (dict_facts.lookup_store_hit (fresh_bit sig i) (sigs st)).
        + intros n Hn.
          apply (dict_facts.lookup_store_other (fresh_bit sig i)). exact Hn.
        + intros n s Hs.
          rewrite (dict_facts.lookup_store_other (fresh_bit sig i));
            [exact Hs|].
          simpl. intros ->. unfold bn in E. congruence. }
    destruct (IH (acc ++ [b]) st1 Hnd)
      as (bits & st' & E2 & B2 & I2 & G2 & Hbits & F2 & P2).
    exists (b :: bits), st'. split.
    { cbn [foldM]. rewrite (bind_eq _ _ _ _ _ E1).
      rewrite E2, <- app_assoc. reflexivity. }
    split; [congruence|]. split; [congruence|]. split; [congruence|].
    assert (Hother : forall j, In j l -> bit_name (name sig) j <> bn).
    { intros j Hj Heq. apply name_facts.bit_name_inj in Heq. subst j.
      apply Hi. apply list_elem_of_In. exact Hj. }
    split; [|split].
    + constructor.
      * split; [apply P2; exact L1|reflexivity].
      * eapply Forall2_impl_in; [exact Hbits|].
        intros j x Hj [Hl Hx]. split; [exact Hl|].
        rewrite Hx, F1; [reflexivity|]. apply Hother. exact Hj.
    + intros n Hn. rewrite F2, F1; [reflexivity| |].
      * apply Hn. simpl. auto.
      * intros j Hj. apply Hn. simpl. auto.
    + intros n s Hs. apply P2, P1. exact Hs.
Qed.

Lemma get_bits_returns sig st :
  exists l st',
    get_bits sig st = Ok (l, st')
    /\ bits_map st' !! name sig = Some l
    /\ (width sig <> 1 -> bits_map st !! name sig = Some l -> st' = st)
    /\ (width sig <> 1 -> bits_map st !! name sig = None ->
        bits_map st' = <[name sig := l]> (bits_map st)).
Proof.
  unfold get_bits. destruct (width sig =? 1) eqn:Ew.
  - apply Z.eqb_eq in Ew. eexists _, _. split; [reflexivity|]. simpl.
    split; [apply lookup_insert_eq|]. split; intros H; contradiction.
  - unfold bind at 1, bits_map_get.
    destruct (bits_map st !! name sig) as [l0|] eqn:El.
    + exists l0, st. split; [reflexivity|]. repeat split; auto.
      discriminate.
    + destruct (expand_bits_spec sig (Py.range (width sig)) [] st)
        as (bits & st1 & E & B & _); [apply NoDup_seq|].
      simpl in E.
      eexists bits, _. split.
      { rewrite (bind_eq _ _ _ _ _ E). reflexivity. }
      simpl. rewrite B. split; [apply lookup_insert_eq|].
      split; [discriminate|reflexivity].
Qed.

End cache_facts.

(** X8: [get_bits] never raises and leaves its result in the cache under
    the name of the Signal; asked again, it gives the same bits and
    changes nothing. *)
Theorem get_bits_is_cached sig st :
  exists l st',
    stage_bitblast.get_bits sig st = Ok (l, st')
    /\ stage_bitblast.bits_map st' !! name sig = Some l
    /\ stage_bitblast.get_bits sig st' = Ok (l, st').
Proof.
  destruct (cache_facts.get_bits_returns sig st) as (l & st' & E & Hc & _).
  exists l, st'. split; [exact E|]. split; [exact Hc|].
  destruct (Z.eq_dec (width sig) 1) as [Hw|Hw].
  - unfold stage_bitblast.get_bits in *. rewrite Hw in *. simpl in *.
    unfold bind, stage_bitblast.bits_map_set, ret in *.
    injection E as <- <-. simpl. rewrite insert_insert_eq. reflexivity.
  - destruct (cache_facts.get_bits_returns sig st')
      as (l2 & st2 & E2 & _ & Hsame & _).
    assert (Hl : stage_bitblast.bits_map st' !! name sig = Some l2).
    { unfold stage_bitblast.get_bits in E2.
      apply Z.eqb_neq in Hw. rewrite Hw in E2.
      unfold bind at 1, stage_bitblast.bits_map_get in E2.
      rewrite Hc in E2. injection E2 as <- _. exact Hc. }
    rewrite (Hsame Hw Hl) in E2. congruence.
Qed.

(** X9: the first time the bits of a Signal wider or narrower than 1 are
    asked for, [get_bits] returns one Signal per position of the width,
    named after the Signal and the position: the Signal that the module
    holds under that name, or else a new 1-bit Signal with the flags of the
    expanded one. Afterwards the module holds every returned bit under its
    name, and every Signal it held before. *)
Theorem get_bits_expands sig st l st' :
  width sig <> 1 ->
  stage_bitblast.bits_map st !! name sig = None ->
  stage_bitblast.get_bits sig st = Ok (l, st') ->
  length l = Z.to_nat (width sig)
  /\ (forall i b,
        l !! i = Some b ->
        name b = stage_bitblast.bit_name (name sig) i
        /\ netlist.lookup (name b) (stage_bitblast.sigs st') = Some b
        /\ b = default (fresh_bit sig i)
                 (netlist.lookup (stage_bitblast.bit_name (name sig) i)
                    (stage_bitblast.sigs st)))
  /\ (forall n s,
        netlist.lookup n (stage_bitblast.sigs st) = Some s ->
        netlist.lookup n (stage_bitblast.sigs st') = Some s).
Proof.
  intros Hw Hc H. unfold stage_bitblast.get_bits in H.
  pose proof Hw as Hw'. apply Z.eqb_neq in Hw'. rewrite Hw' in H.
  unfold bind at 1, stage_bitblast.bits_map_get in H. rewrite Hc in H.
  destruct (cache_facts.expand_bits_spec sig (Py.range (width sig)) [] st)
    as (bits & st1 & E & _ & _ & _ & Hbits & _ & Hkeep); [apply NoDup_seq|].
  simpl in E. rewrite (bind_eq _ _ _ _ _ E) in H.
  unfold bind, stage_bitblast.bits_map_set, ret in H.
  injection H as <- <-. simpl.
  assert (Hlen : length bits = Z.to_nat (width sig)).
  { apply Forall2_length in Hbits. unfold Py.range in Hbits.
    rewrite length_seq in Hbits. lia. }
  split; [exact Hlen|]. split; [|exact Hkeep].
  intros i b Hb.
  assert (Hi : Py.range (width sig) !! i = Some i).
  { unfold Py.range. apply lookup_seq. split; [reflexivity|].
    rewrite <- Hlen. apply lookup_lt_is_Some. eauto. }
  destruct (Forall2_lookup_lr _ _ _ _ _ _ Hbits Hi Hb) as [Hl Hd].
  assert (Hn : name b = stage_bitblast.bit_name (name sig) i).
  { exact (network_facts.lookup_name _ _ _ Hl). }
  rewrite Hn. auto.
Qed.

Lemma get_bits_expands_bus_a :
  length [fresh_bit bus_a 0; fresh_bit bus_a 1] = Z.to_nat (width bus_a)
  /\ (forall i b,
        [fresh_bit bus_a 0; fresh_bit bus_a 1] !! i = Some b ->
        name b = stage_bitblast.bit_name (name bus_a) i
        /\ netlist.lookup (name b)
             [bus_a; bus_b; bus_y; CONST0; CONST1; fresh_bit bus_a 0;
              fresh_bit bus_a 1] = Some b
        /\ b = default (fresh_bit bus_a i)
                 (netlist.lookup (stage_bitblast.bit_name (name bus_a) i)
                    (stage_bitblast.sigs adder2_state)))
  /\ (forall n s,
        netlist.lookup n (stage_bitblast.sigs adder2_state) = Some s ->
        netlist.lookup n
          [bus_a; bus_b; bus_y; CONST0; CONST1; fresh_bit bus_a 0;
           fresh_bit bus_a 1] = Some s).
Proof.
  apply (get_bits_expands bus_a adder2_state
           [fresh_bit bus_a 0; fresh_bit bus_a 1]
           (stage_bitblast.mkState
              [bus_a; bus_b; bus_y; CONST0; CONST1; fresh_bit bus_a 0;
               fresh_bit bus_a 1]
              (<[name bus_a := [fresh_bit bus_a 0; fresh_bit bus_a 1]]> ∅)
              0%nat [])).
  - discriminate.
  - reflexivity.
  - vm_compute. reflexivity.
Defined.

(** X10: an operand is delivered at exactly the width asked for: the bits
    fetched for it (from the cache, or from the constant's name) in their
    positions, CONST0 in the positions beyond them, and nothing past the
    width. *)
Theorem get_operand_bits_pads_and_cuts c0 c1 sig w st l st' :
  0 <= w ->
  stage_bitblast.get_operand_bits c0 c1 sig w st = Ok (l, st') ->
  exists bits,
    (if String.prefix "CONST_" (name sig)
     then stage_bitblast.const_bits_from_signal c0 c1 sig w
     else stage_bitblast.get_bits sig) st = Ok (bits, st')
    /\ length l = Z.to_nat w
    /\ forall i,
         (i < Z.to_nat w)%nat -> l !! i = Some (default c0 (bits !! i)).
Proof.
  intros Hw H. pose proof (network_facts.fetch_length _ _ _ _ _ _ _ Hw H)
    as Hlen.
  unfold stage_bitblast.get_operand_bits in H.
  apply bind_ok in H as (bits & st1 & Hf & H).
  unfold ret in H. injection H as <- <-.
  exists bits. split; [exact Hf|]. split; [exact Hlen|].
  intros i Hi. unfold Py.slice_to.
  destruct (w <? 0) eqn:E; [lia|].
  rewrite lookup_take_lt by exact Hi.
  destruct (Z.of_nat (length bits) <? w) eqn:E2.
  - destruct (bits !! i) as [b|] eqn:Eb; simpl.
    + rewrite lookup_app_l by (apply lookup_lt_is_Some; eauto). exact Eb.
    + apply lookup_ge_None in Eb. rewrite lookup_app_r by exact Eb.
      assert (Hrep : forall n j, (j < n)%nat -> repeat c0 n !! j = Some c0).
      { induction n as [|n IH]; intros [|j] Hj; simpl; try lia; auto.
        apply IH. lia. }
      apply Hrep. lia.
  - destruct (bits !! i) as [b|] eqn:Eb; [reflexivity|].
    apply lookup_ge_None in Eb. lia.
Qed.

Lemma get_operand_bits_pads_and_cuts_wire_x :
  exists bits,
    (if String.prefix "CONST_" (name wire_x)
     then stage_bitblast.const_bits_from_signal CONST0 CONST1 wire_x 2
     else stage_bitblast.get_bits wire_x) adder2_state
    = Ok (bits,
          stage_bitblast.mkState [bus_a; bus_b; bus_y; CONST0; CONST1]
            (<[name wire_x := [wire_x]]> ∅) 0%nat [])
    /\ length [wire_x; CONST0] = Z.to_nat 2
    /\ forall i,
         (i < Z.to_nat 2)%nat ->
         [wire_x; CONST0] !! i = Some (default CONST0 (bits !! i)).
Proof.
  apply (get_operand_bits_pads_and_cuts CONST0 CONST1 wire_x 2 adder2_state).
  - lia.
  - vm_compute. reflexivity.
Defined.

(** X11: [new_tmp] never raises, names its result after the prefix and
    the counter and moves the counter by one; a later call, under whatever
    prefix, returns another name. *)
Theorem new_tmp_names_are_new p st :
  exists s st1,
    stage_bitblast.new_tmp p st = Ok (s, st1)
    /\ name s = stage_bitblast.tmp_name p (stage_bitblast.tmp_idx st)
    /\ stage_bitblast.tmp_idx st1 = S (stage_bitblast.tmp_idx st)
    /\ netlist.lookup (name s) (stage_bitblast.sigs st1) = Some s
    /\ forall q st2 s' st3,
         (stage_bitblast.tmp_idx st1 <= stage_bitblast.tmp_idx st2)%nat ->
         stage_bitblast.new_tmp q st2 = Ok (s', st3) ->
         name s' <> name s.
Proof.
  destruct (network_facts.new_tmp_run p st) as (s & st1 & E & _ & I & N).
  exists s, st1. split; [exact E|]. split; [exact N|]. split; [exact I|].
  split.
  - unfold stage_bitblast.new_tmp, bind, stage_bitblast.next_tmp_idx,
      stage_bitblast.mod_get_signal, stage_bitblast.mod_add_signal, ret in E.
    simpl in E.
    destruct (netlist.lookup _ _) as [x|] eqn:El; injection E as <- <-.
    + simpl. rewrite (network_facts.lookup_name _ _ _ El). exact El.
    + simpl.
      exact (dict_facts.lookup_store_hit
               (mkSignal (stage_bitblast.tmp_name p (stage_bitblast.tmp_idx st))
                  1 false false false) (stage_bitblast.sigs st)).
  - intros q st2 s' st3 Hle E2.
    destruct (network_facts.new_tmp_run q st2) as (s2 & st4 & E4 & _ & _ & N2).
    rewrite E4 in E2. injection E2 as <- <-.
    rewrite N, N2. intros Heq.
    apply name_facts.tmp_name_idx_inj in Heq. lia.
Qed.

(** ** Bit-Blasting: when the pass stops *)

Section fails_rules.
Context {S : Type} (P : exn -> Prop).

Lemma fails_ret {A} (a : A) : fails_with (S := S) P (ret a).
Proof. intros st e H. discriminate. Qed.

Lemma fails_raise {A} e : P e -> fails_with (S := S) (A := A) P (raise e).
Proof. intros He st e' H. inversion H. subst. exact He. Qed.

Lemma fails_bind {A B} (c : SE S A) (f : A -> SE S B) :
  fails_with P c -> (forall a, fails_with P (f a)) ->
  fails_with P (bind c f).
Proof.
  intros Hc Hf st e H. unfold bind in H.
  destruct (c st) as [[a st1]|e1] eqn:E.
  - exact (Hf a st1 e H).
  - inversion H. subst. exact (Hc st e E).
Qed.

Lemma fails_index {A} (l : list A) i :
  P IndexError -> fails_with (S := S) P (index l i).
Proof.
  intros HP st e H. unfold index in H. destruct (l !! i); [discriminate|].
  inversion H. subst. exact HP.
Qed.

Lemma fails_foldM {A B} (body : B -> A -> SE S B) l :
  (forall b x, In x l -> fails_with P (body b x)) ->
  forall b, fails_with P (foldM body l b).
Proof.
  induction l as [|x l IH]; intros Hb b; simpl.
  - apply fails_ret.
  - apply fails_bind; [apply Hb; simpl; auto|].
    intros b'. apply IH. intros b0 y Hy. apply Hb. simpl. auto.
Qed.

Lemma fails_forM {A} (body : A -> SE S unit) l :
  (forall x, In x l -> fails_with P (body x)) -> fails_with P (forM l body).
Proof. intros Hb. apply fails_foldM. intros _. exact Hb. Qed.

Lemma fails_unpack2 {A} (l : list A) :
  P ValueError -> fails_with (S := S) P (unpack2 l).
Proof.
  intros HP. destruct l as [|a [|b [|c l]]]; simpl;
    auto using fails_ret, fails_raise.
Qed.

Lemma fails_unpack3 {A} (l : list A) :
  P ValueError -> fails_with (S := S) P (unpack3 l).
Proof.
  intros HP. destruct l as [|a [|b [|c [|d l]]]]; simpl;
    auto using fails_ret, fails_raise.
Qed.

Lemma fails_unpack6 {A} (l : list A) :
  P ValueError -> fails_with (S := S) P (unpack6 l).
Proof.
  intros HP. destruct l as [|a [|b [|c [|d [|e [|f [|g l]]]]]]]; simpl;
    auto using fails_ret, fails_raise.
Qed.

End fails_rules.

(** The steps of a loop that returns have all returned. *)
Lemma forM_ok_each {S A} (body : A -> SE S unit) l : forall st st',
  forM l body st = Ok (tt, st') ->
  Forall (fun x => exists s s', body x s = Ok (tt, s')) l.
Proof.
  unfold forM. induction l as [|x l IH]; intros st st' H; [constructor|].
  simpl in H. apply bind_ok in H as ([] & s1 & Hx & H).
  constructor; [eauto|]. eapply IH. exact H.
Qed.

Module stop_facts.
Import stage_bitblast.

Lemma never_fails {A} (P : exn -> Prop) (c : M A) :
  (forall st, exists a st', c st = Ok (a, st')) -> fails_with P c.
Proof. intros H st e E. destruct (H st) as (a & st' & E'). congruence. Qed.

Lemma get_bits_fails P sig : fails_with P (get_bits sig).
Proof.
  apply never_fails. intros st.
  destruct (cache_facts.get_bits_returns sig st) as (l & st' & E & _).
  eauto.
Qed.

Lemma new_tmp_fails P p : fails_with P (new_tmp p).
Proof.
  apply never_fails. intros st.
  destruct (network_facts.new_tmp_run p st) as (s & st' & E & _). eauto.
Qed.

Lemma emit_fails P g : fails_with P (emit g).
Proof. intros st e H. discriminate. Qed.

Lemma parse_verilog_const_raises v h e :
  parse_verilog_const v h = Raise e -> e = ValueError.
Proof.
  unfold parse_verilog_const, int_or_raise.
  destruct (const_re_match (Py.strip v)) as [[[g1 g2] g3]|]; [|discriminate].
  destruct (Py.ascii_eqb (Py.lower g2) "b"); [discriminate|].
  repeat match goal with
         | |- context [if ?b then _ else _] => destruct b
         | |- context [Py.int_of ?b ?s] => destruct (Py.int_of b s)
         end; intros H; inversion H; reflexivity.
Qed.

Lemma get_operand_bits_fails (P : exn -> Prop) c0 c1 sig w :
  P ValueError -> P IndexError ->
  fails_with P (get_operand_bits c0 c1 sig w).
Proof.
  intros HV HI. unfold get_operand_bits.
  apply fails_bind; [|intros bits; apply fails_ret].
  destruct (String.prefix "CONST_" (name sig)) eqn:E;
    [|apply get_bits_fails].
  unfold const_bits_from_signal. rewrite E. simpl.
  destruct (snd (Py.split_first "_"%char (name sig)));
    [|apply fails_raise; exact HI].
  apply fails_bind; [|intros bits; apply fails_ret].
  intros st e H. unfold lift in H.
  destruct (parse_verilog_const _ _) eqn:Ep; [discriminate|].
  inversion H. subst.
  apply parse_verilog_const_raises in Ep. subst. exact HV.
Qed.

Section gate.
Context (gs : list Gate).

Ltac fails_step :=
  first
    [ apply get_bits_fails
    | apply new_tmp_fails
    | apply emit_fails
    | apply get_operand_bits_fails; [left; reflexivity|right; left; reflexivity]
    | apply fails_ret
    | apply fails_index; right; left; reflexivity
    | apply fails_unpack2; left; reflexivity
    | apply fails_unpack3; left; reflexivity
    | apply fails_unpack6; left; reflexivity
    | apply fails_bind; [|intros ?]
    | apply fails_forM; intros ? _
    | apply fails_foldM; intros ? ? _
    | match goal with
      | |- fails_with _ (let '(_, _) := ?x in _) => destruct x
      | |- fails_with _ (match ?x with _ => _ end) => destruct x
      | |- fails_with _ (if ?b then _ else _) => destruct b
      | |- fails_with _ ((if ?b then _ else _) _ _ _) => destruct b
      end ].

Lemma blast_gate_fails c0 c1 g :
  In g gs -> fails_with (blast_error gs) (blast_gate c0 c1 g).
Proof.
  intros Hin. unfold blast_gate.
  destruct (in_list (op_type g) ["AND"; "OR"; "XOR"]) eqn:E1.
  { unfold blast_bitwise, bitwise_step, XOR2, AND2, OR2.
    repeat fails_step. }
  destruct (String.eqb (op_type g) "EQ") eqn:E2.
  { unfold blast_eq, eq_column, eq_step, eq_reduce, reduce_step,
      XOR2, AND2, NOT1.
    repeat fails_step. }
  destruct (String.eqb (op_type g) "MUX") eqn:E3.
  { unfold blast_mux, mux_step, MUX2. repeat fails_step. }
  destruct (String.eqb (op_type g) "ADD") eqn:E4.
  { unfold blast_add, add_loop, add_step, XOR2, AND2, OR2.
    repeat fails_step. }
  destruct (String.eqb (op_type g) "DFF_EN_RST") eqn:E5.
  { unfold blast_dff_en_rst, dff_loop, dff_step, MUX2, DFF.
    repeat fails_step. }
  destruct (in_list (op_type g) ["NOT"; "BUF"]) eqn:E6.
  { unfold blast_not_buf, NOT1, AND2. repeat fails_step. }
  apply fails_raise. right. right. exists g. split; [exact Hin|].
  split; [|reflexivity].
  unfold blast_tags. intros Hop.
  apply network_facts.in_list_false in E1, E6.
  apply String.eqb_neq in E2, E3, E4, E5.
  simpl in Hop, E1, E6. intuition congruence.
Qed.

End gate.

Lemma pass_fails m : fails_with (blast_error (gates m)) (pass m).
Proof.
  unfold pass.
  apply fails_bind.
  { apply never_fails. intros st. unfold ensure_const, bind, mod_get_signal,
      mod_add_signal, ret.
    destruct (netlist.lookup "CONST0" (sigs st)); eauto. }
  intros c0. apply fails_bind.
  { apply never_fails. intros st. unfold ensure_const, bind, mod_get_signal,
      mod_add_signal, ret.
    destruct (netlist.lookup "CONST1" (sigs st)); eauto. }
  intros c1. apply fails_bind.
  { intros st e H. discriminate. }
  intros all. apply fails_bind.
  - apply fails_forM. intros s _.
    apply fails_bind; [apply get_bits_fails|intros ?; apply fails_ret].
  - intros _. apply fails_forM. intros g Hg.
    apply blast_gate_fails. exact Hg.
Qed.

Lemma blast_gate_ok_blastable c0 c1 g st st' :
  blast_gate c0 c1 g st = Ok (tt, st') -> blastable g = true.
Proof.
  unfold blast_gate. intros H.
  destruct (in_list (op_type g) ["AND"; "OR"; "XOR"]) eqn:E1.
  { unfold blast_bitwise in H.
    apply bind_ok in H as (p & s & Hu & _).
    apply driver_facts.unpack2_ok in Hu as [_ Hu].
    apply network_facts.in_list_In in E1. simpl in E1.
    unfold blastable. rewrite Hu.
    destruct E1 as [<-|[<-|[<-|[]]]]; reflexivity. }
  destruct (String.eqb_spec (op_type g) "EQ") as [E2|E2].
  { unfold blast_eq in H.
    apply bind_ok in H as (p & s & Hu & _).
    apply driver_facts.unpack2_ok in Hu as [_ Hu].
    unfold blastable. rewrite Hu, E2. reflexivity. }
  destruct (String.eqb_spec (op_type g) "MUX") as [E3|E3].
  { unfold blast_mux in H.
    apply bind_ok in H as (p & s & Hu & _).
    apply driver_facts.unpack3_ok in Hu as [_ Hu].
    unfold blastable. rewrite Hu, E3. reflexivity. }
  destruct (String.eqb_spec (op_type g) "ADD") as [E4|E4].
  { unfold blast_add in H.
    apply bind_ok in H as (p & s & Hu & _).
    apply driver_facts.unpack2_ok in Hu as [_ Hu].
    unfold blastable. rewrite Hu, E4. reflexivity. }
  destruct (String.eqb_spec (op_type g) "DFF_EN_RST") as [E5|E5].
  { unfold blast_dff_en_rst in H.
    apply bind_ok in H as ([[[[[a b] c] d] e] f] & s & Hu & _).
    apply driver_facts.unpack6_ok in Hu as [_ Hu].
    unfold blastable. rewrite Hu, E5. reflexivity. }
  destruct (in_list (op_type g) ["NOT"; "BUF"]) eqn:E6; [|discriminate].
  unfold blast_not_buf in H.
  apply bind_ok in H as (x & s & Hx & _).
  apply index_ok in Hx as [Hx _].
  apply network_facts.in_list_In in E6. simpl in E6.
  unfold blastable.
  destruct (inputs g); [discriminate|].
  destruct E6 as [<-|[<-|[]]]; reflexivity.
Qed.

End stop_facts.

(** X12: Bit-Blasting returns only on a module whose gates all carry one of
    the nine tags that the pass has a branch for, each with the inputs that
    its branch unpacks. *)
Theorem bitblast_returns_only_on_blastable m m' :
  stage_bitblast.run m = Ok m' ->
  Forall (fun g => blastable g = true) (gates m).
Proof.
  unfold stage_bitblast.run. intros H.
  destruct (stage_bitblast.pass m _) as [[[] st]|e] eqn:E; [|discriminate].
  unfold stage_bitblast.pass in E.
  apply bind_ok in E as (c0 & s0 & _ & E).
  apply bind_ok in E as (c1 & s1 & _ & E).
  apply bind_ok in E as (all & s2 & _ & E).
  apply bind_ok in E as (u & s3 & _ & E).
  apply forM_ok_each in E.
  eapply List.Forall_impl; [|exact E].
  intros g (s & s' & Hg). eapply stop_facts.blast_gate_ok_blastable; eauto.
Qed.

Lemma bitblast_returns_only_on_blastable_adder2 :
  Forall (fun g => blastable g = true) (gates adder2).
Proof.
  eapply (bitblast_returns_only_on_blastable adder2).
  vm_compute. reflexivity.
Defined.

(** X13: when Bit-Blasting stops, it stops with ValueError, with
    IndexError, or with NotImplementedError and the message
    [Bitblast: unsupported gate type <tag>] for the tag of a gate of the
    input that is none of the nine. *)
Theorem bitblast_stops_with m e :
  stage_bitblast.run m = Raise e -> blast_error (gates m) e.
Proof.
  unfold stage_bitblast.run. intros H.
  destruct (stage_bitblast.pass m _) as [[u st]|e'] eqn:E; [discriminate|].
  inversion H. subst.
  exact (stop_facts.pass_fails m _ _ E).
Qed.

Lemma bitblast_stops_with_subtractor :
  blast_error (gates subtractor)
    (NotImplementedError "Bitblast: unsupported gate type SUB").
Proof.
  apply (bitblast_stops_with subtractor). vm_compute. reflexivity.
Defined.

(** ** Literals *)

Module literal_facts.
Import stage_bitblast.

Lemma str_N_digits v : all_chars Py.is_digit (Py.str_N v) = true.
Proof. apply const_facts.string_of_uint_digits. Qed.

Lemma str_N_head v :
  exists c r, Py.str_N v = String c r /\ Py.is_digit c = true.
Proof.
  pose proof (str_N_digits v) as Hd. unfold Py.str_N in *.
  destruct (const_facts.to_uint_shape v) as [E|[Hnil _]].
  - rewrite E. simpl. eauto.
  - destruct (N.to_uint v); try congruence; simpl in *; eauto.
Qed.

(** [int(str(v), 10)] is [v]. *)
Lemma int_of_10_str_N (v : N) : Py.int_of 10 (Py.str_N v) = Some (Z.of_N v).
Proof.
  unfold Py.str_N.
  rewrite <- (DecimalN.Unsigned.of_to v) at 2.
  rewrite <- const_facts.uint_value_of_uint.
  destruct (const_facts.to_uint_shape v) as [E|[Hnil Hd0]].
  { rewrite E. reflexivity. }
  destruct (const_facts.scan_uint (N.to_uint v) 0%N 0%nat)
    as (nd & Hs & _ & Hnd).
  specialize (Hnd Hnil).
  destruct (N.to_uint v) as [|d|d|d|d|d|d|d|d|d|d]; try congruence;
    try (exfalso; exact (Hd0 d eq_refl));
    unfold Py.int_of;
    simpl NilEmpty.string_of_uint in *; simpl Py.lstrip;
    cbv beta iota; simpl Py.is_one_of; cbv beta iota;
    rewrite Hs; simpl;
    (destruct nd; [lia|reflexivity]).
Qed.

Lemma span_stop p ds c rest :
  all_chars p ds = true -> p c = false ->
  Py.span p (ds +:+ String c rest) = (ds, String c rest).
Proof.
  intros Hds Hc. induction ds as [|d ds IH].
  - change (Py.span p (String c rest) = (EmptyString, String c rest)).
    simpl. rewrite Hc. reflexivity.
  - rewrite const_facts.append_cons. simpl in *.
    apply andb_prop in Hds as [Hd Hds]. rewrite Hd, (IH Hds). reflexivity.
Qed.

Lemma span_all p s :
  all_chars p s = true -> Py.span p s = (s, EmptyString).
Proof.
  induction s as [|c r IH]; simpl; [reflexivity|].
  intros H%andb_prop. destruct H as [Hc Hr].
  rewrite Hc, (IH Hr). reflexivity.
Qed.


(** Nothing is stripped from a text that ends in a character that is no
    blank. *)
Lemma rstrip_keeps a c r :
  Py.rstrip (String c r) = String c r -> Py.rstrip (a +:+ String c r) = a +:+ String c r.
Proof.
  intros H. induction a as [|x a IH].
  - exact H.
  - rewrite const_facts.append_cons. simpl Py.rstrip. rewrite IH.
    destruct a; reflexivity.
Qed.

Lemma replace_char_absent old new s :
  Py.contains_char old s = false -> Py.replace_char old new s = s.
Proof.
  induction s as [|c r IH]; simpl; [reflexivity|].
  intros H%orb_false_elim. destruct H as [Hc Hr].
  rewrite Hc, (IH Hr). reflexivity.
Qed.

Lemma remove_char_absent old s :
  Py.contains_char old s = false -> Py.remove_char old s = s.
Proof.
  induction s as [|c r IH]; simpl; [reflexivity|].
  intros H%orb_false_elim. destruct H as [Hc Hr].
  rewrite Hc, (IH Hr). reflexivity.
Qed.

Lemma absent_from (p : ascii -> bool) x s :
  p x = false -> all_chars p s = true -> Py.contains_char x s = false.
Proof.
  intros Hx. induction s as [|c r IH]; simpl; [reflexivity|].
  intros H%andb_prop. destruct H as [Hc Hr]. rewrite (IH Hr).
  unfold Py.ascii_eqb. destruct (Ascii.eqb_spec c x) as [->|_];
    [congruence|reflexivity].
Qed.


Lemma const_digit_not_space x :
  is_const_digit x = true -> Py.is_space x = false.
Proof.
  destruct x as [[] [] [] [] [] [] [] []]; try discriminate; reflexivity.
Qed.

Lemma rstrip_const_digits ds :
  all_chars is_const_digit ds = true -> Py.rstrip ds = ds.
Proof.
  induction ds as [|x ds IH]; [reflexivity|].
  simpl. intros H%andb_prop. destruct H as [Hx Hds].
  rewrite (IH Hds), (const_digit_not_space x Hx). destruct ds; reflexivity.
Qed.

(** The match of a sized literal whose digits are all digits of the
    pattern. *)
Lemma const_re_match_sized w b ds :
  Py.is_one_of b "bBdDhHoO" = true ->
  all_chars is_const_digit ds = true -> ds <> EmptyString ->
  Py.strip (sized w b ds) = sized w b ds
  /\ const_re_match (sized w b ds) = Some (Py.str_N w, b, ds).
Proof.
  intros Hb Hds Hne. unfold sized.
  destruct (str_N_head w) as (c & r & Ew & Hc).
  pose proof (str_N_digits w) as Hw.
  assert (Hl : Py.lstrip (Py.str_N w +:+ String "'" (String b ds))
               = Py.str_N w +:+ String "'" (String b ds)).
  { rewrite Ew, const_facts.append_cons. simpl.
    rewrite (const_facts.digit_not_space c Hc). reflexivity. }
  pose proof const_digit_not_space as Hcd.
  pose proof (rstrip_const_digits ds Hds) as Hr.
  split.
  - unfold Py.strip. rewrite Hl.
    destruct ds as [|x ds]; [congruence|].
    replace (Py.str_N w +:+ String "'" (String b (String x ds)))
      with ((Py.str_N w +:+ String "'" (String b EmptyString))
            +:+ String x ds).
    + apply rstrip_keeps. exact Hr.
    + clear. induction (Py.str_N w) as [|y s IH]; [reflexivity|].
      rewrite !const_facts.append_cons, IH. reflexivity.
  - unfold const_re_match. rewrite Hl.
    rewrite (span_stop Py.is_digit _ "'"%char _ Hw eq_refl).
    rewrite Ew. simpl Py.lstrip. cbv beta iota. rewrite Hb.
    assert (Hlds : Py.lstrip ds = ds).
    { destruct ds as [|x ds]; [reflexivity|]. simpl in *.
      apply andb_prop in Hds as [Hx _]. rewrite (Hcd x Hx). reflexivity. }
    rewrite Hlds, (span_all _ _ Hds). simpl Py.lstrip. cbv beta iota.
    destruct ds; [congruence|reflexivity].
Qed.

Lemma bin_const_digits bs : all_chars is_const_digit (bin bs) = true.
Proof. induction bs as [|[] bs IH]; simpl; auto. Qed.

Lemma bin_clean bs c :
  is_one_of_xz c = true -> Py.contains_char c (bin bs) = false.
Proof.
  intros Hc. induction bs as [|b bs IH]; [reflexivity|].
  change (bin (b :: bs))
    with (String (if b then "1"%char else "0"%char) (bin bs)).
  simpl. rewrite IH, orb_false_r. unfold Py.ascii_eqb.
  destruct c as [[] [] [] [] [] [] [] []]; try discriminate Hc;
    destruct b; reflexivity.
Qed.

Lemma list_ascii_app s1 s2 :
  list_ascii_of_string (s1 +:+ s2)
  = list_ascii_of_string s1 ++ list_ascii_of_string s2.
Proof.
  induction s1 as [|c s1 IH]; [reflexivity|].
  rewrite const_facts.append_cons. simpl. rewrite IH. reflexivity.
Qed.

Lemma bin_length bs : String.length (bin bs) = length bs.
Proof.
  induction bs as [|b bs IH]; [reflexivity|].
  change (S (String.length (bin bs)) = S (length bs)). f_equal. exact IH.
Qed.

End literal_facts.


(** X15: a sized binary literal [w'b<bits>] decodes to its bits, least
    significant bit first, extended with zeros up to the declared width
    and cut to it: the high bits beyond the width are dropped. *)
Theorem sized_binary_decodes (w : N) bs hint :
  bs <> [] ->
  stage_bitblast.parse_verilog_const (sized w "b" (bin bs)) hint
  = Ok (take (N.to_nat w)
          (map Z.b2z (rev bs) ++ repeat 0 (N.to_nat w - length bs)%nat)).
Proof.
  intros Hbs.
  pose proof (literal_facts.bin_const_digits bs) as Hc.
  assert (Hne : bin bs <> EmptyString).
  { destruct bs; [congruence|discriminate]. }
  destruct (literal_facts.const_re_match_sized w "b" _ eq_refl Hc Hne)
    as [Hs Hm].
  unfold stage_bitblast.parse_verilog_const. rewrite Hs, Hm.
  rewrite literal_facts.int_of_10_str_N. cbv beta iota zeta.
  simpl Py.ascii_eqb. cbv beta iota.
  rewrite literal_facts.remove_char_absent
    by (apply literal_facts.bin_clean; reflexivity).
  rewrite (literal_facts.replace_char_absent "Z" "0" (bin bs))
    by (apply literal_facts.bin_clean; reflexivity).
  rewrite (literal_facts.replace_char_absent "z" "0" (bin bs))
    by (apply literal_facts.bin_clean; reflexivity).
  rewrite (literal_facts.replace_char_absent "X" "0" (bin bs))
    by (apply literal_facts.bin_clean; reflexivity).
  rewrite (literal_facts.replace_char_absent "x" "0" (bin bs))
    by (apply literal_facts.bin_clean; reflexivity).
  f_equal. unfold Py.slice_to, Py.zfill. simpl default.
  destruct (Z.of_N w <? 0) eqn:E; [apply Z.ltb_lt in E; lia|].
  rewrite literal_facts.list_ascii_app, list_ascii_of_string_of_list_ascii.
  rewrite literal_facts.bin_length, rev_app_distr, rev_repeat, map_app.
  replace (Z.to_nat (Z.of_N w)) with (N.to_nat w) by lia.
  f_equal. f_equal.
  - unfold bin. rewrite list_ascii_of_string_of_list_ascii.
    rewrite <- map_rev, map_map. apply map_ext. intros []; reflexivity.
  - induction (N.to_nat w - length bs)%nat as [|n IH]; [reflexivity|].
    simpl. rewrite IH. reflexivity.
Qed.

Lemma sized_binary_decodes_six :
  stage_bitblast.parse_verilog_const "2'b110" 1 = Ok [0; 1].
Proof.
  exact (sized_binary_decodes 2 [true; true; false] 1 ltac:(discriminate)).
Defined.

(** ** Elaboration: literals and widths *)

Module reader_facts.
Import stage_elaboration.

Lemma contains_char_app x a b :
  Py.contains_char x (a +:+ b) = Py.contains_char x a || Py.contains_char x b.
Proof.
  induction a as [|c a IH]; [reflexivity|].
  rewrite const_facts.append_cons. simpl. rewrite IH, orb_assoc. reflexivity.
Qed.



Lemma split_first_stop x a rest :
  Py.contains_char x a = false ->
  Py.split_first x (a +:+ String x rest) = (a, Some rest).
Proof.
  intros Ha. induction a as [|c a IH].
  - change (Py.split_first x (String x rest) = (EmptyString, Some rest)).
    simpl. unfold Py.ascii_eqb. rewrite Ascii.eqb_refl. reflexivity.
  - rewrite const_facts.append_cons. simpl in *.
    apply orb_false_elim in Ha as [Hc Ha]. rewrite Hc, (IH Ha). reflexivity.
Qed.

Lemma digits_without x s :
  Py.is_digit x = false -> all_chars Py.is_digit s = true ->
  Py.contains_char x s = false.
Proof. apply literal_facts.absent_from. Qed.


(** The digit scan of [int()] stops at a quote. *)
Lemma scan_stops_at_quote d x : forall acc nd,
  exists v nd',
    Py.scan_digits 10 false acc nd
      (NilEmpty.string_of_uint d +:+ String "'" x)
    = Some (v, nd', String "'" x)
    /\ (nd <= nd')%nat.
Proof.
  induction d; intros acc nd;
    try (simpl NilEmpty.string_of_uint; rewrite const_facts.append_cons;
         simpl;
         match goal with
         | |- context [Py.scan_digits 10 false ?a ?n
                         (NilEmpty.string_of_uint d +:+ _)] =>
             destruct (IHd a n) as (v & nd' & -> & Hle);
             exists v, nd'; split; [reflexivity|lia]
         end).
  exists acc, nd. split; [reflexivity|lia].
Qed.

(** [int()] rejects the text of a sized literal. *)
Lemma int_of_sized w b rest : Py.int_of 10 (sized w b rest) = None.
Proof.
  unfold sized, Py.str_N.
  destruct (const_facts.to_uint_shape w) as [E|[Hnil Hd0]].
  { rewrite E. reflexivity. }
  destruct (N.to_uint w) as [|d|d|d|d|d|d|d|d|d|d]; try congruence;
    try (exfalso; exact (Hd0 d eq_refl));
    simpl NilEmpty.string_of_uint; rewrite const_facts.append_cons;
    unfold Py.int_of; simpl Py.lstrip; cbv beta iota;
    simpl Py.scan_digits;
    match goal with
    | |- context [Py.scan_digits 10 false ?a ?n
                    (NilEmpty.string_of_uint d +:+ String "'" ?x)] =>
        destruct (scan_stops_at_quote d x a n) as (v & nd' & -> & Hle)
    end;
    simpl; (destruct nd'; [lia|reflexivity]).
Qed.

End reader_facts.



(** X17: a sized literal whose base letter is not b, h or d, in either
    case, stops Elaboration with ValueError: octal literals and literals
    with a second quote are not read. *)
Theorem elaboration_rejects_other_bases (w : N) b rest :
  Py.is_one_of (Py.lower b) "bhd" = false ->
  stage_elaboration._parse_const_value (sized w b rest) = Raise ValueError.
Proof.
  intros Hb. unfold stage_elaboration._parse_const_value.
  assert (Hq : Py.contains_char "'" (Py.str_N w) = false).
  { apply reader_facts.digits_without; [reflexivity|].
    apply literal_facts.str_N_digits. }
  assert (Hc : Py.contains_char "'" (sized w b rest) = true).
  { unfold sized. rewrite reader_facts.contains_char_app. simpl.
    apply orb_true_r. }
  rewrite Hc.
  destruct (negb (Nat.eqb (stage_elaboration.count_char "'" (sized w b rest)) 1));
    [reflexivity|].
  unfold sized at 1. rewrite (reader_facts.split_first_stop _ _ _ Hq).
  simpl snd. cbv beta iota zeta.
  unfold Py.is_one_of in Hb. cbn [Py.contains_char] in Hb.
  unfold Py.ascii_eqb in *.
  apply orb_false_elim in Hb as [H1 Hb].
  apply orb_false_elim in Hb as [H2 Hb].
  apply orb_false_elim in Hb as [H3 _].
  rewrite (Ascii.eqb_sym (Py.lower b) "b"), (Ascii.eqb_sym (Py.lower b) "h"),
    (Ascii.eqb_sym (Py.lower b) "d"), H1, H2, H3.
  unfold stage_elaboration.int_or_raise.
  rewrite reader_facts.int_of_sized. reflexivity.
Qed.

Lemma elaboration_rejects_other_bases_octal :
  stage_elaboration._parse_const_value "3'o7" = Raise ValueError.
Proof.
  exact (elaboration_rejects_other_bases 3 "o" "7" eq_refl).
Defined.



Module signal_facts.
Import stage_elaboration.

Lemma store_found s l x :
  netlist.lookup (name s) l = Some x -> x = s -> netlist.store s l = l.
Proof.
  intros H ->. induction l as [|y l IH]; simpl in *; [discriminate|].
  destruct (String.eqb (name y) (name s)) eqn:E.
  - injection H as ->. reflexivity.
  - rewrite (IH H). reflexivity.
Qed.

Lemma get_or_create_spec n w ai ao ar m :
  _get_or_create_signal n w ai ao ar m
  = Ok (n, mkEmod (emod_name m)
             (netlist.store
                (merged (netlist.lookup n (esignals m)) n w ai ao ar)
                (esignals m))
             (egates m)).
Proof.
  unfold _get_or_create_signal, merged, width_after_request.
  destruct (netlist.lookup n (esignals m)) as [s|] eqn:E; [|reflexivity].
  rewrite (network_facts.lookup_name _ _ _ E).
  destruct (width s =? 1) eqn:E1; simpl; [|reflexivity].
  destruct (w =? 1) eqn:E2; simpl; [|reflexivity].
  apply Z.eqb_eq in E1, E2. rewrite E1, E2. reflexivity.
Qed.

End signal_facts.

(** X19: [_get_or_create_signal] never raises and returns the name it was
    given. Under that name the module then holds a new Signal as asked
    for, or the Signal it held with each flag raised that was asked for
    and with the width asked for in place of a width of 1; every other
    name is answered as before and the gates are left alone. *)
Theorem get_or_create_signal_merges n w ai ao ar m :
  exists m',
    stage_elaboration._get_or_create_signal n w ai ao ar m = Ok (n, m')
    /\ netlist.lookup n (stage_elaboration.esignals m')
       = Some (merged (netlist.lookup n (stage_elaboration.esignals m))
                 n w ai ao ar)
    /\ (forall k,
          k <> n ->
          netlist.lookup k (stage_elaboration.esignals m')
          = netlist.lookup k (stage_elaboration.esignals m))
    /\ map name (stage_elaboration.esignals m')
       = match netlist.lookup n (stage_elaboration.esignals m) with
         | Some _ => map name (stage_elaboration.esignals m)
         | None => map name (stage_elaboration.esignals m) ++ [n]
         end
    /\ stage_elaboration.egates m' = stage_elaboration.egates m.
Proof.
  eexists. split; [apply signal_facts.get_or_create_spec|]. simpl.
  set (s := merged _ n w ai ao ar).
  assert (Hn : name s = n).
  { subst s. unfold merged. destruct (netlist.lookup _ _); reflexivity. }
  split; [|split; [|split; [|reflexivity]]].
  - rewrite <- Hn at 1. apply dict_facts.lookup_store_hit.
  - intros k Hk. apply dict_facts.lookup_store_other. congruence.
  - rewrite dict_facts.store_names, Hn. reflexivity.
Qed.

(** X20: asking [_get_or_create_signal] again for what it was just asked
    for changes nothing. *)
Theorem get_or_create_signal_twice n w ai ao ar m m' :
  stage_elaboration._get_or_create_signal n w ai ao ar m = Ok (n, m') ->
  stage_elaboration._get_or_create_signal n w ai ao ar m' = Ok (n, m').
Proof.
  intros H. rewrite signal_facts.get_or_create_spec in H.
  injection H as <-. rewrite signal_facts.get_or_create_spec.
  cbn [stage_elaboration.esignals stage_elaboration.egates
       stage_elaboration.emod_name].
  set (s := merged (netlist.lookup n (stage_elaboration.esignals m))
              n w ai ao ar).
  assert (Hn : name s = n).
  { subst s. unfold merged. destruct (netlist.lookup _ _); reflexivity. }
  assert (Hl : netlist.lookup n (netlist.store s (stage_elaboration.esignals m))
               = Some s).
  { rewrite <- Hn at 1. apply dict_facts.lookup_store_hit. }
  rewrite Hl. f_equal. f_equal. f_equal.
  assert (Hs : merged (Some s) n w ai ao ar = s).
  { subst s. unfold merged, width_after_request.
    destruct (netlist.lookup n _) as [x|]; simpl.
    - destruct (width x =? 1) eqn:E1; simpl.
      + destruct (w =? 1) eqn:E2; simpl;
          rewrite <- !orb_assoc, !orb_diag; [|reflexivity].
        apply Z.eqb_eq in E2. rewrite E2. reflexivity.
      + rewrite E1, <- !orb_assoc, !orb_diag. reflexivity.
    - destruct (w =? 1) eqn:E2; rewrite !orb_diag; reflexivity. }
  rewrite Hs. apply (signal_facts.store_found s _ s).
  - rewrite Hn. rewrite <- Hn at 1. apply dict_facts.lookup_store_hit.
  - reflexivity.
Qed.

Lemma get_or_create_signal_twice_clk :
  stage_elaboration._get_or_create_signal "clk" 1 true false false
    (stage_elaboration.mkEmod "m" [mkSignal "clk" 1 true false false] [])
  = Ok ("clk",
        stage_elaboration.mkEmod "m" [mkSignal "clk" 1 true false false] []).
Proof.
  apply (get_or_create_signal_twice "clk" 1 true false false
           (stage_elaboration.mkEmod "m" [] [])).
  reflexivity.
Defined.

(** ** Elaboration: expressions *)

Module expr_facts.
Import stage_elaboration.

Section present_kept.
Variable k : string.

Lemma store_present s l :
  netlist.lookup k l <> None -> netlist.lookup k (netlist.store s l) <> None.
Proof.
  intros H. destruct (String.eqb_spec k (name s)) as [->|Hne].
  - rewrite dict_facts.lookup_store_hit. discriminate.
  - rewrite dict_facts.lookup_store_other by exact Hne. exact H.
Qed.

Lemma get_or_create_present n w ai ao ar :
  preserves (present k) (_get_or_create_signal n w ai ao ar).
Proof.
  intros m a m' HI H. rewrite signal_facts.get_or_create_spec in H.
  injection H as <- <-. unfold present in *. simpl.
  apply store_present. exact HI.
Qed.

Lemma attr_width_present r : preserves (present k) (attr_width r).
Proof.
  intros m a m' HI H. unfold attr_width in H.
  destruct r as [n|]; [|discriminate].
  destruct (netlist.lookup n (esignals m)); inversion H. subst. exact HI.
Qed.

Lemma set_width_present n w : preserves (present k) (set_width n w).
Proof.
  intros m a m' HI H. unfold set_width in H.
  destruct (netlist.lookup n (esignals m)); inversion H. subst.
  unfold present in *. simpl. apply store_present. exact HI.
Qed.

Lemma len_gates_present : preserves (present k) len_gates.
Proof. intros m a m' HI H. inversion H. subst. exact HI. Qed.

Ltac present_step :=
  first
    [ apply get_or_create_present
    | apply attr_width_present
    | apply set_width_present
    | apply len_gates_present
    | preserves_step ].

Lemma expr_present e :
  forall ew, preserves (present k) (_expr_to_signal_and_gates e ew).
Proof.
  induction e; intros ew; simpl; try unfold binary_op;
    repeat first [apply IHe1 | apply IHe2 | present_step].
Qed.

End present_kept.

Lemma connected_kept {A} (c : E A) g :
  (forall k, preserves (present k) c) -> preserves (fun m => connected m g) c.
Proof.
  intros Hc m a m' [Hi Ho] H. split.
  - eapply List.Forall_impl; [|exact Hi].
    intros n Hn. exact (Hc n m a m' Hn H).
  - exact (Hc _ m a m' Ho H).
Qed.

Lemma all_connected_kept {A} (c : E A) gs :
  (forall k, preserves (present k) c) ->
  preserves (fun m => Forall (connected m) gs) c.
Proof.
  intros Hc m a m' HI H. eapply List.Forall_impl; [|exact HI].
  intros g Hg. exact (connected_kept c g Hc m a m' Hg H).
Qed.

Lemma get_or_create_result n w ai ao ar m r m' :
  _get_or_create_signal n w ai ao ar m = Ok (r, m') ->
  r = n /\ present n m'.
Proof.
  intros H. rewrite signal_facts.get_or_create_spec in H.
  injection H as <- <-. split; [reflexivity|]. unfold present. simpl.
  set (s := merged _ n w ai ao ar).
  assert (Hn : name s = n).
  { subst s. unfold merged. destruct (netlist.lookup _ _); reflexivity. }
  rewrite <- Hn at 1. rewrite dict_facts.lookup_store_hit. discriminate.
Qed.

(** What an expression compiles to. *)
Lemma expr_compiles e : forall ew m s gs m',
  _expr_to_signal_and_gates e ew m = Ok ((s, gs), m') ->
  present s m'
  /\ length gs = count_ops e
  /\ Forall (connected m') gs
  /\ (match gs with
      | [] => True
      | _ => exists front g,
               gs = front ++ [g] /\ ref_output g = s
               /\ length (ref_inputs g) = 2%nat
      end).
Proof.
  assert (Hbin : forall op_name l r,
    (forall ew m s gs m',
       _expr_to_signal_and_gates l ew m = Ok ((s, gs), m') ->
       present s m' /\ length gs = count_ops l /\ Forall (connected m') gs
       /\ match gs with
          | [] => True
          | _ => exists front g,
                   gs = front ++ [g] /\ ref_output g = s
                   /\ length (ref_inputs g) = 2%nat
          end) ->
    (forall ew m s gs m',
       _expr_to_signal_and_gates r ew m = Ok ((s, gs), m') ->
       present s m' /\ length gs = count_ops r /\ Forall (connected m') gs
       /\ match gs with
          | [] => True
          | _ => exists front g,
                   gs = front ++ [g] /\ ref_output g = s
                   /\ length (ref_inputs g) = 2%nat
          end) ->
    forall ew m s gs m',
      binary_op op_name (_expr_to_signal_and_gates l)
        (_expr_to_signal_and_gates r) ew m = Ok ((s, gs), m') ->
      present s m' /\ length gs = S (count_ops l + count_ops r)
      /\ Forall (connected m') gs
      /\ match gs with
         | [] => True
         | _ => exists front g,
                  gs = front ++ [g] /\ ref_output g = s
                  /\ length (ref_inputs g) = 2%nat
         end).
  { intros op_name l r Hl Hr ew m s gs m' H. unfold binary_op in H.
    apply bind_ok in H as ([a_sig a_g] & m1 & Ha & H).
    apply bind_ok in H as ([b_sig b_g] & m2 & Hb & H).
    apply bind_ok in H as (out_w & m3 & Hw & H).
    apply bind_ok in H as (n & m4 & Hn & H).
    apply bind_ok in H as (tmp & m5 & Ht & H).
    unfold ret in H. injection H as <- <- <-.
    pose proof (Hl _ _ _ _ _ Ha) as (Pa & La & Ca & _).
    pose proof (Hr _ _ _ _ _ Hb) as (Pb & Lb & Cb & _).
    assert (K3 : forall k, present k m2 -> present k m3).
    { intros k Hk. revert Hw.
      destruct (in_list op_name ["EQ"; "AND"; "OR"]).
      - intros Hw. inversion Hw. subst. exact Hk.
      - intros Hw. apply bind_ok in Hw as (wa & x1 & H1 & Hw).
        apply bind_ok in Hw as (wb & x2 & H2 & Hw).
        inversion Hw. subst.
        eapply attr_width_present; [|exact H2].
        eapply attr_width_present; [|exact H1]. exact Hk. }
    assert (K4 : m4 = m3) by (inversion Hn; reflexivity). subst m4.
    assert (K5 : forall k, present k m3 -> present k m5).
    { intros k Hk. eapply get_or_create_present; [exact Hk|exact Ht]. }
    pose proof (get_or_create_result _ _ _ _ _ _ _ _ Ht) as [Et Pt].
    rewrite <- Et in Pt.
    assert (Ka : forall k, present k m1 -> present k m5).
    { intros k Hk. apply K5, K3.
      eapply expr_present; [exact Hk|exact Hb]. }
    split; [exact Pt|]. split.
    { rewrite !length_app, La, Lb. simpl. lia. }
    split.
    { repeat (apply Forall_app; split).
      - eapply List.Forall_impl; [|exact Ca]. intros g [Hi Ho]. split.
        + eapply List.Forall_impl; [|exact Hi]. intros k. apply Ka.
        + apply Ka. exact Ho.
      - eapply List.Forall_impl; [|exact Cb]. intros g [Hi Ho]. split.
        + eapply List.Forall_impl; [|exact Hi]. intros k Hk. apply K5, K3, Hk.
        + apply K5, K3, Ho.
      - constructor; [|constructor]. split; simpl.
        + constructor; [apply Ka, Pa|]. constructor; [apply K5, K3, Pb|].
          constructor.
        + exact Pt. }
    set (gl := mkGateRef op_name [a_sig; b_sig] tmp).
    destruct ((a_g ++ b_g) ++ [gl]) as [|x rest] eqn:Eg.
    { exact I. }
    rewrite <- Eg. exists (a_g ++ b_g), gl. auto. }
  induction e; intros ew m s gs m' H; simpl in H.
  - apply bind_ok in H as (x & m1 & Hc & H).
    apply get_or_create_result in Hc as [-> Px].
    apply bind_ok in H as (w & m2 & Hw & H).
    apply bind_ok in H as (u & m3 & Hs & H).
    unfold ret in H. injection H as <- <- <-.
    assert (P2 : present ident m2).
    { eapply attr_width_present; [exact Px|exact Hw]. }
    assert (P3 : present ident m3).
    { destruct ew as [ew|]; [|inversion Hs; subst; exact P2].
      destruct ((w =? 1) && negb (ew =? 1));
        [|inversion Hs; subst; exact P2].
      eapply set_width_present; [exact P2|exact Hs]. }
    split; [exact P3|]. split; [reflexivity|]. split; [constructor|exact I].
  - apply bind_ok in H as (val & m1 & _ & H).
    apply bind_ok in H as (x & m2 & Hc & H).
    apply get_or_create_result in Hc as [-> Px].
    unfold ret in H. injection H as <- <- <-.
    split; [exact Px|]. split; [reflexivity|]. split; [constructor|exact I].
  - exact (Hbin "ADD" e1 e2 IHe1 IHe2 ew m s gs m' H).
  - exact (Hbin "EQ" e1 e2 IHe1 IHe2 ew m s gs m' H).
  - exact (Hbin "AND" e1 e2 IHe1 IHe2 ew m s gs m' H).
  - exact (Hbin "OR" e1 e2 IHe1 IHe2 ew m s gs m' H).
  - discriminate.
Qed.

Lemma expr_gate_arity e : forall ew m s gs m',
  _expr_to_signal_and_gates e ew m = Ok ((s, gs), m') ->
  Forall (fun g => length (ref_inputs g) = 2%nat) gs.
Proof.
  induction e; intros ew m s gs m' H; simpl in H;
    try (unfold binary_op in H;
         apply bind_ok in H as ([a_sig a_g] & m1 & Ha & H);
         apply bind_ok in H as ([b_sig b_g] & m2 & Hb & H);
         apply bind_ok in H as (out_w & m3 & Hw & H);
         apply bind_ok in H as (n & m4 & Hn & H);
         apply bind_ok in H as (tmp & m5 & Ht & H);
         unfold ret in H; injection H as <- <- <-;
         apply Forall_app; split; [apply Forall_app; split|];
         [exact (IHe1 _ _ _ _ _ Ha)|exact (IHe2 _ _ _ _ _ Hb)|];
         constructor; [reflexivity|constructor]).
  - repeat inv_bind H. inversion H. constructor.
  - repeat inv_bind H. inversion H. constructor.
  - discriminate.
Qed.

End expr_facts.

(** X21: an expression compiles to one gate per operator node, each with
    two inputs, the last one driving the Signal that is returned. The
    returned Signal and all operands and outputs of these gates are held
    by the module afterwards, and the gate list of the module is left as
    it was. *)
Theorem expression_compiles_to_its_operators e ew m s gs m' :
  stage_elaboration._expr_to_signal_and_gates e ew m = Ok ((s, gs), m') ->
  length gs = count_ops e
  /\ present s m'
  /\ Forall (connected m') gs
  /\ Forall (fun g => length (stage_elaboration.ref_inputs g) = 2%nat) gs
  /\ (gs <> [] ->
      exists front g,
        gs = front ++ [g] /\ stage_elaboration.ref_output g = s)
  /\ stage_elaboration.egates m' = stage_elaboration.egates m.
Proof.
  intros H.
  destruct (expr_facts.expr_compiles e ew m s gs m' H) as (Ps & L & C & Hlast).
  split; [exact L|]. split; [exact Ps|]. split; [exact C|].
  split; [|split].
  - exact (expr_facts.expr_gate_arity e ew m s gs m' H).
  - intros Hne. destruct gs as [|x rest]; [congruence|].
    destruct Hlast as (front & g & Hg & Ho & _). eauto.
  - exact (elaboration_facts.expr_keeps_gates _ _ _ _ _ H).
Qed.

Lemma expression_compiles_to_its_operators_three_sum :
  length [stage_elaboration.mkGateRef "ADD" ["a"; "b"] "tmp_ADD_0";
          stage_elaboration.mkGateRef "ADD" ["tmp_ADD_0"; "c"] "tmp_ADD_0"]
  = count_ops
      (stage_elaboration.Plus
         (stage_elaboration.Plus (stage_elaboration.Identifier "a")
            (stage_elaboration.Identifier "b"))
         (stage_elaboration.Identifier "c")).
Proof.
  refine (proj1 (expression_compiles_to_its_operators
            (stage_elaboration.Plus
               (stage_elaboration.Plus (stage_elaboration.Identifier "a")
                  (stage_elaboration.Identifier "b"))
               (stage_elaboration.Identifier "c"))
            None (stage_elaboration.mkEmod "m" [] []) "tmp_ADD_0" _ _ _)).
  vm_compute. reflexivity.
Defined.

(** ** Elaboration: the gates of the module *)

Module shape_facts.
Import stage_elaboration.
Import elaboration_facts.

Lemma expr_gate_shapes e ew m s gs m' :
  _expr_to_signal_and_gates e ew m = Ok ((s, gs), m') ->
  Forall (fun g => elaborated_gate g = true) gs.
Proof.
  intros H.
  pose proof (expr_gate_tags _ _ _ _ _ _ H) as Ht.
  pose proof (expr_facts.expr_gate_arity e ew m s gs m' H) as Hn.
  rewrite List.Forall_forall in *. intros g Hg.
  specialize (Ht g Hg). specialize (Hn g Hg).
  unfold elaborated_gate. rewrite Hn.
  simpl in Ht. destruct Ht as [<-|[<-|[<-|[<-|[]]]]]; reflexivity.
Qed.

Lemma build_mux_tree_shapes target : forall s m r gs m',
  _build_mux_tree s target m = Ok ((r, gs), m') ->
  Forall (fun g => elaborated_gate g = true) gs.
Proof.
  fix IH 1. intros s m r gs m' H.
  destruct s as [stmts|cond ts fs|lhs rhs|lhs rhs|cls].
  - destruct stmts as [|first rest]; simpl in H.
    + inversion H. constructor.
    + exact (IH _ _ _ _ _ H).
  - simpl in H.
    apply bind_ok in H as ([c cg] & m1 & Hc & H).
    apply bind_ok in H as ([t tg] & m2 & Ht & H).
    apply bind_ok in H as ([f fg] & m3 & Hf & H).
    pose proof (expr_gate_shapes _ _ _ _ _ _ Hc) as Tc.
    pose proof (IH _ _ _ _ _ Ht) as Tt.
    assert (Tf : Forall (fun g => elaborated_gate g = true) fg).
    { destruct fs as [fs|].
      - exact (IH _ _ _ _ _ Hf).
      - apply bind_ok in Hf as (t0 & m4 & _ & Hf). inversion Hf. constructor. }
    clear IH.
    destruct t as [t|]; [|inversion H; constructor].
    destruct f as [f|]; [|inversion H; constructor].
    apply bind_ok in H as (n & m4 & _ & H).
    apply bind_ok in H as (tw & m5 & _ & H).
    apply bind_ok in H as (mux_out & m6 & _ & H).
    inversion H. subst. clear H.
    repeat (apply Forall_app; split); try assumption.
    constructor; [reflexivity|constructor].
  - clear IH. simpl in H.
    apply bind_ok in H as (lname & m1 & _ & H).
    destruct (negb (String.eqb lname target)); [inversion H; constructor|].
    apply bind_ok in H as (tsig & m2 & _ & H).
    apply bind_ok in H as (tw & m3 & _ & H).
    apply bind_ok in H as ([rs g] & m4 & He & H).
    inversion H. subst. exact (expr_gate_shapes _ _ _ _ _ _ He).
  - clear IH. simpl in H.
    apply bind_ok in H as (lname & m1 & _ & H).
    destruct (negb (String.eqb lname target)); [inversion H; constructor|].
    apply bind_ok in H as (tsig & m2 & _ & H).
    apply bind_ok in H as (tw & m3 & _ & H).
    apply bind_ok in H as ([rs g] & m4 & He & H).
    inversion H. subst. exact (expr_gate_shapes _ _ _ _ _ _ He).
  - clear IH. simpl in H. inversion H. constructor.
Qed.

Lemma add_gates_shaped gs :
  Forall (fun g => elaborated_gate g = true) gs ->
  preserves shaped (add_gates gs).
Proof.
  intros Hgs m u m' HI H. rewrite add_gates_appends in H.
  inversion H. subst. unfold shaped. simpl. apply Forall_app. auto.
Qed.

Lemma add_gate_shaped g :
  elaborated_gate g = true -> preserves shaped (add_gate g).
Proof.
  intros Hg m u m' HI H. inversion H. subst. unfold shaped. simpl.
  apply Forall_app. split; [exact HI|]. constructor; [exact Hg|constructor].
Qed.

Lemma expr_then_shaped {B} e ew (k : string * list GateRef -> E B) :
  (forall s gs, Forall (fun g => elaborated_gate g = true) gs ->
     preserves shaped (k (s, gs))) ->
  preserves shaped (bind (_expr_to_signal_and_gates e ew) k).
Proof.
  intros Hk.
  apply (preserves_bind_with _
           (fun r => Forall (fun g => elaborated_gate g = true) (snd r))).
  - intros m [s gs] m' HI H. split.
    + unfold shaped. rewrite (expr_keeps_gates _ _ _ _ _ H). exact HI.
    + simpl. exact (expr_gate_shapes _ _ _ _ _ _ H).
  - intros [s gs] Hgs. apply Hk. exact Hgs.
Qed.

Ltac shaped_step :=
  first
    [ apply expr_then_shaped; intros ? ? ?
    | apply add_gates_shaped; assumption
    | apply add_gate_shaped; reflexivity
    | apply (keeps_preserves (Forall (fun g => elaborated_gate g = true)));
      intros ?;
      first
        [ apply get_or_create_keeps
        | apply attr_width_keeps
        | apply attr_name_keeps
        | apply unwrap_block_keeps
        | apply stmt_left_name_keeps
        | apply stmt_right_keeps ]
    | preserves_step ].

Lemma clocked_process_shaped sens_list statement :
  preserves shaped (clocked_process sens_list statement).
Proof. unfold clocked_process. repeat shaped_step. Qed.

Lemma combinational_process_shaped statement :
  preserves shaped (combinational_process statement).
Proof.
  unfold combinational_process. apply preserves_bind.
  { intros m a m' HI H. inversion H. subst. exact HI. }
  intros targets. apply preserves_forM. intros target.
  apply (preserves_bind_with _
           (fun r => Forall (fun g => elaborated_gate g = true) (snd r))).
  - intros m [r gs] m' HI H. split.
    + unfold shaped.
      rewrite (mux_tree_facts.build_mux_tree_keeps (egates m) target
                 statement m _ m' eq_refl H).
      exact HI.
    + exact (build_mux_tree_shapes _ _ _ _ _ _ H).
  - intros [final gs] Hgs. simpl in Hgs.
    destruct final; repeat shaped_step.
Qed.

Lemma declare_port_shaped p : preserves shaped (declare_port p).
Proof. unfold declare_port. repeat shaped_step. Qed.

Lemma run_shaped definitions m :
  run definitions = Ok m -> shaped m.
Proof.
  unfold run. destruct (first_module definitions) as [[[n ps] its]|];
    [|discriminate].
  destruct ((let* _ := forM ps declare_port in forM its process_item) _)
    as [[u m1]|e] eqn:E; [|discriminate].
  intros H. inversion H. subst. clear H.
  revert E. apply (preserves_bind shaped); [| |constructor].
  - apply preserves_forM. apply declare_port_shaped.
  - intros _. apply preserves_forM. intros [sens statement|cls]; simpl.
    + destruct (is_clocked sens);
        [apply clocked_process_shaped|apply combinational_process_shaped].
    + apply preserves_ret.
Qed.

Lemma first_module_skips pre d rest :
  Forall (fun x => is_module x = false) pre -> is_module d = true ->
  first_module (pre ++ d :: rest) = first_module [d].
Proof.
  intros Hpre Hd. induction pre as [|x pre IH]; simpl.
  - destruct d; [reflexivity|discriminate].
  - apply Forall_cons in Hpre as [Hx Hpre]. destruct x; [discriminate|].
    exact (IH Hpre).
Qed.

Lemma first_module_none ds :
  Forall (fun x => is_module x = false) ds -> first_module ds = None.
Proof.
  induction ds as [|x ds IH]; intros H; [reflexivity|].
  apply Forall_cons in H as [Hx H]. destruct x; [discriminate|].
  exact (IH H).
Qed.

End shape_facts.

(** X22: every gate of an elaborated module is an operator gate ([ADD],
    [EQ], [AND], [OR]) with two inputs, a [MUX] with three, a [BUF] with
    one or a [DFF_EN_RST] with six. Bit-Blasting has a branch for each of
    them and can unpack its inputs. *)
Theorem elaboration_emits_blastable_gates definitions m :
  stage_elaboration.run definitions = Ok m ->
  Forall (fun g => elaborated_gate g = true) (stage_elaboration.egates m)
  /\ Forall (fun g => blastable g = true)
       (gates (stage_elaboration.snapshot m)).
Proof.
  intros H. apply shape_facts.run_shaped in H.
  split; [exact H|].
  unfold stage_elaboration.snapshot. simpl.
  apply List.Forall_forall. intros g Hg.
  apply in_map_iff in Hg as (r & <- & Hr).
  unfold shaped in H.
  rewrite List.Forall_forall in H. specialize (H r Hr).
  unfold elaborated_gate in H. unfold blastable. simpl.
  rewrite length_map.
  destruct (in_list (stage_elaboration.ref_op r) ["ADD"; "EQ"; "AND"; "OR"])
    eqn:E1.
  { apply network_facts.in_list_In in E1. simpl in E1.
    destruct E1 as [<-|[<-|[<-|[<-|[]]]]]; exact H. }
  destruct (String.eqb_spec (stage_elaboration.ref_op r) "MUX") as [->|E2];
    [exact H|].
  destruct (String.eqb_spec (stage_elaboration.ref_op r) "BUF") as [->|E3].
  { simpl. apply Nat.eqb_eq in H. rewrite H. reflexivity. }
  destruct (String.eqb_spec (stage_elaboration.ref_op r) "DFF_EN_RST")
    as [->|E4]; [exact H|discriminate].
Qed.

Lemma elaboration_emits_blastable_gates_choice :
  exists m,
    stage_elaboration.run choice = Ok m
    /\ Forall (fun g => elaborated_gate g = true) (stage_elaboration.egates m)
    /\ Forall (fun g => blastable g = true)
         (gates (stage_elaboration.snapshot m)).
Proof.
  eexists. split; [vm_compute; reflexivity|].
  apply (elaboration_emits_blastable_gates choice). vm_compute. reflexivity.
Defined.

(** X23: Elaboration stops with ValueError when the design holds no module
    definition; otherwise it elaborates the first one and ignores the
    definitions before and after it. *)
Theorem elaboration_takes_first_module :
  (forall ds,
     Forall (fun d => is_module d = false) ds ->
     stage_elaboration.run ds = Raise ValueError)
  /\ (forall pre d rest,
        Forall (fun x => is_module x = false) pre ->
        is_module d = true ->
        stage_elaboration.run (pre ++ d :: rest) = stage_elaboration.run [d]).
Proof.
  split.
  - intros ds H. unfold stage_elaboration.run.
    rewrite (shape_facts.first_module_none ds H). reflexivity.
  - intros pre d rest Hpre Hd. unfold stage_elaboration.run.
    rewrite (shape_facts.first_module_skips pre d rest Hpre Hd). reflexivity.
Qed.

Lemma elaboration_takes_first_module_pragma :
  stage_elaboration.run [stage_elaboration.OtherDef "Pragma"]
  = Raise ValueError
  /\ stage_elaboration.run
       ([stage_elaboration.OtherDef "Pragma"]
          ++ stage_elaboration.ModuleDef "top" [] [] :: choice)
     = stage_elaboration.run [stage_elaboration.ModuleDef "top" [] []].
Proof.
  split.
  - apply (proj1 elaboration_takes_first_module). repeat constructor.
  - apply (proj2 elaboration_takes_first_module);
      [repeat constructor|reflexivity].
Defined.

(** ** Elaboration: the register of a clocked process *)

Module register_facts.
Import stage_elaboration elaboration_facts.

Lemma unwrap_block_ok s m b m' :
  unwrap_block s m = Ok (b, m') -> unwrapped s = Some b /\ m' = m.
Proof.
  destruct s as [[|x l]| | | |]; simpl; intros H; inversion H; auto.
Qed.

Lemma attr_name_ok e (m : emod) n m' :
  attr_name e m = Ok (n, m') -> e = Identifier n /\ m' = m.
Proof. destruct e; simpl; intros H; inversion H; auto. Qed.

Lemma stmt_left_name_ok s m n m' :
  stmt_left_name s m = Ok (n, m') ->
  (exists rhs, assignment s = Some (Identifier n, rhs)) /\ m' = m.
Proof.
  destruct s as [| |lhs rhs|lhs rhs|]; simpl; intros H; try discriminate;
    apply attr_name_ok in H as [-> ->]; eauto.
Qed.

Lemma stmt_right_ok s m r m' :
  stmt_right s m = Ok (r, m') ->
  (exists lhs, assignment s = Some (lhs, r)) /\ m' = m.
Proof.
  destruct s as [| |lhs rhs|lhs rhs|]; simpl; intros H; inversion H; eauto.
Qed.

End register_facts.



(** ** Elaboration: the signal dictionary only grows *)

Module store_facts.
Import stage_elaboration elaboration_facts.

Lemma grows_refl m : grows m m.
Proof. intros k s H. exists s. tauto. Qed.

Lemma grows_trans m0 m1 m2 : grows m0 m1 -> grows m1 m2 -> grows m0 m2.
Proof.
  intros H1 H2 k s Hs.
  destruct (H1 k s Hs) as (s1 & L1 & I1 & O1 & R1 & W1).
  destruct (H2 k s1 L1) as (s2 & L2 & I2 & O2 & R2 & W2).
  exists s2. split; [exact L2|].
  split; [tauto|]. split; [tauto|]. split; [tauto|].
  intros Hw. specialize (W1 Hw). rewrite <- W1. apply W2. congruence.
Qed.

Lemma grows_present m0 m k : grows m0 m -> present k m0 -> present k m.
Proof.
  intros G P. unfold present in *.
  destruct (netlist.lookup k (esignals m0)) as [s|] eqn:E; [|congruence].
  destruct (G k s E) as (s' & -> & _). discriminate.
Qed.

(** A step that grows the dictionary keeps what has grown. *)
Lemma step_grows {A} (c : E A) :
  (forall m a m', c m = Ok (a, m') -> grows m m') ->
  forall m0, preserves (grows m0) c.
Proof.
  intros Hc m0 m a m' HI H. exact (grows_trans _ _ _ HI (Hc m a m' H)).
Qed.

Lemma get_or_create_grows n w ai ao ar m0 :
  preserves (grows m0) (_get_or_create_signal n w ai ao ar).
Proof.
  apply step_grows. intros m a m' H.
  rewrite signal_facts.get_or_create_spec in H. injection H as <- <-.
  intros k s Hs. cbn [esignals].
  destruct (String.eqb_spec k n) as [->|Hne].
  - rewrite Hs.
    pose proof (dict_facts.lookup_store_hit (merged (Some s) n w ai ao ar)
                  (esignals m)) as L.
    change (name (merged (Some s) n w ai ao ar)) with n in L. rewrite L.
    eexists. split; [reflexivity|]. cbn [merged is_input is_output is_reg].
    split; [intros ->; reflexivity|]. split; [intros ->; reflexivity|].
    split; [intros ->; reflexivity|].
    intros Hw. cbn [width]. unfold width_after_request.
    destruct (width s =? 1) eqn:E1; [apply Z.eqb_eq in E1; contradiction|].
    reflexivity.
  - rewrite dict_facts.lookup_store_other.
    + exists s. tauto.
    + unfold merged. destruct (netlist.lookup n (esignals m)); simpl; exact Hne.
Qed.

Lemma identifier_grows n ew m0 :
  preserves (grows m0) (_expr_to_signal_and_gates (Identifier n) ew).
Proof.
  cbn [_expr_to_signal_and_gates].
  apply preserves_bind; [apply get_or_create_grows|intros s].
  apply step_grows. intros m a m' H.
  apply bind_ok in H as (w & m1 & Hw & H).
  apply bind_ok in H as ([] & m2 & Hset & H).
  injection H as _ <-.
  unfold attr_width in Hw.
  destruct (netlist.lookup s (esignals m)) as [x|] eqn:Ex; [|discriminate].
  injection Hw as <- <-.
  destruct ew as [ew|]; [|injection Hset as <-; apply grows_refl].
  destruct ((width x =? 1) && negb (ew =? 1)) eqn:Eb;
    [|injection Hset as <-; apply grows_refl].
  apply andb_prop in Eb as [E1 _]. apply Z.eqb_eq in E1.
  unfold set_width in Hset. rewrite Ex in Hset. injection Hset as <-.
  intros k y Hy. cbn [esignals].
  destruct (String.eqb_spec k s) as [->|Hne].
  - rewrite Ex in Hy. injection Hy as <-.
    pose proof (dict_facts.lookup_store_hit
                  (mkSignal (name x) ew (is_input x) (is_output x) (is_reg x))
                  (esignals m)) as L.
    cbn [name] in L.
    rewrite (network_facts.lookup_name _ _ _ Ex) in L at 1. rewrite L.
    eexists. split; [reflexivity|]. cbn [is_input is_output is_reg width].
    repeat split; auto. intros Hw. contradiction.
  - rewrite dict_facts.lookup_store_other.
    + exists y. tauto.
    + cbn [name]. rewrite (network_facts.lookup_name _ _ _ Ex). exact Hne.
Qed.

Lemma add_gate_grows g m0 : preserves (grows m0) (add_gate g).
Proof.
  apply step_grows. intros m a m' H. injection H as _ <-.
  intros k s Hs. exists s. split; [exact Hs|]. tauto.
Qed.

(** *** What holds of the dictionary through every step *)

Section signal_invariant.
Variable I : emod -> Prop.
Hypothesis I_create :
  forall n w ai ao ar, preserves I (_get_or_create_signal n w ai ao ar).
Hypothesis I_identifier :
  forall n ew, preserves I (_expr_to_signal_and_gates (Identifier n) ew).
Hypothesis I_gate : forall g, preserves I (add_gate g).

Lemma attr_width_inv r : preserves I (attr_width r).
Proof.
  intros m a m' HI H. unfold attr_width in H.
  destruct r as [n|]; [|discriminate].
  destruct (netlist.lookup n (esignals m)); inversion H. subst. exact HI.
Qed.

Lemma len_gates_inv : preserves I len_gates.
Proof. intros m a m' HI H. inversion H. subst. exact HI. Qed.

Lemma get_signal_inv n : preserves I (get_signal n).
Proof. intros m a m' HI H. inversion H. subst. exact HI. Qed.

Lemma attr_name_inv e : preserves I (attr_name e).
Proof. destruct e; simpl; auto using preserves_ret, preserves_raise. Qed.

Lemma unwrap_block_inv s : preserves I (unwrap_block s).
Proof. destruct s; simpl; auto using preserves_ret, preserves_index. Qed.

Lemma stmt_left_name_inv s : preserves I (stmt_left_name s).
Proof. destruct s; simpl; auto using preserves_raise, attr_name_inv. Qed.

Lemma stmt_right_inv s : preserves I (stmt_right s).
Proof. destruct s; simpl; auto using preserves_raise, preserves_ret. Qed.

Lemma add_gates_inv gs : preserves I (add_gates gs).
Proof. unfold add_gates. apply preserves_forM. exact I_gate. Qed.

Ltac inv_step :=
  first
    [ apply I_create
    | apply attr_width_inv
    | apply len_gates_inv
    | apply get_signal_inv
    | apply attr_name_inv
    | apply unwrap_block_inv
    | apply stmt_left_name_inv
    | apply stmt_right_inv
    | apply add_gates_inv
    | apply I_gate
    | preserves_step ].

Lemma expr_inv e :
  forall ew, preserves I (_expr_to_signal_and_gates e ew).
Proof.
  induction e; intros ew; [apply I_identifier| | | | | |];
    simpl; try unfold binary_op;
    repeat first [apply IHe1 | apply IHe2 | inv_step].
Qed.

Lemma build_mux_tree_inv target : forall s,
  preserves I (_build_mux_tree s target).
Proof.
  fix IH 1. intros s.
  destruct s as [stmts|cond ts fs|lhs rhs|lhs rhs|cls].
  - destruct stmts as [|first rest]; simpl; [apply preserves_ret|apply IH].
  - simpl. apply preserves_bind; [apply expr_inv|intros [c cg]].
    apply preserves_bind; [apply IH|intros [t tg]].
    apply preserves_bind.
    { destruct fs as [fs|]; [apply IH|]. clear IH. repeat inv_step. }
    clear IH. intros [f fg]. repeat inv_step.
  - clear IH. simpl.
    repeat first [apply expr_inv | inv_step].
  - clear IH. simpl.
    repeat first [apply expr_inv | inv_step].
  - clear IH. simpl. apply preserves_ret.
Qed.

Lemma clocked_process_inv sens_list statement :
  preserves I (clocked_process sens_list statement).
Proof.
  unfold clocked_process. repeat first [apply expr_inv | inv_step].
Qed.

Lemma combinational_process_inv statement :
  preserves I (combinational_process statement).
Proof.
  unfold combinational_process. apply preserves_bind.
  { intros m a m' HI H. inversion H. subst. exact HI. }
  intros targets.
  repeat first [apply build_mux_tree_inv | inv_step].
Qed.

Lemma process_item_inv it : preserves I (process_item it).
Proof.
  destruct it as [sens statement|cls]; simpl; [|apply preserves_ret].
  destruct (is_clocked sens);
    [apply clocked_process_inv|apply combinational_process_inv].
Qed.

Lemma declare_port_inv p : preserves I (declare_port p).
Proof. unfold declare_port. repeat inv_step. Qed.

End signal_invariant.

Lemma expr_grows e ew m a m' :
  _expr_to_signal_and_gates e ew m = Ok (a, m') -> grows m m'.
Proof.
  intros H.
  exact (expr_inv (grows m) (fun n w ai ao ar => get_or_create_grows n w ai ao ar m)
           (fun n ew => identifier_grows n ew m) e ew m a m'
           (grows_refl m) H).
Qed.

Lemma process_item_grows it m a m' :
  process_item it m = Ok (a, m') -> grows m m'.
Proof.
  intros H.
  exact (process_item_inv (grows m)
           (fun n w ai ao ar => get_or_create_grows n w ai ao ar m)
           (fun n ew => identifier_grows n ew m)
           (fun g => add_gate_grows g m) it m a m' (grows_refl m) H).
Qed.

Lemma declare_port_grows p m a m' :
  declare_port p m = Ok (a, m') -> grows m m'.
Proof.
  intros H.
  exact (declare_port_inv (grows m)
           (fun n w ai ao ar => get_or_create_grows n w ai ao ar m)
           p m a m' (grows_refl m) H).
Qed.

Lemma forM_grows {A} (body : A -> E unit) l m u m' :
  (forall x m a m', body x m = Ok (a, m') -> grows m m') ->
  forM l body m = Ok (u, m') -> grows m m'.
Proof.
  intros Hb H.
  refine (preserves_forM (grows m) body l _ m u m' (grows_refl m) H).
  intros x. apply step_grows. exact (Hb x).
Qed.

Lemma forM_cons {A} (body : A -> E unit) x l m u m' :
  forM (x :: l) body m = Ok (u, m') ->
  exists m1, body x m = Ok (tt, m1) /\ forM l body m1 = Ok (u, m').
Proof.
  unfold forM. simpl. intros H.
  apply bind_ok in H as ([] & m1 & Hx & H). eauto.
Qed.

(** What declaring one port leaves under its name, and that it leaves
    the other names alone. *)
Lemma declare_port_spec dir pname pwidth r m u m' :
  declare_port (Ioport dir pname pwidth r) m = Ok (u, m') ->
  dir <> Inout ->
  exists w,
    _parse_width pwidth = Ok w
    /\ netlist.lookup pname (esignals m')
       = Some (merged (netlist.lookup pname (esignals m)) pname w
                 (match dir with Input => true | _ => false end)
                 (match dir with Output => true | _ => false end)
                 (match dir with Output => r | _ => false end)).
Proof.
  intros H Hd. unfold declare_port in H.
  apply bind_ok in H as (w & m1 & Hw & H).
  unfold lift in Hw. destruct (_parse_width pwidth) as [w0|] eqn:Ew;
    [|discriminate].
  injection Hw as -> <-. exists w. split; [reflexivity|].
  destruct dir; [| |contradiction];
    apply bind_ok in H as (x & m2 & Hc & H); injection H as _ <-;
    rewrite signal_facts.get_or_create_spec in Hc; injection Hc as _ <-;
    cbn [esignals];
    match goal with
    | |- netlist.lookup _ (netlist.store ?s _) = _ =>
        pose proof (dict_facts.lookup_store_hit s (esignals m)) as L
    end;
    match type of L with
    | netlist.lookup ?k _ = _ =>
        assert (Hk : k = pname)
          by (unfold merged; destruct (netlist.lookup pname (esignals m));
              reflexivity);
        rewrite Hk in L
    end;
    exact L.
Qed.

Lemma declare_port_others p m u m' k :
  declare_port p m = Ok (u, m') ->
  ~ In k (port_names [p]) ->
  netlist.lookup k (esignals m') = netlist.lookup k (esignals m).
Proof.
  intros H Hk. destruct p as [dir pname pwidth r|pname];
    [|injection H as _ <-; reflexivity].
  unfold declare_port in H.
  apply bind_ok in H as (w & m1 & Hw & H).
  unfold lift in Hw. destruct (_parse_width pwidth) as [w0|]; [|discriminate].
  injection Hw as -> <-.
  destruct dir; [| |injection H as _ <-; reflexivity];
    apply bind_ok in H as (x & m2 & Hc & H); injection H as _ <-;
    rewrite signal_facts.get_or_create_spec in Hc; injection Hc as _ <-;
    cbn [esignals]; apply dict_facts.lookup_store_other;
    unfold merged; destruct (netlist.lookup pname (esignals m)); cbn [name];
    intros ->; apply Hk; simpl; auto.
Qed.

Lemma merged_flags found n w ai ao ar :
  (ai = true -> is_input (merged found n w ai ao ar) = true)
  /\ (ao = true -> is_output (merged found n w ai ao ar) = true)
  /\ (ar = true -> is_reg (merged found n w ai ao ar) = true).
Proof.
  unfold merged. destruct found as [s|]; cbn [is_input is_output is_reg];
    repeat split; intros ->; auto using orb_true_r.
Qed.

(** The ports that a port list declares are in the dictionary once the
    list is processed, flagged by direction; a port that was declared once
    and wider than one bit has the declared width. *)
Lemma ports_declared ps : forall m u m1,
  forM ps declare_port m = Ok (u, m1) ->
  forall dir pname pwidth r,
    In (Ioport dir pname pwidth r) ps -> dir <> Inout ->
    exists s w,
      netlist.lookup pname (esignals m1) = Some s
      /\ _parse_width pwidth = Ok w
      /\ (dir = Input -> is_input s = true)
      /\ (dir = Output ->
          is_output s = true /\ (r = true -> is_reg s = true))
      /\ ((forall k, In k (port_names ps) ->
             netlist.lookup k (esignals m) = None) ->
          NoDup (port_names ps) -> w <> 1 -> width s = w).
Proof.
  induction ps as [|p ps IH]; intros m u m1 H dir pname pwidth r Hin Hd;
    [contradiction|].
  apply forM_cons in H as (m2 & Hp & H).
  destruct Hin as [->|Hin].
  - destruct (declare_port_spec _ _ _ _ _ _ _ Hp Hd) as (w & Ew & L).
    pose proof (forM_grows _ _ _ _ _
                  (fun x => declare_port_grows x) H) as G.
    destruct (G _ _ L) as (s' & L' & Fi & Fo & Fr & Fw).
    exists s', w. split; [exact L'|]. split; [exact Ew|].
    destruct (merged_flags (netlist.lookup pname (esignals m)) pname w
                (match dir with Input => true | _ => false end)
                (match dir with Output => true | _ => false end)
                (match dir with Output => r | _ => false end))
      as (Mi & Mo & Mr).
    split; [intros ->; auto|]. split; [intros ->; auto|].
    intros Habs _ Hw. rewrite Fw.
    + rewrite Habs; [reflexivity|].
      destruct dir; [simpl; auto|simpl; auto|contradiction].
    + rewrite Habs; [exact Hw|].
      destruct dir; [simpl; auto|simpl; auto|contradiction].
  - destruct (IH _ _ _ H _ _ _ _ Hin Hd) as (s & w & L & Ew & Fi & Fo & Fw).
    exists s, w. split; [exact L|]. split; [exact Ew|].
    split; [exact Fi|]. split; [exact Fo|].
    intros Habs Hnd.
    assert (Hcons : port_names (p :: ps) = port_names [p] ++ port_names ps).
    { unfold port_names. simpl. rewrite app_nil_r. reflexivity. }
    rewrite Hcons in Hnd. apply NoDup_app in Hnd as (_ & Hnd1 & Hnd2).
    apply Fw; [|exact Hnd2].
    intros k Hk.
    rewrite (declare_port_others _ _ _ _ k Hp).
    + apply Habs. rewrite Hcons. apply in_or_app. right. exact Hk.
    + intros Hk'. apply list_elem_of_In in Hk, Hk'. exact (Hnd1 k Hk' Hk).
Qed.

End store_facts.

(** X25: every Input and Output port of the elaborated module definition
    is a Signal of the result, flagged as an input, as an output or as a
    registered output. Where the port names are distinct, a port declared
    wider than one bit has the declared width. *)
Theorem elaboration_declares_ports definitions n ps its m :
  stage_elaboration.first_module definitions = Some (n, ps, its) ->
  stage_elaboration.run definitions = Ok m ->
  forall dir pname pwidth second_is_reg,
    In (stage_elaboration.Ioport dir pname pwidth second_is_reg) ps ->
    dir <> stage_elaboration.Inout ->
    exists s w,
      netlist.lookup pname (stage_elaboration.esignals m) = Some s
      /\ stage_elaboration._parse_width pwidth = Ok w
      /\ (dir = stage_elaboration.Input -> is_input s = true)
      /\ (dir = stage_elaboration.Output ->
          is_output s = true /\ (second_is_reg = true -> is_reg s = true))
      /\ (NoDup (port_names ps) -> w <> 1 -> width s = w).
Proof.
  intros Hfirst H dir pname pwidth r Hin Hd.
  unfold stage_elaboration.run in H. rewrite Hfirst in H.
  destruct ((let* _ := forM ps stage_elaboration.declare_port
             in forM its stage_elaboration.process_item) _)
    as [[u m1]|e] eqn:E; [|discriminate].
  injection H as ->.
  apply bind_ok in E as ([] & m2 & Hps & Hits).
  destruct (store_facts.ports_declared ps _ _ _ Hps _ _ _ _ Hin Hd)
    as (s & w & L & Ew & Fi & Fo & Fw).
  pose proof (store_facts.forM_grows _ _ _ _ _
                (fun x => store_facts.process_item_grows x) Hits) as G.
  destruct (G _ _ L) as (s' & L' & Gi & Go & Gr & Gw).
  exists s', w. split; [exact L'|]. split; [exact Ew|].
  split; [auto|]. split; [intros Ho; destruct (Fo Ho); auto|].
  intros Hnd Hw.
  assert (Ws : width s = w) by (apply Fw; [reflexivity|exact Hnd|exact Hw]).
  rewrite Gw; congruence.
Qed.

Lemma elaboration_declares_ports_accumulator :
  exists m s w,
    stage_elaboration.run accumulator = Ok m
    /\ netlist.lookup "q" (stage_elaboration.esignals m) = Some s
    /\ stage_elaboration._parse_width
         (Some (stage_elaboration.IntConst "3" 3,
                stage_elaboration.IntConst "0" 4)) = Ok w
    /\ (stage_elaboration.Output = stage_elaboration.Input ->
        is_input s = true)
    /\ (stage_elaboration.Output = stage_elaboration.Output ->
        is_output s = true /\ (true = true -> is_reg s = true))
    /\ (NoDup ["clk"; "rst"; "en"; "d"; "q"] -> w <> 1 -> width s = w).
Proof.
  destruct (stage_elaboration.run accumulator) as [m|e] eqn:Hrun;
    [|vm_compute in Hrun; discriminate].
  destruct (elaboration_declares_ports accumulator _ _ _ m eq_refl Hrun
              stage_elaboration.Output "q"
              (Some (stage_elaboration.IntConst "3" 3,
                     stage_elaboration.IntConst "0" 4)) true)
    as (s & w & H); [simpl; auto 10|discriminate|].
  exists m, s, w. split; [reflexivity|exact H].
Defined.

(** X26: compiling an expression, building a MUX tree and processing an
    always block never remove a Signal from the module, never clear one of
    its flags, and change its width only when the width was 1. *)
Theorem elaboration_only_grows_signals :
  (forall e ew m r m',
     stage_elaboration._expr_to_signal_and_gates e ew m = Ok (r, m') ->
     grows m m')
  /\ (forall s target m r m',
        stage_elaboration._build_mux_tree s target m = Ok (r, m') ->
        grows m m')
  /\ (forall it m u m',
        stage_elaboration.process_item it m = Ok (u, m') -> grows m m').
Proof.
  split; [exact store_facts.expr_grows|].
  split; [|exact store_facts.process_item_grows].
  intros s target m r m' H.
  exact (store_facts.build_mux_tree_inv (grows m)
           (fun n w ai ao ar => store_facts.get_or_create_grows n w ai ao ar m)
           (fun n ew => store_facts.identifier_grows n ew m)
           target s m r m' (store_facts.grows_refl m) H).
Qed.

Lemma elaboration_only_grows_signals_accumulator :
  exists m',
    stage_elaboration.process_item
      (stage_elaboration.Always accumulator_sens accumulator_body)
      accumulator_ports = Ok (tt, m')
    /\ grows accumulator_ports m'.
Proof.
  destruct (stage_elaboration.process_item
              (stage_elaboration.Always accumulator_sens accumulator_body)
              accumulator_ports) as [[[] m']|e] eqn:Hrun;
    [|vm_compute in Hrun; discriminate].
  exists m'. split; [reflexivity|].
  exact (proj2 (proj2 elaboration_only_grows_signals) _ _ _ _ Hrun).
Defined.

(** ** Elaboration: every gate is wired to Signals of the module *)

Module wiring_facts.
Import stage_elaboration elaboration_facts.

Lemma connected_grows m m' g : grows m m' -> connected m g -> connected m' g.
Proof.
  intros G [Hi Ho]. split.
  - eapply List.Forall_impl; [|exact Hi].
    intros n. apply store_facts.grows_present. exact G.
  - exact (store_facts.grows_present _ _ _ G Ho).
Qed.

Lemma all_connected_grows m m' gs :
  grows m m' -> Forall (connected m) gs -> Forall (connected m') gs.
Proof.
  intros G H. eapply List.Forall_impl; [|exact H].
  intros g. apply connected_grows. exact G.
Qed.

Lemma get_or_create_step n w ai ao ar m r m' :
  _get_or_create_signal n w ai ao ar m = Ok (r, m') ->
  r = n /\ present n m' /\ grows m m' /\ egates m' = egates m.
Proof.
  intros H.
  destruct (expr_facts.get_or_create_result _ _ _ _ _ _ _ _ H) as [-> P].
  split; [reflexivity|]. split; [exact P|]. split.
  - exact (store_facts.get_or_create_grows n w ai ao ar m m n m'
             (store_facts.grows_refl m) H).
  - exact (get_or_create_keeps_gates _ _ _ _ _ _ _ _ H).
Qed.

Lemma expr_step e ew m s gs m' :
  _expr_to_signal_and_gates e ew m = Ok ((s, gs), m') ->
  present s m' /\ Forall (connected m') gs /\ grows m m'
  /\ egates m' = egates m.
Proof.
  intros H.
  destruct (expr_facts.expr_compiles _ _ _ _ _ _ H) as (P & _ & C & _).
  split; [exact P|]. split; [exact C|]. split.
  - exact (store_facts.expr_grows _ _ _ _ _ H).
  - exact (expr_keeps_gates _ _ _ _ _ H).
Qed.

Lemma attr_width_same r m w m' : attr_width r m = Ok (w, m') -> m' = m.
Proof.
  unfold attr_width. destruct r as [n|]; [|discriminate].
  destruct (netlist.lookup n (esignals m)); intros H; inversion H.
  reflexivity.
Qed.

Lemma build_mux_tree_grows s target m r m' :
  _build_mux_tree s target m = Ok (r, m') -> grows m m'.
Proof.
  intros H.
  exact (store_facts.build_mux_tree_inv (grows m)
           (fun n w ai ao ar => store_facts.get_or_create_grows n w ai ao ar m)
           (fun n ew => store_facts.identifier_grows n ew m)
           target s m r m' (store_facts.grows_refl m) H).
Qed.

(** The gates of a MUX tree and its result are wired to Signals of the
    module. *)
Lemma build_mux_tree_step target : forall s m r gs m',
  _build_mux_tree s target m = Ok ((r, gs), m') ->
  (forall n, r = Some n -> present n m') /\ Forall (connected m') gs.
Proof.
  fix IH 1. intros s m r gs m' H.
  destruct s as [stmts|cond ts fs|lhs rhs|lhs rhs|cls].
  - destruct stmts as [|first rest]; simpl in H.
    + inversion H. split; [discriminate|constructor].
    + exact (IH _ _ _ _ _ H).
  - simpl in H.
    apply bind_ok in H as ([c cg] & m1 & Hc & H).
    apply bind_ok in H as ([t tg] & m2 & Ht & H).
    apply bind_ok in H as ([f fg] & m3 & Hf & H).
    destruct (expr_step _ _ _ _ _ _ Hc) as (Pc & Cc & _ & _).
    destruct (IH _ _ _ _ _ Ht) as (Pt & Ct).
    pose proof (build_mux_tree_grows _ _ _ _ _ Ht) as G2.
    assert (Tf : (forall n, f = Some n -> present n m3)
                 /\ Forall (connected m3) fg /\ grows m2 m3).
    { destruct fs as [fs|].
      - destruct (IH _ _ _ _ _ Hf) as (Pf & Cf).
        split; [exact Pf|]. split; [exact Cf|].
        exact (build_mux_tree_grows _ _ _ _ _ Hf).
      - apply bind_ok in Hf as (t0 & m4 & Hg & Hf).
        injection Hf as <- <- <-. unfold get_signal in Hg.
        injection Hg as <- <-.
        split; [|split; [constructor|apply store_facts.grows_refl]].
        intros n Hn. unfold present.
        destruct (netlist.lookup target (esignals m2)) eqn:E; [|discriminate].
        injection Hn as <-. rewrite E. discriminate. }
    clear IH. destruct Tf as (Pf & Cf & G3).
    destruct t as [t|]; [|inversion H; split; [discriminate|constructor]].
    destruct f as [f|]; [|inversion H; split; [discriminate|constructor]].
    apply bind_ok in H as (n & m4 & Hn & H). injection Hn as <- <-.
    apply bind_ok in H as (tw & m5 & Hw & H).
    apply attr_width_same in Hw as ->.
    apply bind_ok in H as (mux_out & m6 & Hm & H).
    destruct (get_or_create_step _ _ _ _ _ _ _ _ Hm) as (-> & Pm & G6 & _).
    injection H as <- <- <-.
    pose proof (store_facts.grows_trans _ _ _ G3 G6) as G36.
    pose proof (store_facts.grows_trans _ _ _ G2 G36) as G26.
    split; [intros n0 Hn0; injection Hn0 as <-; exact Pm|].
    repeat (apply Forall_app; split).
    + exact (all_connected_grows _ _ _ G26 Cc).
    + exact (all_connected_grows _ _ _ G36 Ct).
    + exact (all_connected_grows _ _ _ G6 Cf).
    + constructor; [|constructor]. split; [|exact Pm].
      cbn [ref_inputs]. repeat constructor.
      * exact (store_facts.grows_present _ _ _ G26 Pc).
      * exact (store_facts.grows_present _ _ _ G36 (Pt _ eq_refl)).
      * exact (store_facts.grows_present _ _ _ G6 (Pf _ eq_refl)).
  - clear IH. simpl in H.
    apply bind_ok in H as (lname & m1 & _ & H).
    destruct (negb (String.eqb lname target));
      [inversion H; split; [discriminate|constructor]|].
    apply bind_ok in H as (tsig & m2 & _ & H).
    apply bind_ok in H as (tw & m3 & _ & H).
    apply bind_ok in H as ([rs g] & m4 & He & H).
    injection H as <- <- <-.
    destruct (expr_step _ _ _ _ _ _ He) as (P & C & _ & _).
    split; [intros n Hn; injection Hn as <-; exact P|exact C].
  - clear IH. simpl in H.
    apply bind_ok in H as (lname & m1 & _ & H).
    destruct (negb (String.eqb lname target));
      [inversion H; split; [discriminate|constructor]|].
    apply bind_ok in H as (tsig & m2 & _ & H).
    apply bind_ok in H as (tw & m3 & _ & H).
    apply bind_ok in H as ([rs g] & m4 & He & H).
    injection H as <- <- <-.
    destruct (expr_step _ _ _ _ _ _ He) as (P & C & _ & _).
    split; [intros n Hn; injection Hn as <-; exact P|exact C].
  - clear IH. simpl in H. inversion H. split; [discriminate|constructor].
Qed.

(** A step that keeps the gate list and grows the dictionary keeps the
    module wired. *)
Lemma wired_step m m' :
  grows m m' -> egates m' = egates m -> wired m -> wired m'.
Proof.
  intros G E W. unfold wired. rewrite E.
  exact (all_connected_grows _ _ _ G W).
Qed.

Lemma wired_add m gs :
  wired m -> Forall (connected m) gs ->
  wired (mkEmod (emod_name m) (esignals m) (egates m ++ gs)).
Proof.
  intros W C. unfold wired. cbn [egates]. apply Forall_app.
  split; (eapply List.Forall_impl; [|eassumption]); intros g [Hi Ho];
    split; assumption.
Qed.

(** Moves what is known of one state to a state that has grown from
    it. *)
Ltac push G :=
  repeat match goal with
    | P : present ?k ?m |- _ =>
        lazymatch type of G with
        | grows m ?m2 => apply (store_facts.grows_present m m2 k G) in P
        end
    | P : Forall (connected ?m) ?gs |- _ =>
        lazymatch type of G with
        | grows m ?m2 => apply (all_connected_grows m m2 gs G) in P
        end
    end.

Lemma clocked_process_wired sens_list statement :
  preserves wired (clocked_process sens_list statement).
Proof.
  intros m [] m' W H. unfold clocked_process in H.
  apply bind_ok in H as (first & m1 & Hfirst & H).
  apply index_ok in Hfirst as [_ ->].
  apply bind_ok in H as (clk & m2 & Hclk & H).
  assert (m2 = m) as ->.
  { destruct (sens_sig first) as [sg|]; [|discriminate].
    apply register_facts.attr_name_ok in Hclk as [_ ->]. reflexivity. }
  clear Hclk.
  apply bind_ok in H as (clk_sig & m3 & Hcs & H).
  destruct (get_or_create_step _ _ _ _ _ _ _ _ Hcs) as (-> & Pclk & G3 & E3).
  apply (wired_step _ _ G3 E3) in W. clear Hcs G3 E3.
  apply bind_ok in H as (body & m4 & Hb & H).
  apply register_facts.unwrap_block_ok in Hb as [_ ->].
  destruct body as [|cond then_stmt else_stmt| | |];
    try (injection H as <-; exact W).
  apply bind_ok in H as (rst & m5 & Hrst & H).
  apply register_facts.attr_name_ok in Hrst as [_ ->].
  apply bind_ok in H as (rst_sig & m6 & Hrs & H).
  destruct (get_or_create_step _ _ _ _ _ _ _ _ Hrs) as (-> & Prst & G6 & E6).
  apply (wired_step _ _ G6 E6) in W. push G6. clear Hrs G6 E6.
  apply bind_ok in H as (rst_stmt & m7 & Hts & H).
  apply register_facts.unwrap_block_ok in Hts as [_ ->].
  apply bind_ok in H as (target & m8 & Htn & H).
  apply register_facts.stmt_left_name_ok in Htn as [_ ->].
  apply bind_ok in H as (target_sig & m9 & Htg & H).
  destruct (get_or_create_step _ _ _ _ _ _ _ _ Htg) as (-> & Ptg & G9 & E9).
  apply (wired_step _ _ G9 E9) in W. push G9. clear Htg G9 E9.
  apply bind_ok in H as (rst_rhs & m10 & Hrr & H).
  apply register_facts.stmt_right_ok in Hrr as [_ ->].
  apply bind_ok in H as (tw & m11 & Htw & H).
  apply attr_width_same in Htw as ->.
  apply bind_ok in H as ([rv g_rst] & m12 & Hev & H).
  destruct (expr_step _ _ _ _ _ _ Hev) as (Prv & Crst & G12 & E12).
  apply (wired_step _ _ G12 E12) in W. push G12. clear Hev G12 E12.
  apply bind_ok in H as ([] & m13 & Hag & H).
  rewrite add_gates_appends in Hag. injection Hag as <-.
  apply (fun W => wired_add _ _ W Crst) in W.
  set (m13 := mkEmod (emod_name m12) (esignals m12) (egates m12 ++ g_rst))
    in *.
  assert (G13 : grows m12 m13) by (intros k s Hs; exists s; tauto).
  push G13. clear G13 Crst.
  destruct else_stmt as [[|en_cond en_then en_else| | |]|];
    try (injection H as <-; exact W).
  apply bind_ok in H as (en & m14 & Hen & H).
  apply register_facts.attr_name_ok in Hen as [_ ->].
  apply bind_ok in H as (en_sig & m15 & Hes & H).
  destruct (get_or_create_step _ _ _ _ _ _ _ _ Hes) as (-> & Pen & G15 & E15).
  apply (wired_step _ _ G15 E15) in W. push G15. clear Hes G15 E15.
  apply bind_ok in H as (next_stmt & m16 & Hns & H).
  apply register_facts.unwrap_block_ok in Hns as [_ ->].
  apply bind_ok in H as (next_rhs & m17 & Hnr & H).
  apply register_facts.stmt_right_ok in Hnr as [_ ->].
  apply bind_ok in H as (tw2 & m18 & Htw2 & H).
  apply attr_width_same in Htw2 as ->.
  apply bind_ok in H as ([nv g_next] & m19 & Hnv & H).
  destruct (expr_step _ _ _ _ _ _ Hnv) as (Pnv & Cnext & G19 & E19).
  apply (wired_step _ _ G19 E19) in W. push G19. clear Hnv G19 E19.
  apply bind_ok in H as ([] & m20 & Hag & H).
  rewrite add_gates_appends in Hag. injection Hag as <-.
  apply (fun W => wired_add _ _ W Cnext) in W.
  unfold add_gate in H. injection H as <-. cbn [emod_name esignals egates].
  apply (wired_add _ [_] W). constructor; [|constructor].
  split; [|exact Ptg]. cbn [ref_inputs]. repeat constructor; assumption.
Qed.

Lemma lookup_member (s : Signal) l :
  In s l -> netlist.lookup (name s) l <> None.
Proof.
  induction l as [|x l IH]; intros Hin; [contradiction|]. simpl.
  destruct (String.eqb (name x) (name s)) eqn:E; [discriminate|].
  destruct Hin as [->|Hin]; [rewrite String.eqb_refl in E; discriminate|].
  exact (IH Hin).
Qed.

Lemma combinational_process_wired statement :
  preserves wired (combinational_process statement).
Proof.
  intros m u m' W H. unfold combinational_process in H.
  apply bind_ok in H as (targets & m1 & Ht & H).
  injection Ht as <- <-.
  set (targets := map name _) in H.
  assert (Pt : Forall (fun t => present t m) targets).
  { apply List.Forall_forall. intros t Hin. subst targets.
    apply in_map_iff in Hin as (s & <- & Hs).
    apply filter_In in Hs as [Hs _]. exact (lookup_member s _ Hs). }
  assert (K : wired m /\ Forall (fun t => present t m) targets) by auto.
  clear W Pt. clearbody targets.
  refine (proj1 (selector_facts.preserves_forM_in
                   (fun m => wired m /\ Forall (fun t => present t m) targets)
                   _ targets _ m u m' K H)).
  clear K H m m' u. intros target Hin m [] m' [W Pt] H.
  apply bind_ok in H as ([final gs] & m1 & Htree & H).
  destruct (build_mux_tree_step _ _ _ _ _ _ Htree) as (Pf & Cg).
  pose proof (build_mux_tree_grows _ _ _ _ _ Htree) as G.
  pose proof (mux_tree_facts.build_mux_tree_keeps (egates m) target
                statement m _ m1 eq_refl Htree) as E.
  apply (wired_step _ _ G E) in W.
  assert (Pt1 : Forall (fun t => present t m1) targets).
  { eapply List.Forall_impl; [|exact Pt].
    intros t. apply store_facts.grows_present. exact G. }
  destruct final as [final|]; [|injection H as <-; auto].
  apply bind_ok in H as ([] & m2 & Hag & H).
  rewrite add_gates_appends in Hag. injection Hag as <-.
  apply (fun W => wired_add _ _ W Cg) in W.
  unfold add_gate in H. injection H as <-. cbn [emod_name esignals egates].
  split; [|exact Pt1].
  apply (wired_add _ [_] W). constructor; [|constructor].
  rewrite List.Forall_forall in Pt1.
  split; [|exact (Pt1 _ Hin)]. cbn [ref_inputs].
  constructor; [exact (Pf _ eq_refl)|constructor].
Qed.

Lemma declare_port_wired p : preserves wired (declare_port p).
Proof.
  intros m u m' W H.
  refine (wired_step m m' (store_facts.declare_port_grows _ _ _ _ H) _ W).
  exact (store_facts.declare_port_inv (fun x => egates x = egates m)
           (get_or_create_keeps (egates m)) p m u m' eq_refl H).
Qed.

Lemma run_wired definitions m : run definitions = Ok m -> wired m.
Proof.
  unfold run. destruct (first_module definitions) as [[[n ps] its]|];
    [|discriminate].
  destruct ((let* _ := forM ps declare_port in forM its process_item) _)
    as [[u m1]|e] eqn:E; [|discriminate].
  intros H. inversion H. subst. clear H.
  revert E. apply (preserves_bind wired); [| |constructor].
  - apply preserves_forM. apply declare_port_wired.
  - intros _. apply preserves_forM. intros [sens statement|cls]; simpl.
    + destruct (is_clocked sens);
        [apply clocked_process_wired|apply combinational_process_wired].
    + apply preserves_ret.
Qed.

Lemma lookup_In n l s : netlist.lookup n l = Some s -> In s l.
Proof.
  induction l as [|x l IH]; simpl; [discriminate|].
  destruct (String.eqb (name x) n); [|auto].
  intros H. injection H as ->. auto.
Qed.

End wiring_facts.

(** X27: every gate of an elaborated module reads and drives Signals that
    the module holds under their names, so no gate of the finished module
    refers to a Signal outside its signal dictionary. *)
Theorem elaboration_gates_are_wired definitions m :
  stage_elaboration.run definitions = Ok m ->
  Forall (connected m) (stage_elaboration.egates m)
  /\ Forall (fun g =>
               Forall (fun s => In s (signals (stage_elaboration.snapshot m)))
                 (inputs g)
               /\ In (output g) (signals (stage_elaboration.snapshot m)))
       (gates (stage_elaboration.snapshot m)).
Proof.
  intros H. apply wiring_facts.run_wired in H. split; [exact H|].
  unfold stage_elaboration.snapshot. cbn [gates signals].
  apply List.Forall_forall. intros g Hg.
  apply in_map_iff in Hg as (r & <- & Hr).
  unfold wired in H. rewrite List.Forall_forall in H.
  destruct (H r Hr) as [Hi Ho]. cbn [inputs output].
  assert (D : forall k, present k m ->
                In (stage_elaboration.deref m k)
                  (stage_elaboration.esignals m)).
  { intros k P. unfold present in P. unfold stage_elaboration.deref.
    destruct (netlist.lookup k (stage_elaboration.esignals m)) as [s|] eqn:E;
      [|congruence].
    exact (wiring_facts.lookup_In _ _ _ E). }
  split; [|exact (D _ Ho)].
  apply List.Forall_forall. intros s Hs.
  apply in_map_iff in Hs as (k & <- & Hk).
  rewrite List.Forall_forall in Hi. exact (D k (Hi k Hk)).
Qed.

Lemma elaboration_gates_are_wired_accumulator :
  exists m,
    stage_elaboration.run accumulator = Ok m
    /\ Forall (connected m) (stage_elaboration.egates m)
    /\ Forall (fun g =>
                 Forall
                   (fun s => In s (signals (stage_elaboration.snapshot m)))
                   (inputs g)
                 /\ In (output g) (signals (stage_elaboration.snapshot m)))
         (gates (stage_elaboration.snapshot m)).
Proof.
  destruct (stage_elaboration.run accumulator) as [m|e] eqn:Hrun;
    [|vm_compute in Hrun; discriminate].
  exists m. split; [reflexivity|].
  exact (elaboration_gates_are_wired accumulator m Hrun).
Defined.

(** ** Bit-Blasting returns on every module that is ready for it *)

Module total_facts.
Import stage_bitblast.

Lemma foldM_total {A B} (J : pass_state -> Prop) (body : B -> A -> M B) l :
  (forall b x st, In x l -> J st ->
     exists b' st', body b x st = Ok (b', st') /\ J st') ->
  forall b st, J st ->
    exists b' st', foldM body l b st = Ok (b', st') /\ J st'.
Proof.
  induction l as [|x l IH]; intros Hb b st HJ; simpl.
  - exists b, st. split; [reflexivity|exact HJ].
  - destruct (Hb b x st (or_introl eq_refl) HJ) as (b1 & st1 & E & HJ1).
    rewrite (bind_eq _ _ _ _ _ E).
    apply IH; [|exact HJ1]. intros b0 y st0 Hy. apply Hb. right. exact Hy.
Qed.

Lemma parse_any_hint v h1 h2 b1 :
  parse_verilog_const v h1 = Ok b1 ->
  exists b2, parse_verilog_const v h2 = Ok b2.
Proof.
  unfold parse_verilog_const.
  destruct (const_re_match (Py.strip v)) as [[[g1 g2] g3]|]; [|eauto].
  intros H. eauto.
Qed.

Section dictionary.
Variable sigs0 : list Signal.

Lemma get_bits_total sig st :
  cache_fits sigs0 st ->
  netlist.lookup (name sig) sigs0 = Some sig ->
  exists l st',
    get_bits sig st = Ok (l, st')
    /\ cache_fits sigs0 st'
    /\ length l = Z.to_nat (width sig).
Proof.
  intros HC Hl. unfold get_bits.
  destruct (width sig =? 1) eqn:E1.
  - apply Z.eqb_eq in E1. eexists. eexists. split; [reflexivity|].
    split; [|rewrite E1; reflexivity].
    intros n bits s Hn Hs. cbn [bits_map] in Hn.
    destruct (decide (n = name sig)) as [->|Hne].
    + rewrite lookup_insert_eq in Hn. injection Hn as <-.
      rewrite Hl in Hs. injection Hs as <-. rewrite E1. reflexivity.
    + rewrite lookup_insert_ne in Hn by congruence. exact (HC _ _ _ Hn Hs).
  - unfold bits_map_get. rewrite (bind_eq _ _ _ (bits_map st !! name sig) st)
      by reflexivity.
    destruct (bits_map st !! name sig) as [l|] eqn:Ec.
    + exists l, st. split; [reflexivity|]. split; [exact HC|].
      exact (HC _ _ _ Ec Hl).
    + destruct (cache_facts.expand_bits_spec sig (Py.range (width sig)) [] st
                  (NoDup_seq _ _))
        as (bits & st1 & E & Hb & _ & _ & F2 & _).
      rewrite (bind_eq _ _ _ _ _ E). simpl.
      eexists. eexists. split; [reflexivity|].
      apply Forall2_length in F2. unfold Py.range in F2.
      rewrite length_seq in F2. split; [|symmetry; exact F2].
      intros n l s Hn Hs. cbn [bits_map] in Hn. rewrite Hb in Hn.
      destruct (decide (n = name sig)) as [->|Hne].
      * rewrite lookup_insert_eq in Hn. injection Hn as <-.
        rewrite Hl in Hs. injection Hs as <-. symmetry. exact F2.
      * rewrite lookup_insert_ne in Hn by congruence.
        exact (HC _ _ _ Hn Hs).
Qed.

Lemma get_operand_bits_total c0 c1 sig w st :
  cache_fits sigs0 st ->
  netlist.lookup (name sig) sigs0 = Some sig ->
  decodable sig = true ->
  0 <= w ->
  exists l st',
    get_operand_bits c0 c1 sig w st = Ok (l, st')
    /\ cache_fits sigs0 st'
    /\ length l = Z.to_nat w.
Proof.
  intros HC Hl Hd Hw.
  assert (Hf : exists bits st',
             (if String.prefix "CONST_" (name sig)
              then const_bits_from_signal c0 c1 sig w
              else get_bits sig) st = Ok (bits, st')
             /\ cache_fits sigs0 st').
  { unfold decodable in Hd.
    destruct (String.prefix "CONST_" (name sig)) eqn:Ep.
    - unfold const_bits_from_signal. rewrite Ep. cbn [negb orb] in *.
      destruct (snd (Py.split_first "_"%char (name sig))) as [raw|];
        [|discriminate].
      destruct (parse_verilog_const _ 1) as [b1|] eqn:E1; [|discriminate].
      destruct (parse_any_hint _ 1 w b1 E1) as (b2 & E2).
      unfold lift. rewrite (bind_eq _ _ _ b2 st) by (rewrite E2; reflexivity).
      eexists. eexists. split; [reflexivity|exact HC].
    - destruct (get_bits_total sig st HC Hl) as (l & st' & E & HC' & _).
      eauto. }
  destruct Hf as (bits & st' & E & HC').
  assert (Hrun : exists l, get_operand_bits c0 c1 sig w st = Ok (l, st')).
  { unfold get_operand_bits. rewrite (bind_eq _ _ _ _ _ E). eauto. }
  destruct Hrun as (l & Hrun). exists l, st'.
  split; [exact Hrun|]. split; [exact HC'|].
  exact (network_facts.fetch_length _ _ _ _ _ _ _ Hw Hrun).
Qed.

(** *** The loops leave the bit cache alone *)

Section cache_kept.
Variable B : gmap string (list Signal).

Lemma new_tmp_cache p : preserves (fun st => bits_map st = B) (new_tmp p).
Proof.
  intros st s st' HI H.
  destruct (driver_facts.new_tmp_spec _ _ _ _ H) as (_ & Hb & _).
  congruence.
Qed.

Lemma emit_cache g : preserves (fun st => bits_map st = B) (emit g).
Proof. intros st u st' HI H. injection H as _ <-. exact HI. Qed.

Ltac cache_step :=
  first
    [ apply new_tmp_cache
    | apply emit_cache
    | preserves_step ].

Lemma bitwise_step_cache k a_bits b_bits out_bits i :
  k = XOR2 \/ k = AND2 \/ k = OR2 ->
  preserves (fun st => bits_map st = B)
    (bitwise_step k a_bits b_bits out_bits i).
Proof.
  intros [-> | [-> | ->]]; unfold bitwise_step, XOR2, AND2, OR2;
    repeat cache_step.
Qed.

Lemma eq_step_cache a_bits b_bits eq_bits i :
  preserves (fun st => bits_map st = B) (eq_step a_bits b_bits eq_bits i).
Proof. unfold eq_step, XOR2, NOT1. repeat cache_step. Qed.

Lemma reduce_step_cache eq_bits curr i :
  preserves (fun st => bits_map st = B) (reduce_step eq_bits curr i).
Proof. unfold reduce_step, AND2. repeat cache_step. Qed.

Lemma mux_step_cache sel_bit t_bits f_bits out_bits i :
  preserves (fun st => bits_map st = B)
    (mux_step sel_bit t_bits f_bits out_bits i).
Proof. unfold mux_step, MUX2. repeat cache_step. Qed.

Lemma add_step_cache a_bits b_bits out_bits carry i :
  preserves (fun st => bits_map st = B)
    (add_step a_bits b_bits out_bits carry i).
Proof. unfold add_step, XOR2, AND2, OR2. repeat cache_step. Qed.

Lemma dff_step_cache en_b rst_b clk_b d_en_bits d_rst_bits q_old_bits q_bits
    i :
  preserves (fun st => bits_map st = B)
    (dff_step en_b rst_b clk_b d_en_bits d_rst_bits q_old_bits q_bits i).
Proof. unfold dff_step, MUX2, DFF. repeat cache_step. Qed.

End cache_kept.

(** A loop whose rounds return and keep the cache returns and keeps what
    the cache fits. *)
Lemma loop_total {A B} (body : B -> A -> M B) l b st :
  (forall b x st, In x l -> exists b' st', body b x st = Ok (b', st')) ->
  (forall C b x, preserves (fun st => bits_map st = C) (body b x)) ->
  cache_fits sigs0 st ->
  exists b' st', foldM body l b st = Ok (b', st') /\ cache_fits sigs0 st'.
Proof.
  intros Hrun Hkeep HC.
  destruct (foldM_total (fun s => bits_map s = bits_map st) body l) with
    (b := b) (st := st) as (b' & st' & E & Hb); [|reflexivity|].
  - intros b0 x st0 Hx H0. destruct (Hrun b0 x st0 Hx) as (b1 & st1 & E).
    exists b1, st1. split; [exact E|].
    exact (Hkeep _ b0 x st0 b1 st1 H0 E).
  - exists b', st'. split; [exact E|].
    intros n bits s Hn Hs. rewrite Hb in Hn. exact (HC _ _ _ Hn Hs).
Qed.

Lemma in_range_lookup {A} (l : list A) w i :
  0 <= w -> length l = Z.to_nat w -> In i (Py.range w) ->
  exists x, l !! i = Some x.
Proof.
  intros Hw Hl Hi. unfold Py.range in Hi. apply in_seq in Hi.
  apply lookup_lt_is_Some_2. lia.
Qed.

Lemma head_total {A} (l : list A) w :
  1 <= w -> length l = Z.to_nat w -> exists x, l !! 0%nat = Some x.
Proof. intros Hw Hl. apply lookup_lt_is_Some_2. lia. Qed.

Section branches.
Variables c0 c1 : Signal.

Lemma blast_bitwise_total op g a b st :
  inputs g = [a; b] ->
  fit sigs0 (output g) -> fit sigs0 a -> fit sigs0 b ->
  decodable a = true -> decodable b = true ->
  cache_fits sigs0 st ->
  exists st', blast_bitwise c0 c1 op g st = Ok (tt, st')
              /\ cache_fits sigs0 st'.
Proof.
  intros Hin [Lo Wo] [La _] [Lb _] Da Db HC. unfold blast_bitwise.
  rewrite Hin. rewrite (bind_eq _ _ _ (a, b) st) by reflexivity.
  cbv beta iota zeta.
  assert (Hw : 0 <= width (output g)) by lia.
  destruct (get_operand_bits_total c0 c1 a _ st HC La Da Hw)
    as (a_bits & st1 & E1 & C1 & L1).
  rewrite (bind_eq _ _ _ _ _ E1).
  destruct (get_operand_bits_total c0 c1 b _ st1 C1 Lb Db Hw)
    as (b_bits & st2 & E2 & C2 & L2).
  rewrite (bind_eq _ _ _ _ _ E2).
  destruct (get_bits_total (output g) st2 C2 Lo)
    as (out_bits & st3 & E3 & C3 & L3).
  rewrite (bind_eq _ _ _ _ _ E3).
  unfold forM.
  match goal with
  | |- context [foldM ?body ?l tt st3] =>
      destruct (loop_total body l tt st3) as ([] & st4 & E4 & C4);
        [| |exact C3|eauto]
  end.
  - intros _ i st0 Hi.
    destruct (in_range_lookup a_bits _ i Hw L1 Hi) as (x & Hx).
    destruct (in_range_lookup b_bits _ i Hw L2 Hi) as (y & Hy).
    destruct (in_range_lookup out_bits _ i Hw L3 Hi) as (o & Ho).
    unfold bitwise_step.
    rewrite (bind_eq _ _ _ _ _ (index_eq _ _ st0 _ Hx)).
    rewrite (bind_eq _ _ _ _ _ (index_eq _ _ st0 _ Hy)).
    rewrite (bind_eq _ _ _ _ _ (index_eq _ _ st0 _ Ho)).
    destruct (String.eqb op "XOR"); [|destruct (String.eqb op "AND")];
      eexists; eexists; reflexivity.
  - intros C _ i. apply bitwise_step_cache.
    destruct (String.eqb op "XOR"); [|destruct (String.eqb op "AND")]; auto.
Qed.

Lemma first_bit_total sig st :
  fit sigs0 sig -> cache_fits sigs0 st ->
  exists l x st',
    get_bits sig st = Ok (l, st') /\ l !! 0%nat = Some x
    /\ cache_fits sigs0 st' /\ length l = Z.to_nat (width sig).
Proof.
  intros [Ls Ws] HC.
  destruct (get_bits_total sig st HC Ls) as (l & st' & E & C & L).
  destruct (head_total l _ Ws L) as (x & Hx).
  exists l, x, st'. auto.
Qed.

Lemma eq_reduce_total eq_bits out st :
  fit sigs0 out -> cache_fits sigs0 st ->
  exists st', eq_reduce c1 eq_bits out st = Ok (tt, st')
              /\ cache_fits sigs0 st'.
Proof.
  intros Fo HC. unfold eq_reduce, AND2.
  destruct eq_bits as [|e [|e2 rest]].
  - destruct (first_bit_total out st Fo HC) as (l & x & st1 & E & Hx & C & _).
    rewrite (bind_eq _ _ _ _ _ E).
    rewrite (bind_eq _ _ _ _ _ (index_eq _ _ st1 _ Hx)).
    eexists. split; [reflexivity|exact C].
  - destruct (first_bit_total out st Fo HC) as (l & x & st1 & E & Hx & C & _).
    rewrite (bind_eq _ _ _ _ _ E).
    rewrite (bind_eq _ _ _ _ _ (index_eq _ _ st1 _ Hx)).
    eexists. split; [reflexivity|exact C].
  - set (bits := e :: e2 :: rest).
    destruct (loop_total (reduce_step bits) (seq 1 (length bits - 1)) e st)
      as (curr & st1 & E1 & C1); [| |exact HC|].
    + intros b i st0 Hi. apply in_seq in Hi.
      destruct (lookup_lt_is_Some_2 bits i) as (y & Hy); [lia|].
      destruct (network_facts.reduce_step_run bits b i y st0 Hy)
        as (nt & st' & E & _).
      eauto.
    + intros C b i. apply reduce_step_cache.
    + rewrite (bind_eq _ _ _ _ _ E1).
      destruct (first_bit_total out st1 Fo C1)
        as (l & x & st2 & E & Hx & C & _).
      rewrite (bind_eq _ _ _ _ _ E).
      rewrite (bind_eq _ _ _ _ _ (index_eq _ _ st2 _ Hx)).
      eexists. split; [reflexivity|exact C].
Qed.

Lemma blast_eq_total g a b st :
  inputs g = [a; b] ->
  fit sigs0 (output g) -> fit sigs0 a -> fit sigs0 b ->
  decodable a = true -> decodable b = true ->
  cache_fits sigs0 st ->
  exists st', blast_eq c0 c1 g st = Ok (tt, st') /\ cache_fits sigs0 st'.
Proof.
  intros Hin Fo [La Wa] [Lb Wb] Da Db HC. unfold blast_eq.
  rewrite Hin. rewrite (bind_eq _ _ _ (a, b) st) by reflexivity.
  cbv beta iota zeta.
  assert (Hw : 0 <= Z.max (width a) (width b)) by lia.
  destruct (get_operand_bits_total c0 c1 a _ st HC La Da Hw)
    as (a_bits & st1 & E1 & C1 & L1).
  rewrite (bind_eq _ _ _ _ _ E1).
  destruct (get_operand_bits_total c0 c1 b _ st1 C1 Lb Db Hw)
    as (b_bits & st2 & E2 & C2 & L2).
  rewrite (bind_eq _ _ _ _ _ E2).
  unfold eq_column.
  destruct (loop_total (eq_step a_bits b_bits)
              (Py.range (Z.max (width a) (width b))) [] st2)
    as (eq_bits & st3 & E3 & C3); [| |exact C2|].
  - intros acc i st0 Hi.
    destruct (in_range_lookup a_bits _ i Hw L1 Hi) as (x & Hx).
    destruct (in_range_lookup b_bits _ i Hw L2 Hi) as (y & Hy).
    destruct (network_facts.eq_step_run a_bits b_bits acc i x y st0 Hx Hy)
      as (t1 & t2 & st' & E & _).
    eauto.
  - intros C acc i. apply eq_step_cache.
  - rewrite (bind_eq _ _ _ _ _ E3).
    exact (eq_reduce_total eq_bits (output g) st3 Fo C3).
Qed.

Lemma blast_mux_total g sel t_in f_in st :
  inputs g = [sel; t_in; f_in] ->
  fit sigs0 (output g) -> fit sigs0 sel -> fit sigs0 t_in ->
  fit sigs0 f_in ->
  decodable t_in = true -> decodable f_in = true ->
  cache_fits sigs0 st ->
  exists st', blast_mux c0 c1 g st = Ok (tt, st') /\ cache_fits sigs0 st'.
Proof.
  intros Hin [Lo Wo] Fs [Lt _] [Lf _] Dt Df HC. unfold blast_mux.
  rewrite Hin. rewrite (bind_eq _ _ _ (sel, t_in, f_in) st) by reflexivity.
  cbv beta iota zeta.
  assert (Hw : 0 <= width (output g)) by lia.
  destruct (first_bit_total sel st Fs HC)
    as (sel_bits & sel_bit & st0 & E0 & H0 & C0 & _).
  rewrite (bind_eq _ _ _ _ _ E0).
  rewrite (bind_eq _ _ _ _ _ (index_eq _ _ st0 _ H0)).
  destruct (get_operand_bits_total c0 c1 t_in _ st0 C0 Lt Dt Hw)
    as (t_bits & st1 & E1 & C1 & L1).
  rewrite (bind_eq _ _ _ _ _ E1).
  destruct (get_operand_bits_total c0 c1 f_in _ st1 C1 Lf Df Hw)
    as (f_bits & st2 & E2 & C2 & L2).
  rewrite (bind_eq _ _ _ _ _ E2).
  destruct (get_bits_total (output g) st2 C2 Lo)
    as (out_bits & st3 & E3 & C3 & L3).
  rewrite (bind_eq _ _ _ _ _ E3).
  unfold forM.
  match goal with
  | |- context [foldM ?body ?l tt st3] =>
      destruct (loop_total body l tt st3) as ([] & st4 & E4 & C4);
        [| |exact C3|eauto]
  end.
  - intros _ i st' Hi.
    destruct (in_range_lookup t_bits _ i Hw L1 Hi) as (x & Hx).
    destruct (in_range_lookup f_bits _ i Hw L2 Hi) as (y & Hy).
    destruct (in_range_lookup out_bits _ i Hw L3 Hi) as (o & Ho).
    destruct (selector_facts.mux_step_run sel_bit t_bits f_bits out_bits i
                x y o st' Hx Hy Ho) as (st5 & E & _).
    eauto.
  - intros C _ i. apply mux_step_cache.
Qed.

Lemma blast_add_total g a b st :
  inputs g = [a; b] ->
  fit sigs0 (output g) -> fit sigs0 a -> fit sigs0 b ->
  decodable a = true -> decodable b = true ->
  cache_fits sigs0 st ->
  exists st', blast_add c0 c1 g st = Ok (tt, st') /\ cache_fits sigs0 st'.
Proof.
  intros Hin [Lo Wo] [La _] [Lb _] Da Db HC. unfold blast_add.
  rewrite Hin. rewrite (bind_eq _ _ _ (a, b) st) by reflexivity.
  cbv beta iota zeta.
  assert (Hw : 0 <= width (output g)) by lia.
  destruct (get_operand_bits_total c0 c1 a _ st HC La Da Hw)
    as (a_bits & st1 & E1 & C1 & L1).
  rewrite (bind_eq _ _ _ _ _ E1).
  destruct (get_operand_bits_total c0 c1 b _ st1 C1 Lb Db Hw)
    as (b_bits & st2 & E2 & C2 & L2).
  rewrite (bind_eq _ _ _ _ _ E2).
  destruct (get_bits_total (output g) st2 C2 Lo)
    as (out_bits & st3 & E3 & C3 & L3).
  rewrite (bind_eq _ _ _ _ _ E3).
  unfold add_loop.
  destruct (loop_total (add_step a_bits b_bits out_bits)
              (Py.range (width (output g))) c0 st3)
    as (carry & st4 & E4 & C4); [| |exact C3|].
  - intros cy i st' Hi.
    destruct (in_range_lookup a_bits _ i Hw L1 Hi) as (x & Hx).
    destruct (in_range_lookup b_bits _ i Hw L2 Hi) as (y & Hy).
    destruct (in_range_lookup out_bits _ i Hw L3 Hi) as (o & Ho).
    destruct (network_facts.add_step_run a_bits b_bits out_bits cy i x y o
                st' Hx Hy Ho) as (cn & st5 & ? & ? & ? & ? & ? & E & _).
    eauto.
  - intros C cy i. apply add_step_cache.
  - rewrite (bind_eq _ _ _ _ _ E4). eexists. split; [reflexivity|exact C4].
Qed.

Lemma blast_dff_total g d_en q_old en d_rst rst clk st :
  inputs g = [d_en; q_old; en; d_rst; rst; clk] ->
  fit sigs0 (output g) ->
  Forall (fit sigs0) [d_en; q_old; en; d_rst; rst; clk] ->
  Forall (fun s => decodable s = true) [d_en; q_old; d_rst] ->
  cache_fits sigs0 st ->
  exists st', blast_dff_en_rst c0 c1 g st = Ok (tt, st')
              /\ cache_fits sigs0 st'.
Proof.
  intros Hin [Lo Wo] Hf Hd HC. unfold blast_dff_en_rst.
  rewrite Hin.
  rewrite (bind_eq _ _ _ (d_en, q_old, en, d_rst, rst, clk) st)
    by reflexivity.
  cbv beta iota zeta.
  assert (Hw : 0 <= width (output g)) by lia.
  apply Forall_cons in Hf as [[L1 _] Hf].
  apply Forall_cons in Hf as [[L2 _] Hf].
  apply Forall_cons in Hf as [Fen Hf].
  apply Forall_cons in Hf as [[L4 _] Hf].
  apply Forall_cons in Hf as [Frst Hf].
  apply Forall_cons in Hf as [Fclk _].
  apply Forall_cons in Hd as [D1 Hd].
  apply Forall_cons in Hd as [D2 Hd].
  apply Forall_cons in Hd as [D3 _].
  destruct (get_operand_bits_total c0 c1 d_en _ st HC L1 D1 Hw)
    as (d_en_bits & st1 & E1 & C1 & N1).
  rewrite (bind_eq _ _ _ _ _ E1).
  destruct (get_operand_bits_total c0 c1 d_rst _ st1 C1 L4 D3 Hw)
    as (d_rst_bits & st2 & E2 & C2 & N2).
  rewrite (bind_eq _ _ _ _ _ E2).
  destruct (get_operand_bits_total c0 c1 q_old _ st2 C2 L2 D2 Hw)
    as (q_old_bits & st3 & E3 & C3 & N3).
  rewrite (bind_eq _ _ _ _ _ E3).
  destruct (get_bits_total (output g) st3 C3 Lo)
    as (q_bits & st4 & E4 & C4 & N4).
  rewrite (bind_eq _ _ _ _ _ E4).
  destruct (first_bit_total en st4 Fen C4)
    as (en_bits & en_b & st5 & E5 & H5 & C5 & _).
  rewrite (bind_eq _ _ _ _ _ E5).
  rewrite (bind_eq _ _ _ _ _ (index_eq _ _ st5 _ H5)).
  destruct (first_bit_total rst st5 Frst C5)
    as (rst_bits & rst_b & st6 & E6 & H6 & C6 & _).
  rewrite (bind_eq _ _ _ _ _ E6).
  rewrite (bind_eq _ _ _ _ _ (index_eq _ _ st6 _ H6)).
  destruct (first_bit_total clk st6 Fclk C6)
    as (clk_bits & clk_b & st7 & E7 & H7 & C7 & _).
  rewrite (bind_eq _ _ _ _ _ E7).
  rewrite (bind_eq _ _ _ _ _ (index_eq _ _ st7 _ H7)).
  unfold dff_loop, forM.
  match goal with
  | |- context [foldM ?body ?l tt st7] =>
      destruct (loop_total body l tt st7) as ([] & st8 & E8 & C8);
        [| |exact C7|eauto]
  end.
  - intros _ i st' Hi.
    destruct (in_range_lookup d_en_bits _ i Hw N1 Hi) as (x & Hx).
    destruct (in_range_lookup q_old_bits _ i Hw N3 Hi) as (y & Hy).
    destruct (in_range_lookup d_rst_bits _ i Hw N2 Hi) as (r & Hr).
    destruct (in_range_lookup q_bits _ i Hw N4 Hi) as (q & Hq).
    destruct (network_facts.dff_step_run en_b rst_b clk_b d_en_bits
                d_rst_bits q_old_bits q_bits i x y r q st' Hx Hy Hr Hq)
      as (? & ? & st9 & E & _).
    eauto.
  - intros C _ i. apply dff_step_cache.
Qed.

Lemma blast_not_buf_total op g inp rest st :
  inputs g = inp :: rest ->
  fit sigs0 (output g) -> fit sigs0 inp ->
  cache_fits sigs0 st ->
  exists st', blast_not_buf c1 op g st = Ok (tt, st')
              /\ cache_fits sigs0 st'.
Proof.
  intros Hin Fo Fi HC. unfold blast_not_buf, NOT1, AND2.
  rewrite Hin.
  rewrite (bind_eq _ _ _ inp st) by reflexivity.
  cbv beta iota zeta.
  destruct (first_bit_total inp st Fi HC)
    as (ib & i0 & st1 & E1 & H1 & C1 & _).
  destruct (first_bit_total (output g) st1 Fo C1)
    as (ob & o0 & st2 & E2 & H2 & C2 & _).
  destruct (String.eqb op "NOT");
    rewrite (bind_eq _ _ _ _ _ E1);
    rewrite (bind_eq _ _ _ _ _ (index_eq _ _ st1 _ H1));
    rewrite (bind_eq _ _ _ _ _ E2);
    rewrite (bind_eq _ _ _ _ _ (index_eq _ _ st2 _ H2));
    eexists; (split; [reflexivity|exact C2]).
Qed.

Lemma blast_gate_total g st :
  blastable g = true ->
  Forall (fit sigs0) (output g :: inputs g) ->
  Forall (fun s => decodable s = true) (inputs g) ->
  cache_fits sigs0 st ->
  exists st', blast_gate c0 c1 g st = Ok (tt, st') /\ cache_fits sigs0 st'.
Proof.
  intros Hb Hf Hd HC. apply Forall_cons in Hf as [Fo Hf].
  unfold blast_gate. unfold blastable in Hb.
  destruct (in_list (op_type g) ["AND"; "OR"; "XOR"]) eqn:E1.
  { assert (Hn : length (inputs g) = 2%nat).
    { apply network_facts.in_list_In in E1. simpl in E1.
      destruct E1 as [E|[E|[E|[]]]]; rewrite <- E in Hb;
        apply Nat.eqb_eq; exact Hb. }
    destruct (inputs g) as [|a [|b [|]]] eqn:Hin; try discriminate.
    apply Forall_cons in Hf as [Fa Hf]. apply Forall_cons in Hf as [Fb _].
    apply Forall_cons in Hd as [Da Hd]. apply Forall_cons in Hd as [Db _].
    exact (blast_bitwise_total _ g a b st Hin Fo Fa Fb Da Db HC). }
  destruct (String.eqb_spec (op_type g) "EQ") as [E2|E2].
  { assert (Hn : length (inputs g) = 2%nat).
    { rewrite E2 in Hb. apply Nat.eqb_eq. exact Hb. }
    destruct (inputs g) as [|a [|b [|]]] eqn:Hin; try discriminate.
    apply Forall_cons in Hf as [Fa Hf]. apply Forall_cons in Hf as [Fb _].
    apply Forall_cons in Hd as [Da Hd]. apply Forall_cons in Hd as [Db _].
    exact (blast_eq_total g a b st Hin Fo Fa Fb Da Db HC). }
  destruct (String.eqb_spec (op_type g) "MUX") as [E3|E3].
  { assert (Hn : length (inputs g) = 3%nat).
    { rewrite E3 in Hb. apply Nat.eqb_eq. exact Hb. }
    destruct (inputs g) as [|a [|b [|c [|]]]] eqn:Hin; try discriminate.
    apply Forall_cons in Hf as [Fa Hf]. apply Forall_cons in Hf as [Fb Hf].
    apply Forall_cons in Hf as [Fc _].
    apply Forall_cons in Hd as [Da Hd]. apply Forall_cons in Hd as [Db Hd].
    apply Forall_cons in Hd as [Dc _].
    exact (blast_mux_total g a b c st Hin Fo Fa Fb Fc Db Dc HC). }
  destruct (String.eqb_spec (op_type g) "ADD") as [E4|E4].
  { assert (Hn : length (inputs g) = 2%nat).
    { rewrite E4 in Hb. apply Nat.eqb_eq. exact Hb. }
    destruct (inputs g) as [|a [|b [|]]] eqn:Hin; try discriminate.
    apply Forall_cons in Hf as [Fa Hf]. apply Forall_cons in Hf as [Fb _].
    apply Forall_cons in Hd as [Da Hd]. apply Forall_cons in Hd as [Db _].
    exact (blast_add_total g a b st Hin Fo Fa Fb Da Db HC). }
  destruct (String.eqb_spec (op_type g) "DFF_EN_RST") as [E5|E5].
  { assert (Hn : length (inputs g) = 6%nat).
    { rewrite E5 in Hb. apply Nat.eqb_eq. exact Hb. }
    destruct (inputs g) as [|a [|b [|c [|d [|e [|f [|]]]]]]] eqn:Hin;
      try discriminate.
    refine (blast_dff_total g a b c d e f st Hin Fo Hf _ HC).
    apply Forall_cons in Hd as [Da Hd]. apply Forall_cons in Hd as [Db Hd].
    apply Forall_cons in Hd as [_ Hd]. apply Forall_cons in Hd as [Dd _].
    repeat constructor; assumption. }
  assert (E0 : in_list (op_type g) ["AND"; "OR"; "XOR"; "EQ"; "ADD"] = false).
  { unfold in_list in *. cbn [existsb] in *.
    apply orb_false_elim in E1 as [A1 E1].
    apply orb_false_elim in E1 as [A2 E1].
    apply orb_false_elim in E1 as [A3 _].
    rewrite A1, A2, A3.
    destruct (String.eqb_spec (op_type g) "EQ"); [contradiction|].
    destruct (String.eqb_spec (op_type g) "ADD"); [contradiction|].
    reflexivity. }
  rewrite E0 in Hb.
  destruct (String.eqb_spec (op_type g) "MUX"); [contradiction|].
  destruct (String.eqb_spec (op_type g) "DFF_EN_RST"); [contradiction|].
  destruct (in_list (op_type g) ["NOT"; "BUF"]); [|discriminate].
  apply Nat.leb_le in Hb.
  destruct (inputs g) as [|inp rest] eqn:Hin; [simpl in Hb; lia|].
  apply Forall_cons in Hf as [Fi _].
  exact (blast_not_buf_total _ g inp rest st Hin Fo Fi HC).
Qed.

End branches.

End dictionary.



(** A Signal of a new name joins the dictionary without disturbing the
    others. *)
Lemma store_new c l :
  netlist.lookup (name c) l = None ->
  netlist.lookup (name c) (netlist.store c l) = Some c
  /\ (forall s,
        netlist.lookup (name s) l = Some s ->
        netlist.lookup (name s) (netlist.store c l) = Some s)
  /\ (forall s, In s (netlist.store c l) -> s = c \/ In s l).
Proof.
  intros Hc. split; [apply dict_facts.lookup_store_hit|]. split.
  - intros s Hs. rewrite dict_facts.lookup_store_other; [exact Hs|].
    intros E. rewrite E, Hc in Hs. discriminate.
  - intros s Hs. rewrite (bitblast_facts.store_fresh c l Hc) in Hs.
    apply in_app_or in Hs as [Hs|[<-|[]]]; auto.
Qed.

Lemma ensure_const_total n st :
  Forall (fun s => netlist.lookup (name s) (sigs st) = Some s) (sigs st) ->
  exists s st',
    ensure_const n st = Ok (s, st')
    /\ bits_map st' = bits_map st
    /\ Forall (fun s => netlist.lookup (name s) (sigs st') = Some s)
         (sigs st')
    /\ (forall x,
          netlist.lookup (name x) (sigs st) = Some x ->
          netlist.lookup (name x) (sigs st') = Some x).
Proof.
  intros HD. unfold ensure_const, mod_get_signal, mod_add_signal.
  rewrite (bind_eq _ _ _ (netlist.lookup n (sigs st)) st) by reflexivity.
  destruct (netlist.lookup n (sigs st)) as [s|] eqn:E.
  - exists s, st. auto.
  - eexists. eexists. split; [reflexivity|]. cbn [bits_map sigs].
    split; [reflexivity|].
    destruct (store_new (mkSignal n 1 false false false) (sigs st) E)
      as (Hc & Hold & Hin).
    split; [|exact Hold].
    apply List.Forall_forall. intros x Hx.
    destruct (Hin x Hx) as [->|Hx']; [exact Hc|].
    apply Hold. rewrite List.Forall_forall in HD. exact (HD x Hx').
Qed.

Lemma pass_total m :
  blast_ready m ->
  exists st', pass m (mkState (signals m) ∅ 0%nat []) = Ok (tt, st').
Proof.
  intros [HD HG]. unfold pass.
  destruct (ensure_const_total "CONST0" (mkState (signals m) ∅ 0%nat []) HD)
    as (c0 & st1 & E1 & B1 & D1 & K1).
  rewrite (bind_eq _ _ _ _ _ E1).
  destruct (ensure_const_total "CONST1" st1 D1)
    as (c1 & st2 & E2 & B2 & D2 & K2).
  rewrite (bind_eq _ _ _ _ _ E2).
  unfold mod_signals_values.
  rewrite (bind_eq _ _ _ (sigs st2) st2) by reflexivity.
  set (sigs0 := sigs st2).
  assert (C2 : cache_fits sigs0 st2).
  { intros n bits s Hn. rewrite B2, B1 in Hn. cbn [bits_map] in Hn.
    rewrite lookup_empty in Hn. discriminate. }
  unfold forM.
  destruct (foldM_total (cache_fits sigs0)
              (fun (_ : unit) s => let* _ := get_bits s in ret tt)
              sigs0) with (b := tt) (st := st2) as ([] & st3 & E3 & C3);
    [|exact C2|].
  { intros _ s st Hs HC. rewrite List.Forall_forall in D2.
    destruct (get_bits_total sigs0 s st HC (D2 s Hs))
      as (l & st' & E & C & _).
    rewrite (bind_eq _ _ _ _ _ E). eexists. eexists.
    split; [reflexivity|exact C]. }
  rewrite (bind_eq _ _ _ _ _ E3).
  destruct (foldM_total (cache_fits sigs0)
              (fun (_ : unit) g => blast_gate c0 c1 g) (gates m))
    with (b := tt) (st := st3) as ([] & st4 & E4 & C4); [|exact C3|eauto].
  intros _ g st Hg HC. rewrite List.Forall_forall in HG.
  destruct (HG g Hg) as (Hb & Hf & Hd).
  destruct (blast_gate_total sigs0 c0 c1 g st Hb) as (st' & E & C);
    [|exact Hd|exact HC|eauto].
  eapply List.Forall_impl; [|exact Hf].
  intros s [Ls Ws]. split; [|exact Ws].
  apply K2. apply K1. exact Ls.
Qed.

End total_facts.

(** X28: Bit-Blasting returns on every module in which each Signal of the
    dictionary is stored under its own name and each gate has a tag and an
    input count that the pass has a branch for, operands that are Signals
    of the dictionary with at least one bit, and inputs whose names, when
    they start with [CONST_], carry a literal that can be decoded. *)
Theorem bitblast_returns_on_ready_modules m :
  blast_ready m -> exists m', stage_bitblast.run m = Ok m'.
Proof.
  intros H. destruct (total_facts.pass_total m H) as (st' & E).
  unfold stage_bitblast.run. rewrite E. eauto.
Qed.

Lemma bitblast_returns_on_ready_modules_adder2 :
  exists m', stage_bitblast.run adder2 = Ok m'.
Proof.
  apply (bitblast_returns_on_ready_modules adder2).
  split.
  - repeat constructor.
  - repeat constructor; try (vm_compute; intros ?; discriminate).
Defined.

(** ** Elaboration: the Signals of the result *)

Module form_facts.
Import stage_elaboration elaboration_facts.

Lemma int_of_digits_nonneg c r v :
  Py.is_digit c = true -> Py.int_of 10 (String c r) = Some v -> 0 <= v.
Proof.
  intros Hc. 
  assert (Hl : Py.lstrip (String c r) = String c r).
  { destruct c as [[] [] [] [] [] [] [] []]; try discriminate; reflexivity. }
  unfold Py.int_of. rewrite Hl.
  destruct c as [[] [] [] [] [] [] [] []]; try discriminate;
    cbv beta iota zeta;
    repeat match goal with
           | |- context [match ?x with _ => _ end] => destruct x
           end; intros H; try discriminate; injection H as <-; lia.
Qed.

Lemma span_head p s c r t :
  Py.span p s = (String c r, t) -> p c = true.
Proof.
  destruct s as [|x s]; simpl; [discriminate|].
  destruct (p x) eqn:E; [|discriminate].
  destruct (Py.span p s). intros H. injection H as <- _ _. exact E.
Qed.

Lemma decl_width_nonneg value d :
  _intconst_decl_width value = Some d -> 0 <= d.
Proof.
  unfold _intconst_decl_width.
  destruct (Py.span Py.is_digit (Py.lstrip value)) as [w t] eqn:E.
  destruct w as [|c r]; [discriminate|].
  apply span_head in E.
  destruct (Py.lstrip t) as [|q [|b rest]]; try discriminate.
  { destruct q as [[] [] [] [] [] [] [] []]; discriminate. }
  destruct q as [[] [] [] [] [] [] [] []]; try discriminate.
  destruct (Py.is_one_of b "bBdDhHoO" && dot_star_end rest); [|discriminate].
  apply int_of_digits_nonneg. exact E.
Qed.

Lemma or_else_ge1 x y :
  (forall v, x = Some v -> 0 <= v) -> 1 <= y -> 1 <= or_else x y.
Proof.
  intros Hx Hy. unfold or_else. destruct x as [v|]; [|exact Hy].
  destruct (v =? 0) eqn:E; [exact Hy|].
  apply Z.eqb_neq in E. specialize (Hx v eq_refl). lia.
Qed.

Lemma parse_width_ge1 node w : _parse_width node = Ok w -> 1 <= w.
Proof.
  unfold _parse_width, attr_value, int_or_raise.
  destruct node as [[msb lsb]|]; [|intros H; injection H as <-; lia].
  destruct msb; try discriminate.
  destruct (Py.int_of 0 value); [|discriminate].
  destruct lsb; try discriminate.
  destruct (Py.int_of 0 value0); [|discriminate].
  intros H. injection H as <-. lia.
Qed.

Lemma Forall_store (Q : Signal -> Prop) c l :
  Forall Q l -> Q c -> Forall Q (netlist.store c l).
Proof.
  intros Hl Hc. induction l as [|x l IH]; simpl.
  - constructor; [exact Hc|constructor].
  - apply Forall_cons in Hl as [Hx Hl].
    destruct (String.eqb (name x) (name c)).
    + constructor; assumption.
    + constructor; [exact Hx|exact (IH Hl)].
Qed.

(** Unique names are kept. *)
Lemma lookup_none_names n l :
  netlist.lookup n l = None -> ~ In n (map name l).
Proof.
  induction l as [|x l IH]; simpl; [tauto|].
  destruct (String.eqb_spec (name x) n); [discriminate|].
  intros H [E|Hin]; [contradiction|exact (IH H Hin)].
Qed.

Lemma store_unique c l :
  NoDup (map name l) -> NoDup (map name (netlist.store c l)).
Proof.
  intros H. rewrite dict_facts.store_names.
  destruct (netlist.lookup (name c) l) eqn:E; [exact H|].
  apply NoDup_app. split; [exact H|]. split.
  - intros x Hx Hc. apply list_elem_of_In in Hx, Hc.
    destruct Hc as [<-|[]].
    exact (lookup_none_names _ _ E Hx).
  - apply NoDup_singleton.
Qed.

Lemma unique_lookup l :
  NoDup (map name l) ->
  Forall (fun s => netlist.lookup (name s) l = Some s) l.
Proof.
  induction l as [|x l IH]; intros H; [constructor|].
  simpl in H. apply NoDup_cons in H as [Hx H].
  constructor.
  - simpl. rewrite String.eqb_refl. reflexivity.
  - specialize (IH H). rewrite List.Forall_forall in IH.
    apply List.Forall_forall. intros s Hs. simpl.
    destruct (String.eqb_spec (name x) (name s)) as [E|E].
    + exfalso. apply Hx. rewrite E. apply list_elem_of_In.
      apply in_map. exact Hs.
    + exact (IH s Hs).
Qed.

(** *** Widths and names through every step *)

Section named.
Variable P : string -> Prop.
Hypothesis P_const : forall v w i,
  P ("CONST_" +:+ Py.str_Z v +:+ "_" +:+ Py.str_Z w +:+ "b_" +:+ Py.str_Z i).
Hypothesis P_tmp : forall op n,
  In op ["ADD"; "EQ"; "AND"; "OR"] ->
  P ("tmp_" +:+ op +:+ "_" +:+ Py.str_nat n).
Hypothesis P_mux : forall t n,
  P t -> P ("mux_" +:+ t +:+ "_" +:+ Py.str_nat n).

Lemma goc_formed n w ai ao ar :
  1 <= w -> P n ->
  preserves (formed P) (_get_or_create_signal n w ai ao ar).
Proof.
  intros Hw Hn m a m' HI H.
  rewrite signal_facts.get_or_create_spec in H. injection H as _ <-.
  unfold formed in *. cbn [esignals]. apply Forall_store; [exact HI|].
  unfold merged.
  destruct (netlist.lookup n (esignals m)) as [s|] eqn:E; cbn [width name].
  - split; [|exact Hn]. unfold width_after_request.
    destruct (width s =? 1); [exact Hw|].
    apply wiring_facts.lookup_In in E. rewrite List.Forall_forall in HI.
    exact (proj1 (HI s E)).
  - split; assumption.
Qed.

Lemma attr_width_formed r m w m' :
  formed P m -> attr_width r m = Ok (w, m') -> formed P m' /\ 1 <= w.
Proof.
  intros HI H. unfold attr_width in H. destruct r as [n|]; [|discriminate].
  destruct (netlist.lookup n (esignals m)) as [s|] eqn:E; [|discriminate].
  injection H as <- <-. split; [exact HI|].
  apply wiring_facts.lookup_In in E. unfold formed in HI.
  rewrite List.Forall_forall in HI. exact (proj1 (HI s E)).
Qed.

Lemma set_width_formed n w :
  1 <= w -> preserves (formed P) (set_width n w).
Proof.
  intros Hw m a m' HI H. unfold set_width in H.
  destruct (netlist.lookup n (esignals m)) as [s|] eqn:E; [|discriminate].
  injection H as _ <-. unfold formed in *. cbn [esignals].
  apply Forall_store; [exact HI|]. cbn [width name]. split; [exact Hw|].
  apply wiring_facts.lookup_In in E. rewrite List.Forall_forall in HI.
  exact (proj2 (HI s E)).
Qed.

Lemma add_gate_formed g : preserves (formed P) (add_gate g).
Proof. intros m a m' HI H. injection H as _ <-. exact HI. Qed.

Lemma add_gates_formed gs : preserves (formed P) (add_gates gs).
Proof. unfold add_gates. apply preserves_forM. exact add_gate_formed. Qed.

Lemma same_state_formed {A} (c : E A) :
  (forall m a m', c m = Ok (a, m') -> m' = m) -> preserves (formed P) c.
Proof. intros Hc m a m' HI H. rewrite (Hc m a m' H). exact HI. Qed.

Lemma len_gates_formed : preserves (formed P) len_gates.
Proof.
  apply same_state_formed. intros m0 x m1 H. injection H as _ <-.
  reflexivity.
Qed.

Lemma get_signal_formed n : preserves (formed P) (get_signal n).
Proof.
  apply same_state_formed. intros m0 x m1 H. injection H as _ <-.
  reflexivity.
Qed.

Lemma attr_name_kept e : preserves (formed P) (attr_name e).
Proof.
  apply same_state_formed. intros m0 x m1 H.
  apply register_facts.attr_name_ok in H as [_ ->]. reflexivity.
Qed.

Lemma binary_formed op l r ew :
  In op ["ADD"; "EQ"; "AND"; "OR"] ->
  (forall ew', (forall w, ew' = Some w -> 1 <= w) ->
     preserves (formed P) (l ew')) ->
  (forall ew', (forall w, ew' = Some w -> 1 <= w) ->
     preserves (formed P) (r ew')) ->
  (forall w, ew = Some w -> 1 <= w) ->
  preserves (formed P) (binary_op op l r ew).
Proof.
  intros Hop Hl Hr Hew. unfold binary_op. cbv zeta.
  assert (Hreq : forall w,
             (if String.eqb op "ADD" then ew else None) = Some w -> 1 <= w).
  { destruct (String.eqb op "ADD"); [exact Hew|discriminate]. }
  apply preserves_bind; [apply Hl; exact Hreq|intros [a ag]].
  apply preserves_bind; [apply Hr; exact Hreq|intros [b bg]].
  apply (preserves_bind_with _ (fun w => 1 <= w)).
  - intros st w st' HI H.
    destruct (in_list op ["EQ"; "AND"; "OR"]).
    + injection H as <- <-. split; [exact HI|lia].
    + apply bind_ok in H as (wa & st1 & Ha & H).
      apply bind_ok in H as (wb & st2 & Hb & H).
      destruct (attr_width_formed _ _ _ _ HI Ha) as (I1 & Wa).
      destruct (attr_width_formed _ _ _ _ I1 Hb) as (I2 & Wb).
      injection H as <- <-. split; [exact I2|].
      apply or_else_ge1; [|lia]. intros v Hv. specialize (Hew v Hv). lia.
  - intros out_w Hw.
    apply preserves_bind; [apply len_gates_formed|intros n].
    apply preserves_bind; [|intros tmp; apply preserves_ret].
    apply goc_formed; [exact Hw|apply P_tmp; exact Hop].
Qed.

Lemma expr_formed e : forall ew,
  (forall w, ew = Some w -> 1 <= w) ->
  Forall P (expr_idents e) ->
  preserves (formed P) (_expr_to_signal_and_gates e ew).
Proof.
  induction e as [n|value node_id|l IHl r IHr|l IHl r IHr|l IHl r IHr
                  |l IHl r IHr|cls];
    intros ew Hew Hid; cbn [_expr_to_signal_and_gates];
    try (cbn [expr_idents] in Hid; apply Forall_app in Hid as [Hil Hir];
         apply binary_formed;
         [simpl; auto
         |intros ew' Hew'; apply IHl; assumption
         |intros ew' Hew'; apply IHr; assumption
         |exact Hew]).
  - apply Forall_cons in Hid as [Hn _].
    apply preserves_bind; [apply goc_formed; [lia|exact Hn]|intros s].
    apply (preserves_bind_with _ (fun w => 1 <= w)).
    + intros st a st' HI H. exact (attr_width_formed _ _ _ _ HI H).
    + intros w Hw. apply preserves_bind; [|intros u; apply preserves_ret].
      destruct ew as [x|]; [|apply preserves_ret].
      destruct ((w =? 1) && negb (x =? 1)); [|apply preserves_ret].
      apply set_width_formed. apply Hew. reflexivity.
  - apply preserves_bind; [apply preserves_lift|intros val]. cbv zeta.
    apply preserves_bind; [|intros s; apply preserves_ret].
    apply goc_formed; [|apply P_const].
    apply or_else_ge1; [apply decl_width_nonneg|].
    apply or_else_ge1; [|lia]. intros v Hv. specialize (Hew v Hv). lia.
  - apply preserves_raise.
Qed.

Lemma unwrapped_idents s b :
  unwrapped s = Some b -> Forall P (stmt_idents s) ->
  Forall P (stmt_idents b).
Proof.
  destruct s as [[|x l]| | | |]; simpl; intros H; inversion H; subst; auto.
  intros Hs. apply Forall_app in Hs as [Hx _]. exact Hx.
Qed.

Lemma assignment_idents s l r :
  assignment s = Some (l, r) -> Forall P (stmt_idents s) ->
  Forall P (expr_idents l) /\ Forall P (expr_idents r).
Proof.
  destruct s; simpl; intros H; inversion H; subst;
    intros Hs; apply Forall_app in Hs; exact Hs.
Qed.

Lemma build_mux_tree_formed target :
  P target ->
  forall s, Forall P (stmt_idents s) ->
    preserves (formed P) (_build_mux_tree s target).
Proof.
  intros Pt. fix IH 1. intros s Hs.
  destruct s as [stmts|cond ts fs|lhs rhs|lhs rhs|cls].
  - destruct stmts as [|first rest]; cbn [_build_mux_tree];
      [apply preserves_ret|].
    apply IH. cbn [stmt_idents flat_map] in Hs.
    apply Forall_app in Hs as [Hf _]. exact Hf.
  - cbn [_build_mux_tree]. cbn [stmt_idents] in Hs.
    apply Forall_app in Hs as [Hc Hs]. apply Forall_app in Hs as [Ht Hf].
    apply preserves_bind;
      [apply expr_formed; [discriminate|exact Hc]|intros [c cg]].
    apply preserves_bind; [apply IH; exact Ht|intros [t tg]].
    apply preserves_bind.
    { destruct fs as [fs|]; [apply IH; exact Hf|]. clear IH.
      apply preserves_bind; [|intros x; apply preserves_ret].
      apply get_signal_formed. }
    clear IH. intros [f fg].
    destruct t as [t|]; [|apply preserves_ret].
    destruct f as [f|]; [|apply preserves_ret].
    apply preserves_bind; [apply len_gates_formed|intros n].
    apply (preserves_bind_with _ (fun w => 1 <= w)).
    + intros st a st' HI H. exact (attr_width_formed _ _ _ _ HI H).
    + intros tw Hw.
      apply preserves_bind; [|intros x; apply preserves_ret].
      apply goc_formed; [exact Hw|apply P_mux; exact Pt].
  - clear IH. cbn [_build_mux_tree]. cbn [stmt_idents] in Hs.
    apply Forall_app in Hs as [_ Hr].
    apply preserves_bind; [apply attr_name_kept|intros lname].
    destruct (negb (String.eqb lname target)); [apply preserves_ret|].
    apply preserves_bind; [apply get_signal_formed|intros tsig].
    apply (preserves_bind_with _ (fun w => 1 <= w)).
    + intros st a st' HI H. exact (attr_width_formed _ _ _ _ HI H).
    + intros tw Hw.
      apply preserves_bind; [|intros [x g]; apply preserves_ret].
      apply expr_formed; [|exact Hr]. intros w Hw'. injection Hw' as <-.
      exact Hw.
  - clear IH. cbn [_build_mux_tree]. cbn [stmt_idents] in Hs.
    apply Forall_app in Hs as [_ Hr].
    apply preserves_bind; [apply attr_name_kept|intros lname].
    destruct (negb (String.eqb lname target)); [apply preserves_ret|].
    apply preserves_bind; [apply get_signal_formed|intros tsig].
    apply (preserves_bind_with _ (fun w => 1 <= w)).
    + intros st a st' HI H. exact (attr_width_formed _ _ _ _ HI H).
    + intros tw Hw.
      apply preserves_bind; [|intros [x g]; apply preserves_ret].
      apply expr_formed; [|exact Hr]. intros w Hw'. injection Hw' as <-.
      exact Hw.
  - clear IH. cbn [_build_mux_tree]. apply preserves_ret.
Qed.

Lemma unwrap_block_formed s :
  Forall P (stmt_idents s) ->
  forall m b m',
    formed P m -> unwrap_block s m = Ok (b, m') ->
    formed P m' /\ Forall P (stmt_idents b).
Proof.
  intros Hs m b m' HI H.
  apply register_facts.unwrap_block_ok in H as [Hb ->].
  split; [exact HI|exact (unwrapped_idents _ _ Hb Hs)].
Qed.

Lemma clocked_process_formed sens_list statement :
  Forall P (item_idents (Always sens_list statement)) ->
  preserves (formed P) (clocked_process sens_list statement).
Proof.
  intros Hid. cbn [item_idents] in Hid.
  apply Forall_app in Hid as [Hsens Hst].
  unfold clocked_process.
  apply (preserves_bind_with _ (fun f => In f sens_list)).
  { intros m f m' HI H. apply index_ok in H as [Hf ->].
    split; [exact HI|]. apply list_elem_of_In.
    exact (list_elem_of_lookup_2 _ _ _ Hf). }
  intros first Hfirst.
  apply (preserves_bind_with _ P).
  { intros m n m' HI H.
    destruct (sens_sig first) as [sg|] eqn:Esg; [|discriminate].
    apply register_facts.attr_name_ok in H as [-> ->].
    split; [exact HI|]. rewrite List.Forall_forall in Hsens.
    apply Hsens. apply in_flat_map. exists first. split; [exact Hfirst|].
    rewrite Esg. simpl. auto. }
  intros clk Pclk.
  apply preserves_bind; [apply goc_formed; [lia|exact Pclk]|intros clk_sig].
  apply (preserves_bind_with _ (fun b => Forall P (stmt_idents b)));
    [exact (unwrap_block_formed _ Hst)|].
  intros body Hbody.
  destruct body as [|cond then_stmt else_stmt| | |];
    try apply preserves_ret.
  cbn [stmt_idents] in Hbody.
  apply Forall_app in Hbody as [Hc Hbody].
  apply Forall_app in Hbody as [Ht He].
  apply (preserves_bind_with _ P).
  { intros m n m' HI H.
    apply register_facts.attr_name_ok in H as [-> ->].
    split; [exact HI|]. apply Forall_cons in Hc as [Hc _]. exact Hc. }
  intros rst Prst.
  apply preserves_bind; [apply goc_formed; [lia|exact Prst]|intros rst_sig].
  apply (preserves_bind_with _ (fun b => Forall P (stmt_idents b)));
    [exact (unwrap_block_formed _ Ht)|].
  intros rst_stmt Hrs.
  apply (preserves_bind_with _ P).
  { intros m n m' HI H.
    apply register_facts.stmt_left_name_ok in H as [[rhs Ha] ->].
    split; [exact HI|].
    destruct (assignment_idents _ _ _ Ha Hrs) as [Hl _].
    apply Forall_cons in Hl as [Hl _]. exact Hl. }
  intros target Ptarget.
  apply preserves_bind;
    [apply goc_formed; [lia|exact Ptarget]|intros target_sig].
  apply (preserves_bind_with _ (fun e => Forall P (expr_idents e))).
  { intros m e m' HI H.
    apply register_facts.stmt_right_ok in H as [[lhs Ha] ->].
    split; [exact HI|].
    exact (proj2 (assignment_idents _ _ _ Ha Hrs)). }
  intros rst_rhs Hrr.
  apply (preserves_bind_with _ (fun w => 1 <= w)).
  { intros st a st' HI H. exact (attr_width_formed _ _ _ _ HI H). }
  intros tw Htw.
  apply preserves_bind.
  { apply expr_formed; [|exact Hrr]. intros w Hw. injection Hw as <-.
    exact Htw. }
  intros [rv g_rst].
  apply preserves_bind; [apply add_gates_formed|intros _].
  destruct else_stmt as [[|en_cond en_then en_else| | |]|];
    try apply preserves_ret.
  cbn [stmt_idents] in He.
  apply Forall_app in He as [Hec He]. apply Forall_app in He as [Het _].
  apply (preserves_bind_with _ P).
  { intros m n m' HI H.
    apply register_facts.attr_name_ok in H as [-> ->].
    split; [exact HI|]. apply Forall_cons in Hec as [Hec _]. exact Hec. }
  intros en Pen.
  apply preserves_bind; [apply goc_formed; [lia|exact Pen]|intros en_sig].
  apply (preserves_bind_with _ (fun b => Forall P (stmt_idents b)));
    [exact (unwrap_block_formed _ Het)|].
  intros next_stmt Hns.
  apply (preserves_bind_with _ (fun e => Forall P (expr_idents e))).
  { intros m e m' HI H.
    apply register_facts.stmt_right_ok in H as [[lhs Ha] ->].
    split; [exact HI|].
    exact (proj2 (assignment_idents _ _ _ Ha Hns)). }
  intros next_rhs Hnr.
  apply (preserves_bind_with _ (fun w => 1 <= w)).
  { intros st a st' HI H. exact (attr_width_formed _ _ _ _ HI H). }
  intros tw2 Htw2.
  apply preserves_bind.
  { apply expr_formed; [|exact Hnr]. intros w Hw. injection Hw as <-.
    exact Htw2. }
  intros [nv g_next].
  apply preserves_bind; [apply add_gates_formed|intros _].
  apply add_gate_formed.
Qed.

Lemma combinational_process_formed statement :
  Forall P (stmt_idents statement) ->
  preserves (formed P) (combinational_process statement).
Proof.
  intros Hst. unfold combinational_process.
  apply (preserves_bind_with _ (fun ts => Forall P ts)).
  { intros m ts m' HI H. injection H as <- <-. split; [exact HI|].
    apply List.Forall_forall. intros t Ht.
    apply in_map_iff in Ht as (s & <- & Hs).
    apply filter_In in Hs as [Hs _]. unfold formed in HI.
    rewrite List.Forall_forall in HI. exact (proj2 (HI s Hs)). }
  intros targets Hts. apply selector_facts.preserves_forM_in.
  intros target Hin. rewrite List.Forall_forall in Hts.
  apply preserves_bind;
    [apply build_mux_tree_formed; [exact (Hts _ Hin)|exact Hst]
    |intros [final gs]].
  destruct final; [|apply preserves_ret].
  apply preserves_bind; [apply add_gates_formed|intros _].
  apply add_gate_formed.
Qed.

Lemma process_item_formed it :
  Forall P (item_idents it) -> preserves (formed P) (process_item it).
Proof.
  destruct it as [sens statement|cls]; intros Hid; cbn [process_item];
    [|apply preserves_ret].
  destruct (is_clocked sens); [exact (clocked_process_formed _ _ Hid)|].
  cbn [item_idents] in Hid. apply Forall_app in Hid as [_ Hst].
  exact (combinational_process_formed _ Hst).
Qed.

Lemma declare_port_formed p :
  Forall P (port_names [p]) -> preserves (formed P) (declare_port p).
Proof.
  intros Hp. destruct p as [dir pname pwidth r|pname]; cbn [declare_port];
    [|apply preserves_ret].
  apply (preserves_bind_with _ (fun w => 1 <= w)).
  { intros m w m' HI H. unfold lift in H.
    destruct (_parse_width pwidth) as [w0|] eqn:E; [|discriminate].
    injection H as <- <-. split; [exact HI|exact (parse_width_ge1 _ _ E)]. }
  intros w Hw.
  destruct dir; [| |apply preserves_ret];
    (apply preserves_bind; [|intros x; apply preserves_ret]);
    apply goc_formed; try exact Hw;
    apply Forall_cons in Hp as [Hp _]; exact Hp.
Qed.

Lemma run_formed definitions n ps its m :
  first_module definitions = Some (n, ps, its) ->
  Forall P (design_idents ps its) ->
  run definitions = Ok m -> formed P m.
Proof.
  intros Hfirst Hid. unfold run. rewrite Hfirst.
  destruct ((let* _ := forM ps declare_port in forM its process_item) _)
    as [[u m1]|e] eqn:E; [|discriminate].
  intros H. injection H as <-.
  unfold design_idents in Hid. apply Forall_app in Hid as [Hps Hits].
  rewrite List.Forall_forall in Hps, Hits.
  revert E. apply (preserves_bind (formed P)); [| |constructor].
  - apply selector_facts.preserves_forM_in. intros p Hp.
    apply declare_port_formed. apply List.Forall_forall. intros k Hk.
    apply Hps. unfold port_names in *. apply in_flat_map.
    exists p. split; [exact Hp|].
    simpl in Hk. rewrite app_nil_r in Hk. exact Hk.
  - intros _. apply selector_facts.preserves_forM_in. intros it Hit.
    apply process_item_formed. apply List.Forall_forall. intros k Hk.
    apply Hits. apply in_flat_map. exists it. auto.
Qed.

End named.

(** *** Names without a quote *)

Lemma str_N_plain v : Py.contains_char "'"%char (Py.str_N v) = false.
Proof.
  apply reader_facts.digits_without; [reflexivity|].
  apply literal_facts.str_N_digits.
Qed.

Lemma str_Z_plain v : Py.contains_char "'"%char (Py.str_Z v) = false.
Proof.
  unfold Py.str_Z. destruct (v <? 0); [|apply str_N_plain].
  rewrite reader_facts.contains_char_app, str_N_plain. reflexivity.
Qed.

Lemma plain_app a b : plain (a +:+ b) = plain a && plain b.
Proof.
  unfold plain. rewrite reader_facts.contains_char_app.
  apply negb_orb.
Qed.

Lemma plain_const v w i :
  plain ("CONST_" +:+ Py.str_Z v +:+ "_" +:+ Py.str_Z w +:+ "b_"
           +:+ Py.str_Z i) = true.
Proof.
  rewrite !plain_app. unfold plain at 2 4 6.
  rewrite !str_Z_plain. reflexivity.
Qed.

Lemma plain_tmp op n :
  In op ["ADD"; "EQ"; "AND"; "OR"] ->
  plain ("tmp_" +:+ op +:+ "_" +:+ Py.str_nat n) = true.
Proof.
  intros Hop. rewrite !plain_app. unfold plain at 4.
  unfold Py.str_nat. rewrite str_N_plain.
  simpl in Hop. destruct Hop as [<-|[<-|[<-|[<-|[]]]]]; reflexivity.
Qed.

Lemma plain_mux t n :
  plain t = true -> plain ("mux_" +:+ t +:+ "_" +:+ Py.str_nat n) = true.
Proof.
  intros Ht. rewrite !plain_app, Ht. unfold plain at 3.
  unfold Py.str_nat. rewrite str_N_plain. reflexivity.
Qed.

(** *** Names are kept apart *)

Lemma run_unique definitions m :
  run definitions = Ok m -> NoDup (map name (esignals m)).
Proof.
  unfold run. destruct (first_module definitions) as [[[n ps] its]|];
    [|discriminate].
  destruct ((let* _ := forM ps declare_port in forM its process_item) _)
    as [[u m1]|e] eqn:E; [|discriminate].
  intros H. injection H as <-.
  set (I := fun m : emod => NoDup (map name (esignals m))).
  assert (Hc : forall k w ai ao ar,
             preserves I (_get_or_create_signal k w ai ao ar)).
  { intros k w ai ao ar m0 a m2 HI H.
    rewrite signal_facts.get_or_create_spec in H. injection H as _ <-.
    unfold I in *. cbn [esignals]. apply store_unique. exact HI. }
  assert (Hi : forall k ew,
             preserves I (_expr_to_signal_and_gates (Identifier k) ew)).
  { intros k ew. cbn [_expr_to_signal_and_gates].
    apply preserves_bind; [apply Hc|intros s].
    apply preserves_bind; [apply store_facts.attr_width_inv|intros w].
    apply preserves_bind; [|intros x; apply preserves_ret].
    destruct ew as [x|]; [|apply preserves_ret].
    destruct ((w =? 1) && negb (x =? 1)); [|apply preserves_ret].
    intros m0 a m2 HI H. unfold set_width in H.
    destruct (netlist.lookup s (esignals m0)); [|discriminate].
    injection H as _ <-. unfold I in *. cbn [esignals].
    apply store_unique. exact HI. }
  assert (Hg : forall g, preserves I (add_gate g)).
  { intros g m0 a m2 HI H. injection H as _ <-. exact HI. }
  revert E. apply (preserves_bind I); [| |constructor].
  - apply preserves_forM. intros p.
    exact (store_facts.declare_port_inv I Hc p).
  - intros _. apply preserves_forM. intros it.
    exact (store_facts.process_item_inv I Hc Hi Hg it).
Qed.

End form_facts.

(** X29: the Signals of an elaborated module have pairwise different
    names and at least one bit each. When no port name and no identifier of
    the elaborated module definition contains a quote, no Signal name of
    the result contains one. *)
Theorem elaboration_result_is_well_formed definitions n ps its m :
  stage_elaboration.first_module definitions = Some (n, ps, its) ->
  stage_elaboration.run definitions = Ok m ->
  NoDup (map name (stage_elaboration.esignals m))
  /\ Forall (fun s => 1 <= width s) (stage_elaboration.esignals m)
  /\ (Forall (fun k => plain k = true) (design_idents ps its) ->
      Forall (fun s => plain (name s) = true)
        (stage_elaboration.esignals m)).
Proof.
  intros Hfirst H. split; [exact (form_facts.run_unique _ _ H)|]. split.
  - assert (F : formed (fun _ => True) m).
    { apply (form_facts.run_formed (fun _ => True)) with
        (definitions := definitions) (n := n) (ps := ps) (its := its);
        auto.
      apply List.Forall_forall. auto. }
    eapply List.Forall_impl; [|exact F]. intros s [Hw _]. exact Hw.
  - intros Hid.
    assert (F : formed (fun k => plain k = true) m).
    { apply (form_facts.run_formed (fun k => plain k = true)) with
        (definitions := definitions) (n := n) (ps := ps) (its := its);
        auto using form_facts.plain_const, form_facts.plain_tmp,
          form_facts.plain_mux. }
    eapply List.Forall_impl; [|exact F]. intros s [_ Hp]. exact Hp.
Qed.

Lemma elaboration_result_is_well_formed_accumulator :
  exists m,
    stage_elaboration.run accumulator = Ok m
    /\ NoDup (map name (stage_elaboration.esignals m))
    /\ Forall (fun s => 1 <= width s) (stage_elaboration.esignals m)
    /\ Forall (fun s => plain (name s) = true)
         (stage_elaboration.esignals m).
Proof.
  destruct (stage_elaboration.run accumulator) as [m|e] eqn:Hrun;
    [|vm_compute in Hrun; discriminate].
  destruct (elaboration_result_is_well_formed accumulator _ _ _ m eq_refl
              Hrun) as (Hn & Hw & Hp).
  exists m. split; [reflexivity|]. split; [exact Hn|]. split; [exact Hw|].
  apply Hp. apply (bool_decide_unpack _). vm_compute. reflexivity.
Defined.

(** ** From Elaboration through Bit-Blasting to Export *)

Module pipeline_facts.
Import stage_elaboration.

Lemma lstrip_absent x s :
  Py.contains_char x s = false -> Py.contains_char x (Py.lstrip s) = false.
Proof.
  induction s as [|c r IH]; simpl; [auto|].
  intros H. destruct (Py.is_space c); [|exact H].
  apply orb_false_elim in H as [_ H]. exact (IH H).
Qed.

Lemma rstrip_absent x s :
  Py.contains_char x s = false -> Py.contains_char x (Py.rstrip s) = false.
Proof.
  induction s as [|c r IH]; simpl; [auto|].
  intros H. apply orb_false_elim in H as [Hc H]. specialize (IH H).
  destruct (Py.rstrip r) as [|c' r'].
  - destruct (Py.is_space c); simpl; [reflexivity|].
    rewrite Hc. reflexivity.
  - change (Py.contains_char x (String c (String c' r')) = false).
    simpl in *. rewrite Hc. exact IH.
Qed.

Lemma span_absent p x s : forall w t,
  Py.span p s = (w, t) ->
  Py.contains_char x s = false -> Py.contains_char x t = false.
Proof.
  induction s as [|c r IH]; simpl; intros w t E H.
  - injection E as <- <-. reflexivity.
  - destruct (p c).
    + destruct (Py.span p r) as [h t0]. injection E as <- <-.
      apply orb_false_elim in H as [_ H]. exact (IH _ _ eq_refl H).
    + injection E as <- <-. exact H.
Qed.

Lemma split_first_absent x sep s :
  Py.contains_char x s = false ->
  Py.contains_char x (fst (Py.split_first sep s)) = false
  /\ forall r, snd (Py.split_first sep s) = Some r ->
       Py.contains_char x r = false.
Proof.
  induction s as [|c r IH]; simpl; intros H.
  - split; [reflexivity|discriminate].
  - apply orb_false_elim in H as [Hc H]. destruct (IH H) as [I1 I2].
    destruct (Py.ascii_eqb c sep).
    + split; [reflexivity|]. intros r0 E. injection E as <-. exact H.
    + destruct (Py.split_first sep r) as [h t]. simpl in *.
      rewrite Hc. auto.
Qed.

Lemma no_quote_no_match u :
  Py.contains_char "'"%char u = false ->
  stage_bitblast.const_re_match u = None.
Proof.
  intros H. unfold stage_bitblast.const_re_match.
  destruct (Py.span Py.is_digit (Py.lstrip u)) as [w s] eqn:E.
  pose proof (span_absent _ _ _ _ _ E (lstrip_absent _ _ H)) as Hs.
  apply lstrip_absent in Hs.
  destruct w as [|c0 w]; [reflexivity|].
  destruct (Py.lstrip s) as [|q r]; [reflexivity|].
  simpl in Hs. apply orb_false_elim in Hs as [Hq _].
  destruct q as [[] [] [] [] [] [] [] []]; try reflexivity.
  discriminate.
Qed.

Lemma plain_parses t h :
  Py.contains_char "'"%char t = false ->
  exists bits, stage_bitblast.parse_verilog_const t h = Ok bits.
Proof.
  intros H. unfold stage_bitblast.parse_verilog_const.
  rewrite no_quote_no_match; [eauto|].
  unfold Py.strip. apply rstrip_absent, lstrip_absent. exact H.
Qed.

Lemma plain_decodable s : plain (name s) = true -> decodable s = true.
Proof.
  unfold plain, decodable. intros H. apply negb_true_iff in H.
  destruct (String.prefix "CONST_" (name s)) eqn:Ep; [|reflexivity].
  cbn [negb orb].
  destruct (name s) as [|c1 [|c2 [|c3 [|c4 [|c5 [|c6 rest]]]]]];
    simpl in Ep;
    repeat match type of Ep with
           | (if ?d then _ else _) = true =>
               destruct d as [<-|]; [|discriminate]
           end;
    try discriminate.
  repeat match type of Ep with
         | (if ?d then _ else _) = true =>
             destruct d as [<-|]; [|discriminate]
         end.
  change (snd (Py.split_first "_"%char (String "C" (String "O" (String "N"
            (String "S" (String "T" (String "_" rest))))))))
    with (Some rest).
  destruct (split_first_absent "'"%char "_"%char _ H) as [_ H2].
  specialize (H2 rest eq_refl).
  destruct (split_first_absent "'"%char "_"%char rest H2) as [H3 _].
  destruct (plain_parses _ 1 H3) as (bits & ->). reflexivity.
Qed.

Lemma elaborated_blastable m r :
  elaborated_gate r = true ->
  blastable (mkGate (ref_op r) (map (deref m) (ref_inputs r))
               (deref m (ref_output r))) = true.
Proof.
  intros H. unfold elaborated_gate in H. unfold blastable.
  cbn [op_type inputs]. rewrite length_map.
  destruct (in_list (ref_op r) ["ADD"; "EQ"; "AND"; "OR"]) eqn:E1.
  { apply network_facts.in_list_In in E1. simpl in E1.
    destruct E1 as [<-|[<-|[<-|[<-|[]]]]]; exact H. }
  destruct (String.eqb_spec (ref_op r) "MUX") as [->|E2]; [exact H|].
  destruct (String.eqb_spec (ref_op r) "BUF") as [->|E3].
  { simpl. apply Nat.eqb_eq in H. rewrite H. reflexivity. }
  destruct (String.eqb_spec (ref_op r) "DFF_EN_RST") as [->|E4];
    [exact H|discriminate].
Qed.

(** What Elaboration returns is ready for Bit-Blasting. *)
Lemma run_ready definitions n ps its m :
  first_module definitions = Some (n, ps, its) ->
  Forall (fun k => plain k = true) (design_idents ps its) ->
  run definitions = Ok m ->
  blast_ready (snapshot m).
Proof.
  intros Hfirst Hid H.
  pose proof (form_facts.run_unique _ _ H) as Hu.
  pose proof (form_facts.run_formed (fun k => plain k = true)
                form_facts.plain_const form_facts.plain_tmp
                form_facts.plain_mux _ _ _ _ _ Hfirst Hid H) as Hf.
  pose proof (shape_facts.run_shaped _ _ H) as Hs.
  pose proof (wiring_facts.run_wired _ _ H) as Hw.
  unfold formed in Hf. rewrite List.Forall_forall in Hf.
  split; [exact (form_facts.unique_lookup _ Hu)|].
  unfold snapshot. cbn [gates signals].
  apply List.Forall_forall. intros g Hg.
  apply in_map_iff in Hg as (r & <- & Hr).
  unfold shaped in Hs. unfold wired in Hw.
  rewrite List.Forall_forall in Hs, Hw.
  destruct (Hw r Hr) as [Hi Ho].
  assert (D : forall k, present k m ->
                fit (esignals m) (deref m k)
                /\ decodable (deref m k) = true).
  { intros k Pk. unfold present in Pk. unfold deref.
    destruct (netlist.lookup k (esignals m)) as [s|] eqn:E; [|congruence].
    change (fit (esignals m) s /\ decodable s = true).
    pose proof (wiring_facts.lookup_In _ _ _ E) as Hin.
    destruct (Hf s Hin) as [W1 P1].
    split; [|exact (plain_decodable s P1)].
    split; [|exact W1].
    rewrite (network_facts.lookup_name _ _ _ E). exact E. }
  split; [exact (elaborated_blastable m r (Hs r Hr))|].
  cbn [output inputs]. rewrite List.Forall_forall in Hi. split.
  - constructor; [exact (proj1 (D _ Ho))|].
    apply List.Forall_forall. intros s Hsin.
    apply in_map_iff in Hsin as (k & <- & Hk). exact (proj1 (D k (Hi k Hk))).
  - apply List.Forall_forall. intros s Hsin.
    apply in_map_iff in Hsin as (k & <- & Hk). exact (proj2 (D k (Hi k Hk))).
Qed.

End pipeline_facts.

(** X30: when Elaboration returns for a design in which no port name and
    no identifier of the elaborated module definition contains a quote,
    Bit-Blasting returns on the elaborated module and Export returns on
    the result: the later stages raise nothing. *)
Theorem elaborated_design_goes_through definitions n ps its m :
  stage_elaboration.first_module definitions = Some (n, ps, its) ->
  Forall (fun k => plain k = true) (design_idents ps its) ->
  stage_elaboration.run definitions = Ok m ->
  exists m' lines,
    stage_bitblast.run (stage_elaboration.snapshot m) = Ok m'
    /\ stage_export.run m' = Ok lines.
Proof.
  intros Hfirst Hid H.
  pose proof (pipeline_facts.run_ready _ _ _ _ _ Hfirst Hid H) as Hr.
  destruct (total_facts.pass_total _ Hr) as (st' & E).
  assert (Hrun : exists m',
             stage_bitblast.run (stage_elaboration.snapshot m) = Ok m').
  { unfold stage_bitblast.run. rewrite E. eauto. }
  destruct Hrun as (m' & Hrun). exists m'.
  destruct (export_facts.run_exportable m') as (lines & El); [|eauto].
  pose proof (bitblast_facts.run_emits_primitive_cells _ _ Hrun) as Hc.
  eapply List.Forall_impl; [|exact Hc].
  intros g. apply export_facts.gate_lines_cell.
Qed.

Lemma elaborated_design_goes_through_accumulator :
  exists m m' lines,
    stage_elaboration.run accumulator = Ok m
    /\ stage_bitblast.run (stage_elaboration.snapshot m) = Ok m'
    /\ stage_export.run m' = Ok lines.
Proof.
  destruct (stage_elaboration.run accumulator) as [m|e] eqn:Hrun;
    [|vm_compute in Hrun; discriminate].
  destruct (elaborated_design_goes_through accumulator _ _ _ m eq_refl)
    as (m' & lines & H); [|exact Hrun|].
  - apply (bool_decide_unpack _). vm_compute. reflexivity.
  - exists m, m', lines. split; [reflexivity|exact H].
Defined.
